(* ===== verification/_CoqProject ===== *)
-Q . S2P
Prelude.v
Machine.v
Value.v
Checksum.v
Fs.v
Wal.v
Bloom.v
BlockCache.v
SsTable.v
Record.v
Layout.v
Image.v
Search.v
TableSpec.v
Effects.v
WalSpec.v
BTree.v
Instances.v
Store.v
View.v
Names.v
StoreSpec.v
StoreWrite.v
StoreOps.v
Replay.v
Load.v
Recovery.v
StoreInv.v
Writes.v
Api.v
Demo.v
StoreProps.v
FormatProps.v
ApiProps.v
Trace.v
Findings.v
