(* ===== verification/Prelude.v ===== *)
(** * FerrumDB: an embedded key-value store, verified

    FerrumDB keeps tables of key-value pairs in directories.  A table is a log
    ([wal.log]), a sorted map in memory (the memtable) and immutable sorted files
    ([sstable_<id>.sst]).  A write is appended to the log, made durable by a
    COMMIT record and an fsync, and inserted into the memtable; a memtable that
    reaches its budget is flushed to a new SSTable and the log is cleared; more
    than eight SSTables are merged into one.  A read asks the memtable and then
    the tables, newest first.  Opening a table takes its lock, reads the tables
    and replays the log up to its last COMMIT.

    This library models both crates under [src/], [ferrumdb-core] and [ferrumdb],
    function by function, and proves that a table is a map from keys to values,
    through errors, crashes and restarts.

    ** The model and the code

    - [Prelude]: bytes, their order ([Ord] of [Vec<u8>]), stable sorting, hints.
    - [Machine]: outcomes ([Ok], [Err], [Panic], [Crashed]), the state monad [M],
      the weakest precondition [wp], machine integers, big-endian encodings
      (errors.rs).  Arithmetic that a debug build checks goes through [add64] and
      [sub64]; the class [Profile] says whether the build checks or wraps, and
      every theorem holds for both.
    - [Fs]: the file system behind [std::fs] and [flock].  Each call consumes an
      element of a schedule of faults: it succeeds, fails with an I/O error after a
      part of its work, or is the point where the process dies; [Path::exists] and
      [Path::is_dir] are such calls too, and answer [false] when they fail.  A
      file has a
      content and a durable content; [crash_world] relates the files before and
      after a crash: what was written and not yet fsynced may be torn at any byte.  [resolve] walks a
      path from a directory, [.] and [..] included.
    - [Value]: values, entries, protobuf messages (store.rs, sstable.rs, proto/);
      the class [Codec] stands for prost's generated code, [CodecOk] for its law.
    - [Checksum], [Bloom], [BlockCache], [SsTable]: sstable.rs.  The [&self]
      methods that fill the block cache behind a [RefCell] return the new cache.
    - [Wal]: wal.rs.
    - [Store]: store.rs, [Store] and [Transaction]; [BTree] models what it uses of
      [BTreeMap] (iteration in key order, [range] with its panics).
    - [Api]: the [ferrumdb] crate: database.rs, table.rs, txn.rs, error.rs.
    - [Instances]: a codec, a directory order and a build profile that satisfy the
      interfaces; [Demo]: a store made by running the model.

    Definitions have the names of the functions they model, prefixed where Rust
    tells methods apart by their type ([bloom_], [cache_], [txn_], [table_],
    [tx_], [db_]).  All of them compute.

    ** What is proved

    - [SsTable] is refined to lists of entries in steps: [Record] (one record, one
      block), [Layout] (the loop of [flush] against the reference [chunks] and
      [layout]), [Image] (the bytes of a file, and reading its index and footer
      back), [Search] (binary search), [TableSpec] (every read of a table whose file
      holds an [image], under any faults: [reads]).
    - [Effects] has the rules for calls that change files ([effect P s good bad]:
      only paths in [P] change; [good] holds of a success, [bad] of a fault), and
      [WalSpec] the calls of the log.
    - [View] defines what entries mean to a reader ([values], the equivalence
      [view_eq]), [Names] the file names.
    - [StoreSpec] has the invariant [mem_inv s w tabs] of an open store, the map
      [contents] that its readers see, and the reads; [StoreWrite] flushing and
      compacting; [StoreOps] logging and the writes: each is related to the map
      [contents] under every schedule of faults.
    - [Replay], [Load], [Recovery]: what a directory recovers to ([recovers w d m])
      and that [open_with_dir] gives it, also when it fails or dies half way;
      [StoreInv] ties the open store to its files ([store_inv]), [Writes] says what
      each write leaves behind for a crash ([crash_safe]).
    - [StoreProps] (C1 to C19), [FormatProps] (C20 to C33 but C24) and [ApiProps] (C34 to
      C40) state the properties, each with a witness on concrete data.
    - [Trace] (C24): any sequence of puts, deletes, reads, scans, transactions,
      flushes, compactions, restarts and crashes between operations gives the
      replies of a map.  [grows] of [Writes] bounds what an operation adds to the
      counters, so that the room of a sequence is the sum of its operations'.
    - [Findings]: runs in which the code loses data, or cannot open a table.

    ** Bounds

    The theorems on writes assume that the counters and formats have room:
    fewer than 2^31 keys in a table, records below 2^30 bytes, the log below 2^63
    bytes, ids and sequence numbers below 2^64 ([small_entry], [room],
    [log_room]).  Loops that are not structural take fuel: [parse_loop],
    [decode_records] and [find_loop] get one more than the bytes they read, as each
    round consumes at least one ([parse_loop_ends], [decode_records_at],
    [find_loop_at]); [bsearch_loop] gets the length it halves
    ([bsearch_loop_spec]).

    ** What is assumed or left out

    A [write_all] is one call that may stop at any byte.  Directory entries are
    durable as soon as they are made: the code never syncs a directory, and POSIX
    does not promise it, so the crash theorems hold of file systems that do
    ([unsynced_entry_loses_data] of [Findings] runs one that does not).  A failed
    [create_dir_all] makes no directory.  An allocation within the address space
    is granted; [Vec::with_capacity] panics beyond it.  Not modelled: the
    generated protobuf encoders (a parameter), messages printed to the terminal,
    build scripts, tests and examples.  [list_tables] and [table] of [Api] have no
    property of their own.  The crash theorems on single writes assume that the
    write stays below the memtable budget: a flush that is cut leaves a table that
    cannot be opened, which [flush_crash_safe] and [Findings] state. *)

From Stdlib Require Export ZArith Lia.
From Stdlib Require Import Strings.Byte.
From stdpp Require Export base gmap strings list sorting fin_maps numbers option pretty.

#[global] Open Scope Z_scope.

(** ** Bytes

    A Rust [u8] is the type [byte] of the standard library, whose 256
    constructors make every value of the type a legal byte. *)

Abbreviation byte := Corelib.Init.Byte.byte.
Abbreviation bytes := (list byte).

Definition byte_to_Z (b : byte) : Z := Z.of_N (Byte.to_N b).

Definition byte_of_Z (z : Z) : byte :=
  match Byte.of_N (Z.to_N (z mod 256)) with
  | Some b => b
  | None => Byte.x00
  end.

#[global] Instance byte_eq_dec : EqDecision byte := Byte.byte_eq_dec.

#[global] Program Instance byte_countable : Countable byte :=
  inj_countable' Byte.to_N (λ n, match Byte.of_N n with Some b => b | None => Byte.x00 end) _.
Next Obligation. intros b. by destruct b. Qed.

(** ** Lexicographic order on byte strings: the [Ord] instance of [Vec<u8>]. *)

Fixpoint bytes_cmp (a b : bytes) : comparison :=
  match a, b with
  | [], [] => Eq
  | [], _ :: _ => Lt
  | _ :: _, [] => Gt
  | x :: a', y :: b' =>
      match byte_to_Z x ?= byte_to_Z y with
      | Eq => bytes_cmp a' b'
      | c => c
      end
  end.

Definition bytes_lt (a b : bytes) : Prop := bytes_cmp a b = Lt.
Definition bytes_le (a b : bytes) : Prop := bytes_cmp a b ≠ Gt.
Definition bytes_ltb (a b : bytes) : bool :=
  match bytes_cmp a b with Lt => true | _ => false end.
Definition bytes_leb (a b : bytes) : bool :=
  match bytes_cmp a b with Gt => false | _ => true end.

#[global] Instance bytes_lt_dec : RelDecision bytes_lt :=
  λ a b, decide (bytes_cmp a b = Lt).
#[global] Instance bytes_le_dec : RelDecision bytes_le :=
  λ a b, decide (bytes_cmp a b ≠ Gt).

(** ** Automation *)

Create HintDb ferrum.
Create HintDb bytes_order.
Create Rewrite HintDb ferrum.

(** Splits conjunctions and existentials of the context. *)
Ltac destr_all :=
  repeat match goal with
  | H : _ ∧ _ |- _ => destruct H
  | H : ∃ _, _ |- _ => destruct H
  end.

(** One case split on the first [match] of the goal. *)
Ltac case_goal :=
  match goal with |- context [match ?x with _ => _ end] => destruct x eqn:? end.

(** ** Lemmas on bytes *)

Lemma byte_to_Z_range b : 0 <= byte_to_Z b < 256.
Proof.
  unfold byte_to_Z. pose proof (Byte.to_N_bounded b). lia.
Qed.

Lemma byte_of_to_Z b : byte_of_Z (byte_to_Z b) = b.
Proof.
  unfold byte_of_Z. rewrite Z.mod_small by apply byte_to_Z_range.
  unfold byte_to_Z. by rewrite N2Z.id, Byte.of_to_N.
Qed.

Lemma byte_to_of_Z z : byte_to_Z (byte_of_Z z) = z mod 256.
Proof.
  unfold byte_of_Z. pose proof (Z.mod_pos_bound z 256 ltac:(lia)).
  destruct (Byte.of_N (Z.to_N (z mod 256))) eqn:E.
  - unfold byte_to_Z. apply Byte.to_of_N in E. rewrite E. lia.
  - apply Byte.of_N_None_iff in E. lia.
Qed.

#[global] Instance byte_to_Z_inj : Inj (=) (=) byte_to_Z.
Proof. intros a b E. by rewrite <-(byte_of_to_Z a), <-(byte_of_to_Z b), E. Qed.

(** ** The lexicographic order is a strict total order *)

Lemma bytes_cmp_refl a : bytes_cmp a a = Eq.
Proof. induction a; simpl; [done|]. by rewrite Z.compare_refl. Qed.

Lemma bytes_cmp_eq a b : bytes_cmp a b = Eq ↔ a = b.
Proof.
  split; [|intros ->; apply bytes_cmp_refl].
  revert b; induction a as [|x a IH]; intros [|y b]; simpl; try done.
  destruct (byte_to_Z x ?= byte_to_Z y) eqn:E; try done.
  apply Z.compare_eq in E. apply byte_to_Z_inj in E as ->. intros H. by rewrite (IH b).
Qed.

Lemma bytes_cmp_antisym a b : bytes_cmp b a = CompOpp (bytes_cmp a b).
Proof.
  revert b; induction a as [|x a IH]; intros [|y b]; simpl; try done.
  rewrite (Z.compare_antisym (byte_to_Z x) (byte_to_Z y)).
  destruct (byte_to_Z x ?= byte_to_Z y); simpl; auto.
Qed.

Lemma bytes_lt_trans a b c : bytes_lt a b → bytes_lt b c → bytes_lt a c.
Proof.
  unfold bytes_lt. revert b c; induction a as [|x a IH]; intros [|y b] [|z c]; simpl; try done.
  destruct (Z.compare_spec (byte_to_Z x) (byte_to_Z y)) as [E1|E1|E1];
    destruct (Z.compare_spec (byte_to_Z y) (byte_to_Z z)) as [E2|E2|E2];
    destruct (Z.compare_spec (byte_to_Z x) (byte_to_Z z)) as [E3|E3|E3];
    try done; try lia; eauto.
Qed.

Lemma bytes_lt_irrefl a : ¬ bytes_lt a a.
Proof. unfold bytes_lt. by rewrite bytes_cmp_refl. Qed.

#[global] Instance bytes_lt_strict : StrictOrder bytes_lt.
Proof.
  split; [intros a; apply bytes_lt_irrefl|intros a b c; apply bytes_lt_trans].
Qed.

Lemma bytes_le_lt_eq a b : bytes_le a b ↔ bytes_lt a b ∨ a = b.
Proof.
  unfold bytes_le, bytes_lt. rewrite <-bytes_cmp_eq.
  destruct (bytes_cmp a b); naive_solver.
Qed.

Lemma bytes_not_lt a b : ¬ bytes_lt a b ↔ bytes_le b a.
Proof.
  unfold bytes_le, bytes_lt. rewrite (bytes_cmp_antisym a b).
  destruct (bytes_cmp a b); naive_solver.
Qed.

Lemma bytes_not_le a b : ¬ bytes_le a b ↔ bytes_lt b a.
Proof.
  unfold bytes_le, bytes_lt. rewrite (bytes_cmp_antisym a b).
  destruct (bytes_cmp a b); naive_solver.
Qed.

Lemma bytes_le_refl a : bytes_le a a.
Proof. apply bytes_le_lt_eq. auto. Qed.

Lemma bytes_le_lt_trans a b c : bytes_le a b → bytes_lt b c → bytes_lt a c.
Proof. rewrite bytes_le_lt_eq. intros [?| ->]; eauto using bytes_lt_trans. Qed.

Lemma bytes_lt_le_trans a b c : bytes_lt a b → bytes_le b c → bytes_lt a c.
Proof. rewrite bytes_le_lt_eq. intros ? [?| <-]; eauto using bytes_lt_trans. Qed.

Lemma bytes_lt_le a b : bytes_lt a b → bytes_le a b.
Proof. rewrite bytes_le_lt_eq. auto. Qed.

#[global] Instance bytes_le_trans : Transitive bytes_le.
Proof.
  intros a b c. rewrite !bytes_le_lt_eq.
  intros [?| ->] [?| ->]; eauto using bytes_lt_trans.
Qed.

#[global] Instance bytes_le_total : Total bytes_le.
Proof.
  intros a b. destruct (decide (bytes_le a b)) as [|H]; [by left|right].
  apply bytes_lt_le. by apply bytes_not_le.
Qed.

#[global] Instance bytes_le_antisymm : AntiSymm (=) bytes_le.
Proof.
  intros a b. rewrite !bytes_le_lt_eq. intros [H1| ->] [H2| E]; try done.
  by destruct (bytes_lt_irrefl a); eapply bytes_lt_trans.
Qed.

Lemma bytes_ltb_spec a b : bytes_ltb a b = true ↔ bytes_lt a b.
Proof. unfold bytes_ltb, bytes_lt. destruct (bytes_cmp a b); naive_solver. Qed.

Lemma bytes_leb_spec a b : bytes_leb a b = true ↔ bytes_le a b.
Proof. unfold bytes_leb, bytes_le. destruct (bytes_cmp a b); naive_solver. Qed.

Lemma bytes_ltb_false a b : bytes_ltb a b = false ↔ bytes_le b a.
Proof. rewrite <-bytes_not_lt, <-bytes_ltb_spec. destruct (bytes_ltb a b); naive_solver. Qed.

Lemma bytes_leb_false a b : bytes_leb a b = false ↔ bytes_lt b a.
Proof. rewrite <-bytes_not_le, <-bytes_leb_spec. destruct (bytes_leb a b); naive_solver. Qed.

(** ** Lists *)

Lemma elem_of_concat {A} (x : A) ls : x ∈ concat ls ↔ ∃ l, l ∈ ls ∧ x ∈ l.
Proof.
  rewrite list_elem_of_In, in_concat. by setoid_rewrite <-list_elem_of_In.
Qed.

(** The stable sort of the standard library, [sort] and [sort_by_key]. *)

Section stable_sort.
Context {A : Type} (R : relation A) `{!RelDecision R}.

Fixpoint sort_insert (x : A) (l : list A) : list A :=
  match l with
  | [] => [x]
  | y :: l' => if decide (R x y) then x :: l else y :: sort_insert x l'
  end.

Definition stable_sort (l : list A) : list A := foldr sort_insert [] l.

Lemma sort_insert_perm x l : sort_insert x l ≡ₚ x :: l.
Proof.
  induction l as [|y l IH]; simpl; [done|]. destruct (decide _); [done|].
  rewrite IH. apply Permutation_swap.
Qed.

Lemma stable_sort_perm l : stable_sort l ≡ₚ l.
Proof. induction l as [|x l IH]; simpl; [done|]. by rewrite sort_insert_perm, IH. Qed.

Lemma stable_sort_sorted `{!Transitive R, !Total R} l : StronglySorted R (stable_sort l).
Proof.
  induction l as [|x l IH]; simpl; [constructor|]. generalize (stable_sort l) IH; clear IH l.
  induction 1 as [|y l Hs IH Hy]; simpl; [repeat constructor|].
  destruct (decide (R x y)) as [Hxy|Hxy].
  - constructor; [by constructor|]. constructor; [done|]. eapply list.Forall_impl; [exact Hy|]. intros z Hz. by transitivity y.
  - constructor; [done|]. rewrite sort_insert_perm. constructor; [|done]. by destruct (total R x y).
Qed.
End stable_sort.

#[export] Hint Resolve bytes_lt_trans bytes_le_lt_trans bytes_lt_le_trans bytes_lt_le : bytes_order.
#[export] Hint Resolve bytes_le_refl byte_to_Z_range : ferrum.
#[export] Hint Rewrite byte_of_to_Z byte_to_of_Z bytes_cmp_refl : ferrum.
