(* ===== verification/Machine.v ===== *)
(** * The machine the program runs on

    Results and control flow ([outcome], the state monad [M] and its weakest
    precondition [wp]), machine integers and big-endian encoding. *)

From S2P Require Import Prelude.

(** ** Errors and outcomes

    [AppError] is the error enum of [ferrumdb-core/src/errors.rs].  An
    [outcome] is how a call ends: a Rust [Ok] or [Err], a panic (a failed
    bounds check, an arithmetic overflow where it is checked), or [Crashed],
    the process or the machine dying in the middle of an I/O call. *)

Inductive AppError :=
  | IoError (msg : string)
  | DecodeError (msg : string)
  | KeyNotFound (msg : string)
  | InternalError (msg : string).

Inductive outcome (A : Type) :=
  | Ok (a : A)
  | Err (e : AppError)
  | Panic
  | Crashed.
Arguments Ok {A} a.
Arguments Err {A} e.
Arguments Panic {A}.
Arguments Crashed {A}.

#[global] Instance outcome_ret : MRet outcome := λ A a, Ok a.
#[global] Instance outcome_bind : MBind outcome := λ A B k m,
  match m with
  | Ok a => k a
  | Err e => Err e
  | Panic => Panic
  | Crashed => Crashed
  end.

(** ** Stateful code: a state monad whose calls end in an outcome

    The state survives an [Err]: a method that returns early with [?] leaves
    the fields of [self] as they were at that point. *)

Definition M (S A : Type) : Type := S → outcome A * S.

#[global] Instance M_ret S : MRet (M S) := λ A a s, (Ok a, s).
#[global] Instance M_bind S : MBind (M S) := λ A B k m s,
  match m s with
  | (Ok a, s') => k a s'
  | (Err e, s') => (Err e, s')
  | (Panic, s') => (Panic, s')
  | (Crashed, s') => (Crashed, s')
  end.

Definition lift {S A} (o : outcome A) : M S A := λ s, (o, s).
Definition get_state {S} : M S S := λ s, (Ok s, s).
Definition gets {S A} (f : S → A) : M S A := λ s, (Ok (f s), s).
Definition modify {S} (f : S → S) : M S unit := λ s, (Ok tt, f s).

(** A call on one field of the state. *)
Definition zoom {S T A} (get : S → T) (set : T → S → S) (m : M T A) : M S A :=
  λ s, let '(r, t) := m (get s) in (r, set t s).

(** [let _ = e] and [e.ok()]: an [Err] is dropped, a panic is not. *)
Definition attempt {S A} (m : M S A) : M S (option A) := λ s,
  match m s with
  | (Ok a, s') => (Ok (Some a), s')
  | (Err _, s') => (Ok None, s')
  | (Panic, s') => (Panic, s')
  | (Crashed, s') => (Crashed, s')
  end.

(** A [for] loop over a list. *)
Fixpoint for_each {S A} (l : list A) (body : A → M S unit) : M S unit :=
  match l with
  | [] => mret tt
  | x :: l' => _ ← body x; for_each l' body
  end.

(** ** Weakest preconditions *)

Definition wp {S A} (m : M S A) (s : S) (Q : outcome A → S → Prop) : Prop :=
  Q (m s).1 (m s).2.

(** Lets a postcondition speak of the rest of a sequence. *)
Definition wp_seq {S A B} (k : A → M S B) (Q : outcome B → S → Prop) : outcome A → S → Prop :=
  λ r s, match r with
         | Ok a => wp (k a) s Q
         | Err e => Q (Err e) s
         | Panic => Q Panic s
         | Crashed => Q Crashed s
         end.

(** ** Integers of fixed width

    Payload integers that must survive a round trip carry their range:
    [u64], [i32] and the bit pattern of an [f64]. *)

Definition in_range (lo hi z : Z) : bool := (lo <=? z) && (z <? hi).

Record ranged (lo hi : Z) := Ranged { rval : Z; rok : Is_true (in_range lo hi rval) }.
Arguments Ranged {lo hi} rval rok.
Arguments rval {lo hi} _.
Arguments rok {lo hi} _.

Definition u64 := ranged 0 (2 ^ 64).
Definition i32 := ranged (- 2 ^ 31) (2 ^ 31).
(** An [f64] is its IEEE bit pattern. *)
Definition f64 := ranged 0 (2 ^ 64).

Definition range_proof (lo hi z : Z) (H : in_range lo hi z = true) : Is_true (in_range lo hi z) :=
  match eq_sym H in _ = b return Is_true b with eq_refl => I end.

Definition to_range (lo hi z : Z) (default : ranged lo hi) : ranged lo hi :=
  match Bool.bool_dec (in_range lo hi z) true with
  | left H => Ranged z (range_proof lo hi z H)
  | right _ => default
  end.

Definition u64_zero : u64 := @Ranged 0 (2 ^ 64) 0 I.
(** The value modulo 2^64: an [as u64] cast, or wrapping arithmetic. *)
Definition to_u64 (z : Z) : u64 := to_range 0 (2 ^ 64) (z mod 2 ^ 64) u64_zero.
Definition to_i32 (z : Z) : i32 := to_range (- 2 ^ 31) (2 ^ 31) ((z + 2 ^ 31) mod 2 ^ 32 - 2 ^ 31)
    (@Ranged (- 2 ^ 31) (2 ^ 31) 0 I).

#[global] Instance ranged_eq_dec lo hi : EqDecision (ranged lo hi).
Proof.
  refine (λ a b, cast_if (decide (rval a = rval b))).
  - destruct a, b; simpl in *; subst. f_equal. apply proof_irrel.
  - congruence.
Defined.

(** [usize] is 64 bits wide. *)
Definition usize_max : Z := 2 ^ 64.
(** No Rust allocation is larger than [isize::MAX] bytes. *)
Definition isize_max : Z := 2 ^ 63 - 1.

(** Cargo's [overflow-checks]: on in the dev profile, off in release. *)
Class Profile := overflow_checks : bool.

Section arith.
Context `{Profile}.

(** [a + b] on a 64-bit unsigned type. *)
Definition add64 (a b : Z) : outcome Z :=
  if a + b <? 2 ^ 64 then Ok (a + b)
  else if overflow_checks then Panic else Ok ((a + b) mod 2 ^ 64).

(** [a - b] on a 64-bit unsigned type. *)
Definition sub64 (a b : Z) : outcome Z :=
  if b <=? a then Ok (a - b)
  else if overflow_checks then Panic else Ok ((a - b) mod 2 ^ 64).

Definition u64_succ (a : u64) : outcome u64 := z ← add64 (rval a) 1; mret (to_u64 z).
End arith.

Definition u64_max (a b : u64) : u64 := if rval a <? rval b then b else a.

(** ** Big-endian encoding: [to_be_bytes] and [from_be_bytes] *)

Fixpoint be_encode (n : nat) (z : Z) : bytes :=
  match n with
  | O => []
  | S n' => byte_of_Z (z / 256 ^ Z.of_nat n') :: be_encode n' z
  end.

Definition be_decode (l : bytes) : Z :=
  fold_left (λ acc b, acc * 256 + byte_to_Z b) l 0.

Definition be32 (z : Z) : bytes := be_encode 4 z.
Definition be64 (z : Z) : bytes := be_encode 8 z.

(** ** Lemmas: the monad *)

Lemma wp_ret {S A} (a : A) (s : S) Q : wp (mret a) s Q ↔ Q (Ok a) s.
Proof. done. Qed.

Lemma wp_bind {S A B} (m : M S A) (k : A → M S B) s Q :
  wp (m ≫= k) s Q ↔ wp m s (wp_seq k Q).
Proof. unfold wp, wp_seq, mbind, M_bind. destruct (m s) as [[] ?]; done. Qed.

Lemma wp_mono {S A} (m : M S A) s (Q Q' : outcome A → S → Prop) :
  wp m s Q → (∀ r s', Q r s' → Q' r s') → wp m s Q'.
Proof. unfold wp. auto. Qed.

Lemma wp_lift {S A} (o : outcome A) (s : S) Q : wp (lift o) s Q ↔ Q o s.
Proof. done. Qed.

Lemma wp_attempt {S A} (m : M S A) s Q :
  wp m s (λ r s', match r with
                  | Ok a => Q (Ok (Some a)) s'
                  | Err _ => Q (Ok None) s'
                  | Panic => Q Panic s'
                  | Crashed => Q Crashed s'
                  end) → wp (attempt m) s Q.
Proof. unfold wp, attempt. by destruct (m s) as [[] ?]. Qed.

Lemma wp_modify {S} (f : S → S) s Q : wp (modify f) s Q ↔ Q (Ok tt) (f s).
Proof. done. Qed.

Lemma wp_gets {S A} (f : S → A) s Q : wp (gets f) s Q ↔ Q (Ok (f s)) s.
Proof. done. Qed.

Lemma wp_zoom {S T A} get set (m : M T A) (s : S) Q :
  wp (zoom get set m) s Q ↔ wp m (get s) (λ r t, Q r (set t s)).
Proof. unfold wp, zoom. by destruct (m (get s)). Qed.

Lemma bind_ok {S A B} (m : M S A) (k : A → M S B) s a s' :
  m s = (Ok a, s') → (m ≫= k) s = k a s'.
Proof. intros E. unfold mbind, M_bind. by rewrite E. Qed.

(** ** Lemmas: integers *)

Lemma ranged_eq {lo hi} (a b : ranged lo hi) : rval a = rval b → a = b.
Proof. destruct a, b; simpl; intros <-. f_equal. apply proof_irrel. Qed.

Lemma ranged_range {lo hi} (a : ranged lo hi) : lo <= rval a < hi.
Proof.
  destruct a as [z H]; simpl. apply Is_true_true in H. unfold in_range in H.
  apply andb_true_iff in H as [H1 H2]. lia.
Qed.

Lemma to_range_val lo hi z d : lo <= z < hi → rval (to_range lo hi z d) = z.
Proof.
  intros Hz. unfold to_range. destruct (Bool.bool_dec _ true) as [|n]; [done|].
  destruct n. unfold in_range. lia.
Qed.

Lemma to_u64_val z : rval (to_u64 z) = z mod 2 ^ 64.
Proof. apply to_range_val. apply Z.mod_pos_bound. lia. Qed.

Lemma to_u64_small z : 0 <= z < 2 ^ 64 → rval (to_u64 z) = z.
Proof. intros. rewrite to_u64_val. by apply Z.mod_small. Qed.

Lemma to_u64_rval (a : u64) : to_u64 (rval a) = a.
Proof. apply ranged_eq, to_u64_small, ranged_range. Qed.

Lemma to_i32_small z : - 2 ^ 31 <= z < 2 ^ 31 → rval (to_i32 z) = z.
Proof.
  intros. unfold to_i32. rewrite to_range_val.
  - rewrite Z.mod_small; lia.
  - rewrite Z.mod_small; lia.
Qed.

Lemma to_i32_rval (a : i32) : to_i32 (rval a) = a.
Proof. apply ranged_eq, to_i32_small, ranged_range. Qed.

Lemma u64_succ_small `{Profile} (a : u64) :
  rval a + 1 < 2 ^ 64 → ∃ b, u64_succ a = Ok b ∧ rval b = rval a + 1.
Proof.
  intros Ha. pose proof (ranged_range a). exists (to_u64 (rval a + 1)).
  unfold u64_succ, add64. simpl.
  rewrite (proj2 (Z.ltb_lt _ _)) by lia. split; [done|]. apply to_u64_small. lia.
Qed.

Lemma u64_max_val a b : rval (u64_max a b) = Z.max (rval a) (rval b).
Proof. unfold u64_max. destruct (Z.ltb_spec (rval a) (rval b)); lia. Qed.

(** ** Lemmas: big-endian round trips *)

Lemma length_be_encode n z : length (be_encode n z) = n.
Proof. induction n as [|n IH]; [done|]. cbn [be_encode length]. by rewrite IH. Qed.

Lemma length_be32 z : length (be32 z) = 4%nat.
Proof. apply length_be_encode. Qed.

Lemma length_be64 z : length (be64 z) = 8%nat.
Proof. apply length_be_encode. Qed.

Lemma be_decode_acc l acc :
  fold_left (λ acc b, acc * 256 + byte_to_Z b) l acc =
  acc * 256 ^ Z.of_nat (length l) + be_decode l.
Proof.
  unfold be_decode. revert acc. induction l as [|b l IH]; intros acc; cbn [fold_left length].
  - rewrite Z.pow_0_r. lia.
  - rewrite IH, (IH (0 * 256 + _)), Nat2Z.inj_succ, Z.pow_succ_r by lia. lia.
Qed.

Lemma be_decode_app l1 l2 :
  be_decode (l1 ++ l2) = be_decode l1 * 256 ^ Z.of_nat (length l2) + be_decode l2.
Proof. unfold be_decode at 1. by rewrite fold_left_app, be_decode_acc. Qed.

Lemma be_decode_encode n z : be_decode (be_encode n z) = z mod 256 ^ Z.of_nat n.
Proof.
  induction n as [|n IH].
  - simpl. by rewrite Z.mod_1_r.
  - cbn [be_encode]. change (?b :: ?l) with ([b] ++ l).
    rewrite be_decode_app, IH, length_be_encode.
    unfold be_decode; cbn [fold_left]. rewrite byte_to_of_Z, Z.add_0_l.
    rewrite Nat2Z.inj_succ, Z.pow_succ_r, (Z.mul_comm 256) by lia.
    rewrite Z.rem_mul_r by lia. lia.
Qed.

Lemma be_decode_range l : 0 <= be_decode l < 256 ^ Z.of_nat (length l).
Proof.
  induction l as [|b l IH] using rev_ind; [done|].
  rewrite be_decode_app, length_app; simpl length.
  rewrite Nat2Z.inj_add, Z.pow_add_r by lia. change (256 ^ Z.of_nat 1) with 256.
  unfold be_decode at 2 4; simpl fold_left. pose proof (byte_to_Z_range b). lia.
Qed.

Lemma be_decode_be32 z : 0 <= z < 2 ^ 32 → be_decode (be32 z) = z.
Proof. intros. unfold be32. rewrite be_decode_encode. apply Z.mod_small. simpl; lia. Qed.

Lemma be_decode_be64 z : 0 <= z < 2 ^ 64 → be_decode (be64 z) = z.
Proof. intros. unfold be64. rewrite be_decode_encode. apply Z.mod_small. simpl; lia. Qed.

#[global] Arguments be_encode : simpl never.
#[global] Arguments be32 : simpl never.
#[global] Arguments be64 : simpl never.

#[export] Hint Rewrite length_be_encode length_be32 length_be64 @to_u64_rval to_i32_rval : ferrum.
#[export] Hint Resolve ranged_range ranged_eq : ferrum.
