(* ===== verification/Value.v ===== *)
(** * Values, entries and protobuf messages

    [Value] (store.rs), [Entry] (sstable.rs), the messages of the two [.proto]
    files, and the interface [Codec] of the generated protobuf code. *)

From S2P Require Import Prelude Machine.

(** ** Rust strings

    A Rust [String] is a byte vector that is valid UTF-8, an invariant of the
    type: [rstring] carries it. *)

Definition in_bytes (lo hi : Z) (b : byte) : bool := (lo <=? byte_to_Z b) && (byte_to_Z b <=? hi).

Definition is_cont (b : byte) : bool := in_bytes 0x80 0xBF b.

Fixpoint utf8_valid (l : bytes) : bool :=
  match l with
  | [] => true
  | b :: l1 =>
      if in_bytes 0 0x7F b then utf8_valid l1 else
      match l1 with
      | [] => false
      | c1 :: l2 =>
          if in_bytes 0xC2 0xDF b then is_cont c1 && utf8_valid l2 else
          match l2 with
          | [] => false
          | c2 :: l3 =>
              let ok3 :=
                if in_bytes 0xE0 0xE0 b then in_bytes 0xA0 0xBF c1
                else if in_bytes 0xED 0xED b then in_bytes 0x80 0x9F c1
                else is_cont c1 in
              if in_bytes 0xE0 0xEF b then ok3 && is_cont c2 && utf8_valid l3 else
              match l3 with
              | [] => false
              | c3 :: l4 =>
                  let ok4 :=
                    if in_bytes 0xF0 0xF0 b then in_bytes 0x90 0xBF c1
                    else if in_bytes 0xF4 0xF4 b then in_bytes 0x80 0x8F c1
                    else is_cont c1 in
                  in_bytes 0xF0 0xF4 b && ok4 && is_cont c2 && is_cont c3 && utf8_valid l4
              end
          end
      end
  end.

Record rstring := RString { rs_bytes : bytes; rs_ok : Is_true (utf8_valid rs_bytes) }.

#[global] Instance rstring_eq_dec : EqDecision rstring.
Proof.
  refine (λ a b, cast_if (decide (rs_bytes a = rs_bytes b))).
  - destruct a, b; simpl in *; subst. f_equal. apply proof_irrel.
  - congruence.
Defined.

(** ** Typed values and table entries *)

Inductive Value :=
  | Integer (n : i32)
  | Float (n : f64)
  | Text (s : rstring)
  | Boolean (b : bool)
  | Bytes (b : bytes).

#[global] Instance Value_eq_dec : EqDecision Value.
Proof. solve_decision. Defined.

(** What a key resolves to: a present value, or a deletion marker. *)
Inductive Entry :=
  | EValue (v : Value)
  | Tombstone.

#[global] Instance Entry_eq_dec : EqDecision Entry.
Proof. solve_decision. Defined.

(** ** Messages

    [ValueMessage] of store.proto and [WalEntry] of wal.proto.  The [operation]
    field of a [WalEntry] is what its accessor [operation()] returns. *)

Inductive Kind :=
  | KInteger (n : i32)
  | KFloat (n : f64)
  | KText (s : rstring)
  | KBoolean (b : bool)
  | KData (b : bytes).

#[global] Instance Kind_eq_dec : EqDecision Kind.
Proof. solve_decision. Defined.

Record ValueMessage := { kind : option Kind }.

Inductive Operation := Put | Delete | Commit.

#[global] Instance Operation_eq_dec : EqDecision Operation.
Proof. solve_decision. Defined.

Record WalEntry := {
  operation : Operation;
  we_key : bytes;
  we_value : option ValueMessage;
  we_sequence : u64;
  timestamp : u64;
}.

(** ** The generated encoder and decoder

    [encode_to_vec] and [decode] of the messages are generated from the [.proto]
    files: the model takes them as a parameter.  A decoder returns the message
    or the text of its [DecodeError].  What the program relies on is that
    decoding inverts encoding. *)

Class Codec := {
  encode_value_message : ValueMessage → bytes;
  decode_value_message : bytes → ValueMessage + string;
  encode_wal_entry : WalEntry → bytes;
  decode_wal_entry : bytes → WalEntry + string;
}.

Class CodecOk `(Codec) : Prop := {
  decode_encode_value_message m : decode_value_message (encode_value_message m) = inl m;
  decode_encode_wal_entry e : decode_wal_entry (encode_wal_entry e) = inl e;
}.

(** ** Between values and messages: [Value::to_proto] and [Value::from_proto] *)

Definition to_proto (v : Value) : ValueMessage :=
  let k := match v with
           | Integer n => KInteger n
           | Float n => KFloat n
           | Text s => KText s
           | Boolean b => KBoolean b
           | Bytes b => KData b
           end in
  {| kind := Some k |}.

Definition from_proto (msg : ValueMessage) : outcome Value :=
  match kind msg with
  | Some (KInteger n) => Ok (Integer n)
  | Some (KFloat n) => Ok (Float n)
  | Some (KText s) => Ok (Text s)
  | Some (KBoolean b) => Ok (Boolean b)
  | Some (KData b) => Ok (Bytes b)
  | None => Err (DecodeError "value message has no kind set")
  end.

Lemma from_to_proto v : from_proto (to_proto v) = Ok v.
Proof. by destruct v. Qed.

Lemma from_proto_inv m v : from_proto m = Ok v → m = to_proto v.
Proof. destruct m as [[[]|]]; by intros [= <-]. Qed.

(** The value carried by an entry, if it is not a deletion marker. *)
Definition entry_value (e : Entry) : option Value :=
  match e with EValue v => Some v | Tombstone => None end.

#[export] Hint Rewrite from_to_proto : ferrum.
