(* ===== verification/Checksum.v ===== *)
(** * Checksums and hashes of sstable.rs: CRC-32 and FNV-1a *)

From S2P Require Import Prelude Machine.

(** One round of the inner loop of [crc32]. *)
Definition crc_round (crc : Z) : Z :=
  let lsb := Z.land crc 1 in
  let crc := Z.shiftr crc 1 in
  if lsb =? 1 then Z.lxor crc 0xEDB88320 else crc.

Definition crc_byte (crc : Z) (b : byte) : Z :=
  Nat.iter 8 crc_round (Z.lxor crc (byte_to_Z b)).

Definition crc32 (data : bytes) : Z :=
  Z.lxor (fold_left crc_byte data 0xFFFFFFFF) 0xFFFFFFFF.

(** FNV-1a, with the multiplication wrapping at 64 bits. *)
Definition hash64 (data : bytes) : Z :=
  fold_left (λ h b, (Z.lxor h (byte_to_Z b) * 0x00000100000001b3) mod 2 ^ 64) data
    0xcbf29ce484222325.

(** The standard check value of CRC-32 (IEEE 802.3). *)
Example crc32_check_value :
  crc32 (byte_of_Z <$> [49; 50; 51; 52; 53; 54; 55; 56; 57]) = 0xCBF43926.
Proof. vm_compute. reflexivity. Qed.

(** FNV-1a of the empty string and of "a". *)
Example hash64_check_values :
  hash64 [] = 0xcbf29ce484222325 ∧ hash64 [byte_of_Z 97] = 0xaf63dc4c8601ec8c.
Proof. vm_compute. split; reflexivity. Qed.

(** ** Ranges *)

Lemma fold_left_inv {A B} (P : B → Prop) (f : B → A → B) l b :
  P b → (∀ b a, P b → P (f b a)) → P (fold_left f l b).
Proof. intros Hb Hf. revert b Hb. induction l; simpl; auto. Qed.

Lemma lxor_range a b n : 0 <= n → 0 <= a < 2 ^ n → 0 <= b < 2 ^ n → 0 <= Z.lxor a b < 2 ^ n.
Proof.
  intros Hn Ha Hb. assert (0 <= Z.lxor a b) by (apply Z.lxor_nonneg; lia). split; [done|].
  destruct (decide (Z.lxor a b = 0)) as [->|]; [lia|].
  destruct (decide (a = 0)) as [->|]; [rewrite Z.lxor_0_l; lia|].
  destruct (decide (b = 0)) as [->|]; [rewrite Z.lxor_0_r; lia|].
  apply Z.log2_lt_pow2; [lia|]. eapply Z.le_lt_trans; [apply Z.log2_lxor; lia|].
  apply Z.max_lub_lt; apply Z.log2_lt_pow2; lia.
Qed.

Lemma crc_round_range c : 0 <= c < 2 ^ 32 → 0 <= crc_round c < 2 ^ 32.
Proof.
  intros Hc. unfold crc_round. rewrite Z.shiftr_div_pow2 by lia.
  assert (0 <= c / 2 ^ 1 < 2 ^ 32) by (split; [apply Z.div_pos|apply Z.div_lt_upper_bound]; lia).
  destruct (_ =? _); [|done]. apply lxor_range; lia.
Qed.

Lemma crc_rounds_range n c : 0 <= c < 2 ^ 32 → 0 <= Nat.iter n crc_round c < 2 ^ 32.
Proof. intros Hc. induction n; simpl; [done|]. by apply crc_round_range. Qed.

Lemma crc_byte_range c b : 0 <= c < 2 ^ 32 → 0 <= crc_byte c b < 2 ^ 32.
Proof.
  intros Hc. apply crc_rounds_range. apply lxor_range; [lia..|].
  pose proof (byte_to_Z_range b). lia.
Qed.

Lemma crc_fold_range data c :
  0 <= c < 2 ^ 32 → 0 <= fold_left crc_byte data c < 2 ^ 32.
Proof.
  intros Hc. apply (fold_left_inv (λ c, 0 <= c < 2 ^ 32)); [done|].
  intros; by apply crc_byte_range.
Qed.

(** The checksum fits the 4 bytes it is stored in. *)
Lemma crc32_range data : 0 <= crc32 data < 2 ^ 32.
Proof. apply lxor_range; [lia| |lia]. apply crc_fold_range. lia. Qed.

Lemma hash64_range data : 0 <= hash64 data < 2 ^ 64.
Proof.
  apply (fold_left_inv (λ h, 0 <= h < 2 ^ 64)); [lia|].
  intros. apply Z.mod_pos_bound. lia.
Qed.

(** ** One round is injective on 32-bit states

    The polynomial has its top bit set, so the bit shifted out can be read off
    the result: no two states collide. *)

Lemma crc_round_inj a b :
  0 <= a < 2 ^ 32 → 0 <= b < 2 ^ 32 → crc_round a = crc_round b → a = b.
Proof.
  intros Ha Hb. unfold crc_round.
  assert (L : ∀ x, Z.land x 1 = x mod 2) by (intros x; apply (Z.land_ones x 1); lia).
  rewrite !L.
  rewrite !Z.shiftr_div_pow2 by lia. change (2 ^ 1) with 2.
  assert (Htop : ∀ x, 0 <= x < 2 ^ 31 → Z.testbit x 31 = false).
  { intros x Hx. rewrite Z.testbit_false, Z.div_small by lia. done. }
  pose proof (Z.div_mod a 2 ltac:(lia)). pose proof (Z.div_mod b 2 ltac:(lia)).
  pose proof (Z.mod_pos_bound a 2 ltac:(lia)). pose proof (Z.mod_pos_bound b 2 ltac:(lia)).
  assert (0 <= a / 2 < 2 ^ 31) by lia. assert (0 <= b / 2 < 2 ^ 31) by lia.
  destruct (Z.eqb_spec (a mod 2) 1) as [E1|E1], (Z.eqb_spec (b mod 2) 1) as [E2|E2]; intros E.
  - apply (f_equal (λ x, Z.lxor x 0xEDB88320)) in E.
    rewrite !Z.lxor_assoc, !Z.lxor_nilpotent, !Z.lxor_0_r in E. lia.
  - apply (f_equal (λ x, Z.testbit x 31)) in E. rewrite Z.lxor_spec, (Htop (a / 2)), (Htop (b / 2)) in E by done.
    discriminate E.
  - apply (f_equal (λ x, Z.testbit x 31)) in E. rewrite Z.lxor_spec, (Htop (a / 2)), (Htop (b / 2)) in E by done.
    discriminate E.
  - lia.
Qed.

Lemma crc_rounds_inj n a b :
  0 <= a < 2 ^ 32 → 0 <= b < 2 ^ 32 → Nat.iter n crc_round a = Nat.iter n crc_round b → a = b.
Proof.
  intros Ha Hb. induction n; simpl; [done|]. intros E. apply IHn.
  apply crc_round_inj; eauto using crc_rounds_range.
Qed.

Lemma lxor_inj_r a b c : Z.lxor a c = Z.lxor b c → a = b.
Proof.
  intros E. apply (f_equal (λ x, Z.lxor x c)) in E.
  by rewrite !Z.lxor_assoc, !Z.lxor_nilpotent, !Z.lxor_0_r in E.
Qed.

(** Feeding the same byte keeps different states apart, and feeding different
    bytes to one state separates them. *)
Lemma crc_byte_inj_l b c c' :
  0 <= c < 2 ^ 32 → 0 <= c' < 2 ^ 32 → crc_byte c b = crc_byte c' b → c = c'.
Proof.
  intros Hc Hc' E. pose proof (byte_to_Z_range b).
  apply crc_rounds_inj in E; [|apply lxor_range; lia..]. by apply lxor_inj_r in E.
Qed.

Lemma crc_byte_inj_r c b b' : 0 <= c < 2 ^ 32 → crc_byte c b = crc_byte c b' → b = b'.
Proof.
  intros Hc E. pose proof (byte_to_Z_range b). pose proof (byte_to_Z_range b').
  apply crc_rounds_inj in E; [|apply lxor_range; lia..].
  rewrite !(Z.lxor_comm c) in E. apply lxor_inj_r in E. by apply byte_to_Z_inj.
Qed.

Lemma crc_fold_inj l c c' :
  0 <= c < 2 ^ 32 → 0 <= c' < 2 ^ 32 → fold_left crc_byte l c = fold_left crc_byte l c' → c = c'.
Proof.
  revert c c'; induction l as [|b l IH]; intros c c' Hc Hc'; simpl; [done|]. intros E.
  apply IH in E; [|by apply crc_byte_range..]. by apply crc_byte_inj_l in E.
Qed.

(** Changing one byte of a block changes its checksum. *)
Lemma crc32_one_byte l1 b b' l2 :
  b ≠ b' → crc32 (l1 ++ b :: l2) ≠ crc32 (l1 ++ b' :: l2).
Proof.
  intros Hb E. unfold crc32 in E. apply lxor_inj_r in E.
  rewrite !fold_left_app in E; simpl in E.
  assert (Hc : 0 <= fold_left crc_byte l1 0xFFFFFFFF < 2 ^ 32) by (apply crc_fold_range; lia).
  apply crc_fold_inj in E; [|by apply crc_byte_range..].
  by apply crc_byte_inj_r in E.
Qed.

#[export] Hint Resolve crc32_range hash64_range : ferrum.
