(* ===== verification/Fs.v ===== *)
(** * Files

    The operating system as the program sees it through [std::fs]: a tree of
    directories and files, the [flock] locks, and a schedule of faults.

    Every call that can fail takes the next element of the schedule: it goes
    through, fails with an I/O error, or the process dies in it.  A theorem
    that holds for every schedule covers every error path and every crash
    point of the code.  A file records what it holds ([f_content]) and what
    its last [fsync] made durable ([f_durable]). *)

From Stdlib Require Import Ascii.
From S2P Require Import Prelude Machine.

Abbreviation path := (list string).

Record file := File { f_content : bytes; f_durable : bytes }.

Inductive node :=
  | Dir
  | Reg (f : file).

(** [IoFault msg n]: the call fails with [msg]; a write has stored its first
    [n] bytes.  [CrashAt n]: the process dies, with the same partial effect. *)
Inductive fault :=
  | NoFault
  | IoFault (msg : string) (n : nat)
  | CrashAt (n : nat).

Record world := World {
  w_nodes : gmap path node;
  w_locks : gset path;
  w_faults : list fault;
}.

(** [read_dir] lists a directory in an order the system chooses. *)
Class ReadDir := readdir_order : list string → list string.
Class ReadDirOk `(ReadDir) : Prop := readdir_order_perm l : readdir_order l ≡ₚ l.

(** ** Access to the tree *)

Definition set_nodes (f : gmap path node → gmap path node) (w : world) : world :=
  World (f (w_nodes w)) (w_locks w) (w_faults w).
Definition set_locks (f : gset path → gset path) (w : world) : world :=
  World (w_nodes w) (f (w_locks w)) (w_faults w).
Definition set_faults (fs : list fault) (w : world) : world :=
  World (w_nodes w) (w_locks w) fs.

Definition file_at (w : world) (p : path) : option file :=
  match w_nodes w !! p with Some (Reg f) => Some f | _ => None end.

Definition is_dir (w : world) (p : path) : bool :=
  match p with
  | [] => true
  | _ => match w_nodes w !! p with Some Dir => true | _ => false end
  end.

Definition parent (p : path) : path := take (length p - 1) p.

(** [Path::join] with a single component. *)
Definition join (p : path) (name : string) : path := p ++ [name].

(** [Path::join] with any string, as the system resolves it: the components
    between separators one after the other, empty ones and [.] without effect,
    [..] to the parent; a leading separator starts again at the root.  [sep] says
    which characters separate components.  (There are no symbolic links.) *)
Definition unix_sep (c : ascii) : bool := Ascii.eqb c "/".
Definition any_sep (c : ascii) : bool := Ascii.eqb c "/" || Ascii.eqb c "\".

Fixpoint components (sep : ascii → bool) (s : string) : list string :=
  match s with
  | EmptyString => [""%string]
  | String c s =>
      if sep c then ""%string :: components sep s
      else match components sep s with
           | x :: l => String c x :: l
           | [] => [String c ""]
           end
  end.

Definition enter (p : path) (c : string) : path :=
  if bool_decide (c = ""%string) || bool_decide (c = "."%string) then p
  else if bool_decide (c = ".."%string) then parent p else join p c.

Definition resolve (sep : ascii → bool) (p : path) (name : string) : path :=
  let start := match name with String c _ => if sep c then [] else p | EmptyString => p end in
  fold_left enter (components sep name) start.

Definition put_file (p : path) (f : file) (w : world) : world :=
  set_nodes (<[p := Reg f]>) w.

Definition update_file (p : path) (g : file → file) (w : world) : world :=
  match file_at w p with
  | Some f => put_file p (g f) w
  | None => w
  end.

(** Every ancestor of [p], and [p] itself, from the root down. *)
Definition prefixes (p : path) : list path := (λ i, take i p) <$> seq 1 (length p).

(** The names of the entries of directory [p]. *)
Definition children (w : world) (p : path) : list string :=
  omap (λ '(q, _), if decide (parent q = p ∧ q ≠ []) then head (reverse q) else None)
    (map_to_list (w_nodes w)).

(** ** Objects and the world

    A method of an object that also uses files runs on the pair of the two. *)

Definition on_world {S A} (m : M world A) : M (S * world) A :=
  zoom snd (λ w s, (s.1, w)) m.
Definition on_self {S A} (m : M S A) : M (S * world) A :=
  zoom fst (λ x s, (x, s.2)) m.
Definition set_self {S} (f : S → S) : M (S * world) unit := modify (λ s, (f s.1, s.2)).
Definition self {S A} (f : S → A) : M (S * world) A := gets (λ s, f s.1).

(** ** Calls and faults *)

Definition io_err {A} (msg : string) : outcome A := Err (IoError msg).

Definition enoent : string := "No such file or directory (os error 2)".
Definition eexist : string := "File exists (os error 17)".
Definition enotdir : string := "Not a directory (os error 20)".
Definition eisdir : string := "Is a directory (os error 21)".
Definition einval : string := "Invalid argument (os error 22)".
Definition short_read : string := "failed to fill whole buffer".

(** A system call: [ok] is what it does, [partial n] what a call that fails or
    dies after [n] units of work leaves behind. *)
Definition io {A} (ok : M world A) (partial : nat → world → world) : M world A := λ w,
  match w_faults w with
  | [] => ok w
  | NoFault :: fs => ok (set_faults fs w)
  | IoFault msg n :: fs => (io_err msg, partial n (set_faults fs w))
  | CrashAt n :: fs => (Crashed, partial n (set_faults fs w))
  end.

Definition no_effect : nat → world → world := λ _ w, w.

(** [Path::exists] and [Path::is_dir]: the call under them can fail like any
    other, and its error reads as [false]. *)
Definition exists_at (w : world) (p : path) : bool :=
  bool_decide (is_Some (w_nodes w !! p)) || bool_decide (p = []).
Definition ask (f : world → bool) : M world bool :=
  r ← attempt (io (gets f) no_effect);
  mret (default false r).
Definition fs_exists (p : path) : M world bool := ask (λ w, exists_at w p).
Definition fs_is_dir (p : path) : M world bool := ask (λ w, is_dir w p).

Definition fs_create_dir_all (p : path) : M world unit :=
  io (λ w,
    match file_at w p with
    | Some _ => (io_err eexist, w)
    | None =>
        if existsb (λ q, bool_decide (is_Some (file_at w q))) (prefixes p) then (io_err enotdir, w)
        else (Ok tt, set_nodes (λ m, foldr (λ q m, match m !! q with None => <[q := Dir]> m | Some _ => m end)
                                      m (prefixes p)) w)
    end) no_effect.

(** [OpenOptions] with [create], without [truncate]: the file is made if it is
    missing and kept if it is there. *)
Definition fs_open_create (p : path) : M world unit :=
  io (λ w,
    match w_nodes w !! p with
    | Some (Reg _) => (Ok tt, w)
    | Some Dir => (io_err eisdir, w)
    | None => if is_dir w (parent p) then (Ok tt, put_file p (File [] []) w) else (io_err enoent, w)
    end) no_effect.

(** [File::create], or [OpenOptions] with [create] and [truncate]. *)
Definition fs_open_truncate (p : path) : M world unit :=
  io (λ w,
    match w_nodes w !! p with
    | Some (Reg f) => (Ok tt, put_file p (File [] (f_durable f)) w)
    | Some Dir => (io_err eisdir, w)
    | None => if is_dir w (parent p) then (Ok tt, put_file p (File [] []) w) else (io_err enoent, w)
    end) no_effect.

(** [File::open], or [OpenOptions] without [create]. *)
Definition fs_open_existing (p : path) : M world unit :=
  io (λ w,
    match w_nodes w !! p with
    | Some (Reg _) => (Ok tt, w)
    | Some Dir => (io_err eisdir, w)
    | None => (io_err enoent, w)
    end) no_effect.

(** [write_all] at the end of the file, the whole of [data] or a prefix of it. *)
Definition append_bytes (p : path) (data : bytes) : world → world :=
  update_file p (λ f, File (f_content f ++ data) (f_durable f)).
Definition fs_write_all (p : path) (data : bytes) : M world unit :=
  io (λ w, (Ok tt, append_bytes p data w)) (λ n, append_bytes p (take n data)).

(** [sync_all]. *)
Definition fs_sync_all (p : path) : M world unit :=
  io (λ w, (Ok tt, update_file p (λ f, File (f_content f) (f_content f)) w)) no_effect.

(** [set_len] to a length the file has. *)
Definition fs_set_len (p : path) (n : Z) : M world unit :=
  io (λ w, (Ok tt, update_file p (λ f, File (take (Z.to_nat n) (f_content f)) (f_durable f)) w)) no_effect.

Definition content (w : world) (p : path) : bytes :=
  match file_at w p with Some f => f_content f | None => [] end.

(** [metadata()?.len()]. *)
Definition fs_len (p : path) : M world Z := io (gets (λ w, Z.of_nat (length (content w p)))) no_effect.

Definition fs_read_to_end (p : path) : M world bytes := io (gets (λ w, content w p)) no_effect.

(** [seek(SeekFrom::Start(off))]: the offset must fit a signed 64-bit number. *)
Definition fs_seek (off : Z) : M world unit :=
  io (λ w, (if off <? 2 ^ 63 then Ok tt else io_err einval, w)) no_effect.

(** The [len] bytes of a list from position [off]. *)
Definition slice (l : bytes) (off len : Z) : bytes := take (Z.to_nat len) (drop (Z.to_nat off) l).

(** [read_exact] of [len] bytes at position [off]. *)
Definition fs_read_exact (p : path) (off len : Z) : M world bytes :=
  io (λ w, (if off + len <=? Z.of_nat (length (content w p)) then Ok (slice (content w p) off len)
            else if len =? 0 then Ok [] else io_err short_read, w)) no_effect.

(** [vec![0u8; n]]: a length above [isize::MAX] panics with "capacity overflow". *)
Definition alloc_zeroed (n : Z) : outcome unit := if n <=? isize_max then Ok tt else Panic.

(** [Vec::with_capacity] for [n] elements of [size] bytes: the same limit. *)
Definition with_capacity (n size : Z) : outcome unit := alloc_zeroed (n * size).

Definition fs_remove_file (p : path) : M world unit :=
  io (λ w,
    match w_nodes w !! p with
    | Some (Reg _) => (Ok tt, set_nodes (delete p) w)
    | Some Dir => (io_err eisdir, w)
    | None => (io_err enoent, w)
    end) no_effect.

(** [remove_dir_all] of [p]: a call that fails may have removed some entries. *)
Definition below (p q : path) : bool := bool_decide (take (length p) q = p).
Definition remove_tree (p : path) (n : nat) (w : world) : world :=
  set_nodes (λ m, foldr delete m (take n (filter (λ q, below p q && negb (bool_decide (q = p)))
                                           (map_to_list m).*1))) w.
Definition fs_remove_dir_all (p : path) : M world unit :=
  io (λ w,
    match w_nodes w !! p with
    | Some Dir => (Ok tt, set_nodes (filter (λ '(q, _), below p q = false)) w)
    | Some (Reg _) => (io_err enotdir, w)
    | None => (io_err enoent, w)
    end) (remove_tree p).

Section readdir.
Context `{ReadDir}.

(** [read_dir], and the step of its iterator, which can fail for each entry. *)
Definition fs_read_dir (p : path) : M world (list string) :=
  io (λ w, if is_dir w p then (Ok (readdir_order (children w p)), w) else (io_err enoent, w)) no_effect.
Definition fs_next_entry : M world unit := io (mret tt) no_effect.
End readdir.

(** [flock(fd, LOCK_EX | LOCK_NB)]: [true] when the call returns 0.  The lock is
    given up by closing the file. *)
Definition flock (p : path) : M world bool :=
  r ← attempt (io (λ w, if decide (p ∈ w_locks w) then (Ok false, w) else (Ok true, set_locks (λ s, {[p]} ∪ s) w)) no_effect);
  mret (default false r).
Definition unlock (p : path) : world → world := set_locks (λ s, s ∖ {[p]}).

(** ** Crashes

    After a crash a file holds its durable content, or what had been written
    since with its tail torn off at any byte; what an [fsync] covered is never
    lost while the file has only grown since.  Creations and removals of
    directory entries are durable in the order they were made.  Locks die with
    the process. *)

Inductive crash_file (f : file) : bytes → Prop :=
  | crash_durable : crash_file f (f_durable f)
  | crash_torn n :
      (∀ q, q `prefix_of` f_durable f → q `prefix_of` f_content f → (length q <= n)%nat) →
      crash_file f (take n (f_content f)).

Definition crash_node (n n' : node) : Prop :=
  match n with
  | Dir => n' = Dir
  | Reg f => ∃ c, crash_file f c ∧ n' = Reg (File c c)
  end.

Record crash_world (w w' : world) : Prop := {
  crash_nodes p : option_Forall2 crash_node (w_nodes w !! p) (w_nodes w' !! p);
  crash_locks : w_locks w' = ∅;
}.

(** ** Reasoning rules *)

(** [w'] is [w] after calls that changed nothing but the fault schedule. *)
Definition calm (w w' : world) : Prop :=
  w_nodes w' = w_nodes w ∧ w_locks w' = w_locks w ∧ (w_faults w = [] → w_faults w' = []).

(** How a call ends when a fault strikes. *)
Definition failed {A} (r : outcome A) : Prop := r = Crashed ∨ ∃ msg, r = io_err msg.

#[global] Instance calm_preorder : PreOrder calm.
Proof.
  split.
  - by intros w.
  - intros w1 w2 w3 (?&?&?) (?&?&?). split_and!; [congruence..|auto].
Qed.

Lemma calm_set_faults w fs : (w_faults w = [] → fs = []) → calm w (set_faults fs w).
Proof. intros H. repeat split. exact H. Qed.

Lemma calm_file_at w w' p : calm w w' → file_at w' p = file_at w p.
Proof. intros (E&_&_). unfold file_at. by rewrite E. Qed.

Lemma calm_content w w' p : calm w w' → content w' p = content w p.
Proof. intros E. unfold content. by rewrite (calm_file_at _ _ _ E). Qed.

Lemma calm_is_dir w w' p : calm w w' → is_dir w' p = is_dir w p.
Proof. intros (E&_&_). unfold is_dir. by rewrite E. Qed.

Lemma calm_faults w w' : calm w w' → w_faults w' ≠ [] → w_faults w ≠ [].
Proof. intros (_&_&H). auto. Qed.

Lemma wp_io {A} (ok : M world A) partial w Q :
  (∀ w', calm w w' → wp ok w' Q) →
  (∀ r w' n, w_faults w ≠ [] → calm w w' → failed r → Q r (partial n w')) →
  wp (io ok partial) w Q.
Proof.
  intros Hok Hfail. unfold wp, io. destruct (w_faults w) as [|[|msg n|n] fs] eqn:E; simpl.
  - by apply Hok.
  - apply Hok, calm_set_faults. by rewrite E.
  - apply Hfail; [done| |by right; eauto]. apply calm_set_faults. by rewrite E.
  - apply Hfail; [done| |by left]. apply calm_set_faults. by rewrite E.
Qed.

Lemma wp_on_world {S A} (m : M world A) (s : S * world) Q :
  wp (on_world m) s Q ↔ wp m s.2 (λ r w, Q r (s.1, w)).
Proof. unfold on_world. by rewrite wp_zoom. Qed.

Lemma wp_set_self {S} (f : S → S) (s : S * world) Q :
  wp (set_self f) s Q ↔ Q (Ok tt) (f s.1, s.2).
Proof. done. Qed.

Lemma wp_self {S A} (f : S → A) (s : S * world) Q : wp (self f) s Q ↔ Q (Ok (f s.1)) s.
Proof. done. Qed.

(** A call that only reads. *)
Lemma wp_io_read {A} (o : world → outcome A) w Q :
  (∀ w', calm w w' → Q (o w') w') →
  (∀ r w', w_faults w ≠ [] → calm w w' → failed r → Q r w') →
  wp (io (λ w, (o w, w)) no_effect) w Q.
Proof. intros H1 H2. apply wp_io; [|unfold no_effect; eauto]. intros w' Hw. by apply H1. Qed.

Lemma wp_ask f w Q :
  (∀ w', calm w w' → Q (Ok (f w')) w') →
  (∀ w', w_faults w ≠ [] → calm w w' → Q (Ok false) w' ∧ Q Crashed w') →
  wp (ask f) w Q.
Proof.
  intros H1 H2. unfold ask. apply wp_bind, wp_attempt, wp_io; [by apply H1|].
  intros r w' n Hf Hc Hr. destruct (H2 w' Hf Hc). unfold no_effect. by destruct Hr as [->|[msg ->]].
Qed.

Lemma ask_quiet f w : w_faults w = [] → ask f w = (Ok (f w), w).
Proof. intros E. unfold ask, io, attempt, mbind, M_bind. by rewrite E. Qed.

(** An error of the call under [ask]: it reads [false]. *)
Lemma ask_struck f w msg n fs : w_faults w = IoFault msg n :: fs → ask f w = (Ok false, set_faults fs w).
Proof. intros E. unfold ask, io, attempt, mbind, M_bind. by rewrite E. Qed.

Lemma io_quiet {A} (ok : M world A) partial w : w_faults w = [] → io ok partial w = ok w.
Proof. intros E. unfold io. by rewrite E. Qed.

Lemma failed_cases {A} (r : outcome A) : failed r → (∃ msg, r = io_err msg) ∨ r = Crashed.
Proof. intros [?|?]; eauto. Qed.

(** ** The tree *)

Lemma file_at_put p f w q :
  file_at (put_file p f w) q = if decide (p = q) then Some f else file_at w q.
Proof.
  unfold file_at, put_file; simpl. destruct (decide (p = q)) as [->|].
  - by rewrite lookup_insert_eq.
  - by rewrite lookup_insert_ne.
Qed.

Lemma file_at_update p g w q :
  file_at (update_file p g w) q =
  if decide (p = q) then g <$> file_at w p else file_at w q.
Proof.
  unfold update_file. destruct (file_at w p) as [f|] eqn:E.
  - rewrite file_at_put. by destruct (decide _).
  - destruct (decide (p = q)) as [->|]; [by rewrite E|done].
Qed.

Lemma update_file_faults p g w : w_faults (update_file p g w) = w_faults w.
Proof. unfold update_file. by destruct (file_at w p). Qed.

Lemma update_file_locks p g w : w_locks (update_file p g w) = w_locks w.
Proof. unfold update_file. by destruct (file_at w p). Qed.

Lemma is_dir_put p f w q : is_dir w p = false → p ≠ [] → is_dir (put_file p f w) q = is_dir w q.
Proof.
  intros Hd Hp. unfold is_dir, put_file. destruct q as [|x q]; [done|]. simpl.
  destruct (decide (p = x :: q)) as [->|].
  - rewrite lookup_insert_eq. symmetry. exact Hd.
  - by rewrite lookup_insert_ne.
Qed.

Fixpoint string_chars (s : string) : list ascii :=
  match s with EmptyString => [] | String c s => c :: string_chars s end.

Lemma components_ne sep s : components sep s ≠ [].
Proof. destruct s as [|c s]; [done|]. cbn. destruct (sep c); [done|]. by destruct (components sep s). Qed.

Lemma components_plain sep s : (∀ c, c ∈ string_chars s → sep c = false) → components sep s = [s].
Proof.
  induction s as [|c s IH]; intros H; [done|]. cbn. rewrite (H c) by left.
  rewrite IH; [done|]. intros x Hx. apply H. by right.
Qed.

(** A name without separators that is not one of the special ones. *)
Lemma resolve_plain sep p name :
  (∀ c, c ∈ string_chars name → sep c = false) →
  name ≠ ""%string → name ≠ "."%string → name ≠ ".."%string → resolve sep p name = join p name.
Proof.
  intros Hs H1 H2 H3. unfold resolve. rewrite components_plain by done. cbn [fold_left]. unfold enter.
  rewrite !bool_decide_eq_false_2 by done. cbn [orb]. f_equal. destruct name as [|c name]; [done|].
  rewrite Hs; [done|]. left.
Qed.

(** No component contains a separator. *)
Lemma components_no_sep sep s x c : x ∈ components sep s → c ∈ string_chars x → sep c = false.
Proof.
  revert x. induction s as [|c' s IH]; intros x; cbn [components].
  - intros ->%list_elem_of_singleton Hc. by apply list.not_elem_of_nil in Hc.
  - destruct (sep c') eqn:E.
    + intros [->|Hx]%list.elem_of_cons Hc; [by apply list.not_elem_of_nil in Hc|by eapply IH].
    + destruct (components sep s) as [|y l] eqn:El; [by apply components_ne in El|].
      intros [->|Hx]%list.elem_of_cons Hc; [|eapply IH; [by right|done]].
      cbn in Hc. apply list.elem_of_cons in Hc as [->|Hc]; [done|]. eapply IH; [by left|done].
Qed.

(** The last name of a resolved path comes from the components or from [p]. *)
Lemma fold_enter_last l p q x : fold_left enter l p = join q x → x ∈ l ∨ x ∈ p.
Proof.
  revert p. induction l as [|c l IH]; intros p; cbn [fold_left].
  - intros ->. right. unfold join. apply elem_of_app. right. by apply list_elem_of_singleton.
  - intros E. destruct (IH _ E) as [?|Hx]; [left; by right|]. unfold enter in Hx.
    destruct (_ || _); [by right|]. destruct (bool_decide _).
    + right. unfold parent in Hx. rewrite list_elem_of_lookup in *.
      destruct Hx as (i & Hi). exists i. apply lookup_take_Some in Hi. tauto.
    + unfold join in Hx. apply elem_of_app in Hx as [Hx|Hx]; [by right|].
      apply list_elem_of_singleton in Hx as ->. left. by left.
Qed.

(** A name with a separator never resolves, from the root, to the entry of that
    very name. *)
Lemma resolve_sep_ne sep name c :
  c ∈ string_chars name → sep c = true → resolve sep [] name ≠ join [] name.
Proof.
  intros Hc Hs E. assert (E' : resolve sep [] name = fold_left enter (components sep name) []).
  { unfold resolve. destruct name as [|c' name']; [reflexivity|]. destruct (sep c'); reflexivity. }
  rewrite E' in E. apply fold_enter_last in E as [Hin|Hx]; [|by apply list.not_elem_of_nil in Hx].
  by rewrite (components_no_sep _ _ _ _ Hin Hc) in Hs.
Qed.

Lemma join_inj p a b : join p a = join p b → a = b.
Proof. unfold join. intros E. by simplify_list_eq. Qed.

Lemma parent_join p a : parent (join p a) = p.
Proof.
  unfold parent, join. rewrite length_app; simpl. rewrite Nat.add_sub. by rewrite take_app_length.
Qed.

#[export] Hint Resolve calm_set_faults : ferrum.
