(* ===== verification/Wal.v ===== *)
(** * The write-ahead log: wal.rs *)

From S2P Require Import Prelude Machine Value Fs.

Section wal.
Context {Prof : Profile} {Cd : Codec}.

Record Wal := { file_path : path; wal_file : option path }.

Definition set_wal_file (h : option path) (wl : Wal) : Wal :=
  {| file_path := file_path wl; wal_file := h |}.

(** [Wal::with_path]: makes the parent directory, ignoring a failure. *)
Definition with_path (p : path) : M world Wal :=
  _ ← attempt (fs_create_dir_all (parent p));
  mret {| file_path := p; wal_file := None |}.

(** [WAL_PATH] and [Wal::new]. *)
Definition WAL_PATH : path := ["."; "data"; "wal.log"].
Definition wal_new : M world Wal := with_path WAL_PATH.

(** [Wal::writer]: the cached append handle, opened on first use. *)
Definition writer : M (Wal * world) path :=
  wl ← self id;
  match wal_file wl with
  | Some h => mret h
  | None =>
      _ ← on_world (fs_open_create (file_path wl));
      _ ← set_self (set_wal_file (Some (file_path wl)));
      mret (file_path wl)
  end.

(** A record: an 8-byte big-endian length, then the protobuf bytes. *)
Definition frame (entry : WalEntry) : bytes :=
  let bs := encode_wal_entry entry in
  be64 (Z.of_nat (length bs)) ++ bs.

Definition append (entry : WalEntry) : M (Wal * world) unit :=
  h ← writer;
  on_world (fs_write_all h (frame entry)).

Definition commit_entry (sequence : u64) : WalEntry :=
  {| operation := Commit; we_key := []; we_value := None;
     we_sequence := sequence; timestamp := u64_zero |}.

Definition write_commit (sequence : u64) : M (Wal * world) unit :=
  h ← writer;
  _ ← on_world (fs_write_all h (frame (commit_entry sequence)));
  on_world (fs_sync_all h).

(** The loop of [parse_buffer]: the entries decoded so far, how many of them
    end with the last COMMIT, and the offset just past it.  [None] means the
    fuel ran out. *)
Fixpoint parse_loop (fuel : nat) (buffer : bytes) (offset : Z)
    (entries : list WalEntry) (committed_count committed_end : Z) :
    option (outcome (list WalEntry * Z * Z)) :=
  match fuel with
  | O => None
  | S fuel =>
      let stop := Some (Ok (entries, committed_count, committed_end)) in
      let len_buffer := Z.of_nat (length buffer) in
      if negb (offset <? len_buffer) then stop else
      if len_buffer <? offset + 8 then stop else
      let len := be_decode (slice buffer offset 8) in
      let offset := offset + 8 in
      match add64 offset len with
      | Ok stop_at =>
          if len_buffer <? stop_at then stop else
          if stop_at <? offset then Some Panic else
          match decode_wal_entry (slice buffer offset len) with
          | inl entry =>
              let entries := entries ++ [entry] in
              if decide (operation entry = Commit)
              then parse_loop fuel buffer stop_at entries (Z.of_nat (length entries)) stop_at
              else parse_loop fuel buffer stop_at entries committed_count committed_end
          | inr _ => parse_loop fuel buffer stop_at entries committed_count committed_end
          end
      | _ => Some Panic
      end
  end.

(** Every round moves past an 8-byte prefix, so the length of the buffer bounds
    the number of rounds ([parse_buffer_fuel]). *)
Definition parse_buffer (buffer : bytes) : outcome (list WalEntry * Z * Z) :=
  default Panic (parse_loop (S (length buffer)) buffer 0 [] 0 0).

(** [Wal::read_file]: [None] when there is no file. *)
Definition read_file : M (Wal * world) (option bytes) :=
  p ← self file_path;
  b ← on_world (fs_exists p);
  if negb b then mret None else
  _ ← on_world (fs_open_existing p);
  buffer ← on_world (fs_read_to_end p);
  mret (Some buffer).

Definition read_all : M (Wal * world) (list WalEntry) :=
  b ← read_file;
  match b with
  | None => mret []
  | Some buffer => r ← lift (parse_buffer buffer); mret r.1.1
  end.

(** [Wal::read_for_recovery]: the committed entries; the bytes after the last
    COMMIT are removed from the file. *)
Definition read_for_recovery : M (Wal * world) (list WalEntry) :=
  b ← read_file;
  match b with
  | None => mret []
  | Some buffer =>
      r ← lift (parse_buffer buffer);
      let '(entries, committed_count, committed_end) := r in
      _ ← (if committed_end <? Z.of_nat (length buffer) then
             p ← self file_path;
             _ ← on_world (fs_open_existing p);
             _ ← on_world (fs_set_len p committed_end);
             _ ← on_world (fs_sync_all p);
             set_self (set_wal_file None)
           else mret tt);
      mret (take (Z.to_nat committed_count) entries)
  end.

Definition clear : M (Wal * world) unit :=
  _ ← set_self (set_wal_file None);
  p ← self file_path;
  _ ← on_world (fs_open_truncate p);
  on_world (fs_sync_all p).

Definition create_put_entry (key : bytes) (value : Value) (sequence : u64) : WalEntry :=
  {| operation := Put; we_key := key; we_value := Some (to_proto value);
     we_sequence := sequence; timestamp := u64_zero |}.

Definition create_delete_entry (key : bytes) (sequence : u64) : WalEntry :=
  {| operation := Delete; we_key := key; we_value := None;
     we_sequence := sequence; timestamp := u64_zero |}.

(** ** What a log holds *)

Definition frames (es : list WalEntry) : bytes := concat (frame <$> es).

Definition is_commit (e : WalEntry) : bool := bool_decide (operation e = Commit).

(** The entries up to and including the last COMMIT. *)
Fixpoint committed (es : list WalEntry) : list WalEntry :=
  match es with
  | [] => []
  | e :: es' =>
      match committed es' with
      | [] => if is_commit e then [e] else []
      | c => e :: c
      end
  end.

(** Bytes at which the parser stops: too few for a length prefix, or for the
    payload it announces. *)
Definition torn (tail : bytes) : Prop :=
  (length tail < 8)%nat ∨
  (Z.of_nat (length tail) < 8 + be_decode (take 8 tail) ∧ be_decode (take 8 tail) < 2 ^ 63).

(** ** Lemmas on frames *)

Lemma frames_app es1 es2 : frames (es1 ++ es2) = frames es1 ++ frames es2.
Proof. unfold frames. by rewrite fmap_app, concat_app. Qed.

Lemma frames_cons e es : frames (e :: es) = frame e ++ frames es.
Proof. done. Qed.

Lemma length_frame e : length (frame e) = (8 + length (encode_wal_entry e))%nat.
Proof. unfold frame, be64. by rewrite length_app, length_be_encode. Qed.

Lemma committed_snoc es e :
  committed (es ++ [e]) = if is_commit e then es ++ [e] else committed es.
Proof.
  induction es as [|e' es IH]; simpl; [done|]. rewrite IH.
  destruct (is_commit e); [|done]. by destruct es.
Qed.

Lemma committed_prefix es : committed es `prefix_of` es.
Proof.
  induction es as [|e es IH]; simpl; [done|].
  destruct (committed es) eqn:E.
  - destruct (is_commit e); [by apply prefix_cons|apply prefix_nil].
  - by apply prefix_cons.
Qed.

Lemma committed_idemp es : committed (committed es) = committed es.
Proof.
  induction es as [|e es IH] using rev_ind; [done|].
  rewrite committed_snoc. destruct (is_commit e) eqn:E; [|done].
  by rewrite committed_snoc, E.
Qed.

Lemma slice_app_l l1 l2 n : n = Z.of_nat (length l1) → slice (l1 ++ l2) 0 n = l1.
Proof. intros ->. unfold slice. rewrite Nat2Z.id, Z2Nat.inj_0, drop_0. by rewrite take_app_length. Qed.

Lemma slice_at l off l1 l2 n :
  drop (Z.to_nat off) l = l1 ++ l2 → n = Z.of_nat (length l1) → slice l off n = l1.
Proof. intros E ->. unfold slice. rewrite E, Nat2Z.id. by rewrite take_app_length. Qed.

Lemma drop_at {A} (l : list A) off l1 l2 n :
  0 <= off → drop (Z.to_nat off) l = l1 ++ l2 → n = Z.of_nat (length l1) →
  drop (Z.to_nat (off + n)) l = l2.
Proof.
  intros Ho E ->. rewrite Z2Nat.inj_add, Nat2Z.id by lia. rewrite <-drop_drop, E.
  by rewrite drop_app_length.
Qed.

Lemma drop_length_at {A} (l : list A) off (r : list A) :
  0 <= off → (0 < length r)%nat → drop (Z.to_nat off) l = r →
  Z.of_nat (length l) = off + Z.of_nat (length r).
Proof. intros Ho Hr <-. rewrite length_drop in *. lia. Qed.

(** ** The parser *)

(** One round on a whole record. *)
Lemma parse_loop_frame `{!CodecOk _} fuel buffer off e rest es cc ce :
  0 <= off → Z.of_nat (length buffer) < 2 ^ 63 →
  drop (Z.to_nat off) buffer = frame e ++ rest →
  parse_loop (S fuel) buffer off es cc ce =
  parse_loop fuel buffer (off + Z.of_nat (length (frame e))) (es ++ [e])
    (if is_commit e then Z.of_nat (length (es ++ [e])) else cc)
    (if is_commit e then off + Z.of_nat (length (frame e)) else ce).
Proof.
  intros Ho Hb Hd. pose proof (length_frame e) as Hf.
  assert (Hl := drop_length_at _ _ _ Ho ltac:(rewrite length_app, Hf; lia) Hd).
  rewrite length_app, Hf in Hl.
  remember (Z.of_nat (length (encode_wal_entry e))) as n eqn:Hn.
  assert (Hd' : drop (Z.to_nat off) buffer = be64 n ++ encode_wal_entry e ++ rest).
  { rewrite Hd. unfold frame. by rewrite <-app_assoc, <-Hn. }
  assert (Hs8 : slice buffer off 8 = be64 n) by (eapply slice_at; [exact Hd'|done]).
  assert (Hd8 : drop (Z.to_nat (off + 8)) buffer = encode_wal_entry e ++ rest)
    by (eapply drop_at; [lia|exact Hd'|done]).
  assert (Hsn : slice buffer (off + 8) n = encode_wal_entry e) by (eapply slice_at; [exact Hd8|done]).
  assert (Hadd : add64 (off + 8) n = Ok (off + 8 + n)).
  { unfold add64. by rewrite (proj2 (Z.ltb_lt _ _)) by lia. }
  cbn [parse_loop]. rewrite (proj2 (Z.ltb_lt off _)) by lia. cbn [negb].
  rewrite (proj2 (Z.ltb_ge _ _)) by lia.
  rewrite Hs8, be_decode_be64, Hadd, Hsn, decode_encode_wal_entry by lia.
  rewrite (proj2 (Z.ltb_ge _ _)) by lia. rewrite (proj2 (Z.ltb_ge _ _)) by lia.
  replace (off + Z.of_nat (length (frame e))) with (off + 8 + n) by lia.
  unfold is_commit. by destruct (decide (operation e = Commit));
    [rewrite bool_decide_eq_true_2|rewrite bool_decide_eq_false_2].
Qed.

(** One round on a torn tail. *)
Lemma parse_loop_torn fuel buffer off tail es cc ce :
  0 <= off <= Z.of_nat (length buffer) → Z.of_nat (length buffer) < 2 ^ 63 →
  drop (Z.to_nat off) buffer = tail → torn tail →
  parse_loop (S fuel) buffer off es cc ce = Some (Ok (es, cc, ce)).
Proof.
  intros Ho Hb Hd Ht. assert (Hl : length tail = (length buffer - Z.to_nat off)%nat)
    by (rewrite <-Hd; apply length_drop).
  cbn [parse_loop]. destruct (Z.ltb_spec off (Z.of_nat (length buffer))); [|done]. cbn [negb].
  destruct (Z.ltb_spec (Z.of_nat (length buffer)) (off + 8)); [done|].
  destruct Ht as [Ht|[Ht Hn]]; [lia|].
  replace (slice buffer off 8) with (take 8 tail) by (by rewrite <-Hd).
  pose proof (be_decode_range (take 8 tail)).
  unfold add64. rewrite (proj2 (Z.ltb_lt _ (2 ^ 64))) by lia.
  by rewrite (proj2 (Z.ltb_lt _ _)) by lia.
Qed.

Lemma parse_loop_frames `{!CodecOk _} es es0 tail fuel :
  Z.of_nat (length (frames es0 ++ frames es ++ tail)) < 2 ^ 63 →
  torn tail →
  parse_loop (length es + S fuel) (frames es0 ++ frames es ++ tail)
    (Z.of_nat (length (frames es0))) es0
    (Z.of_nat (length (committed es0))) (Z.of_nat (length (frames (committed es0)))) =
  Some (Ok (es0 ++ es, Z.of_nat (length (committed (es0 ++ es))),
            Z.of_nat (length (frames (committed (es0 ++ es)))))).
Proof.
  revert es0. induction es as [|e es IH]; intros es0 Hb Ht.
  - rewrite app_nil_r. cbn [length Nat.add].
    eapply parse_loop_torn; [rewrite !length_app; lia|done| |done].
    rewrite Nat2Z.id, drop_app_length. done.
  - cbn [length Nat.add]. rewrite frames_cons, <-app_assoc in *.
    erewrite parse_loop_frame; [|lia|done|rewrite Nat2Z.id, drop_app_length; reflexivity].
    specialize (IH (es0 ++ [e])). rewrite frames_app in IH.
    assert (E : frames [e] = frame e) by (unfold frames; simpl; by rewrite app_nil_r).
    rewrite E, <-(app_assoc (frames es0)) in IH.
    replace (es0 ++ e :: es) with ((es0 ++ [e]) ++ es) by (by rewrite <-app_assoc).
    rewrite <-IH by done. rewrite committed_snoc.
    rewrite (length_app (frames es0) (frame e)), Nat2Z.inj_add.
    destruct (is_commit e); [|done].
    by rewrite frames_app, E, (length_app (frames es0) (frame e)), Nat2Z.inj_add.
Qed.

Lemma length_frames_ge es : (length es <= length (frames es))%nat.
Proof.
  induction es as [|e es IH]; [done|]. rewrite frames_cons, length_app, length_frame. simpl. lia.
Qed.

(** Parsing a log of whole records followed by a torn tail gives back the
    records, and locates the last COMMIT. *)
Lemma parse_buffer_frames `{!CodecOk _} es tail :
  Z.of_nat (length (frames es ++ tail)) < 2 ^ 63 → torn tail →
  parse_buffer (frames es ++ tail) =
  Ok (es, Z.of_nat (length (committed es)), Z.of_nat (length (frames (committed es)))).
Proof.
  intros Hb Ht. unfold parse_buffer.
  pose proof (length_frames_ge es).
  replace (S (length (frames es ++ tail)))
    with (length es + S (length (frames es ++ tail) - length es))%nat by (rewrite length_app; lia).
  pose proof (parse_loop_frames es [] tail) as L. simpl in L. by rewrite L.
Qed.

(** ** Any buffer

    What the parser does on bytes that no run of the program need have written.
    The record at [off] is whole and the next one is at [off']; or the parser
    stops at [off]; or the length prefix at [off] takes the offset past the
    64-bit range. *)

Definition prefix_at (buffer : bytes) (off : Z) : Z := be_decode (slice buffer off 8).

Definition next_record (buffer : bytes) (off off' : Z) : Prop :=
  off + 8 <= Z.of_nat (length buffer) ∧ off' = off + 8 + prefix_at buffer off ∧
  off' < 2 ^ 64 ∧ off' <= Z.of_nat (length buffer).
Definition no_record (buffer : bytes) (off : Z) : Prop :=
  Z.of_nat (length buffer) < off + 8 ∨
  off + 8 + prefix_at buffer off < 2 ^ 64 ∧ Z.of_nat (length buffer) < off + 8 + prefix_at buffer off.
Definition overflow_at (buffer : bytes) (off : Z) : Prop :=
  off + 8 <= Z.of_nat (length buffer) ∧ 2 ^ 64 <= off + 8 + prefix_at buffer off.

(** The entries from [off] on, without the payloads that do not decode; the flag
    is false when they end in an overflow. *)
Inductive records (buffer : bytes) : Z → list WalEntry → bool → Prop :=
  | records_stop off : no_record buffer off → records buffer off [] true
  | records_overflow off : overflow_at buffer off → records buffer off [] false
  | records_entry off off' e es b :
      next_record buffer off off' → decode_wal_entry (slice buffer (off + 8) (prefix_at buffer off)) = inl e →
      records buffer off' es b → records buffer off (e :: es) b
  | records_skip off off' msg es b :
      next_record buffer off off' → decode_wal_entry (slice buffer (off + 8) (prefix_at buffer off)) = inr msg →
      records buffer off' es b → records buffer off es b.

Lemma record_cases buffer off :
  no_record buffer off ∨ overflow_at buffer off ∨ ∃ off', next_record buffer off off'.
Proof.
  unfold no_record, overflow_at, next_record. set (n := prefix_at buffer off).
  destruct (Z.lt_ge_cases (Z.of_nat (length buffer)) (off + 8)) as [?|H1]; [by left; left|].
  destruct (Z.lt_ge_cases (off + 8 + n) (2 ^ 64)) as [H2|H2]; [|by right; left].
  destruct (Z.lt_ge_cases (Z.of_nat (length buffer)) (off + 8 + n)) as [H3|H3]; [by left; right|].
  right; right. by exists (off + 8 + n).
Qed.

(** One round of the loop in each of the three cases. *)
Lemma parse_no_record fuel buffer off es cc ce :
  no_record buffer off → parse_loop (S fuel) buffer off es cc ce = Some (Ok (es, cc, ce)).
Proof.
  intros H. cbn [parse_loop]. destruct (Z.ltb_spec off (Z.of_nat (length buffer))); cbn [negb]; [|done].
  destruct (Z.ltb_spec (Z.of_nat (length buffer)) (off + 8)); [done|]. destruct H as [H|[Ha Hb]]; [lia|].
  fold (prefix_at buffer off). unfold add64. rewrite (proj2 (Z.ltb_lt _ (2 ^ 64))) by lia.
  by rewrite (proj2 (Z.ltb_lt _ _)) by lia.
Qed.

Lemma parse_overflow fuel buffer off es cc ce :
  0 <= off → overflow_at buffer off → parse_loop (S fuel) buffer off es cc ce = Some Panic.
Proof.
  intros Ho [H1 H2]. cbn [parse_loop]. rewrite (proj2 (Z.ltb_lt off _)) by lia. cbn [negb].
  rewrite (proj2 (Z.ltb_ge _ _)) by lia. fold (prefix_at buffer off). unfold add64.
  rewrite (proj2 (Z.ltb_ge _ (2 ^ 64))) by lia. destruct overflow_checks; [done|].
  assert (Hn : prefix_at buffer off < 2 ^ 64).
  { pose proof (be_decode_range (slice buffer off 8)) as H. fold (prefix_at buffer off) in H.
    assert (length (slice buffer off 8) <= 8)%nat by (unfold slice; rewrite length_take; lia).
    assert (256 ^ Z.of_nat (length (slice buffer off 8)) <= 256 ^ 8) by (apply Z.pow_le_mono_r; lia). lia. }
  assert (Hmod : (off + 8 + prefix_at buffer off) mod 2 ^ 64 < off + 8).
  { destruct (Z.lt_ge_cases (off + 8) (2 ^ 64)).
    - rewrite <-(Z_mod_plus_full _ (-1)). rewrite Z.mod_small; lia.
    - pose proof (Z.mod_pos_bound (off + 8 + prefix_at buffer off) (2 ^ 64)). lia. }
  rewrite (proj2 (Z.ltb_ge _ _)) by lia. by rewrite (proj2 (Z.ltb_lt _ _)) by lia.
Qed.

Lemma parse_next_record fuel buffer off off' es cc ce :
  0 <= off → next_record buffer off off' →
  parse_loop (S fuel) buffer off es cc ce =
  match decode_wal_entry (slice buffer (off + 8) (prefix_at buffer off)) with
  | inl e => parse_loop fuel buffer off' (es ++ [e])
      (if is_commit e then Z.of_nat (length (es ++ [e])) else cc) (if is_commit e then off' else ce)
  | inr _ => parse_loop fuel buffer off' es cc ce
  end.
Proof.
  intros Ho (H1 & -> & H2 & H3). cbn [parse_loop]. rewrite (proj2 (Z.ltb_lt off _)) by lia. cbn [negb].
  rewrite (proj2 (Z.ltb_ge _ _)) by lia. fold (prefix_at buffer off). unfold add64.
  rewrite (proj2 (Z.ltb_lt _ (2 ^ 64))) by lia. rewrite (proj2 (Z.ltb_ge _ _)) by lia.
  pose proof (be_decode_range (slice buffer off 8)) as H. fold (prefix_at buffer off) in H.
  rewrite (proj2 (Z.ltb_ge _ _)) by lia. destruct (decode_wal_entry _) as [e|]; [|done].
  unfold is_commit. by destruct (decide (operation e = Commit));
    [rewrite bool_decide_eq_true_2|rewrite bool_decide_eq_false_2].
Qed.

(** The fuel is enough for every buffer: the loop ends with the records of the
    buffer, or in a panic at an overflow. *)
Lemma parse_loop_ends fuel buffer off es ce :
  0 <= off <= Z.of_nat (length buffer) → Z.of_nat (length buffer) < off + Z.of_nat fuel →
  rtc (next_record buffer) 0 ce → rtc (next_record buffer) 0 off →
  let run := parse_loop fuel buffer off es (Z.of_nat (length (committed es))) ce in
  (∃ new ce', records buffer off new true ∧ rtc (next_record buffer) 0 ce' ∧
     run = Some (Ok (es ++ new, Z.of_nat (length (committed (es ++ new))), ce'))) ∨
  (∃ new, records buffer off new false ∧ run = Some Panic).
Proof.
  revert off es ce. induction fuel as [|fuel IH]; intros off es ce Ho Hf Hce Hoff; cbv zeta; [lia|].
  destruct (record_cases buffer off) as [H|[H|[off' H]]].
  - left. exists [], ce. rewrite app_nil_r, parse_no_record by done. split_and!; [by constructor|done..].
  - right. exists []. rewrite parse_overflow by (done || lia). split; [by apply records_overflow|done].
  - assert (Hoff' : rtc (next_record buffer) 0 off') by (by eapply rtc_r).
    assert (Hb : off + 8 <= off' <= Z.of_nat (length buffer)).
    { destruct H as (_ & -> & _ & ?). pose proof (be_decode_range (slice buffer off 8)). unfold prefix_at in *. lia. }
    rewrite (parse_next_record _ _ _ off') by (done || lia).
    destruct (decode_wal_entry _) as [e|msg] eqn:Ed.
    + assert (Hcc : (if is_commit e then Z.of_nat (length (es ++ [e])) else Z.of_nat (length (committed es))) =
        Z.of_nat (length (committed (es ++ [e])))) by (rewrite committed_snoc; by destruct (is_commit e)).
      rewrite Hcc. assert (Hce' : rtc (next_record buffer) 0 (if is_commit e then off' else ce)) by (by destruct (is_commit e)).
      destruct (IH off' (es ++ [e]) _ ltac:(lia) ltac:(lia) Hce' Hoff') as [(new & ce2 & Hn & Hc2 & ->)|(new & Hn & ->)].
      * left. exists (e :: new), ce2. rewrite <-app_assoc. split_and!; [by eapply records_entry|done..].
      * right. exists (e :: new). split; [by eapply records_entry|done].
    + destruct (IH off' es ce ltac:(lia) ltac:(lia) Hce Hoff') as [(new & ce2 & Hn & Hc2 & ->)|(new & Hn & ->)].
      * left. exists new, ce2. split_and!; [by eapply records_skip|done..].
      * right. exists new. split; [by eapply records_skip|done].
Qed.

Lemma records_false buffer off es :
  records buffer off es false → ∃ off', rtc (next_record buffer) off off' ∧ overflow_at buffer off'.
Proof.
  remember false as b eqn:Eb. induction 1 as [| |off off' e es b Hn _ _ IH|off off' msg es b Hn _ _ IH]; [done|..].
  - by exists off.
  - destruct (IH Eb) as (off2 & ? & ?). exists off2. split; [by eapply rtc_l|done].
  - destruct (IH Eb) as (off2 & ? & ?). exists off2. split; [by eapply rtc_l|done].
Qed.

Lemma next_record_bounds buffer off :
  rtc (next_record buffer) 0 off → 0 <= off <= Z.of_nat (length buffer).
Proof.
  revert off. apply rtc_ind_r; [lia|]. intros off off' _ (_ & -> & _ & ?) IH.
  pose proof (be_decode_range (slice buffer off 8)). unfold prefix_at in *. lia.
Qed.

(** A whole frame is not torn. *)
Lemma torn_no_frame e tail :
  torn tail → frame e `prefix_of` tail → Z.of_nat (length (frame e)) < 2 ^ 63 → False.
Proof.
  intros Ht [r ->] Hlen. rewrite length_frame in Hlen. unfold torn in Ht.
  rewrite length_app, length_frame in Ht. destruct Ht as [?|[Ht _]]; [lia|].
  unfold frame in Ht. rewrite <-!app_assoc, take_app_length' in Ht by (by rewrite length_be64).
  rewrite be_decode_be64 in Ht by lia. lia.
Qed.
End wal.
