(* ===== verification/Bloom.v ===== *)
(** * The bloom filter of sstable.rs *)

From S2P Require Import Prelude Machine Checksum.

Record BloomFilter := { bf_bits : bytes; bf_k : Z }.

Definition BITS_PER_KEY : Z := 10.

(** [u64::div_ceil]. *)
Definition div_ceil (a b : Z) : Z := (a + b - 1) / b.

(** [BloomFilter::new]: about 10 bits per key, at least 64, and 7 probes. *)
Definition bloom_new (num_keys : Z) : BloomFilter :=
  let m_bits := Z.max (num_keys * BITS_PER_KEY) 64 in
  {| bf_bits := replicate (Z.to_nat (div_ceil m_bits 8)) Byte.x00; bf_k := 7 |}.

(** The [i]-th probe: [h1 + i * h2] in wrapping arithmetic, modulo [m]. *)
Definition probe (h m i : Z) : Z :=
  let h1 := Z.land h 0xFFFFFFFF in
  let h2 := Z.lor (Z.shiftr h 32) 1 in
  ((h1 + (i * h2) mod 2 ^ 64) mod 2 ^ 64) mod m.

(** [BloomFilter::positions]: a filter without bits divides by zero. *)
Definition positions (b : BloomFilter) (key : bytes) : outcome (list Z) :=
  let m := Z.of_nat (length (bf_bits b)) * 8 in
  if (m =? 0) && (0 <? bf_k b) then Panic
  else Ok (probe (hash64 key) m <$> seqZ 0 (bf_k b)).

(** [v[i]] on a byte vector. *)
Definition index_byte (l : bytes) (i : Z) : outcome byte :=
  match l !! Z.to_nat i with Some b => Ok b | None => Panic end.

Definition bit_mask (bit : Z) : Z := Z.shiftl 1 (bit mod 8).

Fixpoint set_bits (bits : bytes) (ps : list Z) : outcome bytes :=
  match ps with
  | [] => Ok bits
  | bit :: ps =>
      b ← index_byte bits (bit / 8);
      set_bits (<[Z.to_nat (bit / 8) := byte_of_Z (Z.lor (byte_to_Z b) (bit_mask bit))]> bits) ps
  end.

(** [BloomFilter::add]. *)
Definition bloom_add (b : BloomFilter) (key : bytes) : outcome BloomFilter :=
  ps ← positions b key;
  bits ← set_bits (bf_bits b) ps;
  mret {| bf_bits := bits; bf_k := bf_k b |}.

(** [for k in &keys { b.add(k) }]. *)
Fixpoint bloom_add_all (b : BloomFilter) (keys : list bytes) : outcome BloomFilter :=
  match keys with
  | [] => Ok b
  | k :: keys => b ← bloom_add b k; bloom_add_all b keys
  end.

Fixpoint all_bits (bits : bytes) (ps : list Z) : outcome bool :=
  match ps with
  | [] => Ok true
  | bit :: ps =>
      b ← index_byte bits (bit / 8);
      if Z.land (byte_to_Z b) (bit_mask bit) =? 0 then Ok false else all_bits bits ps
  end.

(** [BloomFilter::maybe_contains]. *)
Definition maybe_contains (b : BloomFilter) (key : bytes) : outcome bool :=
  ps ← positions b key;
  all_bits (bf_bits b) ps.

(** ** Bits of a byte vector *)

Definition bit_at (bits : bytes) (p : Z) : bool :=
  match bits !! Z.to_nat (p / 8) with
  | Some b => Z.testbit (byte_to_Z b) (p mod 8)
  | None => false
  end.

(** [p] is a bit of the vector. *)
Definition in_bits (bits : bytes) (p : Z) : Prop := 0 <= p < Z.of_nat (length bits) * 8.

Lemma in_bits_lookup bits p : in_bits bits p → ∃ b, bits !! Z.to_nat (p / 8) = Some b.
Proof.
  intros Hp. apply lookup_lt_is_Some. unfold in_bits in Hp.
  assert (0 <= p / 8 < Z.of_nat (length bits)); [|lia].
  split; [apply Z.div_pos|apply Z.div_lt_upper_bound]; lia.
Qed.

Lemma land_bit_mask z p : (Z.land z (bit_mask p) =? 0) = negb (Z.testbit z (p mod 8)).
Proof.
  assert (0 <= p mod 8 < 8) by (apply Z.mod_pos_bound; lia).
  unfold bit_mask. rewrite Z.shiftl_1_l.
  destruct (Z.testbit z (p mod 8)) eqn:E; simpl.
  - apply Z.eqb_neq. intros H0. apply (f_equal (λ x, Z.testbit x (p mod 8))) in H0.
    rewrite Z.land_spec, Z.pow2_bits_true, E, Z.bits_0 in H0 by lia. done.
  - apply Z.eqb_eq. apply Z.bits_inj'. intros i Hi.
    rewrite Z.land_spec, Z.pow2_bits_eqb, Z.bits_0 by lia.
    destruct (Z.eqb_spec (p mod 8) i) as [<-|]; [by rewrite E|by rewrite andb_false_r].
Qed.

Lemma or_mask_range b p : 0 <= Z.lor (byte_to_Z b) (bit_mask p) < 256.
Proof.
  pose proof (byte_to_Z_range b). assert (Hm : 0 <= p mod 8 < 8) by (apply Z.mod_pos_bound; lia).
  unfold bit_mask. rewrite Z.shiftl_1_l.
  assert (0 < 2 ^ (p mod 8)) by (apply Z.pow_pos_nonneg; lia).
  split; [apply Z.lor_nonneg; lia|]. apply Z.log2_lt_cancel.
  change (Z.log2 256) with 8. rewrite Z.log2_lor, Z.log2_pow2 by lia.
  assert (Z.log2 (byte_to_Z b) < 8); [|lia].
  destruct (decide (byte_to_Z b = 0)) as [->|]; [done|]. apply Z.log2_lt_pow2; lia.
Qed.

Lemma bit_at_set bits p q b :
  in_bits bits p → 0 <= q → bits !! Z.to_nat (p / 8) = Some b →
  bit_at (<[Z.to_nat (p / 8) := byte_of_Z (Z.lor (byte_to_Z b) (bit_mask p))]> bits) q =
  (p =? q) || bit_at bits q.
Proof.
  intros Hp Hq Hb. unfold bit_at, in_bits in *.
  assert (0 <= p / 8) by (apply Z.div_pos; lia). assert (0 <= q / 8) by (apply Z.div_pos; lia).
  pose proof (Z.div_mod p 8 ltac:(lia)). pose proof (Z.div_mod q 8 ltac:(lia)).
  assert (0 <= p mod 8 < 8) by (apply Z.mod_pos_bound; lia).
  assert (0 <= q mod 8 < 8) by (apply Z.mod_pos_bound; lia).
  destruct (decide (Z.to_nat (p / 8) = Z.to_nat (q / 8))) as [E|E].
  - rewrite <-E, list_lookup_insert_eq, Hb by (by eapply lookup_lt_Some).
    rewrite byte_to_of_Z, Z.mod_small by apply or_mask_range.
    unfold bit_mask. rewrite Z.shiftl_1_l, Z.lor_spec, Z.pow2_bits_eqb by lia.
    rewrite orb_comm. f_equal. destruct (Z.eqb_spec p q), (Z.eqb_spec (p mod 8) (q mod 8)); lia.
  - rewrite list_lookup_insert_ne by done. destruct (Z.eqb_spec p q) as [->|]; [done|]. done.
Qed.

Lemma set_bits_spec bits ps :
  Forall (in_bits bits) ps →
  ∃ bits', set_bits bits ps = Ok bits' ∧ length bits' = length bits ∧
    ∀ q, 0 <= q → bit_at bits' q = bool_decide (q ∈ ps) || bit_at bits q.
Proof.
  revert bits. induction ps as [|p ps IH]; intros bits Hps; cbn [set_bits].
  - exists bits. split_and!; [done..|]. intros q _. by rewrite bool_decide_eq_false_2 by set_solver.
  - apply list.Forall_cons in Hps as [Hp Hps].
    destruct (in_bits_lookup _ _ Hp) as [b Hb]. unfold index_byte. rewrite Hb. simpl.
    destruct (IH (<[Z.to_nat (p / 8) := byte_of_Z (Z.lor (byte_to_Z b) (bit_mask p))]> bits))
      as (bits' & Hset & Hlen & Hbit).
    { eapply list.Forall_impl; [exact Hps|]. intros x. unfold in_bits. by rewrite length_insert. }
    exists bits'. rewrite length_insert in Hlen. split_and!; [done..|]. intros q Hq.
    rewrite Hbit, (bit_at_set _ _ _ _ Hp Hq Hb) by done. rewrite orb_assoc. f_equal.
    destruct (Z.eqb_spec p q) as [->|]; [rewrite (bool_decide_eq_true_2 (q ∈ q :: ps)) by set_solver; apply orb_true_r|].
    rewrite orb_false_r. apply bool_decide_ext. set_solver.
Qed.

Lemma all_bits_spec bits ps :
  Forall (in_bits bits) ps → all_bits bits ps = Ok (forallb (bit_at bits) ps).
Proof.
  induction ps as [|p ps IH]; [done|]. intros [Hp Hps]%list.Forall_cons. simpl.
  destruct (in_bits_lookup _ _ Hp) as [b Hb]. unfold index_byte. rewrite Hb. simpl.
  rewrite land_bit_mask. unfold bit_at at 1. rewrite Hb.
  destruct (Z.testbit _ _); simpl; [by apply IH|done].
Qed.

(** ** Filters *)

(** A filter whose probes are defined: it has at least one bit. *)
Definition bloom_wf (b : BloomFilter) : Prop := bf_bits b ≠ [].

Definition bloom_probes (b : BloomFilter) (key : bytes) : list Z :=
  probe (hash64 key) (Z.of_nat (length (bf_bits b)) * 8) <$> seqZ 0 (bf_k b).

Lemma positions_wf b key :
  bloom_wf b → positions b key = Ok (bloom_probes b key) ∧ Forall (in_bits (bf_bits b)) (bloom_probes b key).
Proof.
  intros Hwf. assert (0 < Z.of_nat (length (bf_bits b))).
  { unfold bloom_wf in Hwf. destruct (bf_bits b); [done|simpl; lia]. }
  unfold positions. rewrite (proj2 (Z.eqb_neq _ 0)) by lia. split; [done|].
  apply Forall_fmap, Forall_true. intros i. apply Z.mod_pos_bound. lia.
Qed.

Lemma maybe_contains_spec b key :
  bloom_wf b → maybe_contains b key = Ok (forallb (bit_at (bf_bits b)) (bloom_probes b key)).
Proof.
  intros Hwf. destruct (positions_wf b key Hwf) as [Hp Hin].
  unfold maybe_contains. rewrite Hp. simpl. by apply all_bits_spec.
Qed.

Lemma bloom_add_spec b key :
  bloom_wf b →
  ∃ b', bloom_add b key = Ok b' ∧ bloom_wf b' ∧ bf_k b' = bf_k b ∧
    length (bf_bits b') = length (bf_bits b) ∧
    ∀ q, 0 <= q → bit_at (bf_bits b') q = bool_decide (q ∈ bloom_probes b key) || bit_at (bf_bits b) q.
Proof.
  intros Hwf. destruct (positions_wf b key Hwf) as [Hp Hin].
  destruct (set_bits_spec _ _ Hin) as (bits' & Hset & Hlen & Hbit).
  exists {| bf_bits := bits'; bf_k := bf_k b |}. unfold bloom_add. rewrite Hp. simpl. rewrite Hset.
  split_and!; try done. unfold bloom_wf in *. simpl. by destruct (bf_bits b), bits'.
Qed.

Lemma bloom_probes_shape b b' key :
  bf_k b' = bf_k b → length (bf_bits b') = length (bf_bits b) → bloom_probes b' key = bloom_probes b key.
Proof. unfold bloom_probes. by intros -> ->. Qed.

(** A key that answers "maybe" goes on doing so as keys are added. *)
Lemma bloom_add_mono b b' key key' :
  bloom_wf b → bloom_add b key = Ok b' →
  maybe_contains b key' = Ok true ∨ key' = key → maybe_contains b' key' = Ok true.
Proof.
  intros Hwf Hadd Hk. destruct (bloom_add_spec b key Hwf) as (b1 & E & Hwf' & Hks & Hlen & Hbit).
  rewrite Hadd in E. injection E as <-.
  rewrite maybe_contains_spec in * by done. f_equal. apply forallb_forall. intros q Hq.
  rewrite (bloom_probes_shape b) in Hq by done. apply list_elem_of_In in Hq.
  destruct (positions_wf b key' Hwf) as [_ Hin]. rewrite list.Forall_forall in Hin.
  destruct (Hin q Hq) as [Hq0 _]. rewrite Hbit by done.
  destruct Hk as [[= Hk]| ->].
  - rewrite forallb_forall in Hk. rewrite (Hk q) by (by apply list_elem_of_In). apply orb_true_r.
  - by rewrite bool_decide_eq_true_2.
Qed.

Lemma bloom_add_all_spec b keys :
  bloom_wf b →
  ∃ b', bloom_add_all b keys = Ok b' ∧ bloom_wf b' ∧ bf_k b' = bf_k b ∧
    length (bf_bits b') = length (bf_bits b) ∧
    ∀ key, key ∈ keys ∨ maybe_contains b key = Ok true → maybe_contains b' key = Ok true.
Proof.
  revert b. induction keys as [|k keys IH]; intros b Hwf; simpl.
  - exists b. split_and!; [done..|]. intros key [H|]; [|done]. by apply not_elem_of_nil in H.
  - destruct (bloom_add_spec b k Hwf) as (b1 & E & Hwf1 & Hk1 & Hl1 & _). rewrite E. simpl.
    destruct (IH b1 Hwf1) as (b2 & E2 & Hwf2 & Hk2 & Hl2 & Hc).
    exists b2. split_and!; [done|done|congruence|congruence|].
    intros key [[->|H]%elem_of_cons|H]; apply Hc; eauto using bloom_add_mono.
Qed.

Lemma bloom_new_wf n : bloom_wf (bloom_new n).
Proof.
  unfold bloom_wf, bloom_new, div_ceil; simpl.
  assert (8 <= (Z.max (n * BITS_PER_KEY) 64 + 8 - 1) / 8) by (apply Z.div_le_lower_bound; lia).
  destruct (Z.to_nat _) eqn:E; [lia|done].
Qed.

Lemma bloom_new_length n :
  0 <= n → 8 * Z.of_nat (length (bf_bits (bloom_new n))) < Z.max (n * 10) 64 + 8.
Proof.
  intros Hn. unfold bloom_new, div_ceil, BITS_PER_KEY; simpl. rewrite length_replicate.
  pose proof (Z.div_mod (Z.max (n * 10) 64 + 8 - 1) 8 ltac:(lia)).
  pose proof (Z.mod_pos_bound (Z.max (n * 10) 64 + 8 - 1) 8 ltac:(lia)). lia.
Qed.

#[export] Hint Resolve bloom_new_wf : ferrum.
