(* ===== verification/BlockCache.v ===== *)
(** * The block cache of sstable.rs: a bounded LRU of decoded blocks *)

From S2P Require Import Prelude.

Record BlockCache := { blocks : gmap Z bytes; lru : list Z; cap : nat }.

Definition cache_new (cap : nat) : BlockCache := {| blocks := ∅; lru := []; cap := cap |}.

(** Removes the first occurrence of [offset], as [position] and [remove] do. *)
Fixpoint remove_first (offset : Z) (l : list Z) : list Z :=
  match l with
  | [] => []
  | o :: l' => if o =? offset then l' else o :: remove_first offset l'
  end.

(** [BlockCache::touch]: moves [offset] to the most recently used end. *)
Definition touch (offset : Z) (c : BlockCache) : BlockCache :=
  {| blocks := blocks c; lru := remove_first offset (lru c) ++ [offset]; cap := cap c |}.

(** [BlockCache::get]. *)
Definition cache_get (offset : Z) (c : BlockCache) : option bytes * BlockCache :=
  match blocks c !! offset with
  | None => (None, c)
  | Some bs => (Some bs, touch offset c)
  end.

(** [BlockCache::put]. *)
Definition cache_put (offset : Z) (bs : bytes) (c : BlockCache) : BlockCache :=
  if decide (cap c = 0%nat) then c else
  let c' :=
    if decide (blocks c !! offset = None ∧ (cap c <= size (blocks c))%nat) then
      match lru c with
      | [] => c
      | evict :: rest => {| blocks := delete evict (blocks c); lru := rest; cap := cap c |}
      end
    else c in
  touch offset {| blocks := <[offset := bs]> (blocks c'); lru := lru c'; cap := cap c' |}.

(** ** The invariant: the LRU list holds each cached offset once, and the cache
    stays within its capacity. *)

Record cache_wf (c : BlockCache) : Prop := {
  lru_nodup : NoDup (lru c);
  lru_blocks o : o ∈ lru c ↔ is_Some (blocks c !! o);
  cache_bound : (size (blocks c) <= cap c)%nat;
}.

Lemma cache_new_wf n : cache_wf (cache_new n).
Proof.
  split; simpl; [constructor| |rewrite map_size_empty; lia].
  intros o. rewrite lookup_empty. split; [by intros ?%not_elem_of_nil|by intros [? ?]].
Qed.

Lemma elem_of_remove_first x o l : NoDup l → x ∈ remove_first o l ↔ x ∈ l ∧ x ≠ o.
Proof.
  induction l as [|y l IH]; simpl; [set_solver|]. intros [Hy Hl]%list.NoDup_cons.
  destruct (Z.eqb_spec y o) as [->|]; [set_solver|]. rewrite !elem_of_cons, IH by done. set_solver.
Qed.

Lemma NoDup_remove_first o l : NoDup l → NoDup (remove_first o l).
Proof.
  induction l as [|y l IH]; simpl; [done|]. intros [Hy Hl]%list.NoDup_cons.
  destruct (Z.eqb_spec y o); [done|]. apply list.NoDup_cons. split; [|by apply IH].
  rewrite elem_of_remove_first by done. naive_solver.
Qed.

Lemma touch_nodup o c : NoDup (lru c) → NoDup (lru (touch o c)).
Proof.
  intros H. simpl. apply list.NoDup_app. split_and!.
  - by apply NoDup_remove_first.
  - intros x. rewrite elem_of_remove_first by done. set_solver.
  - apply NoDup_singleton.
Qed.

Lemma elem_of_touch x o c : NoDup (lru c) → x ∈ lru (touch o c) ↔ x ∈ lru c ∨ x = o.
Proof.
  intros H. simpl. rewrite elem_of_app, elem_of_remove_first, list_elem_of_singleton by done.
  destruct (decide (x = o)); naive_solver.
Qed.

Lemma touch_wf o c : cache_wf c → is_Some (blocks c !! o) → cache_wf (touch o c).
Proof.
  intros [H1 H2 H3] Ho. split; [by apply touch_nodup| |done].
  intros x. rewrite elem_of_touch, H2 by done. simpl. naive_solver.
Qed.

Lemma cache_get_wf o c : cache_wf c → cache_wf (cache_get o c).2.
Proof. intros H. unfold cache_get. destruct (blocks c !! o) eqn:E; [|done]. by apply touch_wf. Qed.

Lemma cache_get_blocks o c : blocks (cache_get o c).2 = blocks c.
Proof. unfold cache_get. by destruct (blocks c !! o). Qed.

(** Inserting at a fresh offset, once there is room. *)
Lemma insert_wf o bs bl l n :
  NoDup l → (∀ x, x ∈ l ↔ is_Some (bl !! x)) →
  (size (<[o := bs]> bl : gmap Z bytes) <= n)%nat →
  cache_wf (touch o {| blocks := <[o := bs]> bl; lru := l; cap := n |}).
Proof.
  intros H1 H2 H3. split; simpl; [by apply (touch_nodup o {| blocks := bl; lru := l; cap := n |})| |done].
  intros x. rewrite (elem_of_touch x o {| blocks := bl; lru := l; cap := n |}) by done. simpl.
  rewrite H2. destruct (decide (x = o)) as [->|].
  - rewrite lookup_insert_eq. split; [eauto|]. intros _. by right.
  - rewrite lookup_insert_ne by done. naive_solver.
Qed.

Lemma cache_put_wf o bs c : cache_wf c → cache_wf (cache_put o bs c).
Proof.
  intros [H1 H2 H3]. unfold cache_put. destruct (decide (cap c = 0%nat)); [done|].
  destruct (decide _) as [[Ho Hfull]|Hroom].
  - destruct (lru c) as [|e rest] eqn:El.
    + assert (blocks c = ∅) as Eb.
      { apply map_empty. intros x. destruct (blocks c !! x) eqn:E; [|done].
        assert (x ∈ @nil Z) by (apply H2; eauto). set_solver. }
      rewrite Eb in *. rewrite map_size_empty in Hfull. lia.
    + simpl. apply list.NoDup_cons in H1 as [He Hrest]. apply insert_wf; [done| |].
      * intros x. destruct (decide (x = e)) as [->|Hx].
        { rewrite lookup_delete_eq. split; [done|by intros [? ?]]. }
        rewrite lookup_delete_ne by done. rewrite <-H2. set_solver.
      * assert (is_Some (blocks c !! e)) by (apply H2; set_solver).
        rewrite map_size_insert_None.
        -- rewrite map_size_delete. destruct (blocks c !! e) eqn:Ee; [|by destruct H].
           simpl. lia.
        -- rewrite lookup_delete_None. auto.
  - apply insert_wf; [done..|].
    destruct (blocks c !! o) as [b|] eqn:Eo.
    + rewrite map_size_insert_Some by eauto. done.
    + rewrite map_size_insert_None by done. apply not_and_r in Hroom. destruct Hroom; [done|lia].
Qed.

(** What is cached after a [put]: the new block, and nothing that was not there. *)
Lemma cache_put_lookup o bs c x b :
  blocks (cache_put o bs c) !! x = Some b →
  (x = o ∧ b = bs) ∨ blocks c !! x = Some b.
Proof.
  unfold cache_put. destruct (decide _); [auto|]. simpl.
  destruct (decide (x = o)) as [->|Hx].
  - destruct (decide _); [destruct (lru c)|]; simpl; rewrite lookup_insert_eq; intros [= ->]; auto.
  - destruct (decide _); [destruct (lru c)|]; simpl; rewrite lookup_insert_ne by done; auto.
    intros [_ ?]%lookup_delete_Some. auto.
Qed.

(** A block just put is found again. *)
Lemma cache_put_get o bs c : cap c ≠ 0%nat → (cache_get o (cache_put o bs c)).1 = Some bs.
Proof.
  intros Hc. unfold cache_put. rewrite decide_False by done. unfold cache_get. simpl.
  by rewrite lookup_insert_eq.
Qed.

(** ** Recency

    [used rs c]: the offsets that the requests [rs] use from cache [c] on, in
    order: a hit and a put use their offset, a miss uses nothing. *)

Inductive request := CGet (offset : Z) | CPut (offset : Z) (block : bytes).

Definition cache_run (c : BlockCache) (r : request) : BlockCache :=
  match r with CGet o => (cache_get o c).2 | CPut o bs => cache_put o bs c end.

Definition uses (c : BlockCache) (r : request) : list Z :=
  match r with
  | CGet o => if decide (blocks c !! o = None) then [] else [o]
  | CPut o _ => if decide (cap c = 0%nat) then [] else [o]
  end.

Fixpoint used (rs : list request) (c : BlockCache) : list Z :=
  match rs with
  | [] => []
  | r :: rs => uses c r ++ used rs (cache_run c r)
  end.

(** The last use of [v] is before the last use of [x]. *)
Definition older (us : list Z) (v x : Z) : Prop := ∃ us1 us2, us = us1 ++ us2 ∧ ¬ (v ∈ us2) ∧ x ∈ us2.

Lemma older_snoc us v x o : v ≠ o → older us v x → older (us ++ [o]) v x.
Proof.
  intros Hv (us1 & us2 & -> & Hn & Hx). exists us1, (us2 ++ [o]). rewrite <-app_assoc.
  split; [done|]. rewrite !elem_of_app, list_elem_of_singleton. naive_solver.
Qed.

Lemma older_last us v o : v ≠ o → older (us ++ [o]) v o.
Proof. intros Hv. exists us, [o]. by rewrite !list_elem_of_singleton. Qed.

(** The LRU list is ordered by last use. *)
Definition by_use (us : list Z) (c : BlockCache) : Prop := StronglySorted (older us) (lru c).

Lemma sorted_snoc us o l :
  o ∉ l → StronglySorted (older us) l → StronglySorted (older (us ++ [o])) l.
Proof.
  induction l as [|x l IH]; intros Hl Hs; [constructor|]. apply not_elem_of_cons in Hl as [Hx Hl].
  inversion Hs as [|? ? Hs' Hall]. constructor; [by apply IH|].
  eapply list.Forall_impl; [exact Hall|]. intros y. by apply older_snoc.
Qed.

Lemma sorted_remove_first us o l :
  NoDup l → StronglySorted (older us) l → StronglySorted (older (us ++ [o])) (remove_first o l ++ [o]).
Proof.
  intros Hl Hs. apply StronglySorted_app. split_and!.
  - intros x y Hx Hy. apply elem_of_remove_first in Hx as [_ Hx]; [|done]. apply list_elem_of_singleton in Hy as ->.
    by apply older_last.
  - induction Hs as [|x l Hs IH Hx]; [constructor|]. apply list.NoDup_cons in Hl as [Hxl Hl]. cbn.
    destruct (Z.eqb_spec x o) as [->|Hne].
    + by apply sorted_snoc.
    + constructor; [by apply IH|]. rewrite list.Forall_forall in *. intros y Hy.
      apply elem_of_remove_first in Hy as [Hy _]; [|done]. apply older_snoc; [done|]. by apply Hx.
  - constructor; [constructor|constructor].
Qed.

Lemma cache_run_by_use us c r : cache_wf c → by_use us c → by_use (us ++ uses c r) (cache_run c r).
Proof.
  intros [Hnd _ _] Hs. unfold by_use in *. destruct r as [o|o bs]; cbn [cache_run uses].
  - unfold cache_get. destruct (blocks c !! o) as [b|]; cbn [snd];
      [rewrite decide_False by done; by apply sorted_remove_first|by rewrite decide_True, app_nil_r].
  - unfold cache_put. destruct (decide (cap c = 0%nat)); [by rewrite app_nil_r|].
    destruct (decide (_ ∧ _)); [|by apply sorted_remove_first].
    destruct (lru c) as [|v rest] eqn:El; cbn; [rewrite El; by apply (sorted_remove_first us o [])|].
    inversion_clear Hs. apply list.NoDup_cons in Hnd as [_ Hnd]. by apply sorted_remove_first.
Qed.

Lemma used_by_use rs us c :
  cache_wf c → by_use us c → by_use (us ++ used rs c) (fold_left cache_run rs c) ∧ cache_wf (fold_left cache_run rs c).
Proof.
  revert us c. induction rs as [|r rs IH]; intros us c Hwf Hs; cbn [used fold_left]; [by rewrite app_nil_r|].
  rewrite app_assoc. apply IH; [|by apply cache_run_by_use]. destruct r; [by apply cache_get_wf|by apply cache_put_wf].
Qed.

(** A [put] that needs room drops the head of the LRU list. *)
Lemma cache_put_evicts o bs c :
  cache_wf c → cap c ≠ 0%nat → blocks c !! o = None → size (blocks c) = cap c →
  ∃ victim rest, lru c = victim :: rest ∧ blocks (cache_put o bs c) = <[o := bs]> (delete victim (blocks c)).
Proof.
  intros Hwf Hcap Ho Hsz. destruct (lru c) as [|victim rest] eqn:El.
  - destruct (map_choose (blocks c)) as (x & b & Hx); [intros E; rewrite E, map_size_empty in Hsz; lia|].
    assert (Hin : x ∈ lru c) by (apply Hwf; eauto). rewrite El in Hin. by apply elem_of_nil in Hin.
  - exists victim, rest. split; [done|]. unfold cache_put. rewrite decide_False by done.
    rewrite decide_True by (split; [done|lia]). by rewrite El.
Qed.

#[export] Hint Resolve cache_new_wf cache_get_wf cache_put_wf : ferrum.
