(* ===== verification/SsTable.v ===== *)
(** * SSTables: sstable.rs

    The record, block, index and footer encodings, [flush], [open], [get] and
    [read_all_entries].  [Record], [Layout], [Image], [Search] and [TableSpec]
    hold the theorems. *)

From S2P Require Import Prelude Machine Value Checksum Bloom BlockCache Fs.

Definition BLOCK_SIZE : Z := 4096.
(** The ASCII bytes "FSST". *)
Definition MAGIC : bytes := [Byte.x46; Byte.x53; Byte.x53; Byte.x54].
Definition VERSION : Z := 3.
Definition FOOTER_LEN : Z := 28.
Definition BLOCK_CACHE_CAP : nat := 32.
Definition TYPE_VALUE : Z := 0.
Definition TYPE_TOMBSTONE : Z := 1.

Record IndexEntry := { first_key : bytes; block_offset : Z; block_len : Z }.

Record SsTable := {
  sst_path : path;
  index : list IndexEntry;
  min_key : option bytes;
  max_key : option bytes;
  bloom : option BloomFilter;
  cache : BlockCache;
}.

Definition set_cache (c : BlockCache) (t : SsTable) : SsTable :=
  {| sst_path := sst_path t; index := index t; min_key := min_key t;
     max_key := max_key t; bloom := bloom t; cache := c |}.

(** ** Primitive readers: a cursor into a buffer, advanced past what is read *)

Definition unexpected_end {A} : outcome A := Err (DecodeError "unexpected end of SSTable record").

Definition read_bytes (buf : bytes) (c len : Z) : outcome (bytes * Z) :=
  if Z.of_nat (length buf) <? c + len then unexpected_end else Ok (slice buf c len, c + len).

Definition read_u8 (buf : bytes) (c : Z) : outcome (Z * Z) :=
  if Z.of_nat (length buf) <? c + 1 then unexpected_end
  else v ← index_byte buf c; Ok (byte_to_Z v, c + 1).

Definition read_u32 (buf : bytes) (c : Z) : outcome (Z * Z) :=
  if Z.of_nat (length buf) <? c + 4 then unexpected_end
  else Ok (be_decode (slice buf c 4), c + 4).

Definition read_u64 (buf : bytes) (c : Z) : outcome (Z * Z) :=
  if Z.of_nat (length buf) <? c + 8 then unexpected_end
  else Ok (be_decode (slice buf c 8), c + 8).

(** [write_u32(out, v)] with [v] an [as u32] cast: the low 32 bits. *)
Definition write_u32 (out : bytes) (v : Z) : bytes := out ++ be32 v.

Section sstable.
Context {Prof : Profile} {Cd : Codec}.

(** ** Records *)

Definition encode_record (out : bytes) (key : bytes) (entry : Entry) : bytes :=
  let out := write_u32 out (Z.of_nat (length key)) in
  let out := out ++ key in
  match entry with
  | EValue v =>
      let out := out ++ [byte_of_Z TYPE_VALUE] in
      let bs := encode_value_message (to_proto v) in
      let out := write_u32 out (Z.of_nat (length bs)) in
      out ++ bs
  | Tombstone =>
      let out := out ++ [byte_of_Z TYPE_TOMBSTONE] in
      write_u32 out 0
  end.

(** [ValueMessage::decode(b).map_err(..)] then [Value::from_proto]. *)
Definition decode_value (bs : bytes) : outcome Value :=
  match decode_value_message bs with
  | inl msg => from_proto msg
  | inr e => Err (DecodeError e)
  end.

Definition decode_record (buf : bytes) (c : Z) : outcome (bytes * Entry * Z) :=
  '(key_len, c) ← read_u32 buf c;
  '(key, c) ← read_bytes buf c key_len;
  '(rec_type, c) ← read_u8 buf c;
  '(val_len, c) ← read_u32 buf c;
  if rec_type =? TYPE_VALUE then
    '(val_bytes, c) ← read_bytes buf c val_len;
    v ← decode_value val_bytes;
    Ok (key, EValue v, c)
  else Ok (key, Tombstone, c).

(** The loop of [read_all_entries] over one block; [None]: out of fuel. *)
Fixpoint decode_records (fuel : nat) (records : bytes) (c : Z) (out : list (bytes * Entry)) :
    option (outcome (list (bytes * Entry))) :=
  match fuel with
  | O => None
  | S fuel =>
      if negb (c <? Z.of_nat (length records)) then Some (Ok out) else
      match decode_record records c with
      | Ok (key, entry, c) => decode_records fuel records c (out ++ [(key, entry)])
      | Err e => Some (Err e)
      | _ => Some Panic
      end
  end.

(** The loop of [find_in_block]. *)
Fixpoint find_loop (fuel : nat) (records key : bytes) (c : Z) : option (outcome (option Entry)) :=
  match fuel with
  | O => None
  | S fuel =>
      if negb (c <? Z.of_nat (length records)) then Some (Ok None) else
      let next :=
        '(key_len, c) ← read_u32 records c;
        '(rec_key, c) ← read_bytes records c key_len;
        '(rec_type, c) ← read_u8 records c;
        '(val_len, c) ← read_u32 records c;
        '(val_bytes, c) ← read_bytes records c val_len;
        Ok (rec_key, rec_type, val_bytes, c) in
      match next with
      | Ok (rec_key, rec_type, val_bytes, c) =>
          match bytes_cmp rec_key key with
          | Eq => Some (if rec_type =? TYPE_VALUE then v ← decode_value val_bytes; Ok (Some (EValue v))
                        else Ok (Some Tombstone))
          | Gt => Some (Ok None)
          | Lt => find_loop fuel records key c
          end
      | Err e => Some (Err e)
      | _ => Some Panic
      end
  end.

Definition find_in_block (records key : bytes) : outcome (option Entry) :=
  default Panic (find_loop (S (length records)) records key 0).

(** ** Writing a table *)

(** [finalize_block]: the file and the index with the block added to them. *)
Definition finalize_block (file block : bytes) (idx : list IndexEntry) (fk : option bytes) (offset : Z) :
    bytes * list IndexEntry :=
  let crc := crc32 block in
  let file' := (file ++ block) ++ be32 crc in
  let block_len := (Z.of_nat (length file') - Z.of_nat (length file)) mod 2 ^ 32 in
  (file', idx ++ [{| first_key := default [] fk; block_offset := offset; block_len := block_len |}]).

(** The local variables of the loop of [flush]. *)
Record flush_state := FlushState {
  fl_file : bytes;
  fl_index : list IndexEntry;
  fl_block : bytes;
  fl_first_key : option bytes;
  fl_block_offset : Z;
  fl_min : option bytes;
  fl_max : option bytes;
  fl_keys : list bytes;
}.

Definition flush_init : flush_state := FlushState [] [] [] None 0 None None [].

(** Closes the block under construction: the [finalize_block] calls of [flush]. *)
Definition close_block (st : flush_state) : flush_state :=
  let '(file, idx) := finalize_block (fl_file st) (fl_block st) (fl_index st) (fl_first_key st)
                        (fl_block_offset st) in
  FlushState file idx [] None (fl_block_offset st) (fl_min st) (fl_max st) (fl_keys st).

Definition flush_step (st : flush_state) (ke : bytes * Entry) : flush_state :=
  let '(key, entry) := ke in
  let mn := match fl_min st with None => Some key | m => m end in
  let '(fk, off) :=
    match fl_block st with
    | [] => (Some key, Z.of_nat (length (fl_file st)))
    | _ => (fl_first_key st, fl_block_offset st)
    end in
  let st := FlushState (fl_file st) (fl_index st) (encode_record (fl_block st) key entry) fk off
              mn (Some key) (fl_keys st ++ [key]) in
  if BLOCK_SIZE <=? Z.of_nat (length (fl_block st)) then close_block st else st.

(** The trailing partial block. *)
Definition flush_trailing (st : flush_state) : flush_state :=
  match fl_block st with [] => st | _ => close_block st end.

Definition flush_loop (entries : list (bytes * Entry)) : flush_state :=
  flush_trailing (fold_left flush_step entries flush_init).

Definition write_index_entry (file : bytes) (e : IndexEntry) : bytes :=
  let file := write_u32 file (Z.of_nat (length (first_key e))) in
  let file := file ++ first_key e in
  let file := file ++ be64 (block_offset e) in
  write_u32 file (block_len e).

Definition write_key_range (file : bytes) (mn mx : option bytes) : bytes :=
  match mn, mx with
  | Some mn, Some mx =>
      let file := write_u32 file (Z.of_nat (length mn)) ++ mn in
      write_u32 file (Z.of_nat (length mx)) ++ mx
  | _, _ => file
  end.

Definition build_bloom (keys : list bytes) : outcome (option BloomFilter) :=
  match keys with
  | [] => Ok None
  | _ => b ← bloom_add_all (bloom_new (Z.of_nat (length keys))) keys; Ok (Some b)
  end.

Definition write_bloom (file : bytes) (b : option BloomFilter) : bytes :=
  match b with
  | None => file
  | Some b => write_u32 (write_u32 file (bf_k b)) (Z.of_nat (length (bf_bits b))) ++ bf_bits b
  end.

Definition write_footer (file : bytes) (index_offset index_len entry_count : Z) : bytes :=
  write_u32 ((file ++ be64 index_offset) ++ be64 index_len) entry_count ++ MAGIC ++ be32 VERSION.

(** The bytes of the table of [entries], and the table in memory. *)
Definition build_table (p : path) (entries : list (bytes * Entry)) : outcome (bytes * SsTable) :=
  let st := flush_loop entries in
  let index_offset := Z.of_nat (length (fl_file st)) in
  let file := fold_left write_index_entry (fl_index st) (fl_file st) in
  let file := write_key_range file (fl_min st) (fl_max st) in
  b ← build_bloom (fl_keys st);
  let file := write_bloom file b in
  let index_len := Z.of_nat (length file) - index_offset in
  let file := write_footer file index_offset index_len (Z.of_nat (length (fl_index st))) in
  Ok (file, {| sst_path := p; index := fl_index st; min_key := fl_min st; max_key := fl_max st;
               bloom := b; cache := cache_new BLOCK_CACHE_CAP |}).

(** [SsTable::flush]. *)
Definition flush (p : path) (entries : list (bytes * Entry)) : M world SsTable :=
  _ ← fs_create_dir_all (parent p);
  '(file, t) ← lift (build_table p entries);
  _ ← fs_open_truncate p;
  _ ← fs_write_all p file;
  _ ← fs_sync_all p;
  mret t.

(** ** Opening a table *)

Fixpoint read_index (n : nat) (buf : bytes) (c : Z) : outcome (list IndexEntry * Z) :=
  match n with
  | O => Ok ([], c)
  | S n =>
      '(key_len, c) ← read_u32 buf c;
      '(fk, c) ← read_bytes buf c key_len;
      '(off, c) ← read_u64 buf c;
      '(len, c) ← read_u32 buf c;
      '(idx, c) ← read_index n buf c;
      Ok ({| first_key := fk; block_offset := off; block_len := len |} :: idx, c)
  end.

(** The index region: the entries, then the key range and the bloom filter. *)
Definition parse_index (buf : bytes) (entry_count : Z) :
    outcome (list IndexEntry * option bytes * option bytes * option BloomFilter) :=
  '(idx, c) ← read_index (Z.to_nat entry_count) buf 0;
  if c <? Z.of_nat (length buf) then
    '(min_len, c) ← read_u32 buf c;
    '(mn, c) ← read_bytes buf c min_len;
    '(max_len, c) ← read_u32 buf c;
    '(mx, c) ← read_bytes buf c max_len;
    '(k, c) ← read_u32 buf c;
    '(bits_len, c) ← read_u32 buf c;
    '(bits, c) ← read_bytes buf c bits_len;
    Ok (idx, Some mn, Some mx, Some {| bf_bits := bits; bf_k := k |})
  else Ok (idx, None, None, None).

(** The footer: index offset, index length and entry count, once magic and
    version are right. *)
Definition parse_footer (footer : bytes) : outcome (Z * Z * Z) :=
  let index_offset := be_decode (slice footer 0 8) in
  let index_len := be_decode (slice footer 8 8) in
  let entry_count := be_decode (slice footer 16 4) in
  let version := be_decode (slice footer 24 4) in
  if negb (bool_decide (slice footer 20 4 = MAGIC)) then
    Err (DecodeError "not a FerrumDB SSTable (bad magic)")
  else if negb (version =? VERSION) then
    Err (DecodeError ("unsupported SSTable version " +:+ pretty version))
  else Ok (index_offset, index_len, entry_count).

(** The size of an [IndexEntry]: a [Vec] of 24 bytes, a [u64], a [u32], padded. *)
Definition INDEX_ENTRY_SIZE : Z := 40.

(** [SsTable::open].  (The memory that [with_capacity] reserves for a large count
    is granted, as everywhere in this model.) *)
Definition open (p : path) : M world SsTable :=
  _ ← fs_open_existing p;
  file_len ← fs_len p;
  if file_len <? FOOTER_LEN then lift (Err (DecodeError "SSTable smaller than footer")) else
  _ ← fs_seek (file_len - FOOTER_LEN);
  footer ← fs_read_exact p (file_len - FOOTER_LEN) FOOTER_LEN;
  '(index_offset, index_len, entry_count) ← lift (parse_footer footer);
  _ ← fs_seek index_offset;
  _ ← lift (alloc_zeroed index_len);
  buf ← fs_read_exact p index_offset index_len;
  _ ← lift (with_capacity entry_count INDEX_ENTRY_SIZE);
  '(idx, mn, mx, b) ← lift (parse_index buf entry_count);
  mret {| sst_path := p; index := idx; min_key := mn; max_key := mx; bloom := b;
          cache := cache_new BLOCK_CACHE_CAP |}.

(** ** Reading blocks *)

(** [read_block_from_disk]: the record bytes of a block, its CRC checked. *)
Definition read_block_from_disk (p : path) (e : IndexEntry) : M world bytes :=
  _ ← fs_seek (block_offset e);
  block ← fs_read_exact p (block_offset e) (block_len e);
  split ← lift (sub64 (Z.of_nat (length block)) 4);
  if Z.of_nat (length block) <? split then lift Panic else
  let records := slice block 0 split in
  if negb (crc32 records =? be_decode (drop (Z.to_nat split) block)) then
    lift (Err (DecodeError ("SSTable block CRC mismatch at offset " +:+ pretty (block_offset e))))
  else mret records.

(** [SsTable::cached_block]. *)
Definition cached_block (e : IndexEntry) : M (SsTable * world) bytes :=
  t ← self id;
  let '(hit, c) := cache_get (block_offset e) (cache t) in
  _ ← set_self (set_cache c);
  match hit with
  | Some bs => mret bs
  | None =>
      _ ← on_world (fs_open_existing (sst_path t));
      records ← on_world (read_block_from_disk (sst_path t) e);
      _ ← set_self (λ t, set_cache (cache_put (block_offset e) records (cache t)) t);
      mret records
  end.

(** [binary_search_by] of the standard library on [n] elements: [inl] is its
    [Ok], the position of a match, [inr] its [Err], the insertion point. *)
Fixpoint bsearch_loop (fuel : nat) (cmp : nat → comparison) (base size : nat) : nat :=
  match fuel with
  | O => base
  | S fuel =>
      if (size <=? 1)%nat then base else
      let half := Nat.div2 size in
      let mid := (base + half)%nat in
      bsearch_loop fuel cmp (match cmp mid with Gt => base | _ => mid end) (size - half)
  end.

Definition binary_search_by (cmp : nat → comparison) (n : nat) : nat + nat :=
  match n with
  | O => inr O
  | _ =>
      let base := bsearch_loop n cmp 0 n in
      match cmp base with
      | Eq => inl base
      | Lt => inr (S base)
      | Gt => inr base
      end
  end.

Definition index_cmp (idx : list IndexEntry) (key : bytes) (i : nat) : comparison :=
  match idx !! i with
  | Some e => bytes_cmp (first_key e) key
  | None => Eq
  end.

(** The block whose first key is the largest one not above [key]. *)
Definition locate_block (idx : list IndexEntry) (key : bytes) : option nat :=
  match binary_search_by (index_cmp idx key) (length idx) with
  | inl i => Some i
  | inr O => None
  | inr (S i) => Some i
  end.

Definition out_of_range (mn mx : option bytes) (key : bytes) : bool :=
  match mn, mx with
  | Some mn, Some mx => bytes_ltb key mn || bytes_ltb mx key
  | _, _ => false
  end.

(** [SsTable::get]. *)
Definition get (key : bytes) : M (SsTable * world) (option Entry) :=
  t ← self id;
  if decide (index t = []) then mret None else
  if out_of_range (min_key t) (max_key t) key then mret None else
  maybe ← lift (match bloom t with Some b => maybe_contains b key | None => Ok true end);
  if negb maybe then mret None else
  match locate_block (index t) key with
  | None => mret None
  | Some pos =>
      match index t !! pos with
      | None => lift Panic
      | Some e =>
          records ← cached_block e;
          lift (find_in_block records key)
      end
  end.

(** The block loop of [read_all_entries]. *)
Fixpoint read_blocks (p : path) (idx : list IndexEntry) (out : list (bytes * Entry)) :
    M world (list (bytes * Entry)) :=
  match idx with
  | [] => mret out
  | e :: idx =>
      records ← read_block_from_disk p e;
      out ← lift (default Panic (decode_records (S (length records)) records 0 out));
      read_blocks p idx out
  end.

(** [SsTable::read_all_entries]. *)
Definition read_all_entries (t : SsTable) : M world (list (bytes * Entry)) :=
  if decide (index t = []) then mret [] else
  _ ← fs_open_existing (sst_path t);
  read_blocks (sst_path t) (index t) [].

(** ** Accessors *)

Definition block_count (t : SsTable) : nat := length (index t).
Definition cached_blocks (t : SsTable) : nat := size (blocks (cache t)).
Definition key_range (t : SsTable) : option (bytes * bytes) :=
  match min_key t, max_key t with
  | Some mn, Some mx => Some (mn, mx)
  | _, _ => None
  end.
Definition might_contain (t : SsTable) (key : bytes) : outcome bool :=
  match bloom t with
  | Some b => maybe_contains b key
  | None => Ok false
  end.
End sstable.
