(* ===== verification/Record.v ===== *)
(** * Round trips of the SSTable record encoding

    Readers on a buffer that holds, from the cursor on, what the writers wrote. *)

From S2P Require Import Prelude Machine Value Fs Wal Bloom SsTable.

(** ** Tables as sorted association lists *)

Abbreviation entries := (list (bytes * Entry)).

Definition sorted_keys (es : list (bytes * Entry)) : Prop := StronglySorted bytes_lt es.*1.

(** What a list of entries says about a key. *)
Definition lookup_in (es : list (bytes * Entry)) (key : bytes) : option Entry :=
  (list_to_map es : gmap bytes Entry) !! key.

Lemma sorted_keys_nodup es : sorted_keys es → NoDup es.*1.
Proof.
  unfold sorted_keys. induction es as [|[k e] es IH]; simpl; [constructor|].
  intros [Hk Hs]%StronglySorted_cons. apply list.NoDup_cons. split; [|by apply IH].
  intros Hin. rewrite list.Forall_forall in Hk. by apply (bytes_lt_irrefl k), Hk.
Qed.

Lemma lookup_in_elem es key e : sorted_keys es → lookup_in es key = Some e ↔ (key, e) ∈ es.
Proof.
  intros Hs. unfold lookup_in. split; [apply elem_of_list_to_map_2|].
  apply elem_of_list_to_map_1. by apply sorted_keys_nodup.
Qed.

Lemma lookup_in_none es key : lookup_in es key = None ↔ key ∉ es.*1.
Proof. unfold lookup_in. split; [apply not_elem_of_list_to_map_2|apply not_elem_of_list_to_map_1]. Qed.

Lemma lookup_in_cons k e es key :
  lookup_in ((k, e) :: es) key = if decide (k = key) then Some e else lookup_in es key.
Proof.
  unfold lookup_in. simpl. destruct (decide (k = key)) as [->|].
  - by rewrite lookup_insert_eq.
  - by rewrite lookup_insert_ne.
Qed.

Lemma lookup_in_app es1 es2 key :
  lookup_in (es1 ++ es2) key =
  match lookup_in es1 key with Some e => Some e | None => lookup_in es2 key end.
Proof.
  induction es1 as [|[k e] es1 IH]; simpl; [done|]. rewrite !lookup_in_cons.
  by destruct (decide (k = key)).
Qed.

(** A key below all of a list is not in it. *)
Lemma lookup_in_below es key : Forall (bytes_lt key) es.*1 → lookup_in es key = None.
Proof.
  intros Hf. apply lookup_in_none. intros Hin. rewrite list.Forall_forall in Hf.
  by apply (bytes_lt_irrefl key), Hf.
Qed.

Lemma sorted_keys_app es1 es2 :
  sorted_keys (es1 ++ es2) ↔
  (∀ k1 k2, k1 ∈ es1.*1 → k2 ∈ es2.*1 → bytes_lt k1 k2) ∧ sorted_keys es1 ∧ sorted_keys es2.
Proof. unfold sorted_keys. by rewrite fmap_app, StronglySorted_app. Qed.

(** ** Readers at a position *)

Lemma read_bytes_at buf c l rest n :
  0 <= c → drop (Z.to_nat c) buf = l ++ rest → n = Z.of_nat (length l) →
  c <= Z.of_nat (length buf) →
  read_bytes buf c n = Ok (l, c + n).
Proof.
  intros Hc Hd -> Hb. unfold read_bytes.
  assert (length (l ++ rest) = (length buf - Z.to_nat c)%nat) as Hl by (rewrite <-Hd; apply length_drop).
  rewrite length_app in Hl. rewrite (proj2 (Z.ltb_ge _ _)) by lia.
  by erewrite slice_at.
Qed.

Lemma read_u32_at buf c v rest :
  0 <= c → drop (Z.to_nat c) buf = be32 v ++ rest → 0 <= v < 2 ^ 32 →
  read_u32 buf c = Ok (v, c + 4).
Proof.
  intros Hc Hd Hv. unfold read_u32.
  assert (Hl := drop_length_at _ _ _ Hc ltac:(rewrite length_app, length_be32; lia) Hd).
  rewrite length_app, length_be32 in Hl.
  rewrite (proj2 (Z.ltb_ge _ _)) by lia. erewrite slice_at; [|exact Hd|done].
  by rewrite be_decode_be32.
Qed.

Lemma read_u64_at buf c v rest :
  0 <= c → drop (Z.to_nat c) buf = be64 v ++ rest → 0 <= v < 2 ^ 64 →
  read_u64 buf c = Ok (v, c + 8).
Proof.
  intros Hc Hd Hv. unfold read_u64.
  assert (Hl := drop_length_at _ _ _ Hc ltac:(rewrite length_app, length_be64; lia) Hd).
  rewrite length_app, length_be64 in Hl.
  rewrite (proj2 (Z.ltb_ge _ _)) by lia. erewrite slice_at; [|exact Hd|done].
  by rewrite be_decode_be64.
Qed.

Lemma read_u8_at buf c b rest :
  0 <= c → drop (Z.to_nat c) buf = b :: rest → read_u8 buf c = Ok (byte_to_Z b, c + 1).
Proof.
  intros Hc Hd. unfold read_u8, index_byte.
  assert (Hl := drop_length_at _ _ (b :: rest) Hc (Nat.lt_0_succ _) Hd). simpl in Hl.
  rewrite (proj2 (Z.ltb_ge _ _)) by lia.
  replace (buf !! Z.to_nat c) with (Some b); [done|].
  rewrite <-(Nat.add_0_r (Z.to_nat c)), <-lookup_drop, Hd. done.
Qed.

(** Moves from a field known to lie at a position to the one after it. *)
Ltac next_field H n H' :=
  unshelve epose proof (drop_at _ _ _ _ n _ H eq_refl) as H'; [lia|].

(** Performs the read at the head of the goal, from a field known to lie there. *)
Ltac read_field D :=
  first
    [ erewrite read_u32_at; [|lia|exact D|lia]
    | erewrite read_u64_at; [|lia|exact D|lia]
    | erewrite read_bytes_at; [|lia|exact D|lia|lia] ];
  cbn [mbind outcome_bind].

Section record.
Context {Prof : Profile} {Cd : Codec} {CdOk : CodecOk Cd}.

(** ** One record *)

Definition type_tag (e : Entry) : byte :=
  byte_of_Z (match e with EValue _ => TYPE_VALUE | Tombstone => TYPE_TOMBSTONE end).
Definition value_bytes (e : Entry) : bytes :=
  match e with EValue v => encode_value_message (to_proto v) | Tombstone => [] end.

Definition enc_rec (ke : bytes * Entry) : bytes :=
  be32 (Z.of_nat (length ke.1)) ++ ke.1 ++ [type_tag ke.2] ++
  be32 (Z.of_nat (length (value_bytes ke.2))) ++ value_bytes ke.2.

(** A record whose length fields are exact, with room for it in a block. *)
Definition rec_small (ke : bytes * Entry) : Prop := Z.of_nat (length (enc_rec ke)) < 2 ^ 30.

Definition enc_block (es : list (bytes * Entry)) : bytes := concat (enc_rec <$> es).

Lemma encode_record_eq out k e : encode_record out k e = out ++ enc_rec (k, e).
Proof.
  unfold encode_record, enc_rec, write_u32, type_tag. destruct e; simpl;
    by rewrite <-!app_assoc, ?app_nil_r.
Qed.

Lemma length_enc_rec ke :
  length (enc_rec ke) = (9 + length ke.1 + length (value_bytes ke.2))%nat.
Proof.
  unfold enc_rec. rewrite !length_app, !length_be32. simpl. lia.
Qed.

Lemma enc_block_cons ke es : enc_block (ke :: es) = enc_rec ke ++ enc_block es.
Proof. done. Qed.

Lemma enc_block_app es1 es2 : enc_block (es1 ++ es2) = enc_block es1 ++ enc_block es2.
Proof. unfold enc_block. by rewrite fmap_app, concat_app. Qed.

Lemma enc_block_nil_inv es : enc_block es = [] → es = [].
Proof.
  destruct es as [|ke es]; [done|]. rewrite enc_block_cons. intros E.
  apply (f_equal length) in E. rewrite length_app, length_enc_rec in E. simpl in E. lia.
Qed.

Lemma length_enc_block_ge es : (length es <= length (enc_block es))%nat.
Proof.
  induction es as [|ke es IH]; [done|]. rewrite enc_block_cons, length_app, length_enc_rec. simpl. lia.
Qed.

Lemma type_tag_value e :
  (byte_to_Z (type_tag e) =? TYPE_VALUE) = match e with EValue _ => true | Tombstone => false end.
Proof. by destruct e. Qed.

Lemma decode_value_bytes v : decode_value (value_bytes (EValue v)) = Ok v.
Proof. unfold decode_value; simpl. by rewrite decode_encode_value_message, from_to_proto. Qed.

(** The five fields of a record, wherever it lies in a buffer. *)
Lemma record_fields buf c k e rest :
  0 <= c → drop (Z.to_nat c) buf = enc_rec (k, e) ++ rest → rec_small (k, e) →
  ∃ c1 c2 c3 c4,
    read_u32 buf c = Ok (Z.of_nat (length k), c1) ∧
    read_bytes buf c1 (Z.of_nat (length k)) = Ok (k, c2) ∧
    read_u8 buf c2 = Ok (byte_to_Z (type_tag e), c3) ∧
    read_u32 buf c3 = Ok (Z.of_nat (length (value_bytes e)), c4) ∧
    read_bytes buf c4 (Z.of_nat (length (value_bytes e))) =
      Ok (value_bytes e, c + Z.of_nat (length (enc_rec (k, e)))) ∧
    (e = Tombstone → c4 = c + Z.of_nat (length (enc_rec (k, e)))) ∧
    drop (Z.to_nat (c + Z.of_nat (length (enc_rec (k, e))))) buf = rest.
Proof.
  intros Hc Hd Hs. unfold rec_small in Hs. pose proof (length_enc_rec (k, e)) as Hl; cbn [fst snd] in Hl.
  assert (Hb : (0 < length (enc_rec (k, e) ++ rest))%nat) by (rewrite length_app; lia).
  eapply drop_length_at in Hb; [|exact Hc|exact Hd]. rewrite length_app in Hb.
  assert (Hend : drop (Z.to_nat (c + Z.of_nat (length (enc_rec (k, e))))) buf = rest)
    by (by eapply drop_at).
  assert (H0 := Hd). unfold enc_rec in H0. cbn [fst snd] in H0.
  rewrite <-!app_assoc in H0.
  next_field H0 4 H1. next_field H1 (Z.of_nat (length k)) H2.
  next_field H2 1 H3. next_field H3 4 H4.
  do 4 eexists. split_and!.
  - eapply read_u32_at; [done|exact H0|lia].
  - eapply read_bytes_at; [lia|exact H1|done|lia].
  - eapply read_u8_at; [lia|exact H2].
  - eapply read_u32_at; [lia|exact H3|lia].
  - erewrite read_bytes_at; [|lia|exact H4|done|lia]. do 2 f_equal. lia.
  - intros ->. cbn [value_bytes length] in Hl. lia.
  - done.
Qed.

Lemma decode_record_at buf c k e rest :
  0 <= c → drop (Z.to_nat c) buf = enc_rec (k, e) ++ rest → rec_small (k, e) →
  decode_record buf c = Ok (k, e, c + Z.of_nat (length (enc_rec (k, e)))).
Proof.
  intros Hc Hd Hs. destruct (record_fields _ _ _ _ _ Hc Hd Hs)
    as (c1 & c2 & c3 & c4 & E1 & E2 & E3 & E4 & E5 & E6 & _).
  unfold decode_record. rewrite E1; simpl. rewrite E2; simpl. rewrite E3; simpl. rewrite E4; simpl.
  rewrite type_tag_value. destruct e as [v|].
  - rewrite E5; cbn -[value_bytes]. by rewrite decode_value_bytes.
  - by rewrite E6.
Qed.

(** ** One block *)

Lemma decode_records_at buf c es fuel out :
  0 <= c <= Z.of_nat (length buf) → drop (Z.to_nat c) buf = enc_block es →
  Forall rec_small es → (length es < fuel)%nat →
  decode_records fuel buf c out = Some (Ok (out ++ es)).
Proof.
  revert c fuel out. induction es as [|[k e] es IH]; intros c fuel out Hc Hd Hs Hf;
    (destruct fuel as [|fuel]; [simpl in Hf; lia|]); cbn [decode_records].
  - assert (length buf - Z.to_nat c = 0)%nat by (rewrite <-length_drop, Hd; done).
    rewrite (proj2 (Z.ltb_ge _ _)) by lia. by rewrite app_nil_r.
  - apply list.Forall_cons in Hs as [Hke Hs]. rewrite enc_block_cons in Hd.
    pose proof (length_enc_rec (k, e)) as Hl.
    assert (Hb : (0 < length (enc_rec (k, e) ++ enc_block es))%nat) by (rewrite length_app; lia).
    eapply drop_length_at in Hb; [|exact (proj1 Hc)|exact Hd]. rewrite length_app in Hb. rewrite (proj2 (Z.ltb_lt _ _)) by lia. cbn [negb].
    rewrite (decode_record_at _ _ _ _ _ (proj1 Hc) Hd Hke).
    rewrite IH; [by rewrite <-app_assoc|lia| |done|simpl in Hf; lia].
    eapply drop_at; [lia|exact Hd|done].
Qed.

Lemma decode_block es out :
  Forall rec_small es →
  default Panic (decode_records (S (length (enc_block es))) (enc_block es) 0 out) = Ok (out ++ es).
Proof.
  intros Hs. rewrite (decode_records_at _ _ es); [done|lia|done|done|].
  pose proof (length_enc_block_ge es). lia.
Qed.

Lemma find_loop_at buf c es fuel key :
  0 <= c <= Z.of_nat (length buf) → drop (Z.to_nat c) buf = enc_block es →
  Forall rec_small es → sorted_keys es → (length es < fuel)%nat →
  find_loop fuel buf key c = Some (Ok (lookup_in es key)).
Proof.
  revert c fuel. induction es as [|[k e] es IH]; intros c fuel Hc Hd Hs Hso Hf;
    (destruct fuel as [|fuel]; [simpl in Hf; lia|]); cbn [find_loop].
  - assert (length buf - Z.to_nat c = 0)%nat by (rewrite <-length_drop, Hd; done).
    by rewrite (proj2 (Z.ltb_ge _ _)) by lia.
  - apply list.Forall_cons in Hs as [Hke Hs]. rewrite enc_block_cons in Hd.
    pose proof (length_enc_rec (k, e)) as Hl.
    assert (Hb : (0 < length (enc_rec (k, e) ++ enc_block es))%nat) by (rewrite length_app; lia).
    eapply drop_length_at in Hb; [|exact (proj1 Hc)|exact Hd]. rewrite length_app in Hb. rewrite (proj2 (Z.ltb_lt _ _)) by lia. cbn [negb].
    destruct (record_fields _ _ _ _ _ (proj1 Hc) Hd Hke)
      as (c1 & c2 & c3 & c4 & E1 & E2 & E3 & E4 & E5 & _ & Hd').
    rewrite E1; simpl. rewrite E2; simpl. rewrite E3; simpl. rewrite E4; simpl. rewrite E5; cbn -[value_bytes].
    unfold sorted_keys in Hso. simpl in Hso. apply StronglySorted_cons in Hso as [Hk Hso].
    rewrite lookup_in_cons. destruct (bytes_cmp k key) eqn:Ek.
    + apply bytes_cmp_eq in Ek as ->. rewrite decide_True by done. rewrite type_tag_value.
      destruct e as [v|]; [rewrite decode_value_bytes|]; done.
    + rewrite decide_False by (intros ->; by rewrite bytes_cmp_refl in Ek).
      apply IH; [lia|done..|simpl in Hf; lia].
    + rewrite decide_False by (intros ->; by rewrite bytes_cmp_refl in Ek).
      rewrite lookup_in_below; [done|]. eapply list.Forall_impl; [exact Hk|].
      intros x Hx. eapply bytes_lt_trans; [|exact Hx]. unfold bytes_lt.
      by rewrite bytes_cmp_antisym, Ek.
Qed.

(** Searching an encoded block is looking the key up in its entries. *)
Lemma find_in_block_spec es key :
  Forall rec_small es → sorted_keys es →
  find_in_block (enc_block es) key = Ok (lookup_in es key).
Proof.
  intros Hs Hso. unfold find_in_block. rewrite (find_loop_at _ _ es); [done|lia|done..|].
  pose proof (length_enc_block_ge es). lia.
Qed.
End record.

#[global] Arguments enc_rec : simpl never.
#[global] Arguments enc_block : simpl never.
#[global] Arguments value_bytes : simpl never.

#[export] Hint Resolve sorted_keys_nodup : ferrum.
