(* ===== verification/Layout.v ===== *)
(** * The layout of a table file

    A reference description of what [flush] writes: the entries cut into
    blocks, the index of the blocks, the index region and the footer.  The loop
    of [flush] produces exactly this, and [parse_footer] and [parse_index] read
    it back. *)

From S2P Require Import Prelude Machine Value Checksum Bloom BlockCache Fs Wal SsTable Record.

Section layout.
Context {Prof : Profile} {Cd : Codec} {CdOk : CodecOk Cd}.

(** ** Blocks *)

(** Cuts entries into blocks: a block ends once its bytes reach [BLOCK_SIZE]. *)
Fixpoint chunks (cur es : list (bytes * Entry)) : list (list (bytes * Entry)) :=
  match es with
  | [] => match cur with [] => [] | _ => [cur] end
  | ke :: es =>
      if BLOCK_SIZE <=? Z.of_nat (length (enc_block (cur ++ [ke])))
      then (cur ++ [ke]) :: chunks [] es
      else chunks (cur ++ [ke]) es
  end.

Definition head_key (es : list (bytes * Entry)) : option bytes := fst <$> head es.
Definition last_key (es : list (bytes * Entry)) : option bytes := fst <$> head (reverse es).

(** A block on disk: the records and their checksum. *)
Definition block_bytes (c : list (bytes * Entry)) : bytes := enc_block c ++ be32 (crc32 (enc_block c)).
Definition data_bytes (cs : list (list (bytes * Entry))) : bytes := concat (block_bytes <$> cs).

#[local] Arguments block_bytes : simpl never.

Fixpoint layout (off : Z) (cs : list (list (bytes * Entry))) : list IndexEntry :=
  match cs with
  | [] => []
  | c :: cs =>
      {| first_key := default [] (head_key c); block_offset := off;
         block_len := Z.of_nat (length (block_bytes c)) mod 2 ^ 32 |}
      :: layout (off + Z.of_nat (length (block_bytes c))) cs
  end.

Lemma data_bytes_cons c cs : data_bytes (c :: cs) = block_bytes c ++ data_bytes cs.
Proof. done. Qed.

Lemma concat_chunks cur es : concat (chunks cur es) = cur ++ es.
Proof.
  revert cur. induction es as [|ke es IH]; intros cur; cbn [chunks].
  - destruct cur; simpl; by rewrite ?app_nil_r.
  - destruct (_ <=? _); cbn [concat]; rewrite IH; by rewrite <-?app_assoc.
Qed.

Lemma chunks_nonempty cur es : Forall (λ c, c ≠ []) (chunks cur es).
Proof.
  revert cur. induction es as [|ke es IH]; intros cur; cbn [chunks].
  - destruct cur; repeat constructor. done.
  - destruct (_ <=? _); [|apply IH]. constructor; [|apply IH]. by destruct cur.
Qed.

Lemma length_chunks cs : Forall (λ c, c ≠ []) cs → (length cs <= length (concat cs : list (bytes * Entry)))%nat.
Proof.
  induction 1 as [|c cs Hc _ IH]; simpl; [done|]. rewrite length_app.
  destruct c; [done|]. simpl. lia.
Qed.

Lemma chunks_nil cs (es : list (bytes * Entry)) : Forall (λ c, c ≠ []) cs → concat cs = es → cs = [] ↔ es = [].
Proof.
  intros Hcs <-. split; [by intros ->|]. intros E. destruct Hcs as [|c cs Hc]; [done|].
  simpl in E. by apply app_eq_nil in E as [-> _].
Qed.

Lemma chunks_forall (P : bytes * Entry → Prop) es :
  Forall P es → Forall (Forall P) (chunks [] es).
Proof. intros He. apply Forall_concat. by rewrite concat_chunks. Qed.

(** A block exceeds the threshold by less than one record. *)
Lemma chunks_size cur es :
  Z.of_nat (length (enc_block cur)) < BLOCK_SIZE → Forall rec_small es →
  Forall (λ c, Z.of_nat (length (enc_block c)) < BLOCK_SIZE + 2 ^ 30) (chunks cur es).
Proof.
  intros Hc Hs. revert cur Hc. induction Hs as [|ke es Hk _ IH]; intros cur Hc; cbn [chunks].
  - destruct cur; repeat constructor. lia.
  - assert (Hcur : Z.of_nat (length (enc_block (cur ++ [ke]))) < BLOCK_SIZE + 2 ^ 30).
    { rewrite enc_block_app, length_app, enc_block_cons, app_nil_r. unfold rec_small in Hk. lia. }
    destruct (Z.leb_spec BLOCK_SIZE (Z.of_nat (length (enc_block (cur ++ [ke]))))).
    + constructor; [done|]. by apply IH.
    + by apply IH.
Qed.

(** ** The loop of [flush] *)

Lemma length_block_bytes c : length (block_bytes c) = (length (enc_block c) + 4)%nat.
Proof. unfold block_bytes. by rewrite length_app, length_be32. Qed.

(** The state of the loop while block [cur] is under construction. *)
Definition building (st : flush_state) (cur : list (bytes * Entry)) : Prop :=
  fl_block st = enc_block cur ∧
  match cur with
  | [] => True
  | _ => fl_first_key st = head_key cur ∧ fl_block_offset st = Z.of_nat (length (fl_file st))
  end.

Lemma close_block_spec st cur :
  building st cur → cur ≠ [] →
  let st' := close_block st in
  fl_file st' = fl_file st ++ block_bytes cur ∧
  fl_index st' = fl_index st ++ layout (Z.of_nat (length (fl_file st))) [cur] ∧
  building st' [].
Proof.
  intros [Hb Hc] Hne. destruct cur as [|ke cur]; [done|]. destruct Hc as [Hk Ho].
  unfold close_block, finalize_block. cbn [fl_file fl_index]. rewrite Hb, Hk, Ho. split_and!.
  - unfold block_bytes. by rewrite app_assoc.
  - cbn [layout]. do 3 f_equal. rewrite !length_app, length_be32, length_block_bytes. f_equal. lia.
  - done.
Qed.

Lemma flush_step_spec st cur ke :
  building st cur →
  let st' := flush_step st ke in
  if BLOCK_SIZE <=? Z.of_nat (length (enc_block (cur ++ [ke])))
  then fl_file st' = fl_file st ++ block_bytes (cur ++ [ke]) ∧
       fl_index st' = fl_index st ++ layout (Z.of_nat (length (fl_file st))) [cur ++ [ke]] ∧
       building st' []
  else fl_file st' = fl_file st ∧ fl_index st' = fl_index st ∧ building st' (cur ++ [ke]).
Proof.
  intros [Hb Hc]. destruct ke as [k e].
  assert (∃ st1, building st1 (cur ++ [(k, e)]) ∧ fl_file st1 = fl_file st ∧ fl_index st1 = fl_index st ∧
    flush_step st (k, e) =
      if BLOCK_SIZE <=? Z.of_nat (length (fl_block st1)) then close_block st1 else st1)
    as (st1 & Hb1 & Hf & Hi & ->).
  { unfold flush_step.
    destruct (match fl_block st with [] => _ | _ => _ end) as [fk off] eqn:Efk.
    eexists; split_and!; [split| | |reflexivity]; [|..|done|done].
    - cbn [fl_block]. rewrite encode_record_eq, Hb, enc_block_app. f_equal.
      rewrite enc_block_cons. by rewrite app_nil_r.
    - destruct cur as [|ke cur]; cbn [app].
      + rewrite Hb in Efk. by injection Efk as <- <-.
      + destruct Hc as [Hk Ho]. destruct (fl_block st) eqn:E.
        { symmetry in Hb. by apply enc_block_nil_inv in Hb. }
        injection Efk as <- <-. done. }
  cbn zeta. rewrite (proj1 Hb1). destruct (_ <=? _); [|done].
  destruct (close_block_spec _ _ Hb1) as (H1 & H2 & H3); [by destruct cur|].
  by rewrite H1, H2, Hf, Hi.
Qed.

Lemma layout_app off cs1 cs2 :
  layout off (cs1 ++ cs2) = layout off cs1 ++ layout (off + Z.of_nat (length (data_bytes cs1))) cs2.
Proof.
  revert off. induction cs1 as [|c cs1 IH]; intros off; cbn [layout app].
  - unfold data_bytes. cbn. by rewrite Z.add_0_r.
  - rewrite IH, data_bytes_cons. do 3 f_equal. rewrite length_app. lia.
Qed.

Lemma flush_blocks st cur es :
  building st cur →
  let st' := flush_trailing (fold_left flush_step es st) in
  fl_file st' = fl_file st ++ data_bytes (chunks cur es) ∧
  fl_index st' = fl_index st ++ layout (Z.of_nat (length (fl_file st))) (chunks cur es).
Proof.
  revert st cur. induction es as [|ke es IH]; intros st cur Hb; cbn [fold_left chunks].
  - unfold flush_trailing. destruct cur as [|ke cur].
    + rewrite (proj1 Hb). cbn. by rewrite !app_nil_r.
    + destruct (fl_block st) eqn:E.
      { destruct Hb as [Hb _]. rewrite E in Hb. symmetry in Hb. by apply enc_block_nil_inv in Hb. }
      destruct (close_block_spec _ _ Hb) as (H1 & H2 & _); [done|].
      split; [|done]. by rewrite H1, data_bytes_cons, app_nil_r.
  - pose proof (flush_step_spec st cur ke Hb) as Hstep. simpl in Hstep.
    destruct (_ <=? _); destruct Hstep as (H1 & H2 & H3);
      destruct (IH _ _ H3) as [E1 E2]; rewrite E1, E2, H1, H2.
    + rewrite data_bytes_cons. split; [by rewrite <-app_assoc|].
      rewrite <-app_assoc. f_equal. cbn [layout app]. do 2 f_equal. rewrite length_app. lia.
    + done.
Qed.

(** The key range and the list of keys. *)
Lemma flush_keys es st :
  let st' := flush_trailing (fold_left flush_step es st) in
  fl_min st' = (match fl_min st with Some m => Some m | None => head_key es end) ∧
  fl_max st' = (match last_key es with Some m => Some m | None => fl_max st end) ∧
  fl_keys st' = fl_keys st ++ es.*1.
Proof.
  assert (Ht : ∀ st, fl_min (flush_trailing st) = fl_min st ∧ fl_max (flush_trailing st) = fl_max st ∧
    fl_keys (flush_trailing st) = fl_keys st).
  { intros s. unfold flush_trailing. by destruct (fl_block s). }
  simpl. destruct (Ht (fold_left flush_step es st)) as (-> & -> & ->). clear Ht.
  assert (Hs : ∀ st ke, fl_min (flush_step st ke) = (match fl_min st with Some m => Some m | None => Some ke.1 end) ∧
    fl_max (flush_step st ke) = Some ke.1 ∧ fl_keys (flush_step st ke) = fl_keys st ++ [ke.1]).
  { intros s [k e]. unfold flush_step. destruct (match fl_block s with [] => _ | _ => _ end).
    by destruct (_ <=? _). }
  revert st. induction es as [|ke es IH] using rev_ind; intros st.
  - simpl. rewrite app_nil_r. by destruct (fl_min st).
  - rewrite fold_left_app. simpl. destruct (Hs (fold_left flush_step es st) ke) as (-> & -> & ->).
    destruct (IH st) as (-> & _ & ->). unfold last_key, head_key.
    rewrite reverse_snoc, fmap_app, app_assoc. simpl. split_and!; [|done..].
    by destruct (fl_min st), es.
Qed.

Lemma flush_loop_spec es :
  let st := flush_loop es in
  fl_file st = data_bytes (chunks [] es) ∧ fl_index st = layout 0 (chunks [] es) ∧
  fl_min st = head_key es ∧ fl_max st = last_key es ∧ fl_keys st = es.*1.
Proof.
  destruct (flush_blocks flush_init [] es) as [H1 H2]; [done|].
  destruct (flush_keys es flush_init) as (H3 & H4 & H5).
  unfold flush_loop. simpl in *. split_and!; [done..| |done]. rewrite H4. by destruct (last_key es).
Qed.
End layout.
