(* ===== verification/Image.v ===== *)
(** * The file image of a table

    [build_table] lays out exactly [image], and the footer and index readers
    take [image] apart again. *)

From S2P Require Import Prelude Machine Value Checksum Bloom BlockCache Fs Wal SsTable Record Layout.

Section image.
Context {Prof : Profile} {Cd : Codec} {CdOk : CodecOk Cd}.

Definition idx_bytes (e : IndexEntry) : bytes :=
  be32 (Z.of_nat (length (first_key e))) ++ first_key e ++ be64 (block_offset e) ++ be32 (block_len e).

Definition range_bytes (mn mx : option bytes) : bytes :=
  match mn, mx with
  | Some mn, Some mx => be32 (Z.of_nat (length mn)) ++ mn ++ be32 (Z.of_nat (length mx)) ++ mx
  | _, _ => []
  end.

Definition bloom_bytes (b : option BloomFilter) : bytes :=
  match b with
  | None => []
  | Some b => be32 (bf_k b) ++ be32 (Z.of_nat (length (bf_bits b))) ++ bf_bits b
  end.

Definition bloom_for (keys : list bytes) : option BloomFilter :=
  match build_bloom keys with Ok b => b | _ => None end.

Definition table_index (es : list (bytes * Entry)) : list IndexEntry := layout 0 (chunks [] es).
Definition data_region (es : list (bytes * Entry)) : bytes := data_bytes (chunks [] es).
Definition index_region (es : list (bytes * Entry)) : bytes :=
  concat (idx_bytes <$> table_index es) ++ range_bytes (head_key es) (last_key es) ++
  bloom_bytes (bloom_for es.*1).
Definition footer_bytes (es : list (bytes * Entry)) : bytes :=
  be64 (Z.of_nat (length (data_region es))) ++ be64 (Z.of_nat (length (index_region es))) ++
  be32 (Z.of_nat (length (table_index es))) ++ MAGIC ++ be32 VERSION.
Definition image (es : list (bytes * Entry)) : bytes :=
  data_region es ++ index_region es ++ footer_bytes es.

(** The table in memory, with an empty cache. *)
Definition table_of (p : path) (es : list (bytes * Entry)) : SsTable :=
  {| sst_path := p; index := table_index es; min_key := head_key es; max_key := last_key es;
     bloom := bloom_for es.*1; cache := cache_new BLOCK_CACHE_CAP |}.

(** Entries whose table keeps every length and offset field exact. *)
Definition fits (es : list (bytes * Entry)) : Prop :=
  Forall rec_small es ∧ Z.of_nat (length es) < 2 ^ 31.

(** ** Writing *)

Lemma write_index_entries idx file :
  fold_left write_index_entry idx file = file ++ concat (idx_bytes <$> idx).
Proof.
  revert file. induction idx as [|e idx IH]; intros file; cbn [fold_left fmap list_fmap concat].
  - by rewrite app_nil_r.
  - rewrite IH. unfold write_index_entry, write_u32, idx_bytes. by rewrite <-!app_assoc.
Qed.

Lemma write_key_range_app file mn mx : write_key_range file mn mx = file ++ range_bytes mn mx.
Proof.
  unfold write_key_range, range_bytes, write_u32.
  destruct mn, mx; rewrite <-?app_assoc, ?app_nil_r; done.
Qed.

Lemma write_bloom_app file b : write_bloom file b = file ++ bloom_bytes b.
Proof. destruct b; unfold write_bloom, bloom_bytes, write_u32; by rewrite <-?app_assoc, ?app_nil_r. Qed.

Lemma bloom_for_spec keys :
  build_bloom keys = Ok (bloom_for keys) ∧
  match keys with
  | [] => bloom_for keys = None
  | _ => ∃ b, bloom_for keys = Some b ∧ bloom_wf b ∧ bf_k b = 7 ∧
         8 * Z.of_nat (length (bf_bits b)) < Z.max (Z.of_nat (length keys) * 10) 64 + 8 ∧
         ∀ key, key ∈ keys → maybe_contains b key = Ok true
  end.
Proof.
  unfold bloom_for, build_bloom. destruct keys as [|k keys]; [done|].
  set (n := Z.of_nat (length (k :: keys))).
  destruct (bloom_add_all_spec (bloom_new n) (k :: keys) (bloom_new_wf n))
    as (b & -> & Hwf & Hk & Hl & Hc). split; [done|]. cbn.
  exists b. split_and!; [done..| |auto]. rewrite Hl. apply bloom_new_length. lia.
Qed.

(** [flush] writes the image and returns the table of the entries. *)
Lemma build_table_eq p es : build_table p es = Ok (image es, table_of p es).
Proof.
  unfold build_table. destruct (flush_loop_spec es) as (-> & -> & -> & -> & ->).
  destruct (bloom_for_spec es.*1) as [-> _]. cbn [mbind outcome_bind].
  rewrite write_index_entries, write_key_range_app, write_bloom_app, <-!app_assoc.
  unfold image, footer_bytes, write_footer, write_u32.
  change (data_bytes (chunks [] es)) with (data_region es).
  change (layout 0 (chunks [] es)) with (table_index es).
  change (concat (idx_bytes <$> table_index es) ++ _) with (index_region es).
  replace (Z.of_nat (length (data_region es ++ index_region es)) - Z.of_nat (length (data_region es)))
    with (Z.of_nat (length (index_region es))) by (rewrite length_app; lia).
  by rewrite <-!app_assoc.
Qed.

(** ** Sizes *)

Lemma enc_block_bound es : Forall rec_small es →
  Z.of_nat (length (enc_block es)) <= Z.of_nat (length es) * 2 ^ 30.
Proof.
  induction 1 as [|ke es Hk _ IH]; [done|]. rewrite enc_block_cons, length_app.
  unfold rec_small in Hk. cbn [length]. lia.
Qed.

Lemma data_bound cs :
  Forall (Forall rec_small) cs → Forall (λ c, c ≠ []) cs →
  Z.of_nat (length (data_bytes cs)) <= Z.of_nat (length (concat cs)) * (2 ^ 30 + 4).
Proof.
  induction 1 as [|c cs Hc _ IH]; intros Hne; [done|]. apply list.Forall_cons in Hne as [Hne Hnes].
  rewrite data_bytes_cons. cbn [concat]. rewrite !length_app, length_block_bytes.
  apply enc_block_bound in Hc. specialize (IH Hnes). destruct c; [done|]. cbn [length] in *. lia.
Qed.

Lemma rec_small_key ke : rec_small ke → Z.of_nat (length ke.1) < 2 ^ 30.
Proof. unfold rec_small. rewrite length_enc_rec. lia. Qed.

(** An index entry whose fields survive the encoding. *)
Definition idx_ok (e : IndexEntry) : Prop :=
  Z.of_nat (length (first_key e)) < 2 ^ 30 ∧ 0 <= block_offset e < 2 ^ 63 ∧
  0 <= block_len e < 2 ^ 32.

Lemma head_key_small c : Forall rec_small c → Z.of_nat (length (default [] (head_key c))) < 2 ^ 30.
Proof. destruct 1 as [|ke c Hk]; [done|]. by apply rec_small_key in Hk. Qed.

Lemma layout_ok off cs :
  Forall (Forall rec_small) cs → 0 <= off → off + Z.of_nat (length (data_bytes cs)) < 2 ^ 63 →
  Forall idx_ok (layout off cs).
Proof.
  intros Hs. revert off. induction Hs as [|c cs Hc _ IH]; intros off Ho Hb; cbn [layout]; constructor.
  - rewrite data_bytes_cons, length_app in Hb. split_and!; cbn; try lia.
    + by apply head_key_small.
    + apply Z.mod_pos_bound. lia.
    + apply Z.mod_pos_bound. lia.
  - rewrite data_bytes_cons, length_app in Hb. apply IH; lia.
Qed.

Lemma length_idx_bytes e : length (idx_bytes e) = (16 + length (first_key e))%nat.
Proof. unfold idx_bytes. rewrite !length_app, !length_be32, length_be64. lia. Qed.

Lemma index_bound idx : Forall idx_ok idx →
  Z.of_nat (length (concat (idx_bytes <$> idx))) <= Z.of_nat (length idx) * (2 ^ 30 + 16).
Proof.
  induction 1 as [|e idx [He _] _ IH]; [done|]. cbn [fmap list_fmap concat length].
  rewrite length_app, length_idx_bytes. lia.
Qed.

Lemma length_layout off cs : length (layout off cs) = length cs.
Proof. revert off. induction cs; intros off; cbn; auto. Qed.

Lemma head_last_key es :
  match es with
  | [] => head_key es = None ∧ last_key es = None
  | _ => ∃ mn mx, head_key es = Some mn ∧ last_key es = Some mx ∧ mn ∈ es.*1 ∧ mx ∈ es.*1
  end.
Proof.
  destruct es as [|[k e] es]; [done|].
  assert (∃ mx e', head (reverse ((k, e) :: es)) = Some (mx, e') ∧ (mx, e') ∈ (k, e) :: es) as (mx & e' & E & Hin).
  { destruct (reverse ((k, e) :: es)) as [|[mx e'] l] eqn:E.
    - apply (f_equal length) in E. rewrite length_reverse in E. done.
    - exists mx, e'. split; [done|]. rewrite <-elem_of_reverse, E. set_solver. }
  exists k, mx. unfold last_key, head_key. rewrite E. split_and!; [done..|set_solver|].
  change mx with (mx, e').1. by apply list_elem_of_fmap_2.
Qed.

Lemma key_small es k : Forall rec_small es → k ∈ es.*1 → Z.of_nat (length k) < 2 ^ 30.
Proof.
  intros Hs (ke & -> & Hin)%list_elem_of_fmap. rewrite list.Forall_forall in Hs.
  by apply rec_small_key, Hs.
Qed.

Record image_bounds (es : list (bytes * Entry)) : Prop := {
  bound_data : Z.of_nat (length (data_region es)) < 2 ^ 62;
  bound_region : Z.of_nat (length (index_region es)) < 2 ^ 62;
  bound_count : Z.of_nat (length (table_index es)) < 2 ^ 31;
  bound_index : Forall idx_ok (table_index es);
  bound_bloom b : bloom_for es.*1 = Some b → Z.of_nat (length (bf_bits b)) < 2 ^ 32 ∧ bf_k b = 7;
}.

Lemma fits_bounds es : fits es → image_bounds es.
Proof.
  intros [Hs Hn]. pose proof (chunks_nonempty [] es) as Hne.
  assert (Hd : Z.of_nat (length (data_region es)) < 2 ^ 62).
  { pose proof (data_bound (chunks [] es) (chunks_forall _ _ Hs) Hne) as Hb.
    rewrite concat_chunks in Hb. unfold data_region. cbn [app] in Hb. lia. }
  assert (Hc : Z.of_nat (length (table_index es)) < 2 ^ 31).
  { unfold table_index. rewrite length_layout. pose proof (length_chunks _ Hne) as Hl.
    rewrite concat_chunks in Hl. cbn [app] in Hl. lia. }
  assert (Hi : Forall idx_ok (table_index es)).
  { apply layout_ok; [by apply chunks_forall|lia|]. unfold data_region in Hd. lia. }
  assert (Hbl : ∀ b, bloom_for es.*1 = Some b → Z.of_nat (length (bf_bits b)) < 2 ^ 32 ∧ bf_k b = 7).
  { intros b Eb. destruct (bloom_for_spec es.*1) as [_ Hspec].
    destruct es as [|ke es]; [cbn in *; congruence|]. cbn [fmap list_fmap] in *.
    destruct Hspec as (b' & E' & _ & Hk & Hl & _). rewrite Eb in E'. injection E' as <-.
    cbn [length] in *. rewrite length_fmap in Hl. lia. }
  split; [done| |done..]. unfold index_region. rewrite !length_app.
  apply index_bound in Hi.
  assert (Z.of_nat (length (range_bytes (head_key es) (last_key es))) < 2 ^ 32).
  { pose proof (head_last_key es) as Hh. destruct es as [|ke es].
    - by destruct Hh as [-> ->].
    - destruct Hh as (mn & mx & -> & -> & Hmn & Hmx). apply key_small in Hmn, Hmx; [|done..].
      unfold range_bytes. rewrite !length_app, !length_be32. lia. }
  assert (Z.of_nat (length (bloom_bytes (bloom_for es.*1))) < 2 ^ 33).
  { destruct (bloom_for es.*1) as [b|] eqn:Eb; [|done]. destruct (Hbl b eq_refl) as [? _].
    cbn [bloom_bytes]. rewrite !length_app, !length_be32. lia. }
  lia.
Qed.

(** ** Reading back *)

Lemma read_index_at buf c idx rest :
  0 <= c <= Z.of_nat (length buf) →
  drop (Z.to_nat c) buf = concat (idx_bytes <$> idx) ++ rest → Forall idx_ok idx →
  read_index (length idx) buf c = Ok (idx, c + Z.of_nat (length (concat (idx_bytes <$> idx)))).
Proof.
  intros Hc Hd Hi. revert c Hc Hd. induction Hi as [|[fk off len] idx (H1 & H2 & H3) _ IH]; intros c Hc Hd;
    cbn [length read_index fmap list_fmap concat] in *.
  - by rewrite Z.add_0_r.
  - pose proof (length_idx_bytes {| first_key := fk; block_offset := off; block_len := len |}) as Hl.
    rewrite <-app_assoc in Hd. cbn [first_key block_offset block_len] in *.
    assert (Hb : (0 < length (idx_bytes {| first_key := fk; block_offset := off; block_len := len |} ++
      concat (idx_bytes <$> idx) ++ rest))%nat) by (rewrite length_app; lia).
    eapply drop_length_at in Hb; [|exact (proj1 Hc)|exact Hd]. rewrite !length_app in Hb.
    assert (D0 := Hd). unfold idx_bytes at 1 in D0. cbn [first_key block_offset block_len] in D0.
    rewrite <-!app_assoc in D0.
    next_field D0 4 D1. next_field D1 (Z.of_nat (length fk)) D2. next_field D2 8 D3. next_field D3 4 D4.
    read_field D0.
    read_field D1.
    read_field D2.
    read_field D3.
    rewrite IH by (done || lia). cbn [mbind outcome_bind]. rewrite length_app. do 2 f_equal. lia.
Qed.

Lemma parse_index_region es :
  fits es →
  parse_index (index_region es) (Z.of_nat (length (table_index es))) =
  Ok (table_index es, head_key es, last_key es, bloom_for es.*1).
Proof.
  intros Hfit. destruct (fits_bounds _ Hfit) as [_ _ _ Hi Hbl]. destruct Hfit as [Hs _].
  unfold parse_index. rewrite Nat2Z.id.
  rewrite (read_index_at _ 0 (table_index es)
    (range_bytes (head_key es) (last_key es) ++ bloom_bytes (bloom_for es.*1))) by (done || lia).
  cbn [mbind outcome_bind]. rewrite Z.add_0_l.
  set (n := Z.of_nat (length (concat (idx_bytes <$> table_index es)))).
  assert (D0 : drop (Z.to_nat n) (index_region es) =
    range_bytes (head_key es) (last_key es) ++ bloom_bytes (bloom_for es.*1)).
  { unfold n, index_region. by rewrite Nat2Z.id, drop_app_length. }
  assert (Hlen : Z.of_nat (length (index_region es)) = n + Z.of_nat (length
    (range_bytes (head_key es) (last_key es) ++ bloom_bytes (bloom_for es.*1)))).
  { unfold n, index_region. rewrite !length_app. lia. }
  assert (Hn : 0 <= n) by lia. clearbody n.
  pose proof (head_last_key es) as Hh. destruct (bloom_for_spec es.*1) as [_ Hb].
  destruct es as [|ke es].
  - destruct Hh as [E1 E2]. cbn [fmap list_fmap] in Hb, Hlen |- *. rewrite E1, E2, Hb in Hlen |- *.
    cbn [range_bytes bloom_bytes app length] in Hlen.
    by rewrite (proj2 (Z.ltb_ge _ _)) by lia.
  - destruct Hh as (mn & mx & Emn & Emx & Hmn & Hmx). apply key_small in Hmn, Hmx; [|done..].
    destruct Hb as (b & Eb & _). cbn [fmap list_fmap] in Eb, D0, Hlen, Hbl |- *.
    destruct (Hbl b Eb) as [Hbits Hk]. rewrite Eb, Emn, Emx in *.
    cbn [range_bytes bloom_bytes] in *. rewrite !length_app, !length_be32 in Hlen.
    rewrite <-!app_assoc in D0. rewrite (proj2 (Z.ltb_lt _ _)) by lia.
    next_field D0 4 D1. next_field D1 (Z.of_nat (length mn)) D2. next_field D2 4 D3.
    next_field D3 (Z.of_nat (length mx)) D4. next_field D4 4 D5. next_field D5 4 D6.
    read_field D0.
    read_field D1.
    read_field D2.
    read_field D3.
    read_field D4.
    read_field D5.
    rewrite <-(app_nil_r (bf_bits b)) in D6. read_field D6. by destruct b.
Qed.

Lemma length_footer es : length (footer_bytes es) = 28%nat.
Proof. unfold footer_bytes. rewrite !length_app, !length_be32, !length_be64. done. Qed.

Lemma parse_footer_bytes es :
  fits es →
  parse_footer (footer_bytes es) =
  Ok (Z.of_nat (length (data_region es)), Z.of_nat (length (index_region es)),
      Z.of_nat (length (table_index es))).
Proof.
  intros Hfit. destruct (fits_bounds _ Hfit) as [Hd Hr Hc _ _].
  assert (D0 : drop (Z.to_nat 0) (footer_bytes es) = footer_bytes es) by done.
  unfold footer_bytes at 2 in D0.
  next_field D0 8 D1. next_field D1 8 D2. next_field D2 4 D3. next_field D3 4 D4.
  unfold parse_footer.
  rewrite (slice_at _ 0 _ _ 8 D0 eq_refl), (slice_at _ 8 _ _ 8 D1 eq_refl),
    (slice_at _ 16 _ _ 4 D2 eq_refl), (slice_at _ 20 _ _ 4 D3 eq_refl).
  rewrite (slice_at _ 24 (be32 VERSION) [] 4) by (rewrite ?app_nil_r; done).
  rewrite !be_decode_be64, !be_decode_be32 by (unfold VERSION; lia).
  rewrite bool_decide_eq_true_2 by done. done.
Qed.
End image.
