(* ===== verification/Search.v ===== *)
(** * The block search of [SsTable::get]

    [binary_search_by] on the sparse index finds the one block that can hold a
    key. *)

From S2P Require Import Prelude Machine Value Checksum Bloom BlockCache Fs Wal SsTable Record Layout Image.

(** ** Binary search over a monotone comparison *)

Section bsearch.
Variables (cmp : nat → comparison) (n : nat).
(** [Gt] is upward closed. *)
Hypothesis cmp_mono : ∀ i j, (i < j < n)%nat → cmp i = Gt → cmp j = Gt.

Lemma bsearch_loop_spec fuel base size :
  (0 < size <= fuel)%nat → (base + size <= n)%nat →
  (base = 0%nat ∨ cmp base ≠ Gt) → (∀ j, (base + size <= j < n)%nat → cmp j = Gt) →
  let r := bsearch_loop fuel cmp base size in
  (r < n)%nat ∧ (r = 0%nat ∨ cmp r ≠ Gt) ∧ ∀ j, (r < j < n)%nat → cmp j = Gt.
Proof.
  revert base size. induction fuel as [|fuel IH]; intros base size Hsz Hn Hb Hj; [lia|].
  cbn [bsearch_loop]. destruct (Nat.leb_spec size 1).
  - cbn zeta. split_and!; [lia|done|]. intros j ?. apply Hj. lia.
  - pose proof (Nat.div2_odd size) as Hodd. assert (Nat.b2n (Nat.odd size) <= 1)%nat by (destruct (Nat.odd size); simpl; lia).
    set (mid := (base + Nat.div2 size)%nat).
    destruct (cmp mid) eqn:Em.
    + apply IH; unfold mid in *; [lia|lia|right; congruence|intros; apply Hj; lia].
    + apply IH; unfold mid in *; [lia|lia|right; congruence|intros; apply Hj; lia].
    + apply IH; unfold mid in *; [lia|lia|done|]. intros j ?.
      destruct (decide (j = base + Nat.div2 size)%nat) as [->|]; [done|].
      eapply cmp_mono; [|exact Em]. lia.
Qed.

End bsearch.

(** The search returns a position after which everything is [Gt], and which is
    not [Gt] itself unless everything is. *)
Lemma binary_search_by_spec (cmp : nat → comparison) n :
  (∀ i j, (i < j < n)%nat → cmp i = Gt → cmp j = Gt) →
  match binary_search_by cmp n with
  | inl i => (i < n)%nat ∧ cmp i = Eq ∧ ∀ j, (i < j < n)%nat → cmp j = Gt
  | inr O => ∀ j, (j < n)%nat → cmp j = Gt
  | inr (S i) => (i < n)%nat ∧ cmp i = Lt ∧ ∀ j, (i < j < n)%nat → cmp j = Gt
  end.
Proof.
  intros Hmono. unfold binary_search_by. destruct n as [|m]; [lia|].
  destruct (bsearch_loop_spec cmp (S m) Hmono (S m) 0 (S m)) as (Hr & H0 & Hj); [lia|lia|auto|lia|].
  destruct (cmp (bsearch_loop _ _ _ _)) eqn:Ec; [done..|].
  destruct H0 as [H0|]; [|done]. rewrite H0 in *. intros j ?.
  destruct (decide (j = 0)%nat) as [->|]; [done|]. apply Hj. lia.
Qed.

Section search.
Context {Prof : Profile} {Cd : Codec} {CdOk : CodecOk Cd}.

(** ** Blocks and index entries correspond *)

Lemma layout_lookup off cs i e :
  layout off cs !! i = Some e →
  ∃ c, cs !! i = Some c ∧ first_key e = default [] (head_key c) ∧
    block_offset e = off + Z.of_nat (length (data_bytes (take i cs))) ∧
    block_len e = Z.of_nat (length (block_bytes c)) mod 2 ^ 32.
Proof.
  revert off i. induction cs as [|c cs IH]; intros off i; cbn [layout]; [done|].
  destruct i as [|i]; cbn [lookup list_lookup].
  - intros [= <-]. exists c. cbn. split_and!; [done..|lia|done].
  - intros (c' & Hc & Hk & Ho & Hl)%IH. exists c'. split_and!; [done..| |done].
    rewrite Ho. cbn [take]. rewrite data_bytes_cons, length_app. lia.
Qed.

Lemma layout_lookup_chunk off cs i c :
  cs !! i = Some c → ∃ e, layout off cs !! i = Some e.
Proof.
  intros Hc. apply lookup_lt_is_Some. rewrite length_layout. by eapply lookup_lt_Some.
Qed.

Lemma data_bytes_split cs i c :
  cs !! i = Some c →
  data_bytes cs = data_bytes (take i cs) ++ block_bytes c ++ data_bytes (drop (S i) cs).
Proof.
  intros Hc. rewrite <-(take_drop_middle cs i c Hc) at 1. unfold data_bytes.
  by rewrite fmap_app, concat_app, fmap_cons.
Qed.

(** No two blocks start at the same offset. *)
Lemma layout_offset_inj off cs i j e e' :
  layout off cs !! i = Some e → layout off cs !! j = Some e' → block_offset e = block_offset e' → i = j.
Proof.
  assert (Hlt : ∀ i j e e', layout off cs !! i = Some e → layout off cs !! j = Some e' →
    (i < j)%nat → block_offset e < block_offset e').
  { clear i j e e'. intros i j e e' (c & Hc & _ & Hi & _)%layout_lookup (c' & _ & _ & Hj & _)%layout_lookup Hij.
    rewrite Hi, Hj. assert (Hc' : take j cs !! i = Some c) by (by rewrite lookup_take_lt).
    apply data_bytes_split in Hc'. rewrite take_take, Nat.min_l in Hc' by lia.
    rewrite Hc', !length_app, length_block_bytes. lia. }
  intros Hi Hj E. destruct (Nat.lt_trichotomy i j) as [L|[->|L]]; [|done|].
  - pose proof (Hlt _ _ _ _ Hi Hj L). lia.
  - pose proof (Hlt _ _ _ _ Hj Hi L). lia.
Qed.

(** ** The located block decides the lookup *)

Lemma head_key_elem (c : list (bytes * Entry)) : c ≠ [] → default [] (head_key c) ∈ c.*1.
Proof. destruct c as [|[k e] c]; [done|]. cbn. set_solver. Qed.

Lemma head_key_le c k : sorted_keys c → k ∈ c.*1 → bytes_le (default [] (head_key c)) k.
Proof.
  destruct c as [|[k0 e] c]; [set_solver|]. cbn. intros [Hk _]%StronglySorted_cons [->|Hin]%elem_of_cons.
  - apply bytes_le_refl.
  - rewrite list.Forall_forall in Hk. by apply bytes_lt_le, Hk.
Qed.

(** The pieces of a sorted list of blocks around one of them. *)
Lemma sorted_concat_split cs i c :
  sorted_keys (concat cs) → cs !! i = Some c →
  concat cs = concat (take i cs) ++ c ++ concat (drop (S i) cs) ∧ sorted_keys c ∧
  (∀ k k', k ∈ (concat (take i cs)).*1 → k' ∈ c.*1 → bytes_lt k k') ∧
  (∀ k k', k ∈ c.*1 → k' ∈ (concat (drop (S i) cs)).*1 → bytes_lt k k').
Proof.
  intros Hs Hc. assert (E : concat cs = concat (take i cs) ++ c ++ concat (drop (S i) cs)).
  { rewrite <-(take_drop_middle cs i c Hc) at 1. by rewrite concat_app. }
  rewrite E in Hs. apply sorted_keys_app in Hs as (H1 & _ & H2).
  apply sorted_keys_app in H2 as (H3 & H4 & _). split_and!; [done..| |done].
  intros k k' Hk Hk'. apply H1; [done|]. rewrite fmap_app. set_solver.
Qed.

Lemma heads_increasing cs i j c c' :
  sorted_keys (concat cs) → Forall (λ c, c ≠ []) cs → cs !! i = Some c → cs !! j = Some c' → (i < j)%nat →
  bytes_lt (default [] (head_key c)) (default [] (head_key c')).
Proof.
  intros Hs Hne Hc Hc' Hij. destruct (sorted_concat_split _ _ _ Hs Hc') as (_ & _ & Hlt & _).
  rewrite list.Forall_forall in Hne.
  assert (c ∈ cs) by (eapply list_elem_of_lookup_2; eauto). assert (c' ∈ cs) by (eapply list_elem_of_lookup_2; eauto).
  apply Hlt; [|by apply head_key_elem, Hne].
  assert (Ht : take j cs !! i = Some c) by (by rewrite lookup_take_lt).
  rewrite <-(take_drop_middle _ _ _ Ht), concat_app. cbn [concat]. rewrite !fmap_app.
  pose proof (head_key_elem c ltac:(auto)). set_solver.
Qed.

Lemma lookup_in_above es key : (∀ k, k ∈ es.*1 → bytes_lt k key) → lookup_in es key = None.
Proof. intros Hlt. apply lookup_in_none. intros Hin. by apply (bytes_lt_irrefl key), Hlt. Qed.

(** Looking a key up in the block that starts at or before it, when the next
    block starts after it. *)
Lemma lookup_in_block cs i c key :
  sorted_keys (concat cs) → Forall (λ c, c ≠ []) cs → cs !! i = Some c →
  bytes_le (default [] (head_key c)) key →
  (∀ j c', (i < j)%nat → cs !! j = Some c' → bytes_lt key (default [] (head_key c'))) →
  lookup_in (concat cs) key = lookup_in c key.
Proof.
  intros Hs Hne Hc Hle Hgt. destruct (sorted_concat_split _ _ _ Hs Hc) as (-> & Hsc & Hlt & _).
  rewrite !lookup_in_app. rewrite (lookup_in_above (concat (take i cs))).
  2:{ intros k Hk. eapply bytes_lt_le_trans; [|exact Hle]. apply Hlt; [done|].
      apply head_key_elem. rewrite list.Forall_forall in Hne. apply Hne.
      eapply list_elem_of_lookup_2; eauto. }
  destruct (lookup_in c key) eqn:E; [done|]. apply lookup_in_none.
  intros (ke & Ek & (c' & Hc' & Hin)%elem_of_concat)%list_elem_of_fmap.
  apply list_elem_of_lookup_1 in Hc' as [j Hj]. rewrite lookup_drop in Hj.
  specialize (Hgt (S i + j)%nat c' ltac:(lia) Hj).
  destruct (sorted_concat_split _ _ _ Hs Hj) as (_ & Hsc' & _).
  assert (bytes_le (default [] (head_key c')) key).
  { rewrite Ek. apply head_key_le; [done|]. by apply list_elem_of_fmap_2. }
  eapply bytes_lt_irrefl, bytes_lt_le_trans; eauto.
Qed.

(** [locate_block] on the index of a sorted table. *)
Lemma locate_block_spec es key :
  sorted_keys es →
  match locate_block (table_index es) key with
  | None => lookup_in es key = None
  | Some i => ∃ c, chunks [] es !! i = Some c ∧ lookup_in es key = lookup_in c key
  end.
Proof.
  intros Hs. unfold locate_block, table_index. set (cs := chunks [] es).
  assert (Ec : concat cs = es) by (unfold cs; by rewrite concat_chunks).
  assert (Hne : Forall (λ c, c ≠ []) cs) by apply chunks_nonempty.
  rewrite <-Ec in Hs |- *. clearbody cs.
  assert (Hcmp : ∀ i c, cs !! i = Some c →
    index_cmp (layout 0 cs) key i = bytes_cmp (default [] (head_key c)) key).
  { intros i c Hc. unfold index_cmp. destruct (layout_lookup_chunk 0 _ _ _ Hc) as [e He].
    rewrite He. apply layout_lookup in He as (c' & Hc' & -> & _). by simplify_eq. }
  rewrite length_layout.
  assert (Hch : ∀ i, (i < length cs)%nat → ∃ c, cs !! i = Some c) by (intros; by apply lookup_lt_is_Some).
  assert (Hgt : ∀ i c, cs !! i = Some c → index_cmp (layout 0 cs) key i = Gt →
    bytes_lt key (default [] (head_key c))).
  { intros i c Hc. rewrite (Hcmp _ _ Hc). unfold bytes_lt.
    rewrite (bytes_cmp_antisym (default [] (head_key c)) key). by intros ->. }
  assert (Hfound : ∀ i, (i < length cs)%nat → index_cmp (layout 0 cs) key i ≠ Gt →
    (∀ j, (i < j < length cs)%nat → index_cmp (layout 0 cs) key j = Gt) →
    ∃ c, cs !! i = Some c ∧ lookup_in (concat cs) key = lookup_in c key).
  { intros i Hi Hle Hj. destruct (Hch i Hi) as [c Hc]. exists c. split; [done|].
    eapply lookup_in_block; [done..|by rewrite (Hcmp _ _ Hc) in Hle|].
    intros j c' Hij Hc'. apply (Hgt j); [done|]. apply Hj. split; [done|]. by eapply lookup_lt_Some. }
  assert (Hmono : ∀ i j, (i < j < length cs)%nat → index_cmp (layout 0 cs) key i = Gt →
    index_cmp (layout 0 cs) key j = Gt).
  { intros i j Hij Hi. destruct (Hch i ltac:(lia)) as [c Hc], (Hch j ltac:(lia)) as [c' Hc'].
    rewrite (Hcmp _ _ Hc'). apply (Hgt _ _ Hc) in Hi.
    pose proof (heads_increasing _ _ _ _ _ Hs Hne Hc Hc' (proj1 Hij)) as Hlt.
    pose proof (bytes_lt_trans _ _ _ Hi Hlt) as Hlt'. unfold bytes_lt in Hlt'.
    by rewrite (bytes_cmp_antisym key), Hlt'. }
  pose proof (binary_search_by_spec _ _ Hmono) as Hspec.
  destruct (binary_search_by _ _) as [i|[|i]].
  - destruct Hspec as (Hi & He & Hj). apply Hfound; [done|by rewrite He|done].
  - apply lookup_in_none. intros (ke & -> & (c & Hc & Hin)%elem_of_concat)%list_elem_of_fmap.
    apply list_elem_of_lookup_1 in Hc as [j Hj].
    specialize (Hspec j ltac:(by eapply lookup_lt_Some)). apply (Hgt _ _ Hj) in Hspec.
    destruct (sorted_concat_split _ _ _ Hs Hj) as (_ & Hsc & _).
    pose proof (head_key_le c ke.1 Hsc ltac:(by apply list_elem_of_fmap_2)).
    eapply bytes_lt_irrefl, bytes_lt_le_trans; eauto.
  - destruct Hspec as (Hi & He & Hj). apply Hfound; [done|by rewrite He|done].
Qed.
End search.
