(* ===== verification/TableSpec.v ===== *)
(** * SSTables meet their specification

    A table file that holds the image of [es] behaves as the finite map [es]:
    [open] rebuilds the table, [get] is lookup in [es] whatever the block cache
    holds, [read_all_entries] returns [es].  Each theorem covers every fault
    schedule: a call returns the right result, or fails because a fault struck. *)

From S2P Require Import Prelude Machine Value Checksum Bloom BlockCache Fs Wal SsTable Record Layout Image Search.

(** ** Calls that only read *)

(** The call returns [a], or a fault struck; the files are as before. *)
Definition reads {A} (w : world) (a : A) (r : outcome A) (w' : world) : Prop :=
  calm w w' ∧ (r = Ok a ∨ (failed r ∧ w_faults w ≠ [])).

Lemma reads_ok {A} (w : world) (a : A) : reads w a (Ok a) w.
Proof. split; [done|by left]. Qed.

Lemma reads_calm {A} (w w1 w2 : world) (a : A) r : calm w w1 → reads w1 a r w2 → reads w a r w2.
Proof.
  intros Hc [Hc2 Hr]. split; [by etrans|]. destruct Hr as [|[? ?]]; [by left|right]. eauto using calm_faults.
Qed.

Lemma wp_reads_bind {A B} (m : M world A) (k : A → M world B) w a b :
  wp m w (reads w a) → (∀ w', calm w w' → wp (k a) w' (reads w' b)) → wp (m ≫= k) w (reads w b).
Proof.
  intros Hm Hk. apply wp_bind. eapply wp_mono; [exact Hm|]. intros r w' [Hc Hr]. unfold wp_seq.
  destruct Hr as [->|[[->|[msg ->]] Hf]].
  - eapply wp_mono; [by apply Hk|]. intros r2 w2 H2. by eapply reads_calm.
  - split; [done|right]. split; [by left|done].
  - split; [done|right]. split; [right; by exists msg|done].
Qed.

Lemma wp_reads_io {A} (ok : M world A) w a :
  (∀ w', calm w w' → ok w' = (Ok a, w')) → wp (io ok no_effect) w (reads w a).
Proof.
  intros Ho. apply wp_io.
  - intros w' Hw. unfold wp. rewrite Ho by done. split; [done|by left].
  - intros r w' n Hf Hw Hr. split; [done|by right].
Qed.

Lemma wp_reads_lift {A} (o : outcome A) w a : o = Ok a → wp (lift o) w (reads w a).
Proof. intros ->. apply wp_lift, reads_ok. Qed.

Lemma wp_reads_ret {A} (a : A) w : wp (mret a) w (reads w a).
Proof. apply wp_ret, reads_ok. Qed.

(** ** Files at rest *)

(** The file at [p] holds [bs], durably. *)
Definition holds (w : world) (p : path) (bs : bytes) : Prop := file_at w p = Some (File bs bs).

Lemma holds_calm w w' p bs : calm w w' → holds w p bs → holds w' p bs.
Proof. unfold holds. intros Hc. by rewrite (calm_file_at _ _ _ Hc). Qed.

Lemma holds_content w p bs : holds w p bs → content w p = bs.
Proof. unfold holds, content. by intros ->. Qed.

Lemma holds_node w p bs : holds w p bs → w_nodes w !! p = Some (Reg (File bs bs)).
Proof. unfold holds, file_at. destruct (w_nodes w !! p) as [[|f]|]; [done|by intros [= ->]|done]. Qed.

Lemma wp_open_existing w p bs : holds w p bs → wp (fs_open_existing p) w (reads w tt).
Proof.
  intros Hh. apply wp_reads_io. intros w' Hw. by rewrite (holds_node w' p bs) by eauto using holds_calm.
Qed.

Lemma wp_len w p bs : holds w p bs → wp (fs_len p) w (reads w (Z.of_nat (length bs))).
Proof.
  intros Hh. apply wp_reads_io. intros w' Hw. unfold gets.
  by rewrite (holds_content w' p bs) by eauto using holds_calm.
Qed.

Lemma wp_read_to_end w p bs : holds w p bs → wp (fs_read_to_end p) w (reads w bs).
Proof.
  intros Hh. apply wp_reads_io. intros w' Hw. unfold gets.
  by rewrite (holds_content w' p bs) by eauto using holds_calm.
Qed.

Lemma wp_seek w off : off < 2 ^ 63 → wp (fs_seek off) w (reads w tt).
Proof. intros Ho. apply wp_reads_io. intros w' Hw. by rewrite (proj2 (Z.ltb_lt _ _)). Qed.

(** Reading a piece of a file. *)
Lemma wp_read_exact w p l1 l2 l3 off len :
  holds w p (l1 ++ l2 ++ l3) → off = Z.of_nat (length l1) → len = Z.of_nat (length l2) →
  wp (fs_read_exact p off len) w (reads w l2).
Proof.
  intros Hh -> ->. apply wp_reads_io. intros w' Hw.
  rewrite (holds_content w' p (l1 ++ l2 ++ l3)) by eauto using holds_calm.
  rewrite (proj2 (Z.leb_le _ _)) by (rewrite !length_app; lia).
  unfold slice. by rewrite !Nat2Z.id, drop_app_length, take_app_length.
Qed.

Lemma holds_put w p bs q :
  holds (put_file p (File bs bs) w) q bs ↔ p = q ∨ holds w q bs.
Proof.
  unfold holds. rewrite file_at_put. destruct (decide (p = q)); naive_solver.
Qed.

Section tablespec.
Context {Prof : Profile} {Cd : Codec} {CdOk : CodecOk Cd}.

(** ** [open] rebuilds the table from its file *)

Lemma image_split es :
  image es = (data_region es ++ index_region es) ++ footer_bytes es ++ [].
Proof. unfold image. by rewrite app_nil_r, app_assoc. Qed.

Lemma wp_open w p es :
  holds w p (image es) → fits es → wp (open p) w (reads w (table_of p es)).
Proof.
  intros Hh Hfit. destruct (fits_bounds _ Hfit) as [Hd Hr Hcount _ _].
  assert (Hl : Z.of_nat (length (image es)) =
    Z.of_nat (length (data_region es ++ index_region es)) + 28).
  { rewrite image_split, app_nil_r, length_app, length_footer. lia. }
  assert (Hl2 := length_app (data_region es) (index_region es)).
  unfold open, FOOTER_LEN.
  eapply wp_reads_bind; [by eapply wp_open_existing|]. intros w1 H1.
  eapply wp_reads_bind; [by eapply wp_len, holds_calm|]. intros w2 H2.
  rewrite (proj2 (Z.ltb_ge _ _)) by lia.
  eapply wp_reads_bind; [apply wp_seek; lia|]. intros w3 H3.
  assert (Hh3 : holds w3 p (image es)) by eauto 10 using holds_calm.
  eapply wp_reads_bind.
  { eapply wp_read_exact; [rewrite <-image_split; exact Hh3|lia|by rewrite length_footer]. }
  intros w4 H4.
  eapply wp_reads_bind; [apply wp_reads_lift, (parse_footer_bytes es Hfit)|]. intros w5 H5.
  eapply wp_reads_bind; [apply wp_seek; lia|]. intros w6 H6.
  eapply wp_reads_bind.
  { apply (wp_reads_lift _ _ tt). unfold alloc_zeroed, isize_max. by rewrite (proj2 (Z.leb_le _ _)) by lia. }
  intros w7 H7. assert (Hh7 : holds w7 p (image es)) by eauto 10 using holds_calm.
  eapply wp_reads_bind; [by eapply (wp_read_exact _ _ (data_region es) (index_region es))|].
  intros w8 H8.
  eapply wp_reads_bind.
  { apply (wp_reads_lift _ _ tt). unfold with_capacity, alloc_zeroed, isize_max, INDEX_ENTRY_SIZE.
    by rewrite (proj2 (Z.leb_le _ _)) by lia. }
  intros w8' H8'.
  eapply wp_reads_bind; [apply wp_reads_lift, (parse_index_region es Hfit)|]. intros w9 H9.
  apply wp_reads_ret.
Qed.

(** ** Blocks *)

Lemma block_of_index es i e :
  fits es → table_index es !! i = Some e →
  ∃ c l1 l3, chunks [] es !! i = Some c ∧ Forall rec_small c ∧ image es = l1 ++ block_bytes c ++ l3 ∧
    block_offset e = Z.of_nat (length l1) ∧ block_len e = Z.of_nat (length (block_bytes c)) ∧
    block_offset e < 2 ^ 63.
Proof.
  intros Hfit He. destruct (fits_bounds _ Hfit) as [_ _ _ Hi _]. destruct Hfit as [Hs _].
  rewrite list.Forall_forall in Hi.
  assert (Hok := Hi e ltac:(by eapply list_elem_of_lookup_2)).
  apply layout_lookup in He as (c & Hc & _ & Ho & Hl).
  exists c, (data_bytes (take i (chunks [] es))),
    (data_bytes (drop (S i) (chunks [] es)) ++ index_region es ++ footer_bytes es).
  split_and!; [done| | | | |].
  - pose proof (chunks_forall _ _ Hs) as Hcs. rewrite list.Forall_forall in Hcs.
    eapply Hcs, list_elem_of_lookup_2; eauto.
  - unfold image, data_region. rewrite (data_bytes_split _ _ _ Hc). by rewrite <-!app_assoc.
  - rewrite Ho. lia.
  - rewrite Hl. apply Z.mod_small. rewrite length_block_bytes.
    pose proof (chunks_size [] es ltac:(done) Hs) as Hcs. rewrite list.Forall_forall in Hcs.
    specialize (Hcs c ltac:(eapply list_elem_of_lookup_2; eauto)). unfold BLOCK_SIZE in Hcs. lia.
  - apply Hok.
Qed.

Lemma wp_read_block w p es i e c :
  holds w p (image es) → fits es → table_index es !! i = Some e → chunks [] es !! i = Some c →
  wp (read_block_from_disk p e) w (reads w (enc_block c)).
Proof.
  intros Hh Hfit He Hc.
  destruct (block_of_index _ _ _ Hfit He) as (c' & l1 & l3 & Hc' & _ & Him & Ho & Hl & Hlt). simplify_eq.
  unfold read_block_from_disk. rewrite Him in Hh.
  eapply wp_reads_bind; [by apply wp_seek|]. intros w1 H1.
  eapply wp_reads_bind; [exact (wp_read_exact _ _ _ _ _ _ _ (holds_calm _ _ _ _ H1 Hh) Ho Hl)|]. intros w2 H2.
  rewrite length_block_bytes.
  eapply wp_reads_bind.
  { apply (wp_reads_lift _ _ (Z.of_nat (length (enc_block c)))). unfold sub64.
    rewrite (proj2 (Z.leb_le _ _)) by lia. f_equal. lia. }
  intros w3 H3. rewrite (proj2 (Z.ltb_ge _ _)) by lia.
  rewrite (slice_at _ 0 (enc_block c) (be32 (crc32 (enc_block c)))) by done.
  unfold block_bytes. rewrite Nat2Z.id, drop_app_length, be_decode_be32 by apply crc32_range.
  rewrite Z.eqb_refl. apply wp_reads_ret.
Qed.

(** ** The block cache *)

(** Every cached block is the block of the file at that offset. *)
Definition coherent (c : BlockCache) (es : list (bytes * Entry)) : Prop :=
  ∀ off bs, blocks c !! off = Some bs →
    ∃ i e ch, table_index es !! i = Some e ∧ chunks [] es !! i = Some ch ∧
      block_offset e = off ∧ bs = enc_block ch.

(** [t] is the table of [es], with whatever blocks it has cached. *)
Definition table_rep (t : SsTable) (p : path) (es : list (bytes * Entry)) : Prop :=
  ∃ c, t = set_cache c (table_of p es) ∧ coherent c es ∧ cache_wf c ∧ cap c = BLOCK_CACHE_CAP.

Lemma table_of_rep p es : table_rep (table_of p es) p es.
Proof.
  exists (cache_new BLOCK_CACHE_CAP). split_and!; [done| |apply cache_new_wf|done].
  unfold coherent. cbn [cache_new blocks]. intros off bs Hb. by apply lookup_empty_Some in Hb.
Qed.

Lemma cache_get_cap o c : cap (cache_get o c).2 = cap c.
Proof. unfold cache_get. by destruct (blocks c !! o). Qed.

Lemma cache_put_cap o bs c : cap (cache_put o bs c) = cap c.
Proof.
  unfold cache_put. destruct (decide _); [done|]. destruct (decide _); [|done]. by destruct (lru c).
Qed.

(** A call on a table that keeps its representation, returns [a] or fails by a fault. *)
Definition table_reads {A} p es (w : world) (a : A) (r : outcome A) (s : SsTable * world) : Prop :=
  table_rep s.1 p es ∧ reads w a r s.2.

Lemma wp_cached_block w t p es i e c :
  holds w p (image es) → fits es → table_rep t p es →
  table_index es !! i = Some e → chunks [] es !! i = Some c →
  wp (cached_block e) (t, w) (table_reads p es w (enc_block c)).
Proof.
  intros Hh Hfit (ca & -> & Hco & Hwf & Hcap) He Hc. unfold cached_block.
  apply wp_bind, wp_self. cbn [wp_seq fst id set_cache cache].
  destruct (cache_get (block_offset e) ca) as [hit ca'] eqn:Eg.
  assert (Hca' : ca' = (cache_get (block_offset e) ca).2) by (by rewrite Eg).
  apply wp_bind, wp_set_self. cbn [wp_seq fst snd].
  assert (Hco' : coherent ca' es) by (intros off bs; rewrite Hca', cache_get_blocks; apply Hco).
  assert (Hwf' : cache_wf ca') by (subst ca'; by apply cache_get_wf).
  assert (Hcap' : cap ca' = BLOCK_CACHE_CAP) by (by rewrite Hca', cache_get_cap).
  destruct hit as [bs|].
  - apply wp_ret. split; [by exists ca'|]. split; [done|left]. cbn. f_equal.
    unfold cache_get in Eg. destruct (blocks ca !! block_offset e) eqn:Eb; [|done].
    injection Eg as -> _. destruct (Hco _ _ Eb) as (j & e' & ch & He' & Hch & Ho & ->).
    assert (i = j) as -> by (symmetry; eapply layout_offset_inj; eauto). by simplify_eq.
  - apply wp_bind, wp_on_world. cbn [fst snd].
    eapply wp_mono; [by eapply wp_open_existing|]. intros r w1 [H1 Hr].
    destruct Hr as [->|[[->|[msg ->]] Hf]]; cbn [wp_seq].
    2,3: split; [by exists ca'|]; split; [done|right; split; [|done]].
    2: by left. 2: right; by exists msg.
    apply wp_bind, wp_on_world. cbn [fst snd].
    eapply wp_mono; [by eapply wp_read_block; [by eapply holds_calm|..]|]. intros r w2 [H2 Hr].
    assert (H12 : calm w w2) by (by etrans).
    destruct Hr as [->|[Hf Hf2]].
    + cbn [wp_seq]. apply wp_bind, wp_set_self. cbn [wp_seq fst snd]. apply wp_ret.
      split; [|split; [done|by left]]. exists (cache_put (block_offset e) (enc_block c) ca').
      split_and!; [done| |by apply cache_put_wf|by rewrite cache_put_cap].
      intros off bs [[-> ->]|Hb]%cache_put_lookup; [|by apply Hco']. by exists i, e, c.
    + assert (w_faults w ≠ []) by eauto using calm_faults.
      destruct Hf as [->|[msg ->]]; cbn [wp_seq]; (split; [by exists ca'|]);
        (split; [done|right; split; [|done]]); [by left|right; by exists msg].
Qed.

(** ** [get] is lookup *)

Lemma table_index_nil es : table_index es = [] ↔ es = [].
Proof.
  unfold table_index. rewrite <-(chunks_nil (chunks [] es) es); [|apply chunks_nonempty|by rewrite concat_chunks].
  split; [|by intros ->]. intros E. apply (f_equal length) in E. rewrite length_layout in E.
  by destruct (chunks [] es).
Qed.

Lemma last_key_ge es mx k : sorted_keys es → last_key es = Some mx → k ∈ es.*1 → bytes_le k mx.
Proof.
  intros Hs Hm Hk. unfold last_key in Hm. destruct es as [|x es _] using rev_ind; [done|].
  rewrite reverse_snoc in Hm. injection Hm as <-. rewrite fmap_app in Hk. cbn in Hk.
  apply elem_of_app in Hk as [Hk|Hk]; [|apply list_elem_of_singleton in Hk as ->; apply bytes_le_refl].
  apply sorted_keys_app in Hs as (Hlt & _ & _). apply bytes_lt_le, Hlt; [done|]. cbn. set_solver.
Qed.

(** The key range never hides a key of the table. *)
Lemma out_of_range_spec es key :
  sorted_keys es → out_of_range (head_key es) (last_key es) key = true → lookup_in es key = None.
Proof.
  intros Hs Ho. apply lookup_in_none. intros Hin. pose proof (head_last_key es) as Hh.
  destruct es as [|ke es]; [set_solver|]. destruct Hh as (mn & mx & Emn & Emx & _ & _).
  rewrite Emn, Emx in Ho. cbn in Ho. apply orb_true_iff in Ho as [Ho|Ho]; apply bytes_ltb_spec in Ho.
  - pose proof (head_key_le _ _ Hs Hin) as Hle. rewrite Emn in Hle. cbn in Hle.
    eapply bytes_lt_irrefl, bytes_lt_le_trans; eauto.
  - pose proof (last_key_ge _ _ _ Hs Emx Hin) as Hle. eapply bytes_lt_irrefl, bytes_lt_le_trans; eauto.
Qed.

(** The bloom filter answers, and never denies a key of the table. *)
Lemma bloom_for_answers es key :
  match bloom_for es.*1 with
  | Some b => ∃ m, maybe_contains b key = Ok m ∧ (m = false → lookup_in es key = None)
  | None => es = []
  end.
Proof.
  destruct (bloom_for_spec es.*1) as [_ Hb]. destruct es as [|ke es]; [by rewrite Hb|].
  cbn [fmap list_fmap] in *. destruct Hb as (b & -> & Hwf & _ & _ & Hall).
  eexists. split; [by apply maybe_contains_spec|]. intros Hm. apply lookup_in_none. intros Hin.
  specialize (Hall key Hin). rewrite maybe_contains_spec in Hall by done. congruence.
Qed.

Lemma wp_get w t p es key :
  holds w p (image es) → fits es → sorted_keys es → table_rep t p es →
  wp (get key) (t, w) (table_reads p es w (lookup_in es key)).
Proof.
  intros Hh Hfit Hs Hrep. assert (Hrep' := Hrep). destruct Hrep' as (ca & Et & _).
  assert (Hdone : ∀ r : outcome (option Entry), r = Ok (lookup_in es key) →
    table_reads p es w (lookup_in es key) r (t, w)) by (intros r ->; split; [done|apply reads_ok]).
  unfold get. apply wp_bind, wp_self. cbn [wp_seq fst id]. rewrite Et.
  cbn [set_cache table_of index min_key max_key bloom]. rewrite <-Et.
  destruct (decide (table_index es = [])) as [E|_].
  { apply table_index_nil in E as ->. by apply wp_ret, Hdone. }
  destruct (out_of_range _ _ _) eqn:Eo.
  { apply wp_ret, Hdone. by rewrite out_of_range_spec. }
  pose proof (bloom_for_answers es key) as Hb. apply wp_bind.
  assert (Hm : ∃ m, (match bloom_for es.*1 with Some b => maybe_contains b key | None => Ok true end) = Ok m ∧
    (m = false → lookup_in es key = None)).
  { destruct (bloom_for es.*1); [done|]. by exists true. }
  destruct Hm as (m & -> & Hm). apply wp_lift. cbn [wp_seq].
  destruct m; cbn [negb]; [|apply wp_ret, Hdone; by rewrite Hm].
  pose proof (locate_block_spec es key Hs) as Hloc. destruct (locate_block _ _) as [pos|].
  2:{ apply wp_ret, Hdone. by rewrite Hloc. }
  destruct Hloc as (c & Hc & Hlk). destruct (layout_lookup_chunk 0 _ _ _ Hc) as [e He].
  fold (table_index es) in He. rewrite He.
  destruct (block_of_index _ _ _ Hfit He) as (c' & _ & _ & Hc' & Hsmall & _). simplify_eq.
  apply wp_bind. eapply wp_mono; [by eapply wp_cached_block|].
  intros r [t' w'] [Hr [Hcalm [->|[[->|[msg ->]] Hf]]]]; cbn [wp_seq].
  - apply wp_lift. split; [done|]. split; [done|left]. rewrite Hlk. apply find_in_block_spec; [done|].
    rewrite <-(concat_chunks [] es : _ = es) in Hs. by destruct (sorted_concat_split _ _ _ Hs Hc) as (_ & ? & _).
  - split; [done|]. split; [done|right]. split; [by left|done].
  - split; [done|]. split; [done|right]. split; [right; by exists msg|done].
Qed.

(** ** [read_all_entries] returns the entries *)

Lemma wp_read_blocks w p es i out :
  holds w p (image es) → fits es →
  wp (read_blocks p (drop i (table_index es)) out) w (reads w (out ++ concat (drop i (chunks [] es)))).
Proof.
  intros Hh Hfit. remember (length (table_index es) - i)%nat as n eqn:Hn.
  revert i w out Hh Hn. induction n as [|n IH]; intros i w out Hh Hn.
  - assert (Hl : length (chunks [] es) = length (table_index es)) by (unfold table_index; by rewrite length_layout).
    rewrite !drop_ge by lia. cbn. rewrite app_nil_r. apply wp_reads_ret.
  - destruct (lookup_lt_is_Some_2 (table_index es) i ltac:(lia)) as [e He].
    destruct (block_of_index _ _ _ Hfit He) as (c & _ & _ & Hc & Hsmall & _).
    rewrite (drop_S _ _ _ He), (drop_S _ _ _ Hc). cbn [read_blocks concat].
    eapply wp_reads_bind; [by eapply wp_read_block|]. intros w1 H1.
    eapply wp_reads_bind; [by apply wp_reads_lift, decode_block|]. intros w2 H2.
    rewrite app_assoc. apply IH; [eauto using holds_calm|lia].
Qed.

Lemma wp_read_all_entries w t p es :
  holds w p (image es) → fits es → table_rep t p es →
  wp (read_all_entries t) w (reads w es).
Proof.
  intros Hh Hfit (ca & -> & _). unfold read_all_entries. cbn [set_cache table_of index sst_path].
  destruct (decide _) as [E|_].
  - apply table_index_nil in E as ->. apply wp_reads_ret.
  - eapply wp_reads_bind; [by eapply wp_open_existing|]. intros w1 H1.
    pose proof (wp_read_blocks w1 p es 0 [] (holds_calm _ _ _ _ H1 Hh) Hfit) as Hb.
    by rewrite !drop_0, concat_chunks in Hb.
Qed.
End tablespec.
