(* ===== verification/Effects.v ===== *)
(** * Calls that write

    A Hoare-style discipline for code that changes files under an arbitrary
    fault schedule: [effect P s good bad] says that a call from [s] changes no
    path outside [P], and either returns with [good], or fails because a fault
    struck and leaves a state where [bad] holds.  The log and the table writer
    are specified with it. *)

From S2P Require Import Prelude Machine Value Checksum Bloom BlockCache Fs Wal SsTable Record Layout Image Search TableSpec.

(** ** The discipline *)

(** States that have a world. *)
Class HasWorld (T : Type) := the_world : T → world.
#[global] Instance world_world : HasWorld world := id.
#[global] Instance pair_world {S} : HasWorld (S * world) := snd.

Definition touches (P : path → Prop) (w w' : world) : Prop :=
  (∀ q, ¬ P q → w_nodes w' !! q = w_nodes w !! q) ∧ w_locks w' = w_locks w ∧
  (w_faults w = [] → w_faults w' = []).

Definition effect {T A} `{HasWorld T} (P : path → Prop) (s : T)
    (good : A → T → Prop) (bad : T → Prop) (r : outcome A) (s' : T) : Prop :=
  touches P (the_world s) (the_world s') ∧
  ((∃ a, r = Ok a ∧ good a s') ∨ (failed r ∧ w_faults (the_world s) ≠ [] ∧ bad s')).

#[global] Instance touches_preorder P : PreOrder (touches P).
Proof.
  split.
  - intros w. by split_and!.
  - intros w1 w2 w3 (E1&?&?) (E2&?&?). split_and!; [|congruence|auto]. intros q Hq. by rewrite E2, E1.
Qed.

Lemma touches_mono (P Q : path → Prop) w w' : (∀ q, P q → Q q) → touches P w w' → touches Q w w'.
Proof. intros HPQ (?&?&?). split_and!; eauto. Qed.

Lemma calm_touches P w w' : calm w w' → touches P w w'.
Proof. intros (E&?&?). split_and!; [|done..]. intros q _. by rewrite E. Qed.

Lemma touches_calm w w' : touches (λ _, False) w w' → calm w w'.
Proof. intros (E&?&?). split_and!; [|done..]. apply map_eq. auto. Qed.

Lemma touches_file_at P w w' q : touches P w w' → ¬ P q → file_at w' q = file_at w q.
Proof. intros (E&_) Hq. unfold file_at. by rewrite E. Qed.

Lemma touches_is_dir P w w' q : touches P w w' → ¬ P q → is_dir w' q = is_dir w q.
Proof. intros (E&_) Hq. unfold is_dir. by rewrite E. Qed.

Lemma touches_holds P w w' q bs : touches P w w' → ¬ P q → holds w q bs → holds w' q bs.
Proof. unfold holds. intros Ht Hq. by rewrite (touches_file_at _ _ _ _ Ht Hq). Qed.

Lemma touches_faults P w w' : touches P w w' → w_faults w' ≠ [] → w_faults w ≠ [].
Proof. intros (_&_&H). auto. Qed.

Lemma touches_update P p g w : P p → touches P w (update_file p g w).
Proof.
  intros Hp. unfold touches. rewrite update_file_faults, update_file_locks. split_and!; [|done..].
  intros q Hq. unfold update_file. destruct (file_at w p); [|done]. cbn.
  rewrite lookup_insert_ne; [done|]. by intros ->.
Qed.

Lemma touches_put (P : path → Prop) p f w : P p → touches P w (put_file p f w).
Proof.
  intros Hp. split_and!; [|done..]. intros q Hq. cbn. rewrite lookup_insert_ne; [done|]. by intros ->.
Qed.

Section rules.
Context {T : Type} `{HasWorld T}.
Implicit Types (P : path → Prop) (s : T).

Lemma effect_mono {A} P (Q : path → Prop) s (g g' : A → T → Prop) (b b' : T → Prop) m :
  wp m s (effect P s g b) → (∀ q, P q → Q q) → (∀ a s', g a s' → g' a s') → (∀ s', b s' → b' s') →
  wp m s (effect Q s g' b').
Proof.
  intros Hm HP Hg Hb. eapply wp_mono; [exact Hm|]. intros r s' [Ht Hr].
  split; [by eapply touches_mono|]. destruct Hr as [(a & -> & Ha)|(? & ? & ?)]; [left|right]; eauto 10.
Qed.

(** The postcondition may use what the call did not touch. *)
Lemma effect_touches {A} P s (g g' : A → T → Prop) (b b' : T → Prop) m :
  wp m s (effect P s g b) →
  (∀ a s', touches P (the_world s) (the_world s') → g a s' → g' a s') →
  (∀ s', touches P (the_world s) (the_world s') → b s' → b' s') →
  wp m s (effect P s g' b').
Proof.
  intros Hm Hg Hb. eapply wp_mono; [exact Hm|]. intros r s' [Ht Hr]. split; [done|].
  destruct Hr as [(a & -> & Ha)|(? & ? & ?)]; [left|right]; eauto 10.
Qed.

Lemma effect_conseq {A} P (Q : path → Prop) s (g g' : A → T → Prop) (b b' : T → Prop) m :
  wp m s (effect P s g b) → (∀ q, P q → Q q) →
  (∀ a s', touches P (the_world s) (the_world s') → g a s' → g' a s') →
  (∀ s', touches P (the_world s) (the_world s') → b s' → b' s') →
  wp m s (effect Q s g' b').
Proof. intros Hm HP Hg Hb. eapply effect_mono; [by eapply effect_touches|done..]. Qed.

(** Without faults a call succeeds. *)
Lemma effect_quiet {A} P s (m : M T A) g b :
  wp m s (effect P s g b) → w_faults (the_world s) = [] →
  ∃ a s', m s = (Ok a, s') ∧ touches P (the_world s) (the_world s') ∧ g a s'.
Proof.
  unfold wp. intros [Ht Hr] Hf. destruct (m s) as [r s']. cbn [fst snd] in *.
  destruct Hr as [(a & -> & Ha)|(_ & ? & _)]; [|done]. by exists a, s'.
Qed.

Lemma effect_bind {A B} P s (m : M T A) (k : A → M T B) g g1 b :
  wp m s (effect P s g1 b) →
  (∀ a s1, touches P (the_world s) (the_world s1) → g1 a s1 → wp (k a) s1 (effect P s1 g b)) →
  wp (m ≫= k) s (effect P s g b).
Proof.
  intros Hm Hk. apply wp_bind. eapply wp_mono; [exact Hm|]. intros r s1 [Ht Hr]. unfold wp_seq.
  destruct Hr as [(a & -> & Ha)|([->|[msg ->]] & Hf & Hb)].
  - eapply wp_mono; [by eapply Hk|]. intros r s2 [Ht2 Hr]. split; [by etrans|].
    destruct Hr as [?|(? & ? & ?)]; [by left|right]. eauto using touches_faults.
  - split; [done|right]. split; [by left|done].
  - split; [done|right]. split; [right; by exists msg|done].
Qed.

Lemma effect_seq {A B} P (P0 : path → Prop) s (m : M T A) (k : A → M T B) g g1 b b0 :
  wp m s (effect P0 s g1 b0) → (∀ q, P0 q → P q) →
  (∀ s1, touches P0 (the_world s) (the_world s1) → b0 s1 → b s1) →
  (∀ a s1, touches P0 (the_world s) (the_world s1) → g1 a s1 → wp (k a) s1 (effect P s1 g b)) →
  wp (m ≫= k) s (effect P s g b).
Proof.
  intros Hm HP Hb Hk. apply wp_bind. eapply wp_mono; [exact Hm|]. intros r s1 [Ht Hr].
  assert (HtP := touches_mono _ _ _ _ HP Ht). unfold wp_seq.
  destruct Hr as [(a & -> & Ha)|([->|[msg ->]] & Hf & Hb0)].
  - eapply wp_mono; [by eapply Hk|]. intros r s2 [Ht2 Hr]. split; [by etrans|].
    destruct Hr as [?|(? & ? & ?)]; [by left|right]. eauto using touches_faults.
  - split; [done|right]. split; [by left|auto].
  - split; [done|right]. split; [right; by exists msg|auto].
Qed.

(** A pure step between calls. *)
Lemma effect_step {A B} P s (m : M T A) (k : A → M T B) a s1 g b :
  m s = (Ok a, s1) → the_world s1 = the_world s →
  wp (k a) s1 (effect P s1 g b) → wp (m ≫= k) s (effect P s g b).
Proof.
  intros E Ew Hk. apply wp_bind. unfold wp at 1. rewrite E. cbn [wp_seq fst snd].
  eapply wp_mono; [exact Hk|]. unfold effect. by rewrite Ew.
Qed.

Lemma effect_ret {A} P s (a : A) (g : A → T → Prop) b : g a s → wp (mret a) s (effect P s g b).
Proof. intros Hg. apply wp_ret. split; [done|left]. eauto. Qed.

Lemma effect_lift {A} P s (o : outcome A) a (g : A → T → Prop) b :
  o = Ok a → g a s → wp (lift o) s (effect P s g b).
Proof. intros -> Hg. apply wp_lift. split; [done|left]. eauto. Qed.
End rules.

Section pair_rules.
Context {S : Type}.
Implicit Types (P : path → Prop) (s : S * world).

Lemma effect_self {A} P s (f : S → A) g b : g (f s.1) s → wp (self f) s (effect P s g b).
Proof. intros Hg. apply wp_self. split; [done|left]. eauto. Qed.

Lemma effect_set_self P s (f : S → S) g b :
  g tt (f s.1, s.2) → wp (set_self f) s (effect P s g b).
Proof. intros Hg. apply wp_set_self. split; [done|left]. eauto. Qed.

Lemma effect_on_world {A} P s (m : M world A) g b :
  wp m s.2 (effect P s.2 g b) →
  wp (on_world m) s (effect P s (λ a s', s'.1 = s.1 ∧ g a s'.2) (λ s', s'.1 = s.1 ∧ b s'.2)).
Proof.
  intros Hm. apply wp_on_world. eapply wp_mono; [exact Hm|]. intros r w' [Ht Hr]. split; [done|].
  destruct Hr as [(a & -> & Ha)|(? & ? & ?)]; [left|right]; eauto 10.
Qed.

(** A system call inside a method. *)
Lemma effect_seq_world {A B} P (P0 : path → Prop) s (m : M world A) (k : A → M (S * world) B) g g1 b b0 :
  wp m s.2 (effect P0 s.2 g1 b0) → (∀ q, P0 q → P q) →
  (∀ w', touches P0 s.2 w' → b0 w' → b (s.1, w')) →
  (∀ a w', touches P0 s.2 w' → g1 a w' → wp (k a) (s.1, w') (effect P (s.1, w') g b)) →
  wp (on_world m ≫= k) s (effect P s g b).
Proof.
  intros Hm HP Hb Hk. eapply effect_seq; [by apply effect_on_world|done| |].
  - intros [x w'] Ht [E Hb0]. cbn in *. subst x. auto.
  - intros a [x w'] Ht [E Hg]. cbn in *. subst x. auto.
Qed.

(** A reading call. *)
Lemma effect_reads {A} P w (m : M world A) a (g : A → world → Prop) (b : world → Prop) :
  wp m w (reads w a) →
  (∀ w', calm w w' → g a w') → (∀ w', calm w w' → b w') →
  wp m w (effect P w g b).
Proof.
  intros Hm Hg Hb. eapply wp_mono; [exact Hm|]. intros r w' [Hc Hr].
  split; [by apply calm_touches|]. destruct Hr as [->|[? ?]]; [left|right]; eauto.
Qed.
End pair_rules.

Lemma reads_effect {A} P w (m : M world A) a :
  wp m w (reads w a) → wp m w (effect P w (λ x w', x = a ∧ calm w w') (calm w)).
Proof. intros Hm. by eapply effect_reads. Qed.

(** A system call. *)
Lemma effect_io {A} P w (ok : M world A) partial (g : A → world → Prop) (b : world → Prop) :
  (∀ w', calm w w' → ∃ a w2, ok w' = (Ok a, w2) ∧ touches P w' w2 ∧ g a w2) →
  (∀ w' n, calm w w' → touches P w' (partial n w') ∧ b (partial n w')) →
  wp (io ok partial) w (effect P w g b).
Proof.
  intros Hok Hbad. apply wp_io.
  - intros w' Hc. destruct (Hok w' Hc) as (a & w2 & E & Ht & Hg). unfold wp. rewrite E.
    split; [|left; eauto]. etrans; [by eapply calm_touches|done].
  - intros r w' n Hf Hc Hr. destruct (Hbad w' n Hc) as [Ht Hb].
    split; [|by right]. etrans; [by eapply calm_touches|done].
Qed.

(** [exists]: the answer, or [false] because a fault struck. *)
Lemma effect_exists P w p :
  wp (fs_exists p) w (effect P w
    (λ b w', (b = exists_at w p ∨ b = false ∧ w_faults w ≠ []) ∧ calm w w') (calm w)).
Proof.
  apply wp_ask.
  - intros w' Hc. split; [by apply calm_touches|left]. eexists. split; [done|]. split; [left|done].
    unfold exists_at. by rewrite (proj1 Hc).
  - intros w' Hf Hc. assert (Ht := calm_touches P _ _ Hc). split; (split; [done|]).
    + left. exists false. auto.
    + right. split_and!; [by left|done|done].
Qed.

(** ** Files that are written *)

(** The file at [p], created or not. *)
Definition wal_at (w : world) (p : path) (f : file) : Prop :=
  match w_nodes w !! p with
  | None => f = File [] []
  | Some (Reg f') => f' = f
  | Some Dir => False
  end.

Lemma file_at_wal w p f : file_at w p = Some f → wal_at w p f.
Proof.
  unfold file_at, wal_at. destruct (w_nodes w !! p) as [[|f']|]; [done| |done]. by intros [= ->].
Qed.

Lemma wal_at_calm w w' p f : calm w w' → wal_at w p f → wal_at w' p f.
Proof. unfold wal_at. by intros (-> & _). Qed.

Lemma effect_open_create w p f :
  wal_at w p f → is_dir w (parent p) = true →
  wp (fs_open_create p) w (effect (eq p) w (λ _ w', file_at w' p = Some f) (calm w)).
Proof.
  intros Hf Hd. apply effect_io.
  - intros w' Hc. apply (wal_at_calm _ _ _ _ Hc) in Hf. unfold wal_at in Hf.
    rewrite <-(calm_is_dir _ _ _ Hc) in Hd. rewrite Hd. unfold file_at.
    destruct (w_nodes w' !! p) as [[|f']|] eqn:E; [done| |]; subst.
    + exists tt, w'. split_and!; [done..|]. by rewrite E.
    + exists tt, (put_file p (File [] []) w'). split_and!; [done|by apply touches_put|].
      cbn. by rewrite lookup_insert_eq.
  - done.
Qed.

Lemma file_at_calm w w' p f : calm w w' → file_at w p = f → file_at w' p = f.
Proof. intros Hc <-. by apply calm_file_at. Qed.

Lemma effect_write_all w p f data :
  file_at w p = Some f →
  wp (fs_write_all p data) w (effect (eq p) w
    (λ _ w', file_at w' p = Some (File (f_content f ++ data) (f_durable f)))
    (λ w', ∃ t, t `prefix_of` data ∧ file_at w' p = Some (File (f_content f ++ t) (f_durable f)))).
Proof.
  intros Hf. apply effect_io.
  - intros w' Hc. exists tt, (append_bytes p data w'). split_and!; [done|by apply touches_update|].
    unfold append_bytes. rewrite file_at_update, decide_True, (file_at_calm _ _ _ _ Hc Hf) by done. done.
  - intros w' n Hc. split; [by apply touches_update|]. exists (take n data).
    split; [by apply prefix_take|].
    unfold append_bytes. rewrite file_at_update, decide_True, (file_at_calm _ _ _ _ Hc Hf) by done. done.
Qed.

Lemma effect_sync_all w p f :
  file_at w p = Some f →
  wp (fs_sync_all p) w (effect (eq p) w
    (λ _ w', file_at w' p = Some (File (f_content f) (f_content f))) (λ w', file_at w' p = Some f)).
Proof.
  intros Hf. apply effect_io.
  - intros w' Hc. eexists tt, _. split_and!; [done|by apply touches_update|].
    rewrite file_at_update, decide_True, (file_at_calm _ _ _ _ Hc Hf) by done. done.
  - intros w' n Hc. unfold no_effect. split; [done|]. by eapply file_at_calm.
Qed.

Lemma effect_set_len w p f n :
  file_at w p = Some f →
  wp (fs_set_len p n) w (effect (eq p) w
    (λ _ w', file_at w' p = Some (File (take (Z.to_nat n) (f_content f)) (f_durable f)))
    (λ w', file_at w' p = Some f)).
Proof.
  intros Hf. apply effect_io.
  - intros w' Hc. eexists tt, _. split_and!; [done|by apply touches_update|].
    rewrite file_at_update, decide_True, (file_at_calm _ _ _ _ Hc Hf) by done. done.
  - intros w' k Hc. unfold no_effect. split; [done|]. by eapply file_at_calm.
Qed.

Lemma effect_open_truncate w p f :
  wal_at w p f → is_dir w (parent p) = true →
  wp (fs_open_truncate p) w (effect (eq p) w
    (λ _ w', file_at w' p = Some (File [] (f_durable f))) (calm w)).
Proof.
  intros Hf Hd. apply effect_io.
  - intros w' Hc. apply (wal_at_calm _ _ _ _ Hc) in Hf. unfold wal_at in Hf.
    rewrite <-(calm_is_dir _ _ _ Hc) in Hd. rewrite Hd.
    destruct (w_nodes w' !! p) as [[|f']|] eqn:E; [done| |]; subst.
    + eexists tt, _. split_and!; [done|by apply touches_put|]. unfold file_at. cbn. by rewrite lookup_insert_eq.
    + eexists tt, _. split_and!; [done|by apply touches_put|]. unfold file_at. cbn. by rewrite lookup_insert_eq.
  - done.
Qed.

(** ** Directories *)

(** Every ancestor of [d], and [d], is a directory. *)
Definition chain (w : world) (d : path) : Prop := ∀ q, q ∈ prefixes d → w_nodes w !! q = Some Dir.

Lemma chain_self d : d ≠ [] → d ∈ prefixes d.
Proof.
  intros Hd. unfold prefixes. apply list_elem_of_fmap. exists (length d). rewrite firstn_all.
  split; [done|]. apply elem_of_seq. destruct d; [done|]. cbn. lia.
Qed.

Lemma chain_is_dir w d : chain w d → is_dir w d = true.
Proof.
  intros Hc. unfold is_dir. destruct d as [|x d]; [done|]. rewrite Hc; [done|by apply chain_self].
Qed.

Lemma chain_touches (P : path → Prop) w w' d :
  touches P w w' → (∀ q, q ∈ prefixes d → ¬ P q) → chain w d → chain w' d.
Proof. intros (E & _) Hp Hc q Hq. rewrite E by auto. auto. Qed.

Lemma chain_calm w w' d : calm w w' → chain w d → chain w' d.
Proof. intros (E & _) Hc q Hq. rewrite E. auto. Qed.

(** A child of [d] is not one of its ancestors. *)
Lemma join_not_prefix d x : join d x ∉ prefixes d.
Proof.
  unfold prefixes, join. intros (i & E & Hi)%list_elem_of_fmap. apply elem_of_seq in Hi.
  apply (f_equal length) in E. rewrite length_app, length_take in E. cbn in E. lia.
Qed.

Lemma chain_no_file w d q : chain w d → q ∈ prefixes d → file_at w q = None.
Proof. intros Hc Hq. unfold file_at. by rewrite Hc. Qed.

Lemma make_dirs_noop (m : gmap path node) ps :
  (∀ q, q ∈ ps → is_Some (m !! q)) →
  foldr (λ q m, match m !! q with None => <[q := Dir]> m | Some _ => m end) m ps = m.
Proof.
  induction ps as [|p ps IH]; intros Hp; [done|]. cbn. rewrite IH by set_solver.
  by destruct (Hp p ltac:(set_solver)) as [? ->].
Qed.

Lemma effect_create_dir_all P w d :
  chain w d → d ≠ [] → wp (fs_create_dir_all d) w (effect P w (λ _ w', calm w w') (λ w', calm w w')).
Proof.
  intros Hch Hd. apply effect_io; [|done].
  intros w' Hc. exists tt, w'. assert (Hch' := chain_calm _ _ _ Hc Hch). split_and!; [|done..].
  rewrite (chain_no_file _ _ _ Hch') by (by apply chain_self).
  assert (existsb (λ q, bool_decide (is_Some (file_at w' q))) (prefixes d) = false) as ->.
  { apply not_true_is_false. intros (q & Hq & Hb)%existsb_exists. rewrite <-list_elem_of_In in Hq.
    rewrite (chain_no_file _ _ _ Hch' Hq) in Hb. apply bool_decide_eq_true in Hb as [? ?]. done. }
  unfold set_nodes. rewrite make_dirs_noop; [by destruct w'|]. intros q Hq. rewrite Hch' by done. eauto.
Qed.

(** ** Writing a table *)

Section write.
Context {Prof : Profile} {Cd : Codec} {CdOk : CodecOk Cd}.

(** What a failed table write leaves at [p]: what was there, or a torn file. *)
Definition unwritten (w : world) (p : path) (f : file) (img : bytes) (w' : world) : Prop :=
  calm w w' ∨ ∃ t, t `prefix_of` img ∧ file_at w' p = Some (File t (f_durable f)).

(** [SsTable::flush]: the file holds the image, durably, and the table in memory
    is the table of the entries. *)
Lemma effect_sst_flush w p f es :
  chain w (parent p) → parent p ≠ [] → p ∉ prefixes (parent p) → wal_at w p f →
  wp (SsTable.flush p es) w (effect (eq p) w
    (λ t w', t = table_of p es ∧ holds w' p (image es))
    (unwritten w p f (image es))).
Proof.
  intros Hch Hne Hp Hf. unfold SsTable.flush.
  eapply effect_seq; [by apply (effect_create_dir_all (λ _, False))|done|by left|].
  intros [] w1 _ Hc1. cbn in Hc1. rewrite build_table_eq.
  eapply effect_step; [done..|]. cbn beta iota.
  assert (Hf1 : wal_at w1 p f) by (by eapply wal_at_calm).
  assert (Hd1 : is_dir w1 (parent p) = true) by (rewrite (calm_is_dir _ _ _ Hc1); by apply chain_is_dir).
  eapply effect_seq; [by eapply effect_open_truncate|done|intros w' _ Hw; left; by etrans|].
  intros [] w2 _ Hf2. cbn in Hf2.
  eapply effect_seq; [by eapply effect_write_all|done|intros w' _ Hw; by right|].
  intros [] w3 _ Hf3. cbn in Hf3.
  eapply effect_seq; [by eapply effect_sync_all|done|intros w' _ Hw; right; by eexists|].
  intros [] w4 _ Hf4. cbn in Hf4. by apply effect_ret.
Qed.
End write.
