(* ===== verification/WalSpec.v ===== *)
(** * The write-ahead log meets its specification

    Each method of [Wal] under an arbitrary fault schedule: what the log file
    holds when the call succeeds, and what it can hold when the call fails. *)

From S2P Require Import Prelude Machine Value Checksum Fs Wal SsTable Record TableSpec Effects.

(** [wl] is the log at [p], whose file is [f]. *)
Definition wal_rep (wl : Wal) (w : world) (p : path) (f : file) : Prop :=
  file_path wl = p ∧ wal_at w p f ∧ is_dir w (parent p) = true ∧ p ≠ parent p ∧
  (wal_file wl = None ∨ wal_file wl = Some p ∧ file_at w p = Some f).

Lemma parent_neq d x : join d x ≠ parent (join d x).
Proof. rewrite parent_join. unfold join. intros E. apply (f_equal length) in E. rewrite length_app in E. cbn in E. lia. Qed.

(** The state of a log survives what happens to other files. *)
Lemma wal_rep_touches (P : path → Prop) wl w w' p f :
  touches P w w' → ¬ P p → ¬ P (parent p) → wal_rep wl w p f → wal_rep wl w' p f.
Proof.
  intros Ht Hp Hpp (? & Hf & Hd & ? & Hh). unfold wal_rep, wal_at.
  rewrite (touches_is_dir _ _ _ _ Ht Hpp), (touches_file_at _ _ _ _ Ht Hp).
  destruct Ht as (E & _). by rewrite (E p Hp).
Qed.

Lemma wal_rep_calm wl w w' p f : calm w w' → wal_rep wl w p f → wal_rep wl w' p f.
Proof. intros Hc. apply (wal_rep_touches (λ _, False)); [by apply calm_touches|auto..]. Qed.

(** After a write through its handle. *)
Lemma wal_rep_written wl w w' p f f' :
  touches (eq p) w w' → wal_rep wl w p f → wal_file wl = None ∨ wal_file wl = Some p →
  file_at w' p = Some f' → wal_rep wl w' p f'.
Proof.
  intros Ht (? & _ & Hd & Hne & _) Hh Hf. unfold wal_rep.
  rewrite (touches_is_dir _ _ _ _ Ht) by done.
  split_and!; [done|by apply file_at_wal|done..|]. destruct Hh; auto.
Qed.

Lemma file_same f : File (f_content f ++ []) (f_durable f) = f.
Proof. destruct f. by rewrite app_nil_r. Qed.

Section walspec.
Context {Prof : Profile} {Cd : Codec}.
Implicit Types (s : Wal * world).

Lemma effect_writer s p f :
  wal_rep s.1 s.2 p f →
  wp writer s (effect (eq p) s
    (λ h s', h = p ∧ wal_rep s'.1 s'.2 p f ∧ wal_file s'.1 = Some p ∧ file_at s'.2 p = Some f)
    (λ s', wal_rep s'.1 s'.2 p f)).
Proof.
  destruct s as [wl w]; cbn. intros Hr. assert (Hr' := Hr). destruct Hr' as (<- & Hf & Hd & Hne & Hh).
  unfold writer. eapply effect_step; [done..|]. cbn [fst id].
  destruct Hh as [E|[E Hfa]]; rewrite E; [|by apply effect_ret].
  eapply effect_seq_world; [by eapply effect_open_create|done| |].
  { intros w' _ Hc. by eapply wal_rep_calm. }
  intros [] w1 Ht Hw1. eapply effect_step; [done..|]. apply effect_ret. cbn [fst snd set_wal_file wal_file].
  split_and!; [done| |done..].
  split_and!; [done|by apply file_at_wal| |done|by right].
  by rewrite (touches_is_dir _ _ _ _ Ht).
Qed.

(** The log at [p] holds [f] and a part of [new] that a fault cut short. *)
Definition log_cut (p : path) (f : file) (new : bytes) (s : Wal * world) : Prop :=
  ∃ t, t `prefix_of` new ∧ wal_rep s.1 s.2 p (File (f_content f ++ t) (f_durable f)).

Lemma log_cut_nil p f new s : wal_rep s.1 s.2 p f → log_cut p f new s.
Proof. intros Hr. exists []. split; [apply prefix_nil|]. by rewrite file_same. Qed.

Lemma log_cut_app p f new rest s : log_cut p f new s → log_cut p f (new ++ rest) s.
Proof. intros (t & Ht & Hr). exists t. split; [by apply prefix_app_r|done]. Qed.

(** Cut in the middle of a later write. *)
Lemma log_cut_after p f l new s :
  log_cut p (File (f_content f ++ l) (f_durable f)) new s → log_cut p f (l ++ new) s.
Proof.
  intros (t & Ht & Hr). exists (l ++ t). split; [by apply prefix_app|]. cbn in Hr. by rewrite <-app_assoc in Hr.
Qed.

(** A write through the handle that [writer] returned. *)
Lemma effect_wal_write s p f bs :
  wal_rep s.1 s.2 p f → wal_file s.1 = Some p → file_at s.2 p = Some f →
  wp (on_world (fs_write_all p bs)) s (effect (eq p) s
    (λ _ s', s'.1 = s.1 ∧ wal_rep s'.1 s'.2 p (File (f_content f ++ bs) (f_durable f)))
    (log_cut p f bs)).
Proof.
  intros Hr Hh Hf. eapply effect_touches; [by eapply effect_on_world, effect_write_all|..].
  - intros a [wl w'] Ht [E Hw]. cbn in *. subst. split; [done|]. eapply wal_rep_written; eauto.
  - intros [wl w'] Ht (E & t & Hp & Hw). cbn in *. subst. exists t. split; [done|].
    eapply wal_rep_written; eauto.
Qed.

(** [append]: the framed entry at the end of the file, not yet durable. *)
Lemma effect_append s p f e :
  wal_rep s.1 s.2 p f →
  wp (append e) s (effect (eq p) s
    (λ _ s', wal_rep s'.1 s'.2 p (File (f_content f ++ frame e) (f_durable f)))
    (log_cut p f (frame e))).
Proof.
  intros Hr. unfold append. eapply effect_seq; [by eapply effect_writer|done| |].
  { intros s1 _ H1. by apply log_cut_nil. }
  intros ? s1 _ (-> & H1 & Hh & Hf).
  eapply effect_mono; [by eapply effect_wal_write|done| |done]. by intros [] s2 [_ ?].
Qed.

(** [write_commit]: everything in the file and the COMMIT record, durably. *)
Lemma effect_write_commit s p f n :
  wal_rep s.1 s.2 p f →
  wp (write_commit n) s (effect (eq p) s
    (λ _ s', let c := f_content f ++ frame (commit_entry n) in wal_rep s'.1 s'.2 p (File c c))
    (log_cut p f (frame (commit_entry n)))).
Proof.
  intros Hr. unfold write_commit. eapply effect_seq; [by eapply effect_writer|done| |].
  { intros s1 _ H1. by apply log_cut_nil. }
  intros ? s1 _ (-> & H1 & Hh & Hf).
  set (bs := frame (commit_entry n)).
  eapply effect_seq_world; [by eapply effect_write_all|done| |].
  { intros w' Ht (t & Hp & Hw). exists t. split; [done|]. eapply wal_rep_written; eauto. }
  intros [] w2 Ht2 Hf2. eapply effect_touches; [by eapply effect_on_world, effect_sync_all|..].
  - intros [] [wl w'] Ht [E Hw]. cbn in *. subst.
    eapply (wal_rep_written _ s1.2); [by etrans|done|by right|done].
  - intros [wl w'] Ht [E Hw]. cbn in *. subst. exists bs. split; [done|].
    eapply (wal_rep_written _ s1.2); [by etrans|done|by right|done].
Qed.

(** [clear]: an empty file. *)
Lemma effect_clear s p f :
  wal_rep s.1 s.2 p f →
  wp clear s (effect (eq p) s
    (λ _ s', wal_rep s'.1 s'.2 p (File [] []))
    (λ s', wal_rep s'.1 s'.2 p f ∨ wal_rep s'.1 s'.2 p (File [] (f_durable f)))).
Proof.
  destruct s as [wl w]; cbn. intros Hr. assert (Hr' := Hr). destruct Hr' as (<- & Hf & Hd & Hne & Hh).
  unfold clear. eapply effect_step; [done..|]. eapply effect_step; [done..|].
  assert (Hr0 : wal_rep (set_wal_file None wl) w (file_path wl) f) by (split_and!; [done..|by left]).
  cbn [fst snd id set_wal_file file_path].
  eapply effect_seq_world; [by eapply effect_open_truncate|done| |].
  { intros w' _ Hc. left. by eapply wal_rep_calm. }
  intros [] w1 Ht1 Hw1. eapply effect_touches; [by eapply effect_on_world, effect_sync_all|..].
  - intros [] [wl' w'] Ht [E Hw]. cbn in *. subst.
    eapply (wal_rep_written _ w); [by etrans|done|by left|done].
  - intros [wl' w'] Ht [E Hw]. cbn in *. subst. right.
    eapply (wal_rep_written _ w); [by etrans|done|by left|done].
Qed.

(** ** Recovery *)

Lemma frames_nil es : frames es = [] → es = [].
Proof. intros E. pose proof (length_frames_ge es) as H. rewrite E in H. by destruct es; [|cbn in H; lia]. Qed.

Lemma frames_prefix es1 es2 : es1 `prefix_of` es2 → frames es1 `prefix_of` frames es2.
Proof. intros [k ->]. rewrite frames_app. by apply prefix_app_r. Qed.

(** What a failed recovery leaves: the log as it was, or already truncated. *)
Definition log_kept (p : path) (c c' : bytes) (s : Wal * world) : Prop :=
  wal_rep s.1 s.2 p (File c c) ∨ wal_rep s.1 s.2 p (File c' c).

Lemma wal_rep_exists wl w p f :
  wal_rep wl w p f →
  w_nodes w !! p = None ∧ f = File [] [] ∨ w_nodes w !! p = Some (Reg f) ∧ file_at w p = Some f.
Proof.
  intros (_ & Hf & _). unfold wal_at in Hf. unfold file_at.
  destruct (w_nodes w !! p) as [[|f']|]; [done| |]; subst; auto.
Qed.

(** [read_file] returns the bytes of the log; a fault in [exists] makes it report
    that there is no log. *)
Lemma effect_read_file s p f :
  wal_rep s.1 s.2 p f →
  wp read_file s (effect (eq p) s
    (λ b s', (b = Some (f_content f) ∧ file_at s'.2 p = Some f ∨
              b = None ∧ (f = File [] [] ∨ w_faults s.2 ≠ [])) ∧
             wal_rep s'.1 s'.2 p f ∧ s'.1 = s.1)
    (λ s', wal_rep s'.1 s'.2 p f)).
Proof.
  destruct s as [wl w]; cbn [fst snd]. intros Hr. assert (Hr' := Hr). destruct Hr' as (Ep & _).
  unfold read_file. eapply effect_step; [done..|]. cbn [fst]. rewrite Ep.
  eapply effect_seq_world; [apply (effect_exists (λ _, False))|done| |]; cbn [fst snd].
  { intros w' _ Hc. by eapply wal_rep_calm. }
  intros b w0 _ [Hb Hc0]. assert (Hr0 := wal_rep_calm _ _ _ _ _ Hc0 Hr).
  assert (Hne : p ≠ []).
  { destruct Hr as (_ & _ & _ & Hne & _). intros ->. by destruct Hne. }
  unfold exists_at in Hb. rewrite (bool_decide_eq_false_2 (p = [])), orb_false_r in Hb by done.
  destruct b; cbn [negb].
  2:{ apply effect_ret. split_and!; [right; split; [done|]|done|done].
      destruct Hb as [Hb|[_ Hb]]; [left|by right].
      destruct (wal_rep_exists _ _ _ _ Hr) as [[_ ->]|[E _]]; [done|]. rewrite E in Hb.
      by rewrite bool_decide_eq_true_2 in Hb by eauto. }
  destruct Hb as [Hb|[? _]]; [|done]. symmetry in Hb. apply bool_decide_eq_true_1 in Hb.
  destruct (wal_rep_exists _ _ _ _ Hr) as [[E _]|[E Hf]]; [rewrite E in Hb; by destruct Hb|].
  rewrite <-(proj1 Hc0) in E. assert (Hf0 := file_at_calm _ _ _ _ Hc0 Hf). clear Hf. rename Hf0 into Hf.
  assert (Hopen : wp (fs_open_existing p) w0 (reads w0 tt)).
  { apply wp_reads_io. intros w' Hc. by rewrite (proj1 Hc), E. }
  assert (Hread : ∀ w', calm w0 w' → wp (fs_read_to_end p) w' (reads w' (f_content f))).
  { intros w' Hc. apply wp_reads_io. intros w2 Hc2. unfold gets, content.
    rewrite (calm_file_at _ _ _ Hc2), (calm_file_at _ _ _ Hc), Hf. done. }
  eapply effect_seq_world; [by apply (reads_effect (λ _, False)), Hopen|done| |].
  { intros w' _ Hc. by eapply wal_rep_calm. }
  intros ? w1 _ [_ Hc1]. cbn [snd] in Hc1.
  eapply effect_seq_world; [by apply (reads_effect (λ _, False)), Hread|done| |]; cbn [fst snd].
  { intros w' _ Hc. eapply wal_rep_calm; [|done]. by etrans. }
  intros ? w2 _ [-> Hc2]. cbn [fst snd] in *. assert (Hc := transitivity Hc1 Hc2).
  apply effect_ret. cbn [fst snd].
  split_and!; [left; split; [done|by eapply file_at_calm]|by eapply wal_rep_calm|done].
Qed.

(** The truncation of [read_for_recovery]. *)
Lemma effect_truncate s p c c' rest :
  wal_rep s.1 s.2 p (File c c) → file_at s.2 p = Some (File c c) → c = c' ++ rest →
  wp (p ← self file_path;
      _ ← on_world (fs_open_existing p);
      _ ← on_world (fs_set_len p (Z.of_nat (length c')));
      _ ← on_world (fs_sync_all p);
      set_self (set_wal_file None)) s
    (effect (eq p) s (λ _ s', wal_rep s'.1 s'.2 p (File c' c')) (log_kept p c c')).
Proof.
  destruct s as [wl w]; cbn [fst snd]. intros Hr Hf Hc. assert (Hr' := Hr).
  destruct Hr' as (Ep & _ & Hd & Hne & _). eapply effect_step; [done..|]. cbn [fst]. rewrite Ep.
  eapply effect_seq_world.
  { apply (reads_effect (λ _, False)). by apply (wp_open_existing _ _ c). }
  { done. } { intros w' _ Hcalm. left. by eapply wal_rep_calm. }
  intros ? w1 _ [_ Hc1]. cbn [fst snd] in *.
  assert (Hf1 := file_at_calm _ _ _ _ Hc1 Hf). assert (Hr1 := wal_rep_calm _ _ _ _ _ Hc1 Hr).
  assert (Hh1 : wal_file wl = None ∨ wal_file wl = Some p) by (destruct Hr as (_&_&_&_&[?|[? ?]]); auto).
  eapply effect_seq_world; [by eapply effect_set_len|done| |]; cbn [fst snd f_content f_durable].
  { intros w' Ht Hw'. left. by eapply (wal_rep_written _ w1). }
  rewrite Nat2Z.id. replace (take (length c') c) with c' by (by rewrite Hc, take_app_length).
  intros ? w2 Ht2 Hf2. assert (Hr2 : wal_rep wl w2 p (File c' c)) by (by eapply (wal_rep_written _ w1)).
  eapply effect_seq_world; [by eapply effect_sync_all|done| |]; cbn [fst snd f_content f_durable].
  { intros w' Ht Hw'. right. by eapply (wal_rep_written _ w2). }
  intros ? w3 Ht3 Hf3. assert (Hr3 : wal_rep wl w3 p (File c' c')) by (by eapply (wal_rep_written _ w2)).
  apply effect_set_self. cbn [fst snd]. destruct Hr3 as (? & ? & ? & ? & _). split_and!; [done..|by left].
Qed.

(** [read_for_recovery] on a log of whole records with a torn tail: returns the
    committed entries, and the file holds exactly those, durably; or a fault hid
    the log from [exists], which reads as an empty log and leaves the file. *)
Lemma effect_read_for_recovery `{!CodecOk _} s p es tail :
  let c := frames es ++ tail in
  let c' := frames (committed es) in
  wal_rep s.1 s.2 p (File c c) → torn tail → Z.of_nat (length c) < 2 ^ 63 →
  wp read_for_recovery s (effect (eq p) s
    (λ r s', r = committed es ∧ wal_rep s'.1 s'.2 p (File c' c') ∨
             r = [] ∧ w_faults s.2 ≠ [] ∧ wal_rep s'.1 s'.2 p (File c c))
    (log_kept p c c')).
Proof.
  intros c c' Hr Ht Hlen. unfold read_for_recovery.
  eapply effect_seq; [by apply effect_read_file|done| |].
  { intros s1 _ H1. by left. }
  intros b s1 _ ([[-> Hf1]|[-> [Ec|Hfault]]] & Hr1 & _); cbn [f_content].
  3:{ apply effect_ret. right. by split_and!. }
  2:{ apply effect_ret. left. injection Ec as Ec. apply app_eq_nil in Ec as [Ec1 Ec2].
      apply frames_nil in Ec1. split; [by rewrite Ec1|].
      unfold c, c' in *. rewrite Ec1, Ec2 in *. done. }
  assert (Hparse : parse_buffer c = Ok (es, Z.of_nat (length (committed es)), Z.of_nat (length c'))).
  { by apply parse_buffer_frames. }
  rewrite Hparse. eapply effect_step; [done..|]. cbn beta iota.
  assert (Hpre : ∃ rest, c = c' ++ rest).
  { destruct (frames_prefix _ _ (committed_prefix es)) as [k Hk]. exists (k ++ tail).
    unfold c. by rewrite Hk, <-app_assoc. }
  destruct Hpre as [rest Hrest].
  assert (Htake : take (Z.to_nat (Z.of_nat (length (committed es)))) es = committed es).
  { destruct (committed_prefix es) as [k Hk]. rewrite Nat2Z.id. rewrite Hk at 2. by rewrite take_app_length. }
  destruct (Z.ltb_spec (Z.of_nat (length c')) (Z.of_nat (length c))) as [Hlt|Hge].
  - eapply (effect_seq _ (eq p)); [|done|intros s' _ H'; exact H'|].
    { apply (effect_truncate _ _ _ _ _ Hr1 Hf1 Hrest). }
    intros ? s2 _ H2. apply effect_ret. left. split; [done|]. exact H2.
  - assert (rest = []) as ->.
    { rewrite Hrest, length_app in Hge. destruct rest; [done|]. cbn in Hge. lia. }
    rewrite app_nil_r in Hrest.
    eapply effect_step; [done..|]. apply effect_ret. left. split; [done|]. by rewrite <-Hrest.
Qed.
End walspec.
