(* ===== verification/BTree.v ===== *)
(** * Ordered maps: the [BTreeMap] of the standard library

    A [BTreeMap<Vec<u8>, V>] is a finite map [gmap bytes V]; its iterators yield
    the pairs in ascending order of the keys. *)

From S2P Require Import Prelude Machine Value Record.

(** ** Iteration *)

Definition key_le {V} (a b : bytes * V) : Prop := bytes_le a.1 b.1.

#[global] Instance key_le_dec {V} : RelDecision (@key_le V) := λ a b, decide (bytes_le a.1 b.1).
#[global] Instance key_le_total {V} : Total (@key_le V).
Proof. intros a b. apply (total bytes_le). Qed.
#[global] Instance key_le_trans {V} : Transitive (@key_le V).
Proof. intros a b c. unfold key_le. apply bytes_le_trans. Qed.

(** [iter] and [into_iter]. *)
Definition bt_iter {V} (m : gmap bytes V) : list (bytes * V) := merge_sort key_le (map_to_list m).

(** ** Bounds *)

Inductive Bound :=
  | Unbounded
  | Included (b : bytes)
  | Excluded (b : bytes).

Definition above (lo : Bound) (key : bytes) : bool :=
  match lo with
  | Unbounded => true
  | Included b => bytes_leb b key
  | Excluded b => bytes_ltb b key
  end.

Definition below_bound (hi : Bound) (key : bytes) : bool :=
  match hi with
  | Unbounded => true
  | Included b => bytes_leb key b
  | Excluded b => bytes_ltb key b
  end.

(** [range] panics on a range that starts after its end, or at its end when
    both bounds are excluded; it looks at the bounds only in a non-empty map. *)
Definition bad_range (lo hi : Bound) : bool :=
  match lo, hi with
  | Excluded a, Excluded b => bytes_leb b a
  | Included a, Included b | Included a, Excluded b | Excluded a, Included b => bytes_ltb b a
  | _, _ => false
  end.

Definition bt_range {V} (m : gmap bytes V) (lo hi : Bound) : outcome (list (bytes * V)) :=
  if negb (bool_decide (m = ∅)) && bad_range lo hi then Panic
  else Ok (filter (λ kv, above lo kv.1 && below_bound hi kv.1) (bt_iter m)).

(** ** Lemmas *)

Lemma lt_sorted_nodup (l : list bytes) : StronglySorted bytes_lt l → NoDup l.
Proof.
  induction 1 as [|k l Hs IH Hk]; [constructor|]. apply list.NoDup_cons. split; [|done].
  intros Hin. rewrite list.Forall_forall in Hk. by apply (bytes_lt_irrefl k), Hk.
Qed.

Section lemmas.
Context {V : Type}.
Implicit Types (m : gmap bytes V).

Lemma bt_iter_perm m : bt_iter m ≡ₚ map_to_list m.
Proof. apply merge_sort_Permutation. Qed.

Lemma elem_of_bt_iter m k v : (k, v) ∈ bt_iter m ↔ m !! k = Some v.
Proof. rewrite bt_iter_perm. apply elem_of_map_to_list. Qed.

Lemma elem_of_bt_iter_keys m k : k ∈ (bt_iter m).*1 ↔ is_Some (m !! k).
Proof.
  rewrite list_elem_of_fmap. split.
  - intros ([k' v] & -> & H%elem_of_bt_iter). by exists v.
  - intros [v Hv]. exists (k, v). by rewrite elem_of_bt_iter.
Qed.

Lemma bt_iter_nodup m : NoDup (bt_iter m).*1.
Proof. rewrite bt_iter_perm. apply NoDup_fst_map_to_list. Qed.

(** A list sorted by key without duplicate keys is strictly sorted. *)
Lemma strictly_sorted (l : list (bytes * V)) :
  StronglySorted key_le l → NoDup l.*1 → StronglySorted bytes_lt l.*1.
Proof.
  induction 1 as [|[k v] l Hs IH Hk]; [constructor|]. cbn [fmap list_fmap fst].
  intros [Hn Hd]%list.NoDup_cons. constructor; [by apply IH|].
  apply list.Forall_forall. intros k' Hk'. apply list_elem_of_fmap in Hk' as ([k2 v2] & -> & Hin).
  rewrite list.Forall_forall in Hk. specialize (Hk _ Hin). unfold key_le in Hk. cbn [fst] in *.
  apply bytes_le_lt_eq in Hk as [Hlt|Heq]; [done|]. destruct Hn. rewrite Heq.
  apply list_elem_of_fmap. by exists (k2, v2).
Qed.

Lemma bt_iter_sorted m : StronglySorted bytes_lt (bt_iter m).*1.
Proof.
  apply strictly_sorted, bt_iter_nodup. apply StronglySorted_merge_sort; apply _.
Qed.

Lemma list_to_map_bt_iter m : list_to_map (bt_iter m) = m.
Proof.
  rewrite <-(list_to_map_to_list m) at 2. apply list_to_map_proper; [apply bt_iter_nodup|apply bt_iter_perm].
Qed.

Lemma length_bt_iter m : length (bt_iter m) = size m.
Proof. rewrite bt_iter_perm. apply length_map_to_list. Qed.

Lemma bt_iter_nil m : bt_iter m = [] ↔ m = ∅.
Proof.
  rewrite <-map_size_empty_iff, <-length_bt_iter. split; [by intros ->|]. apply nil_length_inv.
Qed.

Lemma sorted_pairs (l : list (bytes * V)) :
  StronglySorted bytes_lt l.*1 → StronglySorted (λ a b, bytes_lt a.1 b.1) l.
Proof.
  induction l as [|[k v] l IH]; [constructor|]. cbn [fmap list_fmap fst].
  intros [Hk Hs]%StronglySorted_cons. constructor; [by apply IH|].
  by rewrite list.Forall_fmap in Hk.
Qed.

(** Strictly sorted lists are determined by their elements. *)
Lemma sorted_unique (l1 l2 : list (bytes * V)) :
  StronglySorted bytes_lt l1.*1 → StronglySorted bytes_lt l2.*1 → l1 ≡ₚ l2 → l1 = l2.
Proof.
  intros H1 H2. apply (StronglySorted_unique_strong (λ a b, bytes_lt a.1 b.1)).
  - intros a b _ _ Hab Hba. by destruct (bytes_lt_irrefl a.1); etrans.
  - by apply sorted_pairs.
  - by apply sorted_pairs.
Qed.

(** The only strictly sorted list with the pairs of [m] is its iteration. *)
Lemma bt_iter_unique m (l : list (bytes * V)) :
  StronglySorted bytes_lt l.*1 → NoDup l → (∀ k v, (k, v) ∈ l ↔ m !! k = Some v) → l = bt_iter m.
Proof.
  intros Hs Hd Hl. apply sorted_unique; [done|apply bt_iter_sorted|].
  apply NoDup_Permutation; [done|eapply NoDup_fmap_1, bt_iter_nodup|].
  intros [k v]. by rewrite Hl, elem_of_bt_iter.
Qed.
End lemmas.
