(* ===== verification/Instances.v ===== *)
(** * Concrete instances of the interfaces

    A tag-length-value codec that satisfies [CodecOk], a directory order that
    satisfies [ReadDirOk] and a build profile.  They show that the laws assumed
    of the code outside the repository can hold, and let the definitions run on
    concrete inputs. *)

From S2P Require Import Prelude Machine Value Fs.

(** ** The codec *)

Definition enc_kind (k : Kind) : bytes :=
  match k with
  | KInteger n => byte_of_Z 1 :: be32 (rval n mod 2 ^ 32)
  | KFloat n => byte_of_Z 2 :: be64 (rval n)
  | KText s => byte_of_Z 3 :: rs_bytes s
  | KBoolean b => [byte_of_Z 4; byte_of_Z (if b then 1 else 0)]
  | KData b => byte_of_Z 5 :: b
  end.

Definition utf8_string (l : bytes) : option rstring :=
  match Bool.bool_dec (utf8_valid l) true with
  | left H => Some (RString l (match eq_sym H in _ = b return Is_true b with eq_refl => I end))
  | right _ => None
  end.

Definition dec_kind (l : bytes) : option Kind :=
  match l with
  | [] => None
  | t :: l =>
      let t := byte_to_Z t in
      if t =? 1 then Some (KInteger (to_i32 (be_decode l)))
      else if t =? 2 then Some (KFloat (to_u64 (be_decode l)))
      else if t =? 3 then KText <$> utf8_string l
      else if t =? 4 then Some (KBoolean (negb (be_decode l =? 0)))
      else Some (KData l)
  end.

Definition op_code (o : Operation) : Z := match o with Put => 0 | Delete => 1 | Commit => 2 end.
Definition op_of (z : Z) : Operation := if z =? 0 then Put else if z =? 1 then Delete else Commit.

Definition enc_message (m : ValueMessage) : bytes := match kind m with Some k => enc_kind k | None => [] end.

(** A key of any length: every byte behind a one, then a zero. *)
Fixpoint enc_key (key : bytes) : bytes :=
  match key with
  | [] => [byte_of_Z 0]
  | b :: key => byte_of_Z 1 :: b :: enc_key key
  end.

Fixpoint dec_key (l : bytes) : bytes * bytes :=
  match l with
  | t :: l =>
      if byte_to_Z t =? 0 then ([], l)
      else match l with
           | b :: l => let '(key, rest) := dec_key l in (b :: key, rest)
           | [] => ([], [])
           end
  | [] => ([], [])
  end.

Definition enc_entry (e : WalEntry) : bytes :=
  byte_of_Z (op_code (operation e)) :: be64 (rval (we_sequence e)) ++ be64 (rval (timestamp e)) ++
  enc_key (we_key e) ++
  match we_value e with Some m => byte_of_Z 1 :: enc_message m | None => [] end.

Definition dec_entry (l : bytes) : WalEntry :=
  let '(key, rest) := dec_key (drop 17 l) in
  {| operation := op_of (be_decode (take 1 l));
     we_key := key;
     we_value := match rest with [] => None | _ :: r => Some {| kind := dec_kind r |} end;
     we_sequence := to_u64 (be_decode (slice l 1 8));
     timestamp := to_u64 (be_decode (slice l 9 8)) |}.

#[global] Instance tlv_codec : Codec := {
  encode_value_message := enc_message;
  decode_value_message := λ l, inl {| kind := dec_kind l |};
  encode_wal_entry := enc_entry;
  decode_wal_entry := λ l, inl (dec_entry l);
}.

(** Debug builds check arithmetic; release builds wrap. *)
Definition dev_profile : Profile := true.
Definition release_profile : Profile := false.

(** A directory read in reverse order of the tree's own. *)
#[global] Instance reverse_readdir : ReadDir := @reverse string.
#[global] Instance reverse_readdir_ok : ReadDirOk reverse_readdir.
Proof. intros l. unfold readdir_order, reverse_readdir. by rewrite reverse_Permutation. Qed.

(** ** The laws hold *)

Lemma dec_enc_kind k : dec_kind (enc_kind k) = Some k.
Proof.
  destruct k as [n|n|s|b|b]; cbn [enc_kind dec_kind]; rewrite byte_to_of_Z; cbn -[be_decode be32 be64].
  - rewrite be_decode_be32 by (apply Z.mod_pos_bound; lia). do 2 f_equal. apply ranged_eq.
    unfold to_i32. pose proof (ranged_range n). rewrite to_range_val.
    + rewrite Zplus_mod_idemp_l, Z.mod_small; lia.
    + pose proof (Z.mod_pos_bound (rval n mod 2 ^ 32 + 2 ^ 31) (2 ^ 32)). lia.
  - pose proof (ranged_range n). rewrite be_decode_be64 by lia. by rewrite to_u64_rval.
  - unfold utf8_string. destruct s as [l Hl]; cbn. destruct (Bool.bool_dec _ true) as [|Hn].
    + cbn. do 3 f_equal. apply proof_irrel.
    + destruct Hn. by destruct (utf8_valid l).
  - by destruct b.
  - done.
Qed.

Lemma dec_enc_key key rest : dec_key (enc_key key ++ rest) = (key, rest).
Proof. induction key as [|b key IH]; [done|]. cbn. by rewrite IH. Qed.

#[global] Instance tlv_codec_ok : CodecOk tlv_codec.
Proof.
  split.
  - intros [[k|]]; [|done]. cbn. unfold enc_message; cbn. by rewrite dec_enc_kind.
  - intros [op key v sq ts]. cbn. f_equal. unfold enc_entry, dec_entry; cbn [operation we_key we_value we_sequence timestamp].
    pose proof (ranged_range sq). pose proof (ranged_range ts).
    assert (E : drop 17 (byte_of_Z (op_code op) :: be64 (rval sq) ++ be64 (rval ts) ++ enc_key key ++
      match v with Some m => byte_of_Z 1 :: enc_message m | None => [] end) =
      enc_key key ++ match v with Some m => byte_of_Z 1 :: enc_message m | None => [] end) by done.
    rewrite E, dec_enc_key. f_equal.
    + by destruct op.
    + destruct v as [[[k|]]|]; [|done..]. unfold enc_message; cbn. by rewrite dec_enc_kind.
    + change (to_u64 (be_decode (be64 (rval sq))) = sq). by rewrite be_decode_be64, to_u64_rval by lia.
    + change (to_u64 (be_decode (be64 (rval ts))) = ts). by rewrite be_decode_be64, to_u64_rval by lia.
Qed.
