(* ===== verification/Store.v ===== *)
(** * The storage engine: store.rs

    [Store] and [Transaction]: the memtable, the write-ahead log and the
    SSTables of one table, one definition per method. *)

From Stdlib Require Import Ascii.
From S2P Require Import Prelude Machine Value Fs Wal SsTable Record BTree.

(** ** Strings: [strip_prefix], [strip_suffix], [parse::<u64>] *)

Fixpoint strip_prefix (pre s : string) : option string :=
  match pre, s with
  | EmptyString, _ => Some s
  | String c pre, String d s => if decide (c = d) then strip_prefix pre s else None
  | _, EmptyString => None
  end.

Definition strip_suffix (suf s : string) : option string :=
  let n := (String.length s - String.length suf)%nat in
  if decide (String.substring n (String.length suf) s = suf ∧ (String.length suf <= String.length s)%nat)
  then Some (String.substring 0 n s) else None.

Definition digit (c : Ascii.ascii) : option Z :=
  let n := Z.of_nat (Ascii.nat_of_ascii c) - 48 in
  if (0 <=? n) && (n <=? 9) then Some n else None.

Fixpoint parse_digits (acc : Z) (s : string) : option Z :=
  match s with
  | EmptyString => Some acc
  | String c s =>
      d ← digit c;
      let acc := acc * 10 + d in
      if acc <? 2 ^ 64 then parse_digits acc s else None
  end.

Definition parse_u64 (s : string) : option Z :=
  match s with
  | EmptyString => None
  | String "+"%char EmptyString => None
  | String "+"%char s => parse_digits 0 s
  | _ => parse_digits 0 s
  end.

(** [sstable_id_from_path]. *)
Definition sstable_id_from_path (p : path) : option Z :=
  name ← head (reverse p);
  s ← strip_prefix "sstable_" name;
  s ← strip_suffix ".sst" s;
  parse_u64 s.

(** [format!("sstable_{}.sst", id)]. *)
Definition sstable_name (id : Z) : string := "sstable_" +:+ pretty (Z.to_N id) +:+ ".sst".

(** ** Bounds and sizes *)

Definition in_bounds (key : bytes) (lo hi : Bound) : bool :=
  let above_lo := match lo with
                  | Unbounded => true
                  | Included b => bytes_leb b key
                  | Excluded b => bytes_ltb b key
                  end in
  let below_hi := match hi with
                  | Unbounded => true
                  | Included b => bytes_leb key b
                  | Excluded b => bytes_ltb key b
                  end in
  above_lo && below_hi.

Definition range_overlaps (mn mx : bytes) (lo hi : Bound) : bool :=
  let max_below_lo := match lo with
                      | Unbounded => false
                      | Included b => bytes_ltb mx b
                      | Excluded b => bytes_leb mx b
                      end in
  let min_above_hi := match hi with
                      | Unbounded => false
                      | Included b => bytes_ltb b mn
                      | Excluded b => bytes_leb b mn
                      end in
  negb max_below_lo && negb min_above_hi.

Definition entry_footprint (key : bytes) (entry : Entry) : Z :=
  let value_bytes := match entry with
                     | EValue (Integer _) => 4
                     | EValue (Float _) => 8
                     | EValue (Boolean _) => 1
                     | EValue (Text s) => Z.of_nat (length (rs_bytes s))
                     | EValue (Bytes b) => Z.of_nat (length b)
                     | Tombstone => 0
                     end in
  Z.of_nat (length key) + value_bytes.

(** ** The store *)

(** 4 MiB. *)
Definition DEFAULT_MEMTABLE_MAX_BYTES : Z := Z.shiftl 4 20.
Definition MAX_SSTABLES : nat := 8.

Record Store := {
  data : gmap bytes Entry;
  memtable_bytes : Z;
  memtable_max_bytes : Z;
  wal : Wal;
  sequence : u64;
  dir : path;
  sstables : list SsTable;
  next_sstable_id : Z;
  lock : option path;
}.

Definition set_data (f : gmap bytes Entry → gmap bytes Entry) (s : Store) : Store :=
  {| data := f (data s); memtable_bytes := memtable_bytes s; memtable_max_bytes := memtable_max_bytes s;
     wal := wal s; sequence := sequence s; dir := dir s; sstables := sstables s;
     next_sstable_id := next_sstable_id s; lock := lock s |}.
Definition set_memtable_bytes (n : Z) (s : Store) : Store :=
  {| data := data s; memtable_bytes := n; memtable_max_bytes := memtable_max_bytes s;
     wal := wal s; sequence := sequence s; dir := dir s; sstables := sstables s;
     next_sstable_id := next_sstable_id s; lock := lock s |}.
Definition set_wal (wl : Wal) (s : Store) : Store :=
  {| data := data s; memtable_bytes := memtable_bytes s; memtable_max_bytes := memtable_max_bytes s;
     wal := wl; sequence := sequence s; dir := dir s; sstables := sstables s;
     next_sstable_id := next_sstable_id s; lock := lock s |}.
Definition set_sequence (n : u64) (s : Store) : Store :=
  {| data := data s; memtable_bytes := memtable_bytes s; memtable_max_bytes := memtable_max_bytes s;
     wal := wal s; sequence := n; dir := dir s; sstables := sstables s;
     next_sstable_id := next_sstable_id s; lock := lock s |}.
Definition set_sstables (f : list SsTable → list SsTable) (s : Store) : Store :=
  {| data := data s; memtable_bytes := memtable_bytes s; memtable_max_bytes := memtable_max_bytes s;
     wal := wal s; sequence := sequence s; dir := dir s; sstables := f (sstables s);
     next_sstable_id := next_sstable_id s; lock := lock s |}.
Definition set_next_id (n : Z) (s : Store) : Store :=
  {| data := data s; memtable_bytes := memtable_bytes s; memtable_max_bytes := memtable_max_bytes s;
     wal := wal s; sequence := sequence s; dir := dir s; sstables := sstables s;
     next_sstable_id := n; lock := lock s |}.

(** [Store::set_memtable_budget]. *)
Definition set_memtable_budget (n : Z) (s : Store) : Store :=
  {| data := data s; memtable_bytes := memtable_bytes s; memtable_max_bytes := n;
     wal := wal s; sequence := sequence s; dir := dir s; sstables := sstables s;
     next_sstable_id := next_sstable_id s; lock := lock s |}.

(** [Store::get_data]. *)
Definition get_data (s : Store) : gmap bytes Entry := data s.

Definition sst_file (d : path) (id : Z) : path := join d (sstable_name id).
Definition wal_path (d : path) : path := join d "wal.log".
Definition lock_path (d : path) : path := join d "LOCK".

(** A call on the log, and on the [i]-th table, of a store. *)
Definition on_wal {A} (m : M (Wal * world) A) : M (Store * world) A :=
  zoom (λ s, (wal s.1, s.2)) (λ t s, (set_wal t.1 s.1, t.2)) m.

Definition on_table {A} (i : nat) (m : M (SsTable * world) A) : M (Store * world) A := λ s,
  match sstables s.1 !! i with
  | Some t => let '(r, (t', w')) := m (t, s.2) in (r, (set_sstables <[i:=t']> s.1, w'))
  | None => (Panic, s)
  end.

Section store.
Context {Prof : Profile} {Cd : Codec} {RDir : ReadDir}.

Definition memtable_insert (key : bytes) (entry : Entry) : M (Store * world) unit :=
  s ← self id;
  n ← lift (add64 (memtable_bytes s) (entry_footprint key entry));
  _ ← set_self (set_memtable_bytes n);
  _ ← (match data s !! key with
       | Some old =>
           n ← lift (sub64 n (entry_footprint key old));
           set_self (set_memtable_bytes n)
       | None => mret tt
       end);
  set_self (set_data <[key:=entry]>).

(** ** Opening a table *)

(** The loop of [load_sstables] over the directory. *)
Fixpoint find_tables (d : path) (names : list string) (found : list (Z * SsTable)) :
    M world (list (Z * SsTable)) :=
  match names with
  | [] => mret found
  | name :: names =>
      _ ← fs_next_entry;
      match sstable_id_from_path (join d name) with
      | Some id => t ← SsTable.open (join d name); find_tables d names (found ++ [(id, t)])
      | None => find_tables d names found
      end
  end.

(** [found.iter().map(|(id, _)| *id + 1).max().unwrap_or(1)]. *)
Fixpoint next_id_of (found : list (Z * SsTable)) : outcome (option Z) :=
  match found with
  | [] => Ok None
  | (id, _) :: found =>
      n ← add64 id 1;
      m ← next_id_of found;
      Ok (Some (match m with Some m => Z.max n m | None => n end))
  end.

Definition newest_first (a b : Z * SsTable) : Prop := b.1 <= a.1.
#[global] Instance newest_first_dec : RelDecision newest_first := λ a b, decide (b.1 <= a.1).

Definition load_sstables : M (Store * world) unit :=
  d ← self dir;
  rd ← on_world (attempt (fs_read_dir d));
  match rd with
  | None => mret tt
  | Some names =>
      found ← on_world (find_tables d names []);
      next ← lift (next_id_of found);
      _ ← set_self (set_next_id (default 1 next));
      set_self (set_sstables (λ _, (stable_sort newest_first found).*2))
  end.

Definition apply_entry (e : WalEntry) : M (Store * world) unit :=
  _ ← (match operation e with
       | Put =>
           match we_value e with
           | Some msg => v ← lift (from_proto msg); memtable_insert (we_key e) (EValue v)
           | None => mret tt
           end
       | Delete => memtable_insert (we_key e) Tombstone
       | Commit => mret tt
       end);
  set_self (λ s, set_sequence (u64_max (sequence s) (we_sequence e)) s).

(** The loop of [replay_wal]. *)
Fixpoint replay_entries (entries pending : list WalEntry) : M (Store * world) unit :=
  match entries with
  | [] => mret tt
  | e :: entries =>
      match operation e with
      | Put | Delete => replay_entries entries (pending ++ [e])
      | Commit =>
          _ ← for_each pending apply_entry;
          _ ← set_self (λ s, set_sequence (u64_max (sequence s) (we_sequence e)) s);
          replay_entries entries []
      end
  end.

Definition replay_wal : M (Store * world) unit :=
  entries ← on_wal read_for_recovery;
  replay_entries entries [].

(** Runs [m] and closes the lock file unless [m] succeeds; a crash leaves the
    lock to [crash_world]. *)
Definition closing {A} (p : path) (m : M world A) : M world A := λ w,
  match m w with
  | (Err e, w') => (Err e, unlock p w')
  | (Panic, w') => (Panic, unlock p w')
  | r => r
  end.

Definition display (p : path) : string := String.concat "/" p.

Definition fresh_store (d : path) (wl : Wal) : Store :=
  {| data := ∅; memtable_bytes := 0; memtable_max_bytes := DEFAULT_MEMTABLE_MAX_BYTES; wal := wl;
     sequence := u64_zero; dir := d; sstables := []; next_sstable_id := 1; lock := Some (lock_path d) |}.

(** A call on a local object, which is dropped afterwards if the call fails. *)
Definition with_local {S A} (s : S) (m : M (S * world) A) : M world S := λ w,
  match m (s, w) with
  | (Ok _, (s', w')) => (Ok s', w')
  | (Err e, (_, w')) => (Err e, w')
  | (Panic, (_, w')) => (Panic, w')
  | (Crashed, (_, w')) => (Crashed, w')
  end.

Definition open_with_dir (d : path) : M world Store :=
  _ ← fs_create_dir_all d;
  _ ← fs_open_create (lock_path d);
  locked ← flock (lock_path d);
  if negb locked then lift (Err (IoError ("table is already open: " +:+ display (lock_path d)))) else
  closing (lock_path d)
    (wl ← with_path (wal_path d);
     with_local (fresh_store d wl) (_ ← load_sstables; replay_wal)).

(** [Store::open_table]; [name] has no separator. *)
Definition open_table (name : string) : M world Store := open_with_dir ["."; "data"; name].

(** Dropping a store closes its lock file. *)
Definition drop_store (s : Store) (w : world) : world :=
  match lock s with Some p => unlock p w | None => w end.

(** ** Flushing and compaction *)

(** The merge of [compact]: oldest table first. *)
Fixpoint merge_tables (ts : list SsTable) (merged : gmap bytes Entry) : M world (gmap bytes Entry) :=
  match ts with
  | [] => mret merged
  | t :: ts =>
      es ← read_all_entries t;
      merge_tables ts (fold_left (λ m '(k, e), <[k:=e]> m) es merged)
  end.

Definition is_value (e : Entry) : bool := match e with EValue _ => true | Tombstone => false end.

Definition compact : M (Store * world) unit :=
  s ← self id;
  if (length (sstables s) <? 2)%nat then mret tt else
  merged ← on_world (merge_tables (reverse (sstables s)) ∅);
  let merged := filter (λ ke, is_value ke.2) merged in
  let old_paths := sst_path <$> sstables s in
  _ ← (if decide (merged = ∅) then set_self (set_sstables (λ _, []))
       else
         new_sst ← on_world (SsTable.flush (sst_file (dir s) (next_sstable_id s)) (bt_iter merged));
         n ← lift (add64 (next_sstable_id s) 1);
         _ ← set_self (set_next_id n);
         set_self (set_sstables (λ _, [new_sst])));
  for_each old_paths (λ p, _ ← on_world (attempt (fs_remove_file p)); mret tt).

Definition maybe_compact : M (Store * world) unit :=
  n ← self (λ s, length (sstables s));
  if (MAX_SSTABLES <? n)%nat then compact else mret tt.

Definition flush : M (Store * world) unit :=
  s ← self id;
  if decide (data s = ∅) then mret tt else
  sst ← on_world (SsTable.flush (sst_file (dir s) (next_sstable_id s)) (bt_iter (data s)));
  n ← lift (add64 (next_sstable_id s) 1);
  _ ← set_self (set_next_id n);
  _ ← set_self (set_sstables (cons sst));
  _ ← set_self (set_data (λ _, ∅));
  _ ← set_self (set_memtable_bytes 0);
  _ ← on_wal Wal.clear;
  maybe_compact.

Definition maybe_flush : M (Store * world) unit :=
  s ← self id;
  if memtable_max_bytes s <=? memtable_bytes s then flush else mret tt.

(** ** Reads and writes *)

(** [self.sequence += 1]. *)
Definition next_sequence : M (Store * world) u64 :=
  n ← self sequence;
  n ← lift (u64_succ n);
  _ ← set_self (set_sequence n);
  mret n.

Definition set_value (new_key : bytes) (new_value : Value) : M (Store * world) string :=
  n ← next_sequence;
  _ ← on_wal (append (create_put_entry new_key new_value n));
  _ ← on_wal (write_commit n);
  _ ← memtable_insert new_key (EValue new_value);
  _ ← maybe_flush;
  mret "Inserted value"%string.

Definition delete_value (key : bytes) : M (Store * world) string :=
  n ← next_sequence;
  _ ← on_wal (append (create_delete_entry key n));
  _ ← on_wal (write_commit n);
  _ ← memtable_insert key Tombstone;
  _ ← maybe_flush;
  mret "Deleted value"%string.

(** The loop of [get_value] over the tables. *)
Fixpoint search_tables (key : bytes) (idxs : list nat) : M (Store * world) (option Value) :=
  match idxs with
  | [] => mret None
  | i :: idxs =>
      e ← on_table i (SsTable.get key);
      match e with
      | Some (EValue v) => mret (Some v)
      | Some Tombstone => mret None
      | None => search_tables key idxs
      end
  end.

Definition get_value (key : bytes) : M (Store * world) (option Value) :=
  s ← self id;
  match data s !! key with
  | Some (EValue v) => mret (Some v)
  | Some Tombstone => mret None
  | None => search_tables key (seq 0 (length (sstables s)))
  end.

(** The loop of [scan_range] over the tables, oldest first. *)
Fixpoint scan_tables (ts : list SsTable) (lo hi : Bound) (merged : gmap bytes Entry) :
    M world (gmap bytes Entry) :=
  match ts with
  | [] => mret merged
  | t :: ts =>
      let skip := match key_range t with
                  | Some (mn, mx) => negb (range_overlaps mn mx lo hi)
                  | None => false
                  end in
      if skip then scan_tables ts lo hi merged else
      es ← read_all_entries t;
      scan_tables ts lo hi
        (fold_left (λ m '(k, e), if in_bounds k lo hi then <[k:=e]> m else m) es merged)
  end.

Definition scan_range (lo hi : Bound) : M (Store * world) (list (bytes * Value)) :=
  s ← self id;
  merged ← on_world (scan_tables (reverse (sstables s)) lo hi ∅);
  es ← lift (bt_range (data s) lo hi);
  let merged := fold_left (λ m '(k, e), <[k:=e]> m) es merged in
  mret (omap (λ '(k, e), match e with EValue v => Some (k, v) | Tombstone => None end) (bt_iter merged)).

End store.

(** ** Transactions *)

Record Transaction := { store : Store; pending : gmap bytes (option Value) }.

Definition on_store {A} (m : M (Store * world) A) : M (Transaction * world) A :=
  zoom (λ s, (store s.1, s.2)) (λ t s, ({| store := t.1; pending := pending s.1 |}, t.2)) m.

(** [Store::begin_transaction]. *)
Definition begin_transaction (s : Store) : Transaction := {| store := s; pending := ∅ |}.

(** [Transaction::set_value] and [Transaction::delete_value]. *)
Definition txn_set_value (key : bytes) (value : Value) (t : Transaction) : Transaction :=
  {| store := store t; pending := <[key:=Some value]> (pending t) |}.
Definition txn_delete_value (key : bytes) (t : Transaction) : Transaction :=
  {| store := store t; pending := <[key:=None]> (pending t) |}.

Section txn.
Context {Prof : Profile} {Cd : Codec}.

(** [Transaction::get_value]. *)
Definition txn_get_value (key : bytes) : M (Transaction * world) (option Value) :=
  t ← self id;
  match pending t !! key with
  | Some (Some value) => mret (Some value)
  | Some None => mret None
  | None => on_store (get_value key)
  end.

(** [Transaction::commit]. *)
Definition txn_commit : M (Transaction * world) unit :=
  t ← self id;
  if decide (pending t = ∅) then mret tt else
  _ ← for_each (bt_iter (pending t)) (λ '(key, val),
        n ← on_store next_sequence;
        let entry := match val with
                     | Some v => create_put_entry key v n
                     | None => create_delete_entry key n
                     end in
        on_store (on_wal (append entry)));
  n ← self (λ t, sequence (store t));
  _ ← on_store (on_wal (write_commit n));
  _ ← for_each (bt_iter (pending t)) (λ '(key, val),
        on_store (match val with
                  | Some v => memtable_insert key (EValue v)
                  | None => memtable_insert key Tombstone
                  end));
  on_store maybe_flush.

(** [Transaction::rollback], and dropping a transaction. *)
Definition txn_rollback (t : Transaction) : Store := store t.
End txn.
