(* ===== verification/View.v ===== *)
(** * What a table contains

    The memtable and the SSTables are layers of entries; a newer layer hides an
    older one.  [values] is what a reader sees: a tombstone and an absent key
    are the same.  Two maps of entries are equivalent, [m1 ≈ m2], when a reader
    cannot tell them apart. *)

From S2P Require Import Prelude Machine Value Wal SsTable Record BTree Store.

Definition values (m : gmap bytes Entry) : gmap bytes Value := omap entry_value m.

Definition view_eq (m1 m2 : gmap bytes Entry) : Prop := values m1 = values m2.

Declare Scope ferrum_scope.
Delimit Scope ferrum_scope with ferrum.
Infix "≈" := view_eq (at level 70) : ferrum_scope.
#[global] Open Scope ferrum_scope.

(** What writing [e] at [key] does to the contents. *)
Definition write_entry (key : bytes) (e : Entry) (m : gmap bytes Value) : gmap bytes Value :=
  match e with EValue v => <[key:=v]> m | Tombstone => delete key m end.

(** The tables of a store, newest first, as one map. *)
Definition table_map (es : list (bytes * Entry)) : gmap bytes Entry := list_to_map es.
Definition tables_map (tabs : list (Z * list (bytes * Entry))) : gmap bytes Entry :=
  foldr (λ x m, table_map x.2 ∪ m) ∅ tabs.

(** What the entries of a log do to a map of entries. *)
Definition replay_entry (m : gmap bytes Entry) (e : WalEntry) : gmap bytes Entry :=
  match operation e with
  | Put =>
      match from_proto <$> we_value e with
      | Some (Ok v) => <[we_key e := EValue v]> m
      | _ => m
      end
  | Delete => <[we_key e := Tombstone]> m
  | Commit => m
  end.

Definition replay (es : list WalEntry) (m : gmap bytes Entry) : gmap bytes Entry :=
  fold_left replay_entry es m.

(** The bytes a memtable accounts for. *)
Definition footprint (m : gmap bytes Entry) : Z :=
  map_fold (λ k e acc, entry_footprint k e + acc) 0 m.

(** ** Equivalence *)

#[global] Instance view_eq_equiv : Equivalence view_eq.
Proof. split; repeat intro; unfold view_eq in *; congruence. Qed.

#[global] Instance values_proper : Proper (view_eq ==> (=)) values.
Proof. by intros m1 m2. Qed.

Lemma values_lookup m k : values m !! k = m !! k ≫= entry_value.
Proof. unfold values. apply lookup_omap. Qed.

Lemma view_eq_lookup m1 m2 :
  m1 ≈ m2 ↔ ∀ k, m1 !! k ≫= entry_value = m2 !! k ≫= entry_value.
Proof.
  unfold view_eq. split.
  - intros E k. by rewrite <-!values_lookup, E.
  - intros E. apply map_eq. intros k. by rewrite !values_lookup.
Qed.

(** Changing an older layer to an equivalent one is not seen. *)
#[global] Instance union_proper : Proper ((=) ==> view_eq ==> view_eq) (∪).
Proof.
  intros m ? <- m1 m2 E. rewrite view_eq_lookup in *. intros k. rewrite !lookup_union.
  specialize (E k). by destruct (m !! k), (m1 !! k), (m2 !! k).
Qed.

Lemma lookup_union_l_some {A} (m1 m2 : gmap bytes A) k x : m1 !! k = Some x → (m1 ∪ m2) !! k = Some x.
Proof. apply lookup_union_Some_l. Qed.

(** A log whose effect a reader already sees on top of older layers stays
    invisible when the memtable becomes the newest of those layers. *)
Lemma view_eq_absorb (l m t : gmap bytes Entry) : l ∪ t ≈ m ∪ t → l ∪ (m ∪ t) ≈ m ∪ t.
Proof.
  rewrite !view_eq_lookup. intros E k. specialize (E k). rewrite !lookup_union in *.
  by destruct (l !! k), (m !! k), (t !! k).
Qed.

Lemma filter_values (m : gmap bytes Entry) : filter (λ ke, is_value ke.2) m ≈ m.
Proof.
  apply view_eq_lookup. intros k. rewrite map_lookup_filter. destruct (m !! k) as [[v|]|]; done.
Qed.

Lemma write_entry_lookup (k : bytes) (e : Entry) (m : gmap bytes Value) k' :
  write_entry k e m !! k' = if decide (k = k') then entry_value e else m !! k'.
Proof.
  destruct e as [v|]; cbn; destruct (decide (k = k')) as [->|]; by simplify_map_eq.
Qed.

Lemma values_insert (k : bytes) (e : Entry) (m t : gmap bytes Entry) :
  values (<[k:=e]> m ∪ t) = write_entry k e (values (m ∪ t)).
Proof.
  apply map_eq. intros k'. rewrite write_entry_lookup, !values_lookup, !lookup_union.
  destruct (decide (k = k')) as [->|]; [by rewrite lookup_insert_eq; destruct (t !! k')|].
  by rewrite lookup_insert_ne.
Qed.

(** ** Merging tables *)

Lemma insert_union_fold (es : list (bytes * Entry)) (m : gmap bytes Entry) :
  NoDup es.*1 → fold_left (λ m '(k, e), <[k:=e]> m) es m = table_map es ∪ m.
Proof.
  unfold table_map. revert m. induction es as [|[k e] es IH]; intros m; cbn [fold_left fmap list_fmap fst].
  - intros _. cbn. by rewrite map_empty_union.
  - intros [Hk Hd]%list.NoDup_cons. rewrite IH by done. cbn [list_to_map foldr uncurry].
    rewrite <-insert_union_r by (by apply not_elem_of_list_to_map_1). by rewrite insert_union_l.
Qed.

Lemma tables_map_app t1 t2 : tables_map (t1 ++ t2) = tables_map t1 ∪ tables_map t2.
Proof.
  induction t1 as [|x t1 IH]; cbn [tables_map foldr app]; [by rewrite map_empty_union|].
  fold (tables_map (t1 ++ t2)). by rewrite IH, (assoc_L (∪)).
Qed.

(** ** Logs *)

Lemma replay_app es1 es2 m : replay (es1 ++ es2) m = replay es2 (replay es1 m).
Proof. apply fold_left_app. Qed.

Lemma replay_entry_union e m t : replay_entry (m ∪ t) e = replay_entry m e ∪ t.
Proof.
  unfold replay_entry. destruct (operation e); [|apply insert_union_l|done].
  destruct (from_proto <$> we_value e) as [[v| | |]|]; try done. apply insert_union_l.
Qed.

Lemma replay_union (es : list WalEntry) (m t : gmap bytes Entry) : replay es (m ∪ t) = replay es m ∪ t.
Proof.
  unfold replay. revert m. induction es as [|e es IH]; intros m; cbn; [done|]. by rewrite replay_entry_union, IH.
Qed.

Lemma replay_from (es : list WalEntry) (m : gmap bytes Entry) : replay es m = replay es ∅ ∪ m.
Proof. by rewrite <-replay_union, map_empty_union. Qed.

(** New log entries over equivalent contents give equivalent contents. *)
Lemma replay_proper (es : list WalEntry) (l m t : gmap bytes Entry) : l ∪ t ≈ m ∪ t → replay es l ∪ t ≈ replay es m ∪ t.
Proof.
  intros E. rewrite (replay_from es l), (replay_from es m), <-!(assoc_L (∪)). by rewrite E.
Qed.

Lemma replay_put (k : bytes) (v : Value) (n : u64) (m : gmap bytes Entry) : replay_entry m (create_put_entry k v n) = <[k:=EValue v]> m.
Proof. unfold replay_entry, create_put_entry. cbn. by destruct v. Qed.

Lemma replay_delete (k : bytes) (n : u64) (m : gmap bytes Entry) : replay_entry m (create_delete_entry k n) = <[k:=Tombstone]> m.
Proof. done. Qed.

(** ** Footprints *)

Lemma entry_footprint_pos k e : 0 <= entry_footprint k e.
Proof. unfold entry_footprint. destruct e as [[]|]; lia. Qed.

Lemma footprint_insert_new (m : gmap bytes Entry) (k : bytes) (e : Entry) :
  m !! k = None → footprint (<[k:=e]> m) = entry_footprint k e + footprint m.
Proof.
  intros Hk. unfold footprint. apply (map_fold_insert_L (λ k e acc, entry_footprint k e + acc)); [|done]. intros. lia.
Qed.

Lemma footprint_delete (m : gmap bytes Entry) (k : bytes) (e : Entry) : m !! k = Some e → footprint m = entry_footprint k e + footprint (delete k m).
Proof. intros Hk. rewrite <-(insert_delete_id m k e Hk) at 1. apply footprint_insert_new, lookup_delete_eq. Qed.

Lemma footprint_insert (m : gmap bytes Entry) (k : bytes) (e : Entry) :
  footprint (<[k:=e]> m) =
  footprint m + entry_footprint k e - match m !! k with Some old => entry_footprint k old | None => 0 end.
Proof.
  destruct (m !! k) as [old|] eqn:Hk.
  - rewrite (footprint_delete m k old Hk), <-insert_delete_eq, footprint_insert_new by apply lookup_delete_eq. lia.
  - rewrite footprint_insert_new by done. lia.
Qed.

Lemma footprint_pos (m : gmap bytes Entry) : 0 <= footprint m.
Proof.
  unfold footprint. apply (map_fold_weak_ind (λ z _, 0 <= z)); [done|].
  intros k e m' z _ Hz. pose proof (entry_footprint_pos k e). lia.
Qed.

Lemma footprint_bound (m : gmap bytes Entry) (b : Z) :
  map_Forall (λ k e, entry_footprint k e <= b) m → footprint m <= Z.of_nat (size m) * b.
Proof.
  induction m as [|k e m Hk IH] using map_ind; intros Hm; [done|].
  apply map_Forall_insert in Hm as [He Hm]; [|done].
  rewrite footprint_insert_new, map_size_insert_None by done. specialize (IH Hm). lia.
Qed.
