(* ===== verification/Names.v ===== *)
(** * File names of a table directory

    The id of an SSTable is recovered from its file name, and the names the
    program gives to its files are distinct. *)

From Stdlib Require Import Ascii.
From S2P Require Import Prelude Machine Value Fs Wal SsTable Record BTree Store.

(** ** Decimal numbers *)

Lemma digit_pretty (x : N) : (x < 10)%N → digit (pretty_N_char x) = Some (Z.of_N x).
Proof.
  intros Hx. assert (Hc : x ∈ [0;1;2;3;4;5;6;7;8;9]%N) by (rewrite !list.elem_of_cons; lia).
  rewrite !list.elem_of_cons in Hc.
  repeat (destruct Hc as [->|Hc]; [reflexivity|]). by apply list.not_elem_of_nil in Hc.
Qed.

Lemma parse_digits_step acc (d : N) s :
  (d < 10)%N → acc * 10 + Z.of_N d < 2 ^ 64 →
  parse_digits acc (String (pretty_N_char d) s) = parse_digits (acc * 10 + Z.of_N d) s.
Proof.
  intros Hd Ha. cbn [parse_digits]. rewrite digit_pretty by done. cbn.
  by rewrite (proj2 (Z.ltb_lt _ _)) by (change 18446744073709551616 with (2 ^ 64); lia).
Qed.

Lemma parse_pretty_go (x : N) s :
  Z.of_N x < 2 ^ 64 → parse_digits 0 (pretty_N_go x s) = parse_digits (Z.of_N x) s.
Proof.
  revert s. induction (N.lt_wf_0 x) as [x _ IH]; intros s Hx.
  destruct (decide (x = 0)%N) as [->|Hne]; [done|].
  assert (Hdiv := N.div_mod x 10 ltac:(done)). assert (Hmod := N.mod_lt x 10 ltac:(done)).
  assert (Hlt : (x `div` 10 < x)%N) by (apply N.div_lt; lia).
  rewrite pretty_N_go_step, IH by (clear Hdiv; lia).
  rewrite parse_digits_step by lia. f_equal. lia.
Qed.

Lemma pretty_go_digits (x : N) s :
  (∃ d s', (d < 10)%N ∧ s = String (pretty_N_char d) s') ∨ (0 < x)%N →
  ∃ d s', (d < 10)%N ∧ pretty_N_go x s = String (pretty_N_char d) s'.
Proof.
  revert s. induction (N.lt_wf_0 x) as [x _ IH]; intros s Hs.
  destruct (decide (x = 0)%N) as [->|Hne]; [destruct Hs as [|]; [done|lia]|].
  rewrite pretty_N_go_step by lia. apply IH; [by apply N.div_lt; lia|].
  left. eexists _, _. split; [|done]. by apply N.mod_lt.
Qed.

Lemma parse_u64_digit (d : N) s :
  (d < 10)%N → parse_u64 (String (pretty_N_char d) s) = parse_digits 0 (String (pretty_N_char d) s).
Proof.
  intros Hd. unfold parse_u64, pretty_N_char.
  by repeat match goal with |- context [match ?x with _ => _ end] => is_var x; destruct x end.
Qed.

(** Printing an id and parsing it back. *)
Lemma parse_u64_pretty (x : N) : Z.of_N x < 2 ^ 64 → parse_u64 (pretty x) = Some (Z.of_N x).
Proof.
  intros Hx. unfold pretty, pretty_N. destruct (decide (x = 0)%N) as [->|Hne]; [done|].
  destruct (pretty_go_digits x "") as (d & s' & Hd & E); [right; lia|].
  rewrite E, parse_u64_digit, <-E by done. by rewrite parse_pretty_go.
Qed.

(** ** Strings *)

Lemma append_cons c s t : String c s +:+ t = String c (s +:+ t).
Proof. done. Qed.

Lemma append_nil t : "" +:+ t = t.
Proof. done. Qed.

Lemma strip_prefix_app pre s : strip_prefix pre (pre +:+ s) = Some s.
Proof.
  induction pre as [|c pre IH]; [done|].
  rewrite append_cons. cbn [strip_prefix].
  by destruct (decide (c = c)).
Qed.

Lemma string_length_app s1 s2 : String.length (s1 +:+ s2) = (String.length s1 + String.length s2)%nat.
Proof. induction s1 as [|c s1 IH]; [done|]. rewrite append_cons. cbn. by f_equal. Qed.

Lemma substring_all s : String.substring 0 (String.length s) s = s.
Proof. induction s as [|c s IH]; cbn; [done|]. by f_equal. Qed.

Lemma substring_app_l s1 s2 : String.substring 0 (String.length s1) (s1 +:+ s2) = s1.
Proof.
  induction s1 as [|c s1 IH]; [by destruct s2|]. rewrite append_cons. cbn. by rewrite IH.
Qed.

Lemma substring_app_r s1 s2 : String.substring (String.length s1) (String.length s2) (s1 +:+ s2) = s2.
Proof. induction s1 as [|c s1 IH]; [apply substring_all|]. rewrite append_cons. exact IH. Qed.

Lemma strip_suffix_app s suf : strip_suffix suf (s +:+ suf) = Some s.
Proof.
  unfold strip_suffix. rewrite string_length_app, Nat.add_sub, substring_app_r, substring_app_l.
  rewrite decide_True; [done|]. split; [done|lia].
Qed.

(** ** Paths *)

Lemma sstable_id_from_join d name :
  sstable_id_from_path (join d name) =
  (s ← strip_prefix "sstable_" name; s ← strip_suffix ".sst" s; parse_u64 s).
Proof. unfold sstable_id_from_path, join. by rewrite reverse_snoc. Qed.

(** The id survives the trip through the file name. *)
Lemma sstable_id_roundtrip d id : 0 <= id < 2 ^ 64 → sstable_id_from_path (sst_file d id) = Some id.
Proof.
  intros Hid. unfold sst_file. rewrite sstable_id_from_join. unfold sstable_name.
  rewrite strip_prefix_app. cbn [mbind option_bind]. rewrite strip_suffix_app. cbn [mbind option_bind].
  rewrite parse_u64_pretty by lia. f_equal. lia.
Qed.

Lemma sst_file_inj d id1 id2 : 0 <= id1 → 0 <= id2 → sst_file d id1 = sst_file d id2 → id1 = id2.
Proof.
  intros H1 H2 E%join_inj. unfold sstable_name in E.
  apply (f_equal (strip_prefix "sstable_")) in E. rewrite !strip_prefix_app in E. injection E as E.
  apply (f_equal (strip_suffix ".sst")) in E. rewrite !strip_suffix_app in E. injection E as E.
  apply (inj pretty) in E. lia.
Qed.

Lemma sst_file_neq_wal d id : sst_file d id ≠ wal_path d.
Proof. intros E%join_inj. unfold sstable_name in E. by apply (f_equal (strip_prefix "sstable_")) in E. Qed.

Lemma sst_file_neq_lock d id : sst_file d id ≠ lock_path d.
Proof. intros E%join_inj. unfold sstable_name in E. by apply (f_equal (strip_prefix "sstable_")) in E. Qed.

Lemma wal_neq_lock d : wal_path d ≠ lock_path d.
Proof. by intros E%join_inj. Qed.

Lemma parse_digits_pos s acc id : 0 <= acc → parse_digits acc s = Some id → 0 <= id.
Proof.
  revert acc. induction s as [|c s IH]; intros acc Ha; cbn [parse_digits].
  - by intros [= <-].
  - unfold digit at 1. destruct (_ && _) eqn:E; [|done]. cbn [mbind option_bind].
    apply andb_true_iff in E as [E _]. apply Z.leb_le in E.
    destruct (_ <? _); [|done]. apply IH. lia.
Qed.

Lemma sstable_id_from_path_pos p id : sstable_id_from_path p = Some id → 0 <= id.
Proof.
  unfold sstable_id_from_path.
  intros (name & _ & (s1 & _ & (s2 & _ & H)%bind_Some)%bind_Some)%bind_Some.
  unfold parse_u64 in H. repeat case_match; try done; by eapply parse_digits_pos, H.
Qed.

Lemma wal_not_table d : sstable_id_from_path (wal_path d) = None.
Proof. unfold wal_path. by rewrite sstable_id_from_join. Qed.

Lemma lock_not_table d : sstable_id_from_path (lock_path d) = None.
Proof. unfold lock_path. by rewrite sstable_id_from_join. Qed.
