(* ===== verification/StoreSpec.v ===== *)
(** * The store as a map: invariant and reads

    [mem_inv s w tabs]: the store [s] stands for the memtable over the tables
    [tabs] (an id and the entries of each, newest first), whose files are on
    disk.  [contents] is the map that readers see; [get_value] and [scan_range]
    read it under every fault schedule. *)

From S2P Require Import Prelude Machine Value Checksum Bloom BlockCache Fs Wal SsTable Record Layout Image Search TableSpec Effects WalSpec BTree Store View Names.

Abbreviation tabs := (list (Z * list (bytes * Entry))).

Section storespec.
Context {Prof : Profile} {Cd : Codec} {CdOk : CodecOk Cd}.
Implicit Types (lo hi : Bound) (k key : bytes) (ts : tabs).

(** ** The invariant *)

Definition small_entry (k : bytes) (e : Entry) : Prop := rec_small (k, e) ∧ entry_footprint k e < 2 ^ 30.

(** A table of the directory: its file holds the image of its entries. *)
Definition table_on (w : world) (d : path) (x : Z * list (bytes * Entry)) : Prop :=
  holds w (sst_file d x.1) (image x.2) ∧ fits x.2 ∧ sorted_keys x.2.

Record mem_inv (s : Store) (w : world) (ts : tabs) : Prop := {
  mi_dir : dir s ≠ [];
  mi_chain : chain w (dir s);
  mi_tables : Forall2 (λ t x, table_rep t (sst_file (dir s) x.1) x.2) (sstables s) ts;
  mi_files : Forall (table_on w (dir s)) ts;
  mi_sorted : StronglySorted Z.gt ts.*1;
  mi_ids : Forall (λ id, 0 <= id < next_sstable_id s) ts.*1;
  mi_next : 0 <= next_sstable_id s < 2 ^ 64;
  mi_nodir : ∀ id, w_nodes w !! sst_file (dir s) id ≠ Some Dir;
  mi_wal : ∃ f, wal_rep (wal s) w (wal_path (dir s)) f;
  mi_bytes : memtable_bytes s = footprint (data s);
  mi_small : map_Forall small_entry (data s);
}.

(** What readers see. *)
Definition contents (s : Store) (ts : tabs) : gmap bytes Value := values (data s ∪ tables_map ts).

(** [s'] differs from [s] in its block caches only. *)
Definition same_store (s s' : Store) : Prop := ∃ sts, s' = set_sstables (λ _, sts) s.

#[global] Instance same_store_preorder : PreOrder same_store.
Proof.
  split.
  - intros s. exists (sstables s). by destruct s.
  - intros s1 s2 s3 [t1 ->] [t2 ->]. by exists t2.
Qed.

(** ** Paths *)

Lemma join_neq_dir d x : join d x ≠ d.
Proof. unfold join. intros E. apply (f_equal length) in E. rewrite length_app in E. cbn in E. lia. Qed.

(** The paths a store writes. *)
Definition own (d : path) (q : path) : Prop := q = wal_path d ∨ ∃ id, q = sst_file d id.

Lemma own_not_prefix d q : q ∈ prefixes d → ¬ own d q.
Proof. intros Hq [->|[id ->]]; by apply join_not_prefix in Hq. Qed.

Lemma sst_not_prefix d q id : q ∈ prefixes d → ¬ sst_file d id = q.
Proof. intros Hq <-. by apply join_not_prefix in Hq. Qed.

(** ** Stability *)

Lemma table_on_touches (P : path → Prop) w w' d x :
  touches P w w' → ¬ P (sst_file d x.1) → table_on w d x → table_on w' d x.
Proof. intros Ht Hp (Hh & ? & ?). split_and!; [|done..]. by eapply touches_holds. Qed.

Lemma mem_inv_calm s w w' ts : calm w w' → mem_inv s w ts → mem_inv s w' ts.
Proof.
  intros Hc []. split; try done.
  - by eapply chain_calm.
  - eapply list.Forall_impl; [done|]. intros x. apply (table_on_touches (λ _, False)); [by apply calm_touches|auto].
  - intros id. by rewrite (proj1 Hc).
  - destruct mi_wal0 as [f Hf]. exists f. by eapply wal_rep_calm.
Qed.

Lemma mem_inv_tables s s' w ts :
  same_store s s' → Forall2 (λ t x, table_rep t (sst_file (dir s) x.1) x.2) (sstables s') ts →
  mem_inv s w ts → mem_inv s' w ts.
Proof. intros [sts ->] Ht []. by split. Qed.

Lemma contents_same s s' ts : same_store s s' → contents s' ts = contents s ts.
Proof. by intros [sts ->]. Qed.

(** The state of a read: the store is the same but for its caches. *)
Definition unchanged (ts : tabs) (s s' : Store * world) : Prop :=
  mem_inv s'.1 s'.2 ts ∧ same_store s.1 s'.1.

(** ** [get_value] *)

Lemma effect_on_table s ts i x key :
  mem_inv s.1 s.2 ts → ts !! i = Some x →
  wp (on_table i (SsTable.get key)) s (effect (λ _, False) s
    (λ r s', r = lookup_in x.2 key ∧ unchanged ts s s') (unchanged ts s)).
Proof.
  intros Hi Hx. destruct Hi as [? ? Htabs Hfiles]. destruct s as [s w]. cbn [fst snd] in *.
  destruct (Forall2_lookup_r _ _ _ _ _ Htabs Hx) as (t & Ht & Hrep).
  assert (Hon := proj1 (list.Forall_forall _ _) Hfiles x ltac:(by eapply list_elem_of_lookup_2)).
  destruct Hon as (Hh & Hfit & Hs).
  pose proof (wp_get w t _ _ key Hh Hfit Hs Hrep) as Hget.
  unfold wp, on_table. cbn [fst snd]. rewrite Ht. unfold wp in Hget.
  destruct (SsTable.get key (t, w)) as [r [t' w']]. cbn [fst snd] in *. destruct Hget as (Hrep' & Hc & Hr).
  assert (Hu : unchanged ts (s, w) (set_sstables <[i:=t']> s, w')).
  { split; cbn [fst snd]; [|by eexists].
    eapply mem_inv_calm; [exact Hc|].
    assert (Hss : same_store s (set_sstables <[i:=t']> s)) by (by eexists).
    eapply mem_inv_tables; [exact Hss| |by split].
    cbn [set_sstables sstables]. rewrite <-(list_insert_id ts i x) by done. by apply Forall2_insert. }
  split; [by apply calm_touches|]. destruct Hr as [->|[? ?]]; [left|right]; eauto.
Qed.

Lemma unchanged_trans ts s1 s2 s3 : unchanged ts s1 s2 → unchanged ts s2 s3 → unchanged ts s1 s3.
Proof. intros [? ?] [? ?]. split; [done|by etrans]. Qed.

Lemma unchanged_refl ts s : mem_inv s.1 s.2 ts → unchanged ts s s.
Proof. by split. Qed.

Lemma drop_lookup {A} (l : list A) i : (i < length l)%nat → ∃ x, l !! i = Some x ∧ drop i l = x :: drop (S i) l.
Proof. intros [x Hx]%lookup_lt_is_Some_2. exists x. split; [done|by apply drop_S]. Qed.

Lemma effect_search_tables s ts key i n :
  mem_inv s.1 s.2 ts → (i + n = length ts)%nat →
  wp (search_tables key (seq i n)) s (effect (λ _, False) s
    (λ r s', r = values (tables_map (drop i ts)) !! key ∧ unchanged ts s s') (unchanged ts s)).
Proof.
  revert s i. induction n as [|n IH]; intros s i Hi Hn; cbn [seq search_tables].
  - apply effect_ret. split; [|by apply unchanged_refl]. by rewrite drop_ge by lia.
  - destruct (drop_lookup ts i ltac:(lia)) as (x & Hx & ->).
    eapply effect_seq; [by eapply effect_on_table|done|done|].
    intros r s1 _ [-> Hu]. rewrite values_lookup. cbn [tables_map foldr]. rewrite lookup_union.
    unfold lookup_in. change (list_to_map x.2) with (table_map x.2).
    destruct (table_map x.2 !! key) as [[v|]|]; [apply effect_ret..|].
    + by destruct (foldr _ _ _ !! key).
    + by destruct (foldr _ _ _ !! key).
    + rewrite (left_id_L None (∪)), <-values_lookup.
      eapply effect_mono; [apply (IH s1 (S i)); [apply Hu|lia]|done| |].
      * intros r s2 [-> Hu2]. split; [done|]. by eapply unchanged_trans.
      * intros s2 Hu2. by eapply unchanged_trans.
Qed.

(** [get_value] returns what the contents say, and changes no file. *)
Lemma effect_get_value s ts key :
  mem_inv s.1 s.2 ts →
  wp (get_value key) s (effect (λ _, False) s
    (λ r s', r = contents s.1 ts !! key ∧ unchanged ts s s') (unchanged ts s)).
Proof.
  intros Hi. unfold get_value. eapply effect_step; [done..|]. cbn [id].
  unfold contents. rewrite values_lookup, lookup_union.
  destruct (data s.1 !! key) as [e|].
  - assert (Hu := unchanged_refl ts s Hi).
    destruct e as [v|]; apply effect_ret; by destruct (tables_map ts !! key).
  - rewrite (left_id_L None (∪)), <-values_lookup.
    pose proof (effect_search_tables s ts key 0 (length (sstables s.1)) Hi) as Hs. rewrite drop_0 in Hs.
    apply Hs. by rewrite (Forall2_length _ _ _ (mi_tables _ _ _ Hi)).
Qed.

(** ** [scan_range] *)

(** The entries of a map whose key is within bounds. *)
Definition within {V} (lo hi : Bound) (m : gmap bytes V) : gmap bytes V :=
  filter (λ kv, in_bounds kv.1 lo hi) m.

Lemma within_lookup {V} lo hi (m : gmap bytes V) k :
  within lo hi m !! k = if in_bounds k lo hi then m !! k else None.
Proof.
  unfold within. rewrite map_lookup_filter. destruct (m !! k) as [v|]; cbn; [|by destruct (in_bounds _ _ _)].
  by destruct (in_bounds k lo hi).
Qed.

Lemma within_union {V} lo hi (m1 m2 : gmap bytes V) : within lo hi (m1 ∪ m2) = within lo hi m1 ∪ within lo hi m2.
Proof.
  apply map_eq. intros k. rewrite lookup_union, !within_lookup, lookup_union. by destruct (in_bounds k lo hi).
Qed.

Lemma within_insert {V} lo hi (k : bytes) (v : V) (m : gmap bytes V) :
  within lo hi (<[k:=v]> m) = if in_bounds k lo hi then <[k:=v]> (within lo hi m) else within lo hi m.
Proof.
  apply map_eq. intros k'. rewrite within_lookup. destruct (decide (k = k')) as [->|Hne].
  - rewrite lookup_insert_eq. destruct (in_bounds k' lo hi) eqn:E; [by rewrite lookup_insert_eq|].
    by rewrite within_lookup, E.
  - rewrite lookup_insert_ne by done. destruct (in_bounds k lo hi); [rewrite lookup_insert_ne by done|];
      by rewrite within_lookup.
Qed.

Lemma values_within lo hi m : values (within lo hi m) = within lo hi (values m).
Proof.
  apply map_eq. intros k. rewrite within_lookup, !values_lookup, within_lookup. by destruct (in_bounds k lo hi).
Qed.

Lemma within_fold lo hi (es : list (bytes * Entry)) m :
  NoDup es.*1 →
  fold_left (λ m '(k, e), if in_bounds k lo hi then <[k:=e]> m else m) es m = within lo hi (table_map es) ∪ m.
Proof.
  unfold table_map. revert m. induction es as [|[k e] es IH]; intros m; cbn [fold_left fmap list_fmap fst].
  - intros _. cbn. unfold within. by rewrite map_filter_empty, map_empty_union.
  - intros [Hk Hd]%list.NoDup_cons. rewrite IH by done. cbn [list_to_map foldr uncurry fst snd]. rewrite within_insert. cbn [fst snd].
    destruct (in_bounds k lo hi); [|done]. rewrite <-insert_union_l, insert_union_r; [done|].
    rewrite within_lookup. destruct (in_bounds k lo hi); [|done]. by apply not_elem_of_list_to_map_1.
Qed.

(** A table whose key range misses the bounds holds no key within them. *)
Lemma range_overlaps_false mn mx lo hi k :
  range_overlaps mn mx lo hi = false → bytes_le mn k → bytes_le k mx → in_bounds k lo hi = false.
Proof.
  unfold range_overlaps, in_bounds. intros Hr Hmn Hmx.
  apply andb_false_iff in Hr as [Hr|Hr]; apply negb_false_iff in Hr; apply andb_false_iff; [left|right].
  - destruct lo as [|b|b]; [done| |].
    + apply bytes_leb_false. apply bytes_ltb_spec in Hr. by eapply bytes_le_lt_trans.
    + apply bytes_ltb_false. apply bytes_leb_spec in Hr. by etrans.
  - destruct hi as [|b|b]; [done| |].
    + apply bytes_leb_false. apply bytes_ltb_spec in Hr. by eapply bytes_lt_le_trans.
    + apply bytes_ltb_false. apply bytes_leb_spec in Hr. by etrans.
Qed.

Lemma skipped_table t p es lo hi :
  table_rep t p es → sorted_keys es →
  (match key_range t with Some (mn, mx) => negb (range_overlaps mn mx lo hi) | None => false end) = true →
  within lo hi (table_map es) = ∅.
Proof.
  intros (c & -> & _) Hs. unfold key_range. cbn [set_cache table_of min_key max_key].
  destruct (head_key es) as [mn|] eqn:Emn; [|done]. destruct (last_key es) as [mx|] eqn:Emx; [|done].
  intros Hr%negb_true_iff. apply map_empty. intros k. rewrite within_lookup.
  destruct (table_map es !! k) as [e|] eqn:Ek; [|by destruct (in_bounds _ _ _)].
  assert (Hk : k ∈ es.*1).
  { apply elem_of_list_to_map_2 in Ek. apply list_elem_of_fmap. by exists (k, e). }
  rewrite (range_overlaps_false mn mx); [done|done| |by eapply last_key_ge].
  pose proof (head_key_le _ _ Hs Hk) as Hle. by rewrite Emn in Hle.
Qed.

Lemma wp_scan_tables w d sts ts lo hi m :
  Forall2 (λ t x, table_rep t (sst_file d x.1) x.2) sts ts → Forall (table_on w d) ts →
  wp (scan_tables sts lo hi m) w (reads w (within lo hi (tables_map (reverse ts)) ∪ m)).
Proof.
  intros Ht. revert w m. induction Ht as [|t x sts ts Hrep _ IH]; intros w m Hon; cbn [scan_tables].
  - rewrite reverse_nil. cbn. unfold within. rewrite map_filter_empty, map_empty_union. apply wp_reads_ret.
  - apply list.Forall_cons in Hon as [(Hh & Hfit & Hs) Hon].
    assert (E : tables_map (reverse (x :: ts)) = tables_map (reverse ts) ∪ table_map x.2).
    { rewrite reverse_cons, tables_map_app. cbn. by rewrite map_union_empty. }
    rewrite E, within_union, <-(assoc_L (∪)).
    destruct (match key_range t with Some _ => _ | None => _ end) eqn:Eskip.
    + rewrite (skipped_table _ _ _ _ _ Hrep Hs Eskip), map_empty_union. by apply IH.
    + eapply wp_reads_bind; [by eapply wp_read_all_entries|]. intros w1 Hc.
      rewrite within_fold by (by apply sorted_keys_nodup). apply IH.
      eapply list.Forall_impl; [done|]. intros y.
      apply (table_on_touches (λ _, False)); [by apply calm_touches|auto].
Qed.

(** What [scan_range] makes of the merged map. *)
Lemma omap_values m :
  omap (λ '(k, e), match e with EValue v => Some (k, v) | Tombstone => None end) (bt_iter m) = bt_iter (values m).
Proof.
  set (f := λ ke : bytes * Entry, let '(k, e) := ke in
    match e with EValue v => Some (k, v) | Tombstone => None end).
  assert (Hsub : ∀ l : list (bytes * Entry), StronglySorted bytes_lt l.*1 → StronglySorted bytes_lt (omap f l).*1).
  { induction l as [|[k e] l IH]; [done|]. cbn [fmap list_fmap fst]. intros [Hk Hs]%StronglySorted_cons.
    specialize (IH Hs). destruct e as [v|]; [|done]. cbn. constructor; [done|].
    apply list.Forall_forall. intros k' ([k2 v2] & -> & Hin)%list_elem_of_fmap.
    apply list_elem_of_omap in Hin as ([k3 e3] & Hin & E). destruct e3; [|done]. cbn in E. injection E as -> ->.
    rewrite list.Forall_forall in Hk. apply Hk, list_elem_of_fmap. by eexists (k2, _). }
  assert (Hs := Hsub _ (bt_iter_sorted m)). apply bt_iter_unique; [done| |].
  - eapply NoDup_fmap_1, lt_sorted_nodup, Hs.
  - intros k v. rewrite list_elem_of_omap, values_lookup. split.
    + intros ([k' e] & Hin%elem_of_bt_iter & E). destruct e; [|done]. cbn in E. injection E as -> ->. by rewrite Hin.
    + destruct (m !! k) as [[v'|]|] eqn:E; [|done..]. cbn. intros [= ->]. exists (k, EValue v).
      by rewrite elem_of_bt_iter.
Qed.

Lemma filter_nodup {V} (P : bytes * V → Prop) `{!∀ x, Decision (P x)} (l : list (bytes * V)) :
  NoDup l.*1 → NoDup (filter P l).*1.
Proof.
  induction l as [|x l IH]; [done|]. cbn [fmap list_fmap]. intros [Hx Hd]%list.NoDup_cons.
  rewrite filter_cons. destruct (decide (P x)); [|by apply IH]. cbn [fmap list_fmap].
  apply list.NoDup_cons. split; [|by apply IH]. intros (y & E & Hy)%list_elem_of_fmap.
  apply list_elem_of_filter in Hy as [_ Hy]. destruct Hx. rewrite E. by apply list_elem_of_fmap_2.
Qed.

Lemma range_fold lo hi (m t : gmap bytes Entry) :
  fold_left (λ m '(k, e), <[k:=e]> m) (filter (λ kv, above lo kv.1 && below_bound hi kv.1) (bt_iter m)) t =
  within lo hi m ∪ t.
Proof.
  rewrite insert_union_fold.
  2:{ apply filter_nodup, bt_iter_nodup. }
  f_equal. apply map_eq. intros k. rewrite within_lookup. unfold table_map.
  apply option_eq. intros e. rewrite <-elem_of_list_to_map.
  2:{ apply filter_nodup, bt_iter_nodup. }
  rewrite list_elem_of_filter, elem_of_bt_iter. cbn [fst].
  change (in_bounds k lo hi) with (above lo k && below_bound hi k).
  destruct (above lo k && below_bound hi k); naive_solver.
Qed.

(** [scan_range] returns the contents within the bounds, sorted. *)
Lemma effect_scan_range s ts lo hi :
  mem_inv s.1 s.2 ts → data s.1 = ∅ ∨ bad_range lo hi = false →
  wp (scan_range lo hi) s (effect (λ _, False) s
    (λ r s', r = bt_iter (within lo hi (contents s.1 ts)) ∧ s'.1 = s.1 ∧ mem_inv s'.1 s'.2 ts)
    (λ s', s'.1 = s.1 ∧ mem_inv s'.1 s'.2 ts)).
Proof.
  intros Hi Hrange. unfold scan_range. eapply effect_step; [done..|]. cbn [id].
  assert (Hi' := Hi). destruct Hi' as [_ _ Htabs Hfiles _ _ _ _ _ _ _].
  eapply effect_seq_world.
  { apply (reads_effect (λ _, False)), (wp_scan_tables _ (dir s.1)); [by apply Forall2_reverse|].
    by apply list.Forall_reverse. }
  { done. } { intros w' _ Hc. split; [done|]. by eapply mem_inv_calm. }
  intros ? w1 _ [-> Hc1]. rewrite reverse_involutive, map_union_empty.
  eapply effect_step; [|done|].
  { unfold lift, bt_range. replace (negb _ && _) with false; [done|].
    destruct Hrange as [-> | ->]; [by rewrite bool_decide_eq_true_2|by rewrite andb_false_r]. }
  rewrite range_fold, <-within_union, omap_values, values_within. apply effect_ret.
  split; [done|]. split; [done|]. by eapply mem_inv_calm.
Qed.

(** A range that starts after its end panics, unless the memtable is empty. *)
Lemma scan_range_bad_range s ts lo hi :
  mem_inv s.1 s.2 ts → w_faults s.2 = [] → data s.1 ≠ ∅ → bad_range lo hi = true →
  (scan_range lo hi s).1 = Panic.
Proof.
  intros Hi Hf Hd Hb. assert (Hi' := Hi). destruct Hi' as [_ _ Htabs Hfiles _ _ _ _ _ _ _].
  change (wp (scan_range lo hi) s (λ r _, r = Panic)).
  unfold scan_range. apply wp_bind, wp_self. cbn [wp_seq id].
  apply wp_bind, wp_on_world. eapply wp_mono.
  { apply (wp_scan_tables _ (dir s.1)); [by apply Forall2_reverse|by apply list.Forall_reverse]. }
  intros r w' [_ [->|[_ ?]]]; [|done]. cbn [wp_seq]. apply wp_bind, wp_lift.
  unfold bt_range. rewrite bool_decide_eq_false_2, Hb by done. done.
Qed.
End storespec.
