(* ===== verification/StoreWrite.v ===== *)
(** * The store as a map: flushing and compaction

    [flush] moves the memtable into a table and [compact] merges the tables;
    neither changes the contents, whatever faults strike. *)

From S2P Require Import Prelude Machine Value Checksum Bloom BlockCache Fs Wal SsTable Record Layout Image Search TableSpec Effects WalSpec BTree Store View Names StoreSpec.

Section storewrite.
Context {Prof : Profile} {Cd : Codec} {CdOk : CodecOk Cd}.
Implicit Types (k key : bytes) (ts : tabs) (d : path).

(** ** Changing parts of a store *)

(** The table files of directory [d]. *)
Definition sst_paths (d : path) (q : path) : Prop := ∃ id, q = sst_file d id.

Definition log_at (s : Store * world) (f : file) : Prop := wal_rep (wal s.1) s.2 (wal_path (dir s.1)) f.

Lemma sst_paths_own d q : sst_paths d q → own d q.
Proof. intros [id ->]. right. by exists id. Qed.

(** The log is not disturbed by writes to table files. *)
Lemma wal_rep_sst wl w w' d f :
  touches (sst_paths d) w w' → wal_rep wl w (wal_path d) f → wal_rep wl w' (wal_path d) f.
Proof.
  intros Ht. apply (wal_rep_touches (sst_paths d)); [done| |].
  - intros [id E]. by apply (sst_file_neq_wal d id).
  - intros [id E]. unfold wal_path in E. rewrite parent_join in E. by apply (join_neq_dir d (sstable_name id)).
Qed.

Lemma chain_sst w w' d : touches (sst_paths d) w w' → chain w d → chain w' d.
Proof.
  intros Ht. eapply chain_touches; [done|]. intros q Hq [id ->]. by apply join_not_prefix in Hq.
Qed.

(** A store whose tables are forgotten. *)
Lemma mem_inv_no_tables s w ts : mem_inv s w ts → mem_inv (set_sstables (λ _, []) s) w [].
Proof. intros []. split; try done; constructor. Qed.

(** A new table at the front. *)
Lemma mem_inv_push s w w' ts es :
  mem_inv s w ts → touches (eq (sst_file (dir s) (next_sstable_id s))) w w' →
  holds w' (sst_file (dir s) (next_sstable_id s)) (image es) → fits es → sorted_keys es →
  next_sstable_id s + 1 < 2 ^ 64 →
  mem_inv (set_sstables (cons (table_of (sst_file (dir s) (next_sstable_id s)) es))
             (set_next_id (next_sstable_id s + 1) s)) w' ((next_sstable_id s, es) :: ts).
Proof.
  intros [] Ht Hh Hfit Hs Hn.
  assert (HP : touches (sst_paths (dir s)) w w') by (eapply touches_mono; [|done]; intros q <-; by eexists).
  assert (Hold : ∀ x, x ∈ ts → x.1 < next_sstable_id s ∧ 0 <= x.1).
  { intros x Hx. rewrite list.Forall_forall in mi_ids.
    specialize (mi_ids x.1 ltac:(by apply list_elem_of_fmap_2)). lia. }
  split; cbn [set_sstables set_next_id data memtable_bytes wal dir sstables next_sstable_id]; try done.
  - by eapply chain_sst.
  - constructor; [apply table_of_rep|done].
  - constructor; [done|]. apply list.Forall_forall. intros x Hx. rewrite list.Forall_forall in mi_files.
    eapply table_on_touches; [exact Ht| |by apply mi_files].
    cbn. intros E. apply sst_file_inj in E; [|lia|by apply Hold]. pose proof (Hold x Hx). lia.
  - cbn. constructor; [done|]. apply list.Forall_forall. intros id (x & -> & Hx)%list_elem_of_fmap.
    pose proof (Hold x Hx). lia.
  - cbn. constructor; [lia|]. eapply list.Forall_impl; [done|]. cbn. lia.
  - lia.
  - intros id. destruct (decide (sst_file (dir s) (next_sstable_id s) = sst_file (dir s) id)) as [E|Hne].
    + rewrite <-E. apply holds_node in Hh. by rewrite Hh.
    + rewrite (proj1 Ht) by done. apply mi_nodir.
  - destruct mi_wal as [f Hf]. exists f. by eapply wal_rep_sst.
Qed.

(** Files of the directory other than those of the tables may change. *)
Lemma mem_inv_files s w w' ts :
  mem_inv s w ts → touches (own (dir s)) w w' → Forall (table_on w' (dir s)) ts →
  (∀ id, w_nodes w' !! sst_file (dir s) id ≠ Some Dir) →
  (∃ f, wal_rep (wal s) w' (wal_path (dir s)) f) → mem_inv s w' ts.
Proof.
  intros [] Ht Hf Hd Hw. split; try done. eapply chain_touches; [done| |done].
  intros q. apply own_not_prefix.
Qed.

Lemma mem_inv_empty_memtable s w ts :
  mem_inv s w ts → mem_inv (set_memtable_bytes 0 (set_data (λ _, ∅) s)) w ts.
Proof. intros []. by split. Qed.

(** A failed table write leaves the invariant alone. *)
Lemma mem_inv_unwritten s w w' ts f img :
  mem_inv s w ts → unwritten w (sst_file (dir s) (next_sstable_id s)) f img w' →
  touches (eq (sst_file (dir s) (next_sstable_id s))) w w' → mem_inv s w' ts.
Proof.
  intros Hi [Hc|(t & _ & Hf)] Ht; [by eapply mem_inv_calm|]. assert (Hi' := Hi). destruct Hi'.
  assert (HP : touches (sst_paths (dir s)) w w') by (eapply touches_mono; [|done]; intros q <-; by eexists).
  eapply mem_inv_files; [done|eapply touches_mono; [apply sst_paths_own|done]| | |].
  - apply list.Forall_forall. intros x Hx. rewrite list.Forall_forall in mi_files.
    eapply table_on_touches; [exact Ht| |by apply mi_files]. rewrite list.Forall_forall in mi_ids.
    specialize (mi_ids x.1 ltac:(by apply list_elem_of_fmap_2)).
    intros E. apply sst_file_inj in E; lia.
  - intros id. destruct (decide (sst_file (dir s) (next_sstable_id s) = sst_file (dir s) id)) as [E|Hne].
    + rewrite <-E. intros E2. unfold file_at in Hf. by rewrite E2 in Hf.
    + rewrite (proj1 Ht) by done. apply mi_nodir.
  - destruct mi_wal as [f' Hf']. exists f'. by eapply wal_rep_sst.
Qed.

(** The file at a path that is not a directory. *)
Lemma wal_at_exists w p : w_nodes w !! p ≠ Some Dir → ∃ f, wal_at w p f.
Proof. intros H. unfold wal_at. destruct (w_nodes w !! p) as [[|f]|]; [done|eauto..]. Qed.

(** [SsTable::flush] to the next id of a store. *)
Lemma effect_new_table s w ts es :
  mem_inv s w ts →
  let p := sst_file (dir s) (next_sstable_id s) in
  wp (SsTable.flush p es) w (effect (eq p) w
    (λ t w', t = table_of p es ∧ holds w' p (image es))
    (λ w', ∃ f, wal_at w p f ∧ unwritten w p f (image es) w')).
Proof.
  intros [] p. destruct (wal_at_exists w p) as [f Hf]; [apply mi_nodir|].
  assert (Ep : parent p = dir s) by (unfold p, sst_file; by rewrite parent_join).
  eapply effect_mono; [apply (effect_sst_flush w p f es)|done|done|eauto].
  - by rewrite Ep.
  - by rewrite Ep.
  - rewrite Ep. apply join_not_prefix.
  - done.
Qed.

(** ** Compaction *)

(** [s'] differs from [s] in its tables only. *)
Definition same_but_tables (s s' : Store) : Prop :=
  ∃ sts n, s' = set_next_id n (set_sstables (λ _, sts) s).

(** Every table file of the directory belongs to one of [ids]. *)
Definition tidy (w : world) (d : path) (ids : list Z) : Prop :=
  ∀ name id, is_Some (w_nodes w !! join d name) → sstable_id_from_path (join d name) = Some id →
    name = sstable_name id ∧ id ∈ ids.

(** Files may have disappeared. *)
Definition shrinks (w w' : world) : Prop :=
  ∀ q, w_nodes w' !! q = w_nodes w !! q ∨ w_nodes w' !! q = None.

Lemma shrinks_trans w1 w2 w3 : shrinks w1 w2 → shrinks w2 w3 → shrinks w1 w3.
Proof. intros H1 H2 q. destruct (H1 q), (H2 q); [left|right..]; congruence. Qed.

Lemma wp_merge_tables w d sts ts m :
  Forall2 (λ t x, table_rep t (sst_file d x.1) x.2) sts ts → Forall (table_on w d) ts →
  wp (merge_tables sts m) w (reads w (tables_map (reverse ts) ∪ m)).
Proof.
  intros Ht. revert w m. induction Ht as [|t x sts ts Hrep _ IH]; intros w m Hon; cbn [merge_tables].
  - rewrite reverse_nil. cbn. rewrite map_empty_union. apply wp_reads_ret.
  - apply list.Forall_cons in Hon as [(Hh & Hfit & Hs) Hon].
    rewrite reverse_cons, tables_map_app, <-(assoc_L (∪)). cbn. rewrite map_union_empty.
    eapply wp_reads_bind; [by eapply wp_read_all_entries|]. intros w1 Hc.
    rewrite insert_union_fold by (by apply sorted_keys_nodup). apply IH.
    eapply list.Forall_impl; [done|]. intros y.
    apply (table_on_touches (λ _, False)); [by apply calm_touches|auto].
Qed.

(** Removing one file, with errors ignored. *)
Lemma effect_remove (s : Store * world) p :
  w_nodes s.2 !! p ≠ Some Dir →
  wp (_ ← on_world (attempt (fs_remove_file p)); mret tt) s (effect (eq p) s
    (λ _ s', s'.1 = s.1 ∧ shrinks s.2 s'.2 ∧ (w_faults s.2 = [] → w_nodes s'.2 !! p = None))
    (λ s', s'.1 = s.1 ∧ shrinks s.2 s'.2)).
Proof.
  intros Hd. destruct s as [s w]. cbn [fst snd] in *. apply wp_bind, wp_on_world. cbn [fst snd].
  assert (Hcalm : ∀ w', calm w w' → touches (eq p) w w' ∧ shrinks w w').
  { intros w' Hc. split; [by apply calm_touches|]. intros q. left. by rewrite (proj1 Hc). }
  apply wp_attempt, wp_io.
  - intros w' Hc. destruct (Hcalm w' Hc) as [Ht Hs]. rewrite <-(proj1 Hc) in Hd. unfold wp.
    destruct (w_nodes w' !! p) as [[|f]|] eqn:Ep; [done| |]; cbn.
    + split; [|left; exists tt; split_and!; [done..| |]].
      * etrans; [exact Ht|]. split_and!; [|done..]. intros q Hq. cbn. by rewrite lookup_delete_ne.
      * intros q. cbn. destruct (decide (p = q)) as [->|Hne]; [right; by rewrite lookup_delete_eq|].
        rewrite lookup_delete_ne by done. apply Hs.
      * intros _. apply lookup_delete_eq.
    + split; [done|left]. exists tt. by split_and!.
  - intros r w' n Hf Hc Hr. destruct (Hcalm w' Hc) as [Ht Hs]. unfold no_effect.
    destruct Hr as [->|[msg ->]]; (split; [done|]); [right; by split_and!; [left|..]|left].
    exists tt. by split_and!.
Qed.

Lemma effect_remove_all (s : Store * world) d ids :
  (∀ id, w_nodes s.2 !! sst_file d id ≠ Some Dir) →
  wp (for_each (sst_file d <$> ids) (λ p, _ ← on_world (attempt (fs_remove_file p)); mret tt)) s
    (effect (λ q, ∃ id, id ∈ ids ∧ q = sst_file d id) s
      (λ _ s', s'.1 = s.1 ∧ shrinks s.2 s'.2 ∧
               (w_faults s.2 = [] → ∀ id, id ∈ ids → w_nodes s'.2 !! sst_file d id = None))
      (λ s', s'.1 = s.1 ∧ shrinks s.2 s'.2)).
Proof.
  revert s. induction ids as [|id ids IH]; intros s Hd; cbn [fmap list_fmap for_each].
  - apply effect_ret. split_and!; [done|intros q; by left|]. intros _ id Hid. by apply list.not_elem_of_nil in Hid.
  - eapply effect_seq; [by apply effect_remove|intros q <-; exists id; split; [left|done]|done|].
    intros _ s1 Ht1 (E1 & Hs1 & Hr1).
    assert (Hd1 : ∀ i, w_nodes s1.2 !! sst_file d i ≠ Some Dir).
    { intros i. destruct (Hs1 (sst_file d i)) as [-> | ->]; [apply Hd|done]. }
    eapply effect_mono; [by apply IH|intros q (i & Hi & ->); exists i; split; [by right|done]| |].
    + intros _ s2 (E2 & Hs2 & Hr2). split_and!; [congruence|by eapply shrinks_trans|].
      intros Hf i [->|Hi]%list.elem_of_cons; [|apply Hr2; [by apply Ht1|done]].
      destruct (Hs2 (sst_file d id)) as [-> | ->]; [by apply Hr1|done].
    + intros s2 (E2 & Hs2). split; [congruence|by eapply shrinks_trans].
Qed.

(** The tables after a compaction. *)
Definition compacted (next : Z) ts : tabs :=
  let merged := filter (λ ke, is_value ke.2) (tables_map ts) in
  if decide (merged = ∅) then [] else [(next, bt_iter merged)].

Lemma tables_map_bt_iter (id : Z) (m : gmap bytes Entry) : tables_map [(id, bt_iter m)] = m.
Proof. cbn. unfold table_map. by rewrite list_to_map_bt_iter, map_union_empty. Qed.

Lemma compacted_map next ts : tables_map (compacted next ts) ≈ tables_map ts.
Proof.
  rewrite <-(filter_values (tables_map ts)). unfold compacted. cbv zeta.
  destruct (decide _) as [->|_]; [done|]. by rewrite tables_map_bt_iter.
Qed.

Lemma tables_map_lookup ts k e : tables_map ts !! k = Some e → ∃ x, x ∈ ts ∧ (k, e) ∈ x.2.
Proof.
  induction ts as [|x ts IH]; [done|]. cbn [tables_map foldr]. fold (tables_map ts).
  intros [Hl|[_ Hr]]%lookup_union_Some_raw.
  - exists x. split; [left|]. by apply elem_of_list_to_map_2.
  - destruct (IH Hr) as (y & ? & ?). exists y. split; [by right|done].
Qed.

(** The merged entries fit in a table. *)
Lemma merged_fits w d ts :
  Forall (table_on w d) ts → Z.of_nat (size (tables_map ts)) < 2 ^ 31 →
  fits (bt_iter (filter (λ ke, is_value ke.2) (tables_map ts))).
Proof.
  intros Hon Hsz. split.
  - apply list.Forall_forall. intros [k e] Hin%elem_of_bt_iter.
    apply map_lookup_filter_Some in Hin as [Hl _]. apply tables_map_lookup in Hl as (x & Hx & Hke).
    rewrite list.Forall_forall in Hon. destruct (Hon x Hx) as (_ & [Hs _] & _).
    rewrite list.Forall_forall in Hs. by apply Hs.
  - rewrite length_bt_iter.
    assert (size (filter (λ ke, is_value ke.2) (tables_map ts)) <= size (tables_map ts))%nat; [|lia].
    apply map_subseteq_size, map_filter_subseteq.
Qed.

(** The first part of [compact]: the tables are replaced by the merged one. *)
Lemma effect_replace_tables s ts :
  mem_inv s.1 s.2 ts → Z.of_nat (size (tables_map ts)) < 2 ^ 31 → next_sstable_id s.1 + 1 < 2 ^ 64 →
  let merged := filter (λ ke, is_value ke.2) (tables_map ts) in
  wp (if decide (merged = ∅) then set_self (set_sstables (λ _, []))
      else
        new_sst ← on_world (SsTable.flush (sst_file (dir s.1) (next_sstable_id s.1)) (bt_iter merged));
        n ← lift (add64 (next_sstable_id s.1) 1);
        _ ← set_self (set_next_id n);
        set_self (set_sstables (λ _, [new_sst]))) s
    (effect (eq (sst_file (dir s.1) (next_sstable_id s.1))) s
      (λ _ s', mem_inv s'.1 s'.2 (compacted (next_sstable_id s.1) ts) ∧ same_but_tables s.1 s'.1 ∧
               next_sstable_id s.1 <= next_sstable_id s'.1 <= next_sstable_id s.1 + 1 ∧
               (compacted (next_sstable_id s.1) ts = [] → s'.2 = s.2))
      (λ s', mem_inv s'.1 s'.2 ts ∧ s'.1 = s.1)).
Proof.
  intros Hi Hsz Hnext merged. assert (Hfit := merged_fits _ _ _ (mi_files _ _ _ Hi) Hsz).
  unfold compacted. fold merged. destruct s as [s w]. cbn [fst snd] in *. cbv zeta. fold merged.
  destruct (decide (merged = ∅)) as [_|Hne].
  { apply effect_set_self. cbn [fst snd]. split_and!; [by eapply mem_inv_no_tables|by eexists _, _|cbn; lia..|done]. }
  eapply effect_seq_world; [by apply (effect_new_table s w ts)|done| |].
  { intros w' Ht (f & _ & Hu). split; [|done]. by eapply mem_inv_unwritten. }
  intros t w1 Ht [-> Hh]. cbn [fst snd].
  assert (Hadd : add64 (next_sstable_id s) 1 = Ok (next_sstable_id s + 1)).
  { unfold add64. by rewrite (proj2 (Z.ltb_lt _ _)) by lia. }
  rewrite Hadd. eapply effect_step; [done..|]. eapply effect_step; [done..|].
  apply effect_set_self. cbn [fst snd]. split_and!; [|by eexists _, _|cbn; lia..|done].
  apply (mem_inv_push (set_sstables (λ _, []) s) w w1 []); [by eapply mem_inv_no_tables|done..| |done].
  apply bt_iter_sorted.
Qed.

Lemma compacted_ids next ts id : id ∈ (compacted next ts).*1 → id = next.
Proof. unfold compacted. cbv zeta. destruct (decide _); set_solver. Qed.

(** Removing files of other tables. *)
Lemma mem_inv_removed s w w' (ids : list Z) ts :
  mem_inv s w ts → touches (λ q, ∃ id, id ∈ ids ∧ q = sst_file (dir s) id) w w' → shrinks w w' →
  (∀ id, id ∈ ids → 0 <= id ∧ id ∉ ts.*1) → mem_inv s w' ts.
Proof.
  intros Hi Ht Hs Hids. assert (Hi' := Hi). destruct Hi'. eapply mem_inv_files; [done| | | |].
  - eapply touches_mono; [|done]. intros q (id & _ & ->). right. by exists id.
  - apply list.Forall_forall. intros x Hx. rewrite list.Forall_forall in mi_files.
    eapply table_on_touches; [exact Ht| |by apply mi_files]. intros (id & Hid & E).
    destruct (Hids id Hid) as [Hpos Hnot]. assert (Hx1 : x.1 ∈ ts.*1) by (by apply list_elem_of_fmap_2).
    rewrite list.Forall_forall in mi_ids. apply sst_file_inj in E; [|apply mi_ids; done|done].
    by rewrite <-E in Hnot.
  - intros id. destruct (Hs (sst_file (dir s) id)) as [-> | ->]; [apply mi_nodir|done].
  - destruct mi_wal as [f Hf]. exists f. eapply wal_rep_sst; [|done].
    eapply touches_mono; [|done]. intros q (id & _ & ->). by exists id.
Qed.

Lemma tidy_calm w w' d ids : calm w w' → tidy w d ids → tidy w' d ids.
Proof. intros Hc H name id Hex. apply H. by rewrite <-(proj1 Hc). Qed.

(** After a compaction only the merged table is left. *)
Lemma tidy_compacted s w w1 w2 ts :
  mem_inv s w ts → touches (eq (sst_file (dir s) (next_sstable_id s))) w w1 →
  (compacted (next_sstable_id s) ts = [] → w_nodes w1 = w_nodes w) → shrinks w1 w2 →
  (∀ id, id ∈ ts.*1 → w_nodes w2 !! sst_file (dir s) id = None) →
  tidy w (dir s) ts.*1 → tidy w2 (dir s) (compacted (next_sstable_id s) ts).*1.
Proof.
  intros Hi Ht Hnone Hs Hr Htidy name id Hex Hid. assert (Hids := mi_ids _ _ _ Hi). rewrite list.Forall_forall in Hids.
  assert (Hex1 : is_Some (w_nodes w1 !! join (dir s) name)).
  { destruct (Hs (join (dir s) name)) as [E|E]; rewrite E in Hex; [done|by destruct Hex]. }
  destruct (decide (sst_file (dir s) (next_sstable_id s) = join (dir s) name)) as [E|Hne].
  - apply join_inj in E as <-.
    assert (Hid' := sstable_id_roundtrip (dir s) (next_sstable_id s) (mi_next _ _ _ Hi)).
    unfold sst_file in Hid'. rewrite Hid' in Hid. injection Hid as <-. split; [done|].
    destruct (compacted _ ts) as [|y l] eqn:Ec.
    + exfalso. rewrite (Hnone eq_refl) in Hex1. destruct (Htidy _ _ Hex1 Hid') as [_ Hin].
      specialize (Hids _ Hin). lia.
    + assert (Hy : y.1 ∈ (compacted (next_sstable_id s) ts).*1) by (rewrite Ec; left).
      apply compacted_ids in Hy. rewrite <-Hy. left.
  - exfalso. rewrite (proj1 Ht) in Hex1 by done. destruct (Htidy _ _ Hex1 Hid) as [-> Hin].
    specialize (Hr _ Hin). unfold sst_file in Hr. rewrite Hr in Hex. by destruct Hex.
Qed.

(** [compact]: the same contents in at most one table, without tombstones.  When
    no fault strikes, the old files are gone. *)
Lemma effect_compact s ts :
  mem_inv s.1 s.2 ts → Z.of_nat (size (tables_map ts)) < 2 ^ 31 → next_sstable_id s.1 + 1 < 2 ^ 64 →
  wp compact s (effect (sst_paths (dir s.1)) s
    (λ _ s', let ts' := if decide (length ts < 2)%nat then ts else compacted (next_sstable_id s.1) ts in
             mem_inv s'.1 s'.2 ts' ∧ same_but_tables s.1 s'.1 ∧
             next_sstable_id s.1 <= next_sstable_id s'.1 <= next_sstable_id s.1 + 1 ∧
             (w_faults s.2 = [] → tidy s.2 (dir s.1) ts.*1 → tidy s'.2 (dir s.1) ts'.*1))
    (λ s', ∃ ts', mem_inv s'.1 s'.2 ts' ∧ tables_map ts' ≈ tables_map ts ∧ same_but_tables s.1 s'.1)).
Proof.
  intros Hi Hsz Hnext. assert (Hi' := Hi). destruct Hi' as [_ _ Htabs Hfiles _ Hids _ _ _ _ _].
  unfold compact. eapply effect_step; [done..|]. cbn [id].
  rewrite (Forall2_length _ _ _ Htabs).
  assert (Hsame : same_but_tables s.1 s.1).
  { exists (sstables s.1), (next_sstable_id s.1). by destruct s.1. }
  destruct (Nat.ltb_spec (length ts) 2) as [Hlt|Hge].
  { apply effect_ret. cbv zeta. rewrite decide_True by done. split_and!; [done..|lia|lia|done]. }
  eapply effect_seq_world.
  { apply (reads_effect (λ _, False)), (wp_merge_tables _ (dir s.1)); [by apply Forall2_reverse|].
    by apply list.Forall_reverse. }
  { done. } { intros w' _ Hc. exists ts. split_and!; [by eapply mem_inv_calm|done..]. }
  intros ? w1 _ [-> Hc1]. rewrite reverse_involutive, map_union_empty. cbv zeta.
  assert (Hi1 : mem_inv s.1 w1 ts) by (by eapply mem_inv_calm).
  eapply effect_seq; [apply (effect_replace_tables (s.1, w1) ts Hi1 Hsz Hnext)| | |]; cbn [fst snd].
  { intros q <-. by eexists. } { intros s2 _ [H2 E2]. exists ts. by rewrite E2 in *. }
  intros [] [s2 w2] Ht2 (Hi2 & Hsame2 & Hn2 & Hnone). cbn [fst snd] in *.
  assert (Hpaths : sst_path <$> sstables s.1 = sst_file (dir s.1) <$> ts.*1).
  { clear -Htabs. induction Htabs as [|t x sts ts' (c & -> & _) _ IH]; [done|]. cbn. by f_equal. }
  rewrite Hpaths.
  assert (Hdir : dir s2 = dir s.1) by (by destruct Hsame2 as (? & ? & ->)).
  assert (Hids2 : ∀ id, id ∈ ts.*1 → 0 <= id ∧ id ∉ (compacted (next_sstable_id s.1) ts).*1).
  { intros id Hid. rewrite list.Forall_forall in Hids. specialize (Hids id Hid). split; [lia|].
    intros E%compacted_ids. lia. }
  rewrite <-Hdir. eapply effect_conseq; [by apply effect_remove_all, (mi_nodir _ _ _ Hi2)| | |].
  { intros q (i & _ & ->). by exists i. }
  all: cbn [fst snd].
  - intros _ [s3 w3] Ht3 (-> & Hs3 & Hr3). cbn [fst snd the_world pair_world] in *.
    rewrite decide_False by lia. split_and!; [by eapply mem_inv_removed|done|lia|lia|].
    intros Hf Htidy. rewrite Hdir in *.
    assert (Hf2 : w_faults w2 = []) by (apply Ht2, Hc1, Hf).
    apply (tidy_compacted s.1 w1 w2 w3 ts); auto.
    + intros E. by rewrite (Hnone E).
    + by eapply tidy_calm.
  - intros [s3 w3] Ht3 (-> & Hs3). exists (compacted (next_sstable_id s.1) ts). cbn [fst snd] in *.
    split_and!; [by eapply mem_inv_removed|apply compacted_map|done].
Qed.

(** ** Flushing *)

(** What a flush leaves alone. *)
Definition core_eq (s s' : Store) : Prop :=
  dir s' = dir s ∧ sequence s' = sequence s ∧ memtable_max_bytes s' = memtable_max_bytes s ∧ lock s' = lock s.

(** [s'] is [s] after its memtable became the newest table. *)
Definition flushed (s : Store * world) ts (s' : Store * world) : Prop :=
  mem_inv s'.1 s'.2 ((next_sstable_id s.1, bt_iter (data s.1)) :: ts) ∧ data s'.1 = ∅ ∧
  next_sstable_id s'.1 = next_sstable_id s.1 + 1 ∧ core_eq s.1 s'.1.

(** How a failed flush leaves the store: the new table torn and nothing else
    changed; or the table written and the log not cleared; or both done and the
    compaction cut short. *)
Inductive flush_failed (s : Store * world) ts (f : file) (s' : Store * world) : Prop :=
  | failed_table g :
      s'.1 = s.1 → touches (eq (sst_file (dir s.1) (next_sstable_id s.1))) s.2 s'.2 →
      wal_at s.2 (sst_file (dir s.1) (next_sstable_id s.1)) g →
      unwritten s.2 (sst_file (dir s.1) (next_sstable_id s.1)) g (image (bt_iter (data s.1))) s'.2 →
      flush_failed s ts f s'
  | failed_clear :
      flushed s ts s' → log_at s' f ∨ log_at s' (File [] (f_durable f)) →
      (tidy s.2 (dir s.1) ts.*1 → tidy s'.2 (dir s.1) (next_sstable_id s.1 :: ts.*1)) →
      flush_failed s ts f s'
  | failed_compaction ts' :
      (8 <= length ts)%nat → mem_inv s'.1 s'.2 ts' → data s'.1 = ∅ →
      tables_map ts' ≈ data s.1 ∪ tables_map ts → core_eq s.1 s'.1 → log_at s' (File [] []) →
      flush_failed s ts f s'.

Lemma effect_on_wal {A} s (m : M (Wal * world) A) P g b :
  wp m (wal s.1, s.2) (effect P (wal s.1, s.2) g b) →
  wp (on_wal m) s (effect P s
    (λ a s', ∃ wl, s'.1 = set_wal wl s.1 ∧ g a (wl, s'.2)) (λ s', ∃ wl, s'.1 = set_wal wl s.1 ∧ b (wl, s'.2))).
Proof.
  intros Hm. apply wp_zoom. eapply wp_mono; [exact Hm|]. intros r [wl w'] [Ht Hr]. split; [done|].
  cbn [fst snd]. destruct Hr as [(a & -> & Ha)|(? & ? & ?)]; [left|right; split_and!]; eauto 10.
Qed.

Lemma memtable_fits s w ts :
  mem_inv s w ts → Z.of_nat (size (data s)) < 2 ^ 31 → fits (bt_iter (data s)).
Proof.
  intros Hi Hsz. split; [|by rewrite length_bt_iter].
  apply list.Forall_forall. intros [k e] Hin%elem_of_bt_iter. by apply (mi_small _ _ _ Hi k e).
Qed.

(** The log's own methods keep the rest of the invariant. *)
Lemma mem_inv_log s w w' ts wl f :
  mem_inv s w ts → touches (eq (wal_path (dir s))) w w' → wal_rep wl w' (wal_path (dir s)) f →
  mem_inv (set_wal wl s) w' ts.
Proof.
  intros [] Ht Hw. split; try done.
  - eapply chain_touches; [done| |done]. intros q Hq <-. by apply join_not_prefix in Hq.
  - apply list.Forall_forall. intros x Hx. rewrite list.Forall_forall in mi_files.
    eapply table_on_touches; [done| |by apply mi_files]. intros E. by eapply sst_file_neq_wal.
  - intros id. cbn. rewrite (proj1 Ht); [apply mi_nodir|]. intros E. by eapply sst_file_neq_wal.
  - by exists f.
Qed.

Lemma size_union_l (m1 m2 : gmap bytes Entry) : (size m1 <= size (m1 ∪ m2))%nat.
Proof. apply map_subseteq_size, map_union_subseteq_l. Qed.

(** The tables after a flush. *)
Definition flushed_tabs (s : Store) ts : tabs :=
  let ts1 := (next_sstable_id s, bt_iter (data s)) :: ts in
  if decide (MAX_SSTABLES < length ts1)%nat then compacted (next_sstable_id s + 1) ts1 else ts1.

Lemma tables_map_push (next : Z) (m : gmap bytes Entry) ts : tables_map ((next, bt_iter m) :: ts) = m ∪ tables_map ts.
Proof. cbn. unfold table_map. by rewrite list_to_map_bt_iter. Qed.

Lemma flushed_tabs_map s ts : tables_map (flushed_tabs s ts) ≈ data s ∪ tables_map ts.
Proof.
  unfold flushed_tabs. cbv zeta. rewrite <-(tables_map_push (next_sstable_id s) (data s) ts).
  destruct (decide _); [apply compacted_map|done].
Qed.

Lemma compacted_size next ts : (size (tables_map (compacted next ts)) <= size (tables_map ts))%nat.
Proof.
  unfold compacted. cbv zeta. destruct (decide _); [cbn; rewrite map_size_empty; lia|].
  rewrite tables_map_bt_iter. apply map_subseteq_size, map_filter_subseteq.
Qed.

Lemma compacted_union_size (m : gmap bytes Entry) next ts :
  (size (m ∪ tables_map (compacted next ts)) <= size (m ∪ tables_map ts))%nat.
Proof.
  rewrite <-!size_dom. apply subseteq_size. rewrite !dom_union. apply union_mono_l.
  unfold compacted. cbv zeta. destruct (decide _); [cbn; by rewrite dom_empty|].
  rewrite tables_map_bt_iter. apply dom_filter_subseteq.
Qed.

Lemma flushed_tabs_size s ts : (size (tables_map (flushed_tabs s ts)) <= size (data s ∪ tables_map ts))%nat.
Proof.
  unfold flushed_tabs. cbv zeta. rewrite <-(tables_map_push (next_sstable_id s) (data s) ts).
  destruct (decide _); [apply compacted_size|done].
Qed.

Definition flush_done (s : Store * world) ts (s' : Store * world) : Prop :=
  mem_inv s'.1 s'.2 (flushed_tabs s.1 ts) ∧ data s'.1 = ∅ ∧
  core_eq s.1 s'.1 ∧ log_at s' (File [] []) ∧ next_sstable_id s'.1 <= next_sstable_id s.1 + 2 ∧
  (w_faults s.2 = [] ∨ (length ts < 8)%nat → tidy s.2 (dir s.1) ts.*1 → tidy s'.2 (dir s.1) (flushed_tabs s.1 ts).*1).

(** Writing the next table and then the log keeps the directory tidy. *)
Lemma tidy_new_table s w w1 w2 ts :
  mem_inv s w ts → touches (eq (sst_file (dir s) (next_sstable_id s))) w w1 →
  touches (eq (wal_path (dir s))) w1 w2 → tidy w (dir s) ts.*1 → tidy w2 (dir s) (next_sstable_id s :: ts.*1).
Proof.
  intros Hi Ht1 Ht2 Htidy name id Hex Hid.
  destruct (decide (sst_file (dir s) (next_sstable_id s) = join (dir s) name)) as [E|Hn].
  - apply join_inj in E as <-.
    assert (Hid' := sstable_id_roundtrip (dir s) (next_sstable_id s) (mi_next _ _ _ Hi)).
    unfold sst_file in Hid'. rewrite Hid' in Hid. injection Hid as <-. split; [done|left].
  - assert (Hw2 : wal_path (dir s) ≠ join (dir s) name).
    { intros E. by rewrite <-E, wal_not_table in Hid. }
    rewrite (proj1 Ht2), (proj1 Ht1) in Hex by done. destruct (Htidy _ _ Hex Hid). split; [done|by right].
Qed.

(** The part of [flush] up to the clearing of the log. *)
Lemma effect_flush_table s ts f (K : M (Store * world) unit) good :
  mem_inv s.1 s.2 ts → log_at s f → Z.of_nat (size (data s.1)) < 2 ^ 31 → next_sstable_id s.1 + 2 < 2 ^ 64 →
  data s.1 ≠ ∅ →
  (∀ s1, touches (own (dir s.1)) s.2 s1.2 → flushed s ts s1 → log_at s1 (File [] []) →
    (tidy s.2 (dir s.1) ts.*1 → tidy s1.2 (dir s.1) (next_sstable_id s.1 :: ts.*1)) →
    wp K s1 (effect (own (dir s.1)) s1 good (flush_failed s ts f))) →
  wp (sst ← on_world (SsTable.flush (sst_file (dir s.1) (next_sstable_id s.1)) (bt_iter (data s.1)));
      n ← lift (add64 (next_sstable_id s.1) 1);
      _ ← set_self (set_next_id n);
      _ ← set_self (set_sstables (cons sst));
      _ ← set_self (set_data (λ _, ∅));
      _ ← set_self (set_memtable_bytes 0);
      _ ← on_wal Wal.clear;
      K) s (effect (own (dir s.1)) s good (flush_failed s ts f)).
Proof.
  intros Hi Hlog Hsz Hnext Hne HK. destruct s as [s w]. cbn [fst snd] in *.
  eapply effect_seq_world; [by apply (effect_new_table s w ts)| | |]; cbn [fst snd].
  { intros q <-. right. by eexists. }
  { intros w' Ht (g & Hg & Hu). by apply (failed_table _ _ _ _ g). }
  intros t w1 Ht1 [-> Hh].
  assert (Hadd : add64 (next_sstable_id s) 1 = Ok (next_sstable_id s + 1)).
  { unfold add64. by rewrite (proj2 (Z.ltb_lt _ _)) by lia. }
  rewrite Hadd. do 5 (eapply effect_step; [done..|]). cbn [fst snd].
  assert (Hpush : mem_inv (set_memtable_bytes 0 (set_data (λ _, ∅)
    (set_sstables (cons (table_of (sst_file (dir s) (next_sstable_id s)) (bt_iter (data s))))
      (set_next_id (next_sstable_id s + 1) s)))) w1 ((next_sstable_id s, bt_iter (data s)) :: ts)).
  { apply mem_inv_empty_memtable. eapply mem_inv_push; [done..|by eapply memtable_fits|apply bt_iter_sorted|lia]. }
  set (s1 := set_memtable_bytes 0 _) in *.
  assert (Hlog1 : log_at (s1, w1) f).
  { eapply wal_rep_sst; [|exact Hlog]. eapply touches_mono; [|done]. intros q <-. by eexists. }
  assert (Hfl : ∀ wl w', mem_inv (set_wal wl s1) w' ((next_sstable_id s, bt_iter (data s)) :: ts) →
    flushed (s, w) ts (set_wal wl s1, w')) by done.
  assert (Htidy : ∀ w', touches (eq (wal_path (dir s))) w1 w' → tidy w (dir s) ts.*1 →
    tidy w' (dir s) (next_sstable_id s :: ts.*1)).
  { intros w' Ht2 Htidy. eapply tidy_new_table; [exact Hi|exact Ht1|exact Ht2|done]. }
  eapply effect_seq; [by apply effect_on_wal, effect_clear, Hlog1| | |]; cbn [fst snd].
  { intros q <-. by left. }
  { intros [s2 w2] Ht2 (wl & E2 & Hw). cbn [fst snd the_world pair_world] in *. subst s2.
    apply failed_clear; [|by destruct Hw; [left|right]|by apply Htidy].
    apply Hfl. destruct Hw; by eapply mem_inv_log. }
  intros _ [s2 w2] Ht2 (wl & E2 & Hw). cbn [fst snd the_world pair_world] in *. subst s2. apply HK.
  - etrans; [eapply touches_mono; [|exact Ht1]; intros q <-; right; by eexists|].
    eapply touches_mono; [|exact Ht2]. intros q <-. by left.
  - apply Hfl. by eapply mem_inv_log.
  - exact Hw.
  - by apply Htidy.
Qed.

Lemma effect_flush s ts f :
  mem_inv s.1 s.2 ts → log_at s f → Z.of_nat (size (data s.1 ∪ tables_map ts)) < 2 ^ 31 →
  next_sstable_id s.1 + 2 < 2 ^ 64 →
  wp flush s (effect (own (dir s.1)) s
    (λ _ s', data s.1 = ∅ ∧ s' = s ∨ data s.1 ≠ ∅ ∧ flush_done s ts s') (flush_failed s ts f)).
Proof.
  intros Hi Hlog Hsz Hnext. unfold flush. eapply effect_step; [done..|]. cbn [id].
  destruct (decide (data s.1 = ∅)) as [He|Hne]; [apply effect_ret; by left|].
  pose proof (size_union_l (data s.1) (tables_map ts)).
  apply effect_flush_table; [done..|lia|done|done|].
  intros s1 Ht1 (Hi1 & Hd1 & Hn1 & Hc1) Hlog1 Htidy. unfold maybe_compact.
  eapply effect_step; [done..|]. cbn [fst].
  rewrite (Forall2_length _ _ _ (mi_tables _ _ _ Hi1)).
  assert (Hdir : dir s1.1 = dir s.1) by apply Hc1.
  pose proof (tables_map_push (next_sstable_id s.1) (data s.1) ts) as Hmap.
  unfold flush_done, flushed_tabs. cbv zeta.
  set (ts1 := (next_sstable_id s.1, bt_iter (data s.1)) :: ts) in *.
  destruct (Nat.ltb_spec MAX_SSTABLES (length ts1)) as [Hlt|Hge].
  2:{ apply effect_ret. right. rewrite decide_False by lia. split_and!; [done..|lia|]. intros _. exact Htidy. }
  rewrite decide_True by done.
  assert (Hkeep : ∀ s2, touches (sst_paths (dir s.1)) s1.2 s2.2 → same_but_tables s1.1 s2.1 →
    data s2.1 = ∅ ∧ core_eq s.1 s2.1 ∧ log_at s2 (File [] [])).
  { intros [s2 w2] Ht (sts & n & E). cbn in E. subst s2. split_and!; [done|done|].
    unfold log_at in *. cbn [fst snd set_next_id set_sstables wal dir]. rewrite Hdir in *. by eapply wal_rep_sst. }
  assert (Hlen : (8 <= length ts)%nat) by (unfold MAX_SSTABLES, ts1 in Hlt; cbn [length] in Hlt; lia).
  eapply effect_conseq; [apply effect_compact; [exact Hi1|by rewrite Hmap|lia]| | |]; rewrite Hdir.
  - apply sst_paths_own.
  - intros _ s2 Ht2 (Hi2 & Hsame & Hn2 & Htidy2). right. split; [done|].
    destruct (Hkeep s2 Ht2 Hsame) as (? & ? & ?). rewrite decide_False, Hn1 in * by (unfold ts1; cbn [length]; lia).
    split_and!; [exact Hi2|done..|lia|].
    intros [Hf|?]; [|lia]. intros Ht. apply Htidy2; [by apply Ht1|by apply Htidy].
  - intros s2 Ht2 (ts' & Hi2 & Heq & Hsame). destruct (Hkeep s2 Ht2 Hsame) as (? & ? & ?).
    eapply failed_compaction; eauto. by rewrite Heq, Hmap.
Qed.
End storewrite.
