(* ===== verification/StoreOps.v ===== *)
(** * The store as a map: writes

    [set_value], [delete_value] and [Transaction::commit] log their entries,
    apply them to the memtable, and flush when the memtable reaches its budget.
    All three are instances of one pattern: a batch of entries [es] logged as
    the records [new]. *)

From S2P Require Import Prelude Machine Value Checksum Bloom BlockCache Fs Wal SsTable Record Layout Image Search TableSpec Effects WalSpec BTree Store View Names StoreSpec StoreWrite.

Section storeops.
Context {Prof : Profile} {Cd : Codec} {CdOk : CodecOk Cd}.
Implicit Types (k key : bytes) (ts : tabs) (es : list (bytes * Entry)) (e : Entry).

(** ** The memtable *)

Definition insert_all es (m : gmap bytes Entry) : gmap bytes Entry := fold_left (λ m '(k, e), <[k:=e]> m) es m.

Definition put_all es (s : Store) : Store :=
  set_data (insert_all es) (set_memtable_bytes (footprint (insert_all es (data s))) s).

Lemma put_all_nil s : memtable_bytes s = footprint (data s) → put_all [] s = s.
Proof. intros E. unfold put_all. cbn. rewrite <-E. by destruct s. Qed.

Lemma put_all_cons k e es s : put_all ((k, e) :: es) s = put_all es (put_all [(k, e)] s).
Proof. done. Qed.

(** What the entries do to the contents. *)
Definition write_all es (m : gmap bytes Value) : gmap bytes Value :=
  fold_left (λ m '(k, e), write_entry k e m) es m.

Lemma values_insert_all es (m t : gmap bytes Entry) :
  values (insert_all es m ∪ t) = write_all es (values (m ∪ t)).
Proof.
  unfold insert_all, write_all. revert m. induction es as [|[k e] es IH]; intros m; cbn; [done|].
  by rewrite IH, values_insert.
Qed.

(** Room for [n] more keys: the counters and sizes of the formats suffice. *)
Record room (s : Store) ts (n : Z) : Prop := {
  room_keys : Z.of_nat (size (data s ∪ tables_map ts)) + n < 2 ^ 31;
  room_ids : next_sstable_id s + 2 < 2 ^ 64;
  room_seq : rval (sequence s) + n < 2 ^ 64;
}.

Lemma footprint_small s w ts :
  mem_inv s w ts → Z.of_nat (size (data s)) < 2 ^ 31 → 0 <= footprint (data s) < 2 ^ 61.
Proof.
  intros Hi Hsz. split; [apply footprint_pos|].
  pose proof (footprint_bound (data s) (2 ^ 30)) as Hb.
  assert (map_Forall (λ k e, entry_footprint k e <= 2 ^ 30) (data s)) as Hf.
  { eapply map_Forall_impl; [apply Hi|]. intros k e [_ ?]. lia. }
  specialize (Hb Hf). lia.
Qed.

Lemma mem_inv_put s w ts k e : mem_inv s w ts → small_entry k e → mem_inv (put_all [(k, e)] s) w ts.
Proof. intros [] He. split; try done. by apply map_Forall_insert_2. Qed.

(** [memtable_insert] keeps the byte count exact. *)
Lemma memtable_insert_eq s ts k e :
  mem_inv s.1 s.2 ts → small_entry k e → Z.of_nat (size (data s.1)) < 2 ^ 31 →
  memtable_insert k e s = (Ok tt, (put_all [(k, e)] s.1, s.2)).
Proof.
  intros Hi [_ Hfp] Hsz. assert (Hb := footprint_small _ _ _ Hi Hsz). destruct s as [s w]. cbn [fst snd] in *.
  pose proof (entry_footprint_pos k e). pose proof (footprint_insert (data s) k e) as Hins.
  assert (Hadd : add64 (memtable_bytes s) (entry_footprint k e) = Ok (footprint (data s) + entry_footprint k e)).
  { unfold add64. rewrite (mi_bytes _ _ _ Hi). by rewrite (proj2 (Z.ltb_lt _ _)) by lia. }
  unfold memtable_insert. erewrite bind_ok by done. cbn [id fst]. rewrite Hadd.
  erewrite bind_ok by done. erewrite bind_ok by done. cbn [fst snd].
  destruct (data s !! k) as [old|] eqn:Ek.
  - assert (Hold := footprint_delete _ _ _ Ek). pose proof (footprint_pos (delete k (data s))).
    assert (Hsub : sub64 (footprint (data s) + entry_footprint k e) (entry_footprint k old) =
      Ok (footprint (<[k:=e]> (data s)))).
    { unfold sub64. rewrite (proj2 (Z.leb_le _ _)) by lia. f_equal. lia. }
    erewrite bind_ok; [|rewrite Hsub; by erewrite bind_ok by done]. done.
  - erewrite bind_ok by done. unfold set_self, modify. cbn [fst snd].
    replace (footprint (data s) + entry_footprint k e) with (footprint (<[k:=e]> (data s))) by lia. done.
Qed.

(** ** Flushing when the budget is reached *)

Lemma effect_maybe_flush s ts f :
  mem_inv s.1 s.2 ts → log_at s f → room s.1 ts 0 →
  wp maybe_flush s (effect (own (dir s.1)) s
    (λ _ s', s' = s ∨ flush_done s ts s') (flush_failed s ts f)).
Proof.
  intros Hi Hlog [Hk Hn _]. unfold maybe_flush. eapply effect_step; [done..|]. cbn [id].
  destruct (_ <=? _); [|apply effect_ret; by left].
  eapply effect_mono; [apply effect_flush; [done..|lia|done]|done| |done].
  intros _ s' [[_ ->]|[_ ?]]; auto.
Qed.

(** Below the budget nothing happens. *)
Lemma maybe_flush_quiet s : memtable_bytes s.1 < memtable_max_bytes s.1 → maybe_flush s = (Ok tt, s).
Proof.
  intros Hlt. unfold maybe_flush. erewrite bind_ok by done. cbn [id].
  by rewrite (proj2 (Z.leb_gt _ _)).
Qed.

(** ** Logging *)

(** [s'] after the records [new] were logged, durably, and [es] applied. *)
Definition written (s : Store * world) ts (f : file) (new : list WalEntry) es (s' : Store * world) : Prop :=
  (∃ wl n, s'.1 = put_all es (set_wal wl (set_sequence n s.1)) ∧
    rval n = rval (sequence s.1) + Z.of_nat (length es)) ∧
  mem_inv s'.1 s'.2 ts ∧ touches (eq (wal_path (dir s.1))) s.2 s'.2 ∧
  log_at s' (File (f_content f ++ frames new) (f_content f ++ frames new)).

(** [s'] after the logging of [new] was cut short: the memtable is as before. *)
Definition log_failed (s : Store * world) (f : file) (new : list WalEntry) (s' : Store * world) : Prop :=
  (∃ wl n, s'.1 = set_wal wl (set_sequence n s.1)) ∧ touches (eq (wal_path (dir s.1))) s.2 s'.2 ∧
  ∃ t, t `prefix_of` frames new ∧ log_at s' (File (f_content f ++ t) (f_durable f)).

(** How a write ends. *)
Definition write_done s ts f new es s' : Prop :=
  ∃ s1, written s ts f new es s1 ∧ (s' = s1 ∨ flush_done s1 ts s').
Definition write_failed s ts f new es s' : Prop :=
  log_failed s f new s' ∨
  ∃ s1, written s ts f new es s1 ∧
    flush_failed s1 ts (File (f_content f ++ frames new) (f_content f ++ frames new)) s'.

Lemma next_sequence_eq (s : Store * world) :
  rval (sequence s.1) + 1 < 2 ^ 64 →
  ∃ n, next_sequence s = (Ok n, (set_sequence n s.1, s.2)) ∧ rval n = rval (sequence s.1) + 1.
Proof.
  intros Hn. destruct (u64_succ_small _ Hn) as (n & E & Hv). exists n. split; [|done].
  unfold next_sequence. erewrite bind_ok by done. cbn [id]. by erewrite bind_ok by (by rewrite E).
Qed.

(** The common body of [set_value] and [delete_value]. *)
Definition write_one key e (we : u64 → WalEntry) (msg : string) : M (Store * world) string :=
  n ← next_sequence;
  _ ← on_wal (append (we n));
  _ ← on_wal (write_commit n);
  _ ← memtable_insert key e;
  _ ← maybe_flush;
  mret msg.

Lemma set_value_eq key v :
  set_value key v = write_one key (EValue v) (create_put_entry key v) "Inserted value"%string.
Proof. done. Qed.

Lemma delete_value_eq key :
  delete_value key = write_one key Tombstone (create_delete_entry key) "Deleted value"%string.
Proof. done. Qed.

Lemma mem_inv_sequence s w ts n : mem_inv s w ts → mem_inv (set_sequence n s) w ts.
Proof. intros []. by split. Qed.

(** A cut log in terms of the store. *)
Lemma log_failed_intro (s s' : Store * world) f new wl n :
  s'.1 = set_wal wl (set_sequence n s.1) → touches (eq (wal_path (dir s.1))) s.2 s'.2 →
  log_cut (wal_path (dir s.1)) f (frames new) (wl, s'.2) → log_failed s f new s'.
Proof.
  intros E Ht (t & Hp & Hr). split; [by exists wl, n|]. split; [done|]. exists t. split; [done|].
  unfold log_at. by rewrite E.
Qed.

Lemma frames_two (e1 e2 : WalEntry) : frames [e1; e2] = frame e1 ++ frame e2.
Proof. unfold frames. cbn. by rewrite app_nil_r. Qed.

(** The budget check at the end of a write. *)
Lemma effect_finish s0 ts f new es s (K : M (Store * world) string) msg :
  written s0 ts f new es s → dir s.1 = dir s0.1 → room s.1 ts 0 →
  (∀ s', K s' = (Ok msg, s')) →
  wp (_ ← maybe_flush; K) s (effect (own (dir s0.1)) s
    (λ r s', r = msg ∧ write_done s0 ts f new es s') (write_failed s0 ts f new es)).
Proof.
  intros Hw Hd Hr HK. assert (Hw' := Hw). destruct Hw' as (_ & Hi & _ & Hlog).
  eapply effect_seq; [by apply effect_maybe_flush|by rewrite Hd| |].
  - intros s' _ Hf. right. by exists s.
  - intros ? s' _ Hdone. unfold wp. rewrite HK. split; [done|left]. exists msg. split; [done|].
    split; [done|]. exists s. split; [exact Hw|exact Hdone].
Qed.

Lemma size_insert_le key e (m : gmap bytes Entry) : (size (<[key:=e]> m) <= S (size m))%nat.
Proof. rewrite map_size_insert. destruct (m !! key); cbn; lia. Qed.

(** Logging one record and applying it, before the budget check [K]. *)
Lemma effect_log_one s ts f key e we (K : M (Store * world) string) (P : path → Prop) good bad :
  let n := to_u64 (rval (sequence s.1) + 1) in
  let new := [we n; commit_entry n] in
  mem_inv s.1 s.2 ts → log_at s f → small_entry key e → room s.1 ts 1 →
  P (wal_path (dir s.1)) → (∀ s', log_failed s f new s' → bad s') →
  (∀ s1, written s ts f new [(key, e)] s1 → dir s1.1 = dir s.1 → room s1.1 ts 0 →
    wp K s1 (effect P s1 good bad)) →
  wp (n ← next_sequence;
      _ ← on_wal (append (we n));
      _ ← on_wal (write_commit n);
      _ ← memtable_insert key e;
      K) s (effect P s good bad).
Proof.
  intros n new Hi Hlog He Hroom HP Hbad HK. destruct s as [s w]. cbn [fst snd] in *.
  destruct (next_sequence_eq (s, w)) as (n' & En & Hn'); [apply Hroom|]. cbn [fst snd] in *.
  assert (n' = n) as -> by (apply ranged_eq; unfold n; rewrite to_u64_small; pose proof (ranged_range n'); lia).
  eapply effect_step; [done..|].
  eapply effect_seq; [by apply effect_on_wal, (effect_append _ (wal_path (dir s)) f)|by intros q <-| |]; cbn [fst snd].
  { intros [s1 w1] Ht (wl & E & Hc). apply Hbad. eapply log_failed_intro; [done..|].
    unfold new. rewrite frames_two. by apply log_cut_app. }
  intros _ [s1 w1] Ht1 (wl1 & E1 & Hw1). cbn [fst snd the_world pair_world] in *. subst s1.
  eapply effect_seq; [by eapply effect_on_wal, effect_write_commit|by intros q <-| |]; cbn [fst snd].
  { intros [s2 w2] Ht (wl & E & Hc). cbn [fst snd the_world pair_world] in *. apply Hbad.
    eapply (log_failed_intro _ _ _ _ wl n); [done|by etrans|].
    unfold new. rewrite frames_two. by apply log_cut_after. }
  intros _ [s2 w2] Ht2 (wl2 & E2 & Hw2). cbn [fst snd the_world pair_world] in *. subst s2.
  set (s2 := set_wal wl2 (set_wal wl1 (set_sequence n s))).
  assert (Ht : touches (eq (wal_path (dir s))) w w2) by (by etrans).
  assert (Hi2 : mem_inv s2 w2 ts) by (by eapply (mem_inv_log (set_sequence n s) w w2), Hw2; [apply mem_inv_sequence|]).
  assert (Hsz : Z.of_nat (size (data s)) < 2 ^ 31).
  { pose proof (room_keys _ _ _ Hroom). pose proof (size_union_l (data s) (tables_map ts)). lia. }
  eapply effect_step; [by apply (memtable_insert_eq (s2, w2) ts)|done|]. cbn [fst snd].
  apply HK.
  - split_and!; [|by apply mem_inv_put|done|].
    + exists wl2, n. split; [done|]. cbn [fst length]. lia.
    + unfold log_at. cbn [fst snd]. cbn in Hw2. rewrite <-app_assoc in Hw2. unfold new. by rewrite frames_two.
  - done.
  - destruct Hroom as [Hk Hid Hsq]. split; cbn.
    + rewrite <-insert_union_l. pose proof (size_insert_le key e (data s ∪ tables_map ts)). lia.
    + done.
    + rewrite Z.add_0_r. apply ranged_range.
Qed.

Lemma effect_write_one s ts f key e we msg :
  let n := to_u64 (rval (sequence s.1) + 1) in
  let new := [we n; commit_entry n] in
  mem_inv s.1 s.2 ts → log_at s f → small_entry key e → room s.1 ts 1 →
  wp (write_one key e we msg) s (effect (own (dir s.1)) s
    (λ r s', r = msg ∧ write_done s ts f new [(key, e)] s') (write_failed s ts f new [(key, e)])).
Proof.
  intros n new Hi Hlog He Hroom. apply (effect_log_one s ts f); [done..|by left|by left|].
  intros s1 Hw Hd Hr. by apply effect_finish.
Qed.

(** Below the budget no flush follows, and only the log is written. *)
Lemma effect_write_one_quiet s ts f key e we msg :
  let n := to_u64 (rval (sequence s.1) + 1) in
  let new := [we n; commit_entry n] in
  mem_inv s.1 s.2 ts → log_at s f → small_entry key e → room s.1 ts 1 →
  footprint (<[key := e]> (data s.1)) < memtable_max_bytes s.1 →
  wp (write_one key e we msg) s (effect (own (dir s.1)) s
    (λ r s', r = msg ∧ written s ts f new [(key, e)] s') (log_failed s f new)).
Proof.
  intros n new Hi Hlog He Hroom Hb. apply (effect_log_one s ts f); [done..|by left|done|].
  intros s1 Hw Hd Hr. eapply effect_step; [|done|by apply effect_ret].
  apply maybe_flush_quiet. destruct Hw as ((wl & m & E & _) & _). by rewrite E.
Qed.

(** ** Transactions *)

(** The store and the world under a transaction. *)
Definition st (s : Transaction * world) : Store * world := (store s.1, s.2).

Definition pending_entry (v : option Value) : Entry := match v with Some v => EValue v | None => Tombstone end.

(** The buffered writes as entries, in the order of the keys. *)
Definition pending_entries (m : gmap bytes (option Value)) : list (bytes * Entry) :=
  prod_map id pending_entry <$> bt_iter m.

(** The records that [commit] logs for [l] after sequence number [n]. *)
Fixpoint txn_log (n : Z) (l : list (bytes * option Value)) : list WalEntry :=
  match l with
  | [] => []
  | (key, val) :: l =>
      match val with
      | Some v => create_put_entry key v (to_u64 (n + 1))
      | None => create_delete_entry key (to_u64 (n + 1))
      end :: txn_log (n + 1) l
  end.

Definition txn_records (s : Store) (l : list (bytes * option Value)) : list WalEntry :=
  txn_log (rval (sequence s)) l ++ [commit_entry (to_u64 (rval (sequence s) + Z.of_nat (length l)))].

Lemma effect_on_store {A} (s : Transaction * world) (m : M (Store * world) A) P g b :
  wp m (st s) (effect P (st s) g b) →
  wp (on_store m) s (effect P s
    (λ a s', pending s'.1 = pending s.1 ∧ g a (st s')) (λ s', pending s'.1 = pending s.1 ∧ b (st s'))).
Proof.
  intros Hm. apply wp_zoom. eapply wp_mono; [exact Hm|]. intros r [x w'] [Ht Hr]. split; [done|].
  unfold st. cbn [fst snd store pending]. destruct Hr as [(a & -> & Ha)|(? & ? & ?)]; [left|right; split_and!]; eauto 10.
Qed.

(** A log cut in a later write. *)
Lemma log_failed_after (s s1 s2 : Store * world) f l new new1 :
  (∃ wl n, s1.1 = set_wal wl (set_sequence n s.1)) → touches (eq (wal_path (dir s.1))) s.2 s1.2 →
  log_failed s1 (File (f_content f ++ l) (f_durable f)) new1 s2 → frames new = l ++ frames new1 →
  log_failed s f new s2.
Proof.
  intros (wl & n & E) Ht ((wl' & n' & E') & Ht' & t & Hp & Hl) Hnew.
  split; [exists wl', n'; rewrite E', E; done|]. split.
  - etrans; [exact Ht|]. by rewrite E in Ht'.
  - exists (l ++ t). split; [rewrite Hnew; by apply prefix_app|]. cbn in Hl. by rewrite <-app_assoc in Hl.
Qed.

(** The logging loop of [commit]. *)
Lemma effect_log_all l (s : Transaction * world) f :
  log_at (st s) f → rval (sequence (store s.1)) + Z.of_nat (length l) < 2 ^ 64 →
  let new := txn_log (rval (sequence (store s.1))) l in
  wp (for_each l (λ '(key, val),
        n ← on_store next_sequence;
        let entry := match val with
                     | Some v => create_put_entry key v n
                     | None => create_delete_entry key n
                     end in
        on_store (on_wal (append entry)))) s
    (effect (eq (wal_path (dir (store s.1)))) s
      (λ _ s', pending s'.1 = pending s.1 ∧
        (∃ wl n, store s'.1 = set_wal wl (set_sequence n (store s.1)) ∧
          rval n = rval (sequence (store s.1)) + Z.of_nat (length l)) ∧
        log_at (st s') (File (f_content f ++ frames new) (f_durable f)))
      (λ s', log_failed (st s) f new (st s'))).
Proof.
  revert s f. induction l as [|[key val] l IH]; intros s f Hlog Hn new; cbn [for_each length] in *.
  { apply effect_ret. split; [done|]. split; [|by rewrite file_same].
    exists (wal (store s.1)), (sequence (store s.1)). split; [by destruct (store s.1)|lia]. }
  destruct s as [[s pd] w]. cbn [fst store pending st] in *.
  destruct (next_sequence_eq (s, w)) as (n & En & Hv); [cbn [fst]; lia|]. cbn [fst snd] in *.
  assert (En' : to_u64 (rval (sequence s) + 1) = n).
  { apply ranged_eq. rewrite to_u64_small; pose proof (ranged_range n); lia. }
  assert (Est : on_store next_sequence ({| store := s; pending := pd |}, w) =
    (Ok n, ({| store := set_sequence n s; pending := pd |}, w))).
  { unfold on_store, zoom. cbn [fst snd store pending]. by rewrite En. }
  set (entry := match val with Some v => create_put_entry key v n | None => create_delete_entry key n end).
  assert (Enew : new = entry :: txn_log (rval n) l).
  { unfold new. cbn [txn_log]. rewrite En', Hv. by destruct val. }
  assert (Hfr : frames new = frame entry ++ frames (txn_log (rval n) l)) by (by rewrite Enew).
  eapply effect_seq.
  - eapply effect_step; [exact Est|done|]. cbv zeta.
    apply effect_on_store, effect_on_wal, effect_append, Hlog.
  - done.
  - intros [[s1 pd1] w1] Ht (_ & wl & E & Hc). cbn in E, Hc. subst s1.
    eapply log_failed_intro; [done|done|]. cbn [fst snd st store]. rewrite Hfr. by apply log_cut_app.
  - intros _ [[s1 pd1] w1] Ht1 (E1 & wl1 & E & Hw1). cbn in E1, E, Hw1. subst s1 pd1.
    eapply effect_conseq; [apply (IH _ (File (f_content f ++ frame entry) (f_durable f)))| | |].
    + exact Hw1.
    + cbn. lia.
    + done.
    + intros _ [[s2 pd2] w2] Ht2 (E2 & (wl2 & n2 & E & Hn2) & Hl2). cbn in E2, E, Hn2, Hl2. subst s2 pd2.
      split; [done|]. split; [exists wl2, n2; split; [done|cbn; lia]|].
      rewrite Hfr. by rewrite <-app_assoc in Hl2.
    + intros s2 Ht2 Hfail. eapply (log_failed_after _ (set_wal wl1 (set_sequence n s), w1)); [by exists wl1, n|done|exact Hfail|done].
Qed.

Lemma mem_inv_put_all s w ts es :
  mem_inv s w ts → Forall (λ ke, small_entry ke.1 ke.2) es → mem_inv (put_all es s) w ts.
Proof.
  intros Hi Hs. revert s Hi. induction Hs as [|[k e] es He _ IH]; intros s Hi.
  - rewrite put_all_nil; [done|apply Hi].
  - rewrite put_all_cons. by apply IH, mem_inv_put.
Qed.

(** The loop of [commit] over the memtable. *)
Lemma apply_all l (s : Transaction * world) ts :
  mem_inv (store s.1) s.2 ts → Forall (λ kv, small_entry kv.1 (pending_entry kv.2)) l →
  Z.of_nat (size (data (store s.1))) + Z.of_nat (length l) < 2 ^ 31 →
  for_each l (λ '(key, val),
    on_store (match val with
              | Some v => memtable_insert key (EValue v)
              | None => memtable_insert key Tombstone
              end)) s =
  (Ok tt, ({| store := put_all (prod_map id pending_entry <$> l) (store s.1); pending := pending s.1 |}, s.2)).
Proof.
  intros Hi Hs. revert s Hi. induction Hs as [|[k v] l He _ IH]; intros [[s pd] w] Hi Hsz; cbn [fst snd store pending] in *.
  - cbn [for_each fmap list_fmap]. rewrite put_all_nil; [done|apply Hi].
  - cbn [for_each fmap list_fmap length] in *. cbn [prod_map fst snd id] in *. rewrite put_all_cons.
    assert (E : (match v with Some v => memtable_insert k (EValue v) | None => memtable_insert k Tombstone end)
      = memtable_insert k (pending_entry v)) by (by destruct v).
    erewrite bind_ok.
    2:{ rewrite E. unfold on_store, zoom. cbn [fst snd store pending].
        rewrite (memtable_insert_eq (s, w) ts); [reflexivity|done|done|cbn [fst]; lia]. }
    cbn [fst snd]. rewrite IH; [done| |].
    + by apply mem_inv_put.
    + cbn [fst store]. cbn. pose proof (size_insert_le k (pending_entry v) (data s)). lia.
Qed.

Lemma insert_all_union es (m t : gmap bytes Entry) : insert_all es (m ∪ t) = insert_all es m ∪ t.
Proof.
  unfold insert_all. revert m. induction es as [|[k e] es IH]; intros m; cbn; [done|]. by rewrite insert_union_l, IH.
Qed.

Lemma size_insert_all es (m : gmap bytes Entry) : (size (insert_all es m) <= size m + length es)%nat.
Proof.
  unfold insert_all. revert m. induction es as [|[k e] es IH]; intros m; cbn [fold_left length]; [lia|].
  pose proof (size_insert_le k e m). specialize (IH (<[k:=e]> m)). lia.
Qed.

Lemma room_written s s1 ts es n wl sq :
  room s ts n → s1 = put_all es (set_wal wl (set_sequence sq s)) → Z.of_nat (length es) <= n → room s1 ts 0.
Proof.
  intros [Hk Hid Hsq] -> Hn. split; cbn.
  - rewrite <-insert_all_union. pose proof (size_insert_all es (data s ∪ tables_map ts)). lia.
  - done.
  - rewrite Z.add_0_r. apply ranged_range.
Qed.

Lemma frames_snoc (es : list WalEntry) (e : WalEntry) : frames (es ++ [e]) = frames es ++ frame e.
Proof. rewrite frames_app. unfold frames at 2. cbn. by rewrite app_nil_r. Qed.

(** [commit] up to the budget check: one COMMIT record for the whole batch. *)
Lemma effect_txn_log (s : Transaction * world) ts f (P : path → Prop) good bad :
  let new := txn_records (store s.1) (bt_iter (pending s.1)) in
  let es := pending_entries (pending s.1) in
  pending s.1 ≠ ∅ → mem_inv (store s.1) s.2 ts → log_at (st s) f →
  Forall (λ ke, small_entry ke.1 ke.2) es → room (store s.1) ts (Z.of_nat (size (pending s.1))) →
  P (wal_path (dir (store s.1))) → (∀ s', log_failed (st s) f new (st s') → bad s') →
  (∀ s1, written (st s) ts f new es (st s1) → room (store s1.1) ts 0 → dir (store s1.1) = dir (store s.1) →
    wp (on_store maybe_flush) s1 (effect P s1 good bad)) →
  wp txn_commit s (effect P s good bad).
Proof.
  intros new es Hne Hi Hlog Hes Hroom HP Hbad HK. unfold txn_commit. eapply effect_step; [done..|]. cbn [id].
  rewrite decide_False by done. set (l := bt_iter (pending s.1)) in *.
  assert (Hlen : length l = size (pending s.1)) by apply length_bt_iter.
  assert (Hnew : new = txn_log (rval (sequence (store s.1))) l ++
    [commit_entry (to_u64 (rval (sequence (store s.1)) + Z.of_nat (length l)))]) by done.
  destruct s as [[s pd] w]. cbn [fst snd store pending] in *.
  eapply effect_seq; [eapply effect_log_all; [exact Hlog|]|by intros q <-| |]; cbn [fst snd store st].
  { rewrite Hlen. apply Hroom. }
  { intros [[s1 pd1] w1] _ ((wl & n & E) & Ht & t & Hp & Hl). apply Hbad. split; [by eexists _, _|]. split; [done|].
    exists t. split; [|done]. rewrite Hnew, frames_snoc. by apply prefix_app_r. }
  intros _ [[s1 pd1] w1] Ht1 (E1 & (wl1 & n & E & Hn) & Hl1). cbn in E1, E, Hn, Hl1, Ht1. subst s1 pd1.
  eapply effect_step; [done..|]. cbn [fst store set_wal set_sequence sequence].
  assert (En : n = to_u64 (rval (sequence s) + Z.of_nat (length l))).
  { apply ranged_eq. rewrite to_u64_small; [done|]. pose proof (ranged_range n). lia. }
  eapply effect_seq; [apply effect_on_store, effect_on_wal, effect_write_commit, Hl1|by intros q <-| |].
  { intros [[s2 pd2] w2] Ht2 (_ & wl2 & E2 & Hc). cbn in E2, Hc, Ht2. subst s2. apply Hbad.
    eapply (log_failed_intro _ _ _ _ wl2 n); [done|by etrans|]. cbn [fst snd st store].
    rewrite Hnew, frames_snoc, <-En. by apply log_cut_after. }
  intros _ [[s2 pd2] w2] Ht2 (E2p & wl2 & E2 & Hl2). cbn in E2p, E2, Hl2, Ht2. subst s2 pd2.
  assert (Ht : touches (eq (wal_path (dir s))) w w2) by (by etrans).
  set (s2 := set_wal wl2 (set_wal wl1 (set_sequence n s))) in *.
  assert (Hi2 : mem_inv s2 w2 ts).
  { eapply (mem_inv_log (set_sequence n s) w w2); [by apply mem_inv_sequence|done|exact Hl2]. }
  assert (Hsz : Z.of_nat (size (data s)) + Z.of_nat (length l) < 2 ^ 31).
  { pose proof (room_keys _ _ _ Hroom). pose proof (size_union_l (data s) (tables_map ts)). lia. }
  eapply effect_step; [apply (apply_all l _ ts)|done|]; cbn [fst snd store pending].
  { done. } { by apply list.Forall_fmap in Hes. } { exact Hsz. }
  apply HK.
  - split_and!; [|by apply mem_inv_put_all|done|].
    + exists wl2, n. split; [done|]. cbn [fst st store]. unfold es, pending_entries. by rewrite length_fmap.
    + unfold log_at. cbn [fst snd st store]. cbn in Hl2. rewrite Hnew, frames_snoc, <-En. by rewrite <-app_assoc in Hl2.
  - eapply room_written; [exact Hroom|done|]. rewrite length_fmap, Hlen. done.
  - done.
Qed.

Lemma effect_txn_commit (s : Transaction * world) ts f :
  let new := txn_records (store s.1) (bt_iter (pending s.1)) in
  let es := pending_entries (pending s.1) in
  pending s.1 ≠ ∅ → mem_inv (store s.1) s.2 ts → log_at (st s) f →
  Forall (λ ke, small_entry ke.1 ke.2) es → room (store s.1) ts (Z.of_nat (size (pending s.1))) →
  wp txn_commit s (effect (own (dir (store s.1))) s
    (λ _ s', write_done (st s) ts f new es (st s')) (λ s', write_failed (st s) ts f new es (st s'))).
Proof.
  intros new es Hne Hi Hlog Hes Hroom. apply (effect_txn_log s ts f); [done..|by left|by left|].
  intros s1 Hw Hr Hd. assert (Hw' := Hw). destruct Hw' as (_ & Hi1 & _ & Hl1).
  eapply effect_mono; [apply effect_on_store, effect_maybe_flush; [exact Hi1|exact Hl1|exact Hr]| | |].
  - intros q. cbn [fst st]. by rewrite Hd.
  - intros _ s4 [_ Hdone]. exists (st s1). split; [exact Hw|exact Hdone].
  - intros s4 [_ Hf]. right. exists (st s1). split; [exact Hw|exact Hf].
Qed.

(** Below the budget only the log is written. *)
Lemma effect_txn_commit_quiet (s : Transaction * world) ts f :
  let new := txn_records (store s.1) (bt_iter (pending s.1)) in
  let es := pending_entries (pending s.1) in
  pending s.1 ≠ ∅ → mem_inv (store s.1) s.2 ts → log_at (st s) f →
  Forall (λ ke, small_entry ke.1 ke.2) es → room (store s.1) ts (Z.of_nat (size (pending s.1))) →
  footprint (insert_all es (data (store s.1))) < memtable_max_bytes (store s.1) →
  wp txn_commit s (effect (own (dir (store s.1))) s
    (λ _ s', written (st s) ts f new es (st s')) (λ s', log_failed (st s) f new (st s'))).
Proof.
  intros new es Hne Hi Hlog Hes Hroom Hb. apply (effect_txn_log s ts f); [done..|by left|done|].
  intros s1 Hw Hr Hd. unfold wp, on_store, zoom.
  rewrite (maybe_flush_quiet (store s1.1, s1.2)).
  - split; [done|left]. exists tt. split; [done|]. exact Hw.
  - destruct Hw as ((wl & m & E & _) & _). cbn [fst st] in E |- *. by rewrite E.
Qed.
End storeops.
