(* ===== verification/Replay.v ===== *)
(** * Replaying the log

    A log cut at any byte parses back to the records that are whole, and the
    replay of the committed ones rebuilds the memtable. *)

From S2P Require Import Prelude Machine Value Checksum Bloom BlockCache Fs Wal SsTable Record Layout Image Search TableSpec Effects WalSpec BTree Store View Names StoreSpec StoreWrite StoreOps.

Section replay.
Context {Prof : Profile} {Cd : Codec} {CdOk : CodecOk Cd}.
Implicit Types (e : WalEntry) (log new : list WalEntry) (ts : tabs) (es : list (bytes * Entry)).

(** ** Torn logs *)

Lemma torn_nil : torn [].
Proof. left. cbn. lia. Qed.

(** A proper prefix of a frame is torn. *)
Lemma torn_frame e t :
  t `prefix_of` frame e → (length t < length (frame e))%nat → Z.of_nat (length (frame e)) < 2 ^ 63 → torn t.
Proof.
  intros [r Hr] Hlt Hlen. destruct (Nat.lt_ge_cases (length t) 8) as [|Hge]; [by left|right].
  assert (Ht8 : take 8 t = be64 (Z.of_nat (length (encode_wal_entry e)))).
  { assert (E : take 8 (frame e) = take 8 t) by (rewrite Hr; by rewrite take_app_le).
    rewrite <-E. unfold frame. by rewrite take_app_length' by (by rewrite length_be64). }
  rewrite length_frame in *. rewrite Ht8, be_decode_be64 by lia. lia.
Qed.

(** Cutting a log at any byte leaves whole records and a torn tail. *)
Lemma cut_frames new t :
  t `prefix_of` frames new → Z.of_nat (length (frames new)) < 2 ^ 63 →
  ∃ j tail, t = frames (take j new) ++ tail ∧ torn tail ∧
    ((length t < length (frames new))%nat → (j < length new)%nat).
Proof.
  revert t. induction new as [|e new IH]; intros t Hp Hlen.
  - apply prefix_nil_inv in Hp as ->. exists O, []. split; [done|]. split; [apply torn_nil|cbn; lia].
  - rewrite frames_cons in *. rewrite length_app in *.
    assert (Hcase : (t `prefix_of` frame e ∧ (length t < length (frame e))%nat) ∨ ∃ t', t = frame e ++ t').
    { destruct (prefix_weak_total t (frame e) (frame e ++ frames new)) as [H1|[t' ->]];
        [done|by apply prefix_app_r| |right; by exists t'].
      destruct H1 as [r Hr]. destruct r as [|b r]; [right; exists []; by rewrite Hr, !app_nil_r|].
      left. split; [by exists (b :: r)|]. rewrite Hr, length_app. cbn. lia. }
    destruct Hcase as [[Ht Hlt]|[t' ->]].
    + exists O, t. split; [done|]. split; [|cbn; lia]. apply (torn_frame e); [done..|lia].
    + apply prefix_app_inv in Hp. destruct (IH t' Hp ltac:(lia)) as (j & tail & -> & Htorn & Hj).
      exists (S j), tail. cbn [take]. rewrite frames_cons, <-app_assoc. split; [done|]. split; [done|].
      rewrite length_app. cbn [length]. lia.
Qed.

(** ** Closed logs: every record is committed *)

Definition closed log : Prop := committed log = log.

Lemma closed_snoc log e : is_commit e = true → closed (log ++ [e]).
Proof. intros He. unfold closed. by rewrite committed_snoc, He. Qed.

Lemma closed_inv log : closed log → log = [] ∨ ∃ l e, log = l ++ [e] ∧ is_commit e = true.
Proof.
  unfold closed. destruct log as [|e log _] using rev_ind; [by left|]. rewrite committed_snoc.
  destruct (is_commit e) eqn:E; [right; by exists log, e|]. intros Hc. exfalso.
  pose proof (prefix_length _ _ (committed_prefix log)) as Hl. rewrite Hc, length_app in Hl. cbn in Hl. lia.
Qed.

Lemma closed_committed log : closed (committed log).
Proof. apply committed_idemp. Qed.

Lemma closed_tail l1 l2 : closed (l1 ++ l2) → closed l2.
Proof.
  intros [E|(l & e & E & He)]%closed_inv.
  - by apply app_eq_nil in E as [_ ->].
  - destruct l2 as [|e2 l2 _] using rev_ind; [done|]. rewrite app_assoc in E.
    apply app_inj_tail in E as [_ ->]. by apply closed_snoc.
Qed.

Lemma committed_no_commit log : Forall (λ e, is_commit e = false) log → committed log = [].
Proof. induction 1 as [|e log He _ IH]; cbn; [done|]. by rewrite IH, He. Qed.

Lemma committed_app_open log l :
  closed log → Forall (λ e, is_commit e = false) l → committed (log ++ l) = log.
Proof.
  intros Hlog. induction l as [|e l IH] using rev_ind; [by rewrite app_nil_r|].
  intros [Hl He]%list.Forall_app. rewrite app_assoc, committed_snoc.
  apply list.Forall_singleton in He as ->. by apply IH.
Qed.

(** A batch: records without a COMMIT, then one. *)
Definition batch new : Prop :=
  ∃ l e, new = l ++ [e] ∧ Forall (λ e, is_commit e = false) l ∧ is_commit e = true.

(** A batch cut anywhere is committed as a whole or not at all. *)
Lemma committed_batch log new j :
  closed log → batch new →
  committed (log ++ take j new) = if decide (j < length new)%nat then log else log ++ new.
Proof.
  intros Hlog (l & e & -> & Hl & He). rewrite length_app. cbn [length].
  destruct (decide _) as [Hlt|Hge].
  - apply committed_app_open; [done|]. rewrite take_app_le by lia.
    apply list.Forall_forall. intros x Hx. rewrite list.Forall_forall in Hl. apply Hl.
    eapply elem_of_take in Hx as (i & Hi & _). by eapply list_elem_of_lookup_2.
  - rewrite take_ge by (rewrite length_app; cbn; lia). rewrite app_assoc, committed_snoc, He. done.
Qed.

(** Appending part of a batch to a closed log. *)
Lemma cut_batch log new t :
  closed log → batch new → t `prefix_of` frames new → Z.of_nat (length (frames new)) < 2 ^ 63 →
  ∃ log1 tail, frames log ++ t = frames log1 ++ tail ∧ torn tail ∧
    (committed log1 = log ∨ committed log1 = log ++ new).
Proof.
  intros Hlog Hb Hp Hlen. destruct (cut_frames new t Hp Hlen) as (j & tail & -> & Ht & _).
  exists (log ++ take j new), tail. split; [by rewrite frames_app, <-app_assoc|]. split; [done|].
  rewrite committed_batch by done. destruct (decide _); auto.
Qed.

(** ** The effect of the records *)

Definition entry_writes e : option (bytes * Entry) :=
  match operation e with
  | Put =>
      match from_proto <$> we_value e with
      | Some (Ok v) => Some (we_key e, EValue v)
      | _ => None
      end
  | Delete => Some (we_key e, Tombstone)
  | Commit => None
  end.

(** A record the program writes: a put carries a value. *)
Definition valid_entry e : Prop :=
  (operation e = Put → ∃ v, we_value e = Some (to_proto v)) ∧
  ∀ ke, entry_writes e = Some ke → small_entry ke.1 ke.2.

Definition log_writes log : list (bytes * Entry) := omap entry_writes log.

Lemma replay_writes log m : replay log m = insert_all (log_writes log) m.
Proof.
  unfold replay, insert_all, log_writes. revert m. induction log as [|e log IH]; intros m; [done|].
  cbn [fold_left omap list_omap]. rewrite IH. unfold replay_entry, entry_writes.
  destruct (operation e); [|done..]. by destruct (from_proto <$> we_value e) as [[]|].
Qed.

Lemma size_insert_all_ge es (m : gmap bytes Entry) : (size m <= size (insert_all es m))%nat.
Proof.
  unfold insert_all. revert m. induction es as [|[k x] es IH]; intros m; cbn [fold_left]; [lia|].
  specialize (IH (<[k:=x]> m)). rewrite map_size_insert in IH. destruct (m !! k); cbn in IH; lia.
Qed.

Lemma insert_all_app es1 es2 (m : gmap bytes Entry) : insert_all (es1 ++ es2) m = insert_all es2 (insert_all es1 m).
Proof. apply fold_left_app. Qed.

Lemma put_all_app es1 es2 s : put_all (es1 ++ es2) s = put_all es2 (put_all es1 s).
Proof. unfold put_all, set_data, set_memtable_bytes. cbn. by rewrite !insert_all_app. Qed.

Lemma log_writes_small log : Forall valid_entry log → Forall (λ ke, small_entry ke.1 ke.2) (log_writes log).
Proof.
  intros Hv. apply list.Forall_forall. intros ke (e & He & Hke)%list_elem_of_omap.
  rewrite list.Forall_forall in Hv. by apply (Hv e).
Qed.

Lemma log_writes_cons e log :
  log_writes (e :: log) = match entry_writes e with Some ke => [ke] | None => [] end ++ log_writes log.
Proof. unfold log_writes. cbn. by destruct (entry_writes e). Qed.

Lemma log_writes_app l1 l2 : log_writes (l1 ++ l2) = log_writes l1 ++ log_writes l2.
Proof. apply omap_app. Qed.

(** A bound on the sequence numbers of a log. *)
Definition seqs_below (B : Z) log : Prop := Forall (λ e, rval (we_sequence e) <= B) log.

(** [s'] is [s] with the writes of [log] in its memtable; its sequence number is
    not above those of [s] and of the log. *)
Definition applied log (s s' : Store) : Prop :=
  ∃ n, s' = set_sequence n (put_all (log_writes log) s) ∧
    ∀ B, rval (sequence s) <= B → seqs_below B log → rval n <= B.

Lemma applied_nil s : memtable_bytes s = footprint (data s) → applied [] s s.
Proof.
  intros Hb. exists (sequence s). split; [|by intros B HB _]. unfold log_writes. cbn [omap list_omap].
  rewrite put_all_nil by done. by destruct s.
Qed.

Lemma applied_trans l1 l2 s1 s2 s3 : applied l1 s1 s2 → applied l2 s2 s3 → applied (l1 ++ l2) s1 s3.
Proof.
  intros (n1 & -> & H1) (n2 & -> & H2). exists n2. split; [by rewrite log_writes_app, put_all_app|].
  intros B HB [Hl1 Hl2]%list.Forall_app. apply H2; [|done]. by apply H1.
Qed.

Lemma mem_inv_applied log s s' w ts :
  mem_inv s w ts → Forall valid_entry log → applied log s s' → mem_inv s' w ts.
Proof. intros Hi Hv (n & -> & _). by apply mem_inv_sequence, mem_inv_put_all, log_writes_small. Qed.

(** One record of a committed group. *)
Lemma apply_entry_eq e s w ts :
  mem_inv s w ts → valid_entry e → Z.of_nat (size (data s)) < 2 ^ 31 →
  ∃ s', apply_entry e (s, w) = (Ok tt, (s', w)) ∧ applied [e] s s'.
Proof.
  intros Hi [Hput Hsmall] Hsz.
  assert (Hseq : ∀ B, rval (sequence s) <= B → seqs_below B [e] → rval (u64_max (sequence s) (we_sequence e)) <= B).
  { intros B HB [He _]%list.Forall_cons. rewrite u64_max_val. lia. }
  unfold apply_entry, applied, log_writes. cbn [omap list_omap].
  unfold entry_writes in *. destruct (operation e) eqn:Eop.
  - destruct (Hput eq_refl) as [v Ev]. rewrite Ev in *. cbn [fmap option_fmap option_map] in *.
    rewrite from_to_proto in *. erewrite bind_ok.
    2:{ erewrite bind_ok by done. apply (memtable_insert_eq (s, w) ts); [done|by apply (Hsmall (we_key e, EValue v))|done]. }
    eexists. split; [done|]. by eexists; split.
  - erewrite bind_ok.
    2:{ apply (memtable_insert_eq (s, w) ts); [done|by apply (Hsmall (we_key e, Tombstone))|done]. }
    eexists. split; [done|]. by eexists; split.
  - erewrite bind_ok by done. eexists. split; [done|]. eexists. split; [|done].
    by rewrite put_all_nil by apply Hi.
Qed.

Lemma apply_entries_eq l s w ts :
  mem_inv s w ts → Forall valid_entry l → Z.of_nat (size (insert_all (log_writes l) (data s))) < 2 ^ 31 →
  ∃ s', for_each l apply_entry (s, w) = (Ok tt, (s', w)) ∧ applied l s s'.
Proof.
  revert s. induction l as [|e l IH]; intros s Hi Hv Hsz; cbn [for_each].
  - exists s. split; [done|]. apply applied_nil, Hi.
  - apply list.Forall_cons in Hv as [He Hv].
    change (e :: l) with ([e] ++ l) in *. rewrite log_writes_app in Hsz.
    assert (Hsz1 : Z.of_nat (size (data s)) < 2 ^ 31).
    { pose proof (size_insert_all_ge (log_writes [e] ++ log_writes l) (data s)). lia. }
    destruct (apply_entry_eq e s w ts Hi He Hsz1) as (s1 & E1 & Ha1).
    assert (Hi1 : mem_inv s1 w ts).
    { eapply mem_inv_applied; [done| |done]. by constructor. }
    assert (Hd1 : data s1 = insert_all (log_writes [e]) (data s)) by (by destruct Ha1 as (n & -> & _)).
    destruct (IH s1 Hi1 Hv) as (s2 & E2 & Ha2).
    { rewrite Hd1. by rewrite insert_all_app in Hsz. }
    exists s2. erewrite bind_ok by done. split; [done|]. by eapply applied_trans.
Qed.

(** A COMMIT record only raises the sequence number. *)
Lemma applied_commit log s s' e :
  is_commit e = true → applied log s s' → applied (log ++ [e]) s (set_sequence (u64_max (sequence s') (we_sequence e)) s').
Proof.
  intros He%bool_decide_eq_true (m & -> & Hm). eexists. split.
  - rewrite log_writes_app. rewrite (log_writes_cons e []). unfold entry_writes. rewrite He. unfold log_writes at 2. cbn. by rewrite app_nil_r.
  - intros B HB [Hl [Hb _]%list.Forall_cons]%list.Forall_app. rewrite u64_max_val. cbn. specialize (Hm B HB Hl). lia.
Qed.

(** [replay_wal]'s loop on a closed log applies every record. *)
Lemma replay_entries_eq log pend s w ts :
  mem_inv s w ts → closed (pend ++ log) → Forall (λ e, is_commit e = false) pend →
  Forall valid_entry (pend ++ log) →
  Z.of_nat (size (insert_all (log_writes (pend ++ log)) (data s))) < 2 ^ 31 →
  ∃ s', replay_entries log pend (s, w) = (Ok tt, (s', w)) ∧ applied (pend ++ log) s s'.
Proof.
  revert pend s. induction log as [|e log IH]; intros pend s Hi Hc Hp Hv Hsz; cbn [replay_entries].
  - rewrite app_nil_r in *. unfold closed in Hc. rewrite committed_no_commit in Hc by done. subst pend.
    exists s. split; [done|]. apply applied_nil, Hi.
  - destruct (is_commit e) eqn:Ee.
    + assert (Eop : operation e = Commit) by (by apply bool_decide_eq_true in Ee). rewrite Eop.
      assert (Hcl : closed log) by (apply (closed_tail (pend ++ [e])); by rewrite <-app_assoc).
      assert (Hw : log_writes (pend ++ e :: log) = log_writes pend ++ log_writes log).
      { rewrite log_writes_app, log_writes_cons. unfold entry_writes. by rewrite Eop. }
      rewrite Hw in Hsz. apply list.Forall_app in Hv as [Hvp [Hve Hvl]%list.Forall_cons].
      rewrite insert_all_app in Hsz.
      destruct (apply_entries_eq pend s w ts Hi Hvp) as (s1 & E1 & Ha1).
      { pose proof (size_insert_all_ge (log_writes log) (insert_all (log_writes pend) (data s))). lia. }
      erewrite bind_ok by done. erewrite bind_ok by done. cbn [fst snd].
      set (s1' := set_sequence _ s1). assert (Ha1' : applied (pend ++ [e]) s s1') by (by apply applied_commit).
      destruct (IH [] s1') as (s2 & E2 & Ha2); [|done|constructor|done| |].
      * eapply mem_inv_applied; [exact Hi| |exact Ha1']. apply list.Forall_app. by split; [|constructor].
      * cbn [app]. replace (data s1') with (insert_all (log_writes pend) (data s)); [done|].
        by destruct Ha1 as (n & -> & _).
      * exists s2. split; [done|]. replace (pend ++ e :: log) with ((pend ++ [e]) ++ log) by (by rewrite <-app_assoc).
        by eapply applied_trans.
    + assert (Hpe : Forall (λ e, is_commit e = false) (pend ++ [e])) by (apply list.Forall_app; split; [done|by constructor]).
      replace (pend ++ e :: log) with ((pend ++ [e]) ++ log) in * by (by rewrite <-app_assoc).
      destruct (IH (pend ++ [e]) s Hi Hc Hpe Hv Hsz) as (s' & E & Ha). exists s'. split; [|done].
      destruct (operation e) eqn:Eop; [done..|]. unfold is_commit in Ee. by rewrite Eop in Ee.
Qed.
End replay.
