(* ===== verification/Load.v ===== *)
(** * Loading the tables of a directory

    [load_sstables] finds exactly the table files of the directory, whatever
    order the system lists it in, and puts them newest first. *)

From S2P Require Import Prelude Machine Value Checksum Bloom BlockCache Fs Wal SsTable Record Layout Image Search TableSpec Effects WalSpec BTree Store View Names StoreSpec StoreWrite.

(** ** The entries of a directory *)

Lemma path_last (q : path) : q ≠ [] → ∃ x, head (reverse q) = Some x ∧ q = join (parent q) x.
Proof.
  destruct q as [|x q _] using rev_ind; [done|]. intros _. exists x. rewrite reverse_snoc. split; [done|].
  change (q ++ [x]) with (join q x). by rewrite parent_join.
Qed.

Lemma elem_of_children w d name : name ∈ children w d ↔ is_Some (w_nodes w !! join d name).
Proof.
  unfold children. rewrite list_elem_of_omap. split.
  - intros ([q n] & Hin%elem_of_map_to_list & E). destruct (decide _) as [[Ep Hq]|]; [|done].
    destruct (path_last q Hq) as (x & Ex & Eq). rewrite Ex in E. injection E as ->. rewrite Ep in Eq. exists n. by rewrite <-Eq.
  - intros [n Hn]. exists (join d name, n). split; [by apply elem_of_map_to_list|].
    rewrite decide_True; [unfold join; by rewrite reverse_snoc|].
    split; [apply parent_join|]. unfold join. by destruct d.
Qed.

Lemma nodup_omap {A B} (f : A → option B) (l : list A) :
  NoDup l → (∀ a b x, a ∈ l → b ∈ l → f a = Some x → f b = Some x → a = b) → NoDup (omap f l).
Proof.
  induction 1 as [|a l Ha _ IH]; intros Hf; cbn; [constructor|].
  assert (IH' : NoDup (omap f l)) by (apply IH; intros b c x Hb Hc; apply Hf; by right).
  destruct (f a) as [x|] eqn:E; [|done]. apply list.NoDup_cons. split; [|done].
  intros (b & Hb & Eb)%list_elem_of_omap. destruct Ha. assert (a = b) as ->; [|done].
  apply (Hf a b x); [left|by right|done..].
Qed.

Lemma nodup_children w d : NoDup (children w d).
Proof.
  unfold children. apply nodup_omap; [apply NoDup_map_to_list|].
  intros [q1 n1] [q2 n2] x Hq1%elem_of_map_to_list Hq2%elem_of_map_to_list.
  destruct (decide _) as [[Ep1 Hn1]|]; [|done]. destruct (decide _) as [[Ep2 Hn2]|]; [|done].
  destruct (path_last q1 Hn1) as (x1 & -> & E1). destruct (path_last q2 Hn2) as (x2 & -> & E2).
  intros [= ->] [= ->]. assert (q1 = q2) as -> by (by rewrite E1, E2, Ep1, Ep2). by simplify_eq.
Qed.

Lemma nodup_fst_eq {A B} (l : list (A * B)) a b1 b2 : NoDup l.*1 → (a, b1) ∈ l → (a, b2) ∈ l → b1 = b2.
Proof.
  induction l as [|[a' b'] l IH]; [by intros _ ?%list.not_elem_of_nil|]. cbn.
  intros [Ha Hd]%list.NoDup_cons [E1|H1]%list.elem_of_cons [E2|H2]%list.elem_of_cons; [congruence| | |by apply IH].
  - injection E1 as -> ->. by apply (list_elem_of_fmap_2 fst) in H2.
  - injection E2 as -> ->. by apply (list_elem_of_fmap_2 fst) in H1.
Qed.

Section load.
Context {Prof : Profile} {Cd : Codec} {CdOk : CodecOk Cd} {RDir : ReadDir} {RDirOk : ReadDirOk RDir}.
Implicit Types (ts : tabs) (d : path).

(** The table behind a directory entry. *)
Definition pick d ts (name : string) : option (Z * list (bytes * Entry)) :=
  id ← sstable_id_from_path (join d name);
  es ← (list_to_map ts : gmap Z (list (bytes * Entry))) !! id;
  Some (id, es).

Definition opened d (x : Z * list (bytes * Entry)) : Z * SsTable := (x.1, table_of (sst_file d x.1) x.2).

Lemma pick_some w d ts name id :
  NoDup ts.*1 → tidy w d ts.*1 → is_Some (w_nodes w !! join d name) →
  sstable_id_from_path (join d name) = Some id →
  ∃ es, pick d ts name = Some (id, es) ∧ (id, es) ∈ ts ∧ name = sstable_name id.
Proof.
  intros Hnd Ht Hex Hid. destruct (Ht _ _ Hex Hid) as [En Hin].
  apply list_elem_of_fmap in Hin as ([id' es] & E & Hin). cbn in E. subst id'.
  exists es. unfold pick. rewrite Hid. cbn. rewrite (elem_of_list_to_map_1 ts id es) by done. done.
Qed.

Lemma wp_find_tables w d ts names found :
  NoDup ts.*1 → tidy w d ts.*1 → Forall (table_on w d) ts →
  Forall (λ name, is_Some (w_nodes w !! join d name)) names →
  wp (find_tables d names found) w (reads w (found ++ (opened d <$> omap (pick d ts) names))).
Proof.
  intros Hnd. revert w found. induction names as [|name names IH]; intros w found Ht Hon Hex; cbn [find_tables].
  { rewrite app_nil_r. apply wp_reads_ret. }
  apply list.Forall_cons in Hex as [Hx Hex].
  eapply wp_reads_bind; [by apply (wp_reads_io (mret tt))|]. intros w1 Hc1.
  assert (Hcalm : ∀ w', calm w w' → tidy w' d ts.*1 ∧ Forall (table_on w' d) ts ∧
    Forall (λ name, is_Some (w_nodes w' !! join d name)) names).
  { intros w' Hc. unfold tidy. rewrite (proj1 Hc). split_and!; [done| |done].
    eapply list.Forall_impl; [done|]. intros y. apply (table_on_touches (λ _, False)); [by apply calm_touches|auto]. }
  destruct (sstable_id_from_path (join d name)) as [id|] eqn:Hid.
  - destruct (pick_some w d ts name id Hnd Ht Hx Hid) as (es & Ep & Hin & ->).
    assert (Hon' := Hon). rewrite list.Forall_forall in Hon'. destruct (Hon' _ Hin) as (Hh & Hfit & _).
    eapply wp_reads_bind; [by eapply wp_open, Hfit; eapply holds_calm|]. intros w2 Hc2.
    assert (Hc : calm w w2) by (by etrans). destruct (Hcalm w2 Hc) as (? & ? & ?).
    cbn [omap list_omap]. rewrite Ep. cbn [fmap list_fmap].
    assert (Hl : ∀ l, found ++ opened d (id, es) :: l =
      (found ++ [(id, table_of (join d (sstable_name id)) es)]) ++ l) by (intros l; by rewrite <-app_assoc).
    rewrite (Hl (opened d <$> omap (pick d ts) names)). by apply IH.
  - assert (Ep : pick d ts name = None) by (unfold pick; by rewrite Hid).
    cbn [omap list_omap]. rewrite Ep. destruct (Hcalm w1 Hc1) as (? & ? & ?). by apply IH.
Qed.

(** The files found are the tables, in some order. *)
Lemma picked_perm w d ts names :
  names ≡ₚ children w d → NoDup ts.*1 → tidy w d ts.*1 → Forall (table_on w d) ts →
  Forall (λ id, 0 <= id < 2 ^ 64) ts.*1 → omap (pick d ts) names ≡ₚ ts.
Proof.
  intros Hperm Hnd Ht Hon Hids.
  assert (Hex : ∀ name, name ∈ names ↔ is_Some (w_nodes w !! join d name)).
  { intros name. by rewrite Hperm, elem_of_children. }
  assert (Hpick : ∀ name x, name ∈ names → pick d ts name = Some x → x ∈ ts ∧ name = sstable_name x.1).
  { intros name x Hn Hx. assert (Hx' := Hx). unfold pick in Hx. apply bind_Some in Hx as (id & Hid & _).
    destruct (pick_some w d ts name id Hnd Ht (proj1 (Hex _) Hn) Hid) as (es & Ep & Hin & En). by simplify_eq. }
  apply NoDup_Permutation.
  - apply nodup_omap; [rewrite Hperm; apply nodup_children|]. intros a b x Ha Hb Ea Eb.
    destruct (Hpick _ _ Ha Ea) as [_ ->]. by destruct (Hpick _ _ Hb Eb) as [_ ->].
  - by apply NoDup_fmap_1 in Hnd.
  - intros [id es]. rewrite list_elem_of_omap. split.
    + intros (name & Hn & Hx). by apply (Hpick _ _ Hn Hx).
    + intros Hin. exists (sstable_name id). rewrite list.Forall_forall in Hon. rewrite list.Forall_forall in Hids.
      destruct (Hon _ Hin) as (Hh & _). apply holds_node in Hh. cbn [fst] in Hh.
      assert (Hsome : is_Some (w_nodes w !! join d (sstable_name id))) by (unfold sst_file in Hh; by rewrite Hh).
      split; [by apply Hex|]. specialize (Hids id ltac:(by apply (list_elem_of_fmap_2 fst) in Hin)).
      assert (Hid := sstable_id_roundtrip d id Hids). unfold sst_file in Hid.
      destruct (pick_some w d ts _ id Hnd Ht Hsome Hid) as (es' & -> & Hin' & _).
      assert (es = es') as ->; [|done]. by eapply (nodup_fst_eq ts).
Qed.

(** Sorting puts them newest first. *)
Lemma sorted_found d ts (l : tabs) :
  StronglySorted Z.gt ts.*1 → l ≡ₚ ts →
  (stable_sort newest_first (opened d <$> l)).*2 = (λ x, table_of (sst_file d x.1) x.2) <$> ts.
Proof.
  intros Hs Hp. assert (E : stable_sort newest_first (opened d <$> l) = opened d <$> ts).
  { apply (StronglySorted_unique_strong newest_first).
    - assert (Hnd : NoDup (opened d <$> ts).*1).
      { rewrite <-list_fmap_compose. clear -Hs. induction ts as [|x ts IH]; [constructor|].
        cbn in *. apply StronglySorted_cons in Hs as [Hx Hs]. apply list.NoDup_cons. split; [|by apply IH].
        intros (y & E & Hy)%list_elem_of_fmap. rewrite list.Forall_forall in Hx.
        specialize (Hx y.1 ltac:(by apply list_elem_of_fmap_2)). cbn in E. lia. }
      intros [i t1] [j t2] H1 H2 Hij Hji. unfold newest_first in *. cbn in *.
      assert (i = j) as -> by lia. f_equal. eapply nodup_fst_eq; [exact Hnd| |exact H2].
      rewrite stable_sort_perm, Hp in H1. exact H1.
    - apply stable_sort_sorted.
      + intros a b c. unfold newest_first. lia.
      + intros a b. unfold newest_first. lia.
    - clear -Hs. induction ts as [|x ts IH]; cbn in *; [constructor|].
      apply StronglySorted_cons in Hs as [Hx Hs]. constructor; [by apply IH|].
      apply list.Forall_forall. intros y (z & -> & Hz)%list_elem_of_fmap. rewrite list.Forall_forall in Hx.
      specialize (Hx z.1 ltac:(by apply list_elem_of_fmap_2)). unfold newest_first, opened. cbn. lia.
    - by rewrite stable_sort_perm, Hp. }
  rewrite E, <-list_fmap_compose. done.
Qed.

Lemma next_id_of_spec (found : list (Z * SsTable)) :
  Forall (λ id, 0 <= id < 2 ^ 64 - 1) found.*1 →
  ∃ m, next_id_of found = Ok m ∧ 1 <= default 1 m < 2 ^ 64 ∧ Forall (λ id, id < default 1 m) found.*1 ∧
    (m = None ∨ default 1 m - 1 ∈ found.*1).
Proof.
  induction found as [|[id t] found IH]; cbn [fmap list_fmap fst].
  - intros _. exists None. cbn. split_and!; [done|lia..|constructor|by left].
  - intros [Hid Hf]%list.Forall_cons. destruct (IH Hf) as (m & Em & Hm & Hlt & Hmax).
    cbn [next_id_of]. unfold add64. rewrite (proj2 (Z.ltb_lt _ _)) by lia. cbn [mbind outcome_bind]. rewrite Em.
    cbn [mbind outcome_bind]. eexists. split; [done|]. destruct m as [m|]; cbn in *.
    + split; [lia|]. split; [constructor; [lia|]; eapply list.Forall_impl; [done|]; cbn; lia|right].
      destruct Hmax as [?|Hin]; [done|]. destruct (Z.max_spec (id + 1) m) as [[_ ->]|[_ ->]]; [by right|].
      rewrite Z.add_simpl_r. by left.
    + split; [lia|]. split; [constructor; [lia|]; eapply list.Forall_impl; [done|]; cbn; lia|right].
      rewrite Z.add_simpl_r. by left.
Qed.

(** A reading call whose error is dropped. *)
Lemma attempt_effect {A} P w (m : M world A) a :
  wp m w (reads w a) →
  wp (attempt m) w (effect P w
    (λ r w', calm w w' ∧ (r = Some a ∨ r = None ∧ w_faults w ≠ [])) (calm w)).
Proof.
  intros Hm. apply wp_attempt. eapply wp_mono; [exact Hm|]. intros r w' [Hc Hr].
  assert (Ht := calm_touches P _ _ Hc).
  destruct Hr as [->|[[->|[msg ->]] Hf]]; (split; [done|]).
  - left. eauto 10.
  - right. split; [by left|done].
  - left. eauto 10.
Qed.

Lemma wp_read_dir w d :
  is_dir w d = true → wp (fs_read_dir d) w (reads w (readdir_order (children w d))).
Proof.
  intros Hd. apply wp_reads_io. intros w' Hc. rewrite (calm_is_dir _ _ _ Hc), Hd.
  unfold children. by rewrite (proj1 Hc).
Qed.

(** [load_sstables]: all tables, newest first.  A directory that cannot be read
    is taken for an empty one. *)
Lemma effect_load (s : Store * world) ts :
  is_dir s.2 (dir s.1) = true → StronglySorted Z.gt ts.*1 → Forall (λ id, 0 <= id < 2 ^ 64 - 1) ts.*1 →
  tidy s.2 (dir s.1) ts.*1 → Forall (table_on s.2 (dir s.1)) ts →
  wp load_sstables s (effect (λ _, False) s
    (λ _ s', (s'.1 = s.1 ∧ w_faults s.2 ≠ []) ∨
      ∃ n, s'.1 = set_sstables (λ _, (λ x, table_of (sst_file (dir s.1) x.1) x.2) <$> ts) (set_next_id n s.1) ∧
        1 <= n < 2 ^ 64 ∧ Forall (λ id, id < n) ts.*1 ∧ (n = 1 ∨ n - 1 ∈ ts.*1))
    (λ s', s'.1 = s.1)).
Proof.
  intros Hd Hs Hids Ht Hon. destruct s as [s w]. cbn [fst snd] in *. unfold load_sstables.
  assert (Hnd : NoDup ts.*1).
  { clear -Hs. induction Hs as [|id l Hs IH Hx]; [constructor|]. apply list.NoDup_cons. split; [|done].
    intros Hin. rewrite list.Forall_forall in Hx. specialize (Hx id Hin). lia. }
  eapply effect_step; [done..|]. cbn [fst].
  eapply effect_seq_world; [apply (attempt_effect (λ _, False)), wp_read_dir, Hd|done|done|]; cbn [fst snd].
  intros rd w1 _ [Hc1 [->|[-> Hf]]].
  2:{ apply effect_ret. by left. }
  assert (Ht1 : tidy w1 (dir s) ts.*1) by (unfold tidy; by rewrite (proj1 Hc1)).
  assert (Hon1 : Forall (table_on w1 (dir s)) ts).
  { eapply list.Forall_impl; [done|]. intros y. apply (table_on_touches (λ _, False)); [by apply calm_touches|auto]. }
  set (names := readdir_order (children w (dir s))).
  assert (Hperm : names ≡ₚ children w1 (dir s)).
  { unfold names, children. rewrite (proj1 Hc1). apply readdir_order_perm. }
  assert (Hex : Forall (λ name, is_Some (w_nodes w1 !! join (dir s) name)) names).
  { apply list.Forall_forall. intros name. by rewrite Hperm, elem_of_children. }
  assert (Hpick := picked_perm w1 (dir s) ts names Hperm Hnd Ht1 Hon1).
  set (l := omap (pick (dir s) ts) names) in *.
  assert (Hp : l ≡ₚ ts) by (apply Hpick; eapply list.Forall_impl; [done|]; cbn; lia).
  eapply effect_seq_world; [by apply (reads_effect (λ _, False)), wp_find_tables|done|done|]; cbn [fst snd].
  intros ? w2 _ [-> Hc2]. cbn [app]. fold l.
  assert (Hfst : (opened (dir s) <$> l).*1 ≡ₚ ts.*1) by (rewrite <-list_fmap_compose, Hp; done).
  destruct (next_id_of_spec (opened (dir s) <$> l)) as (m & Em & Hm & Hlt & Hmax); [by rewrite Hfst|].
  rewrite Em. eapply effect_step; [done..|]. eapply effect_step; [done..|]. apply effect_set_self.
  right. exists (default 1 m). cbn [fst snd]. rewrite (sorted_found (dir s) ts l Hs Hp).
  rewrite Hfst in Hlt, Hmax. split_and!; [done|lia|lia|done|]. destruct Hmax as [->|?]; [by left|by right].
Qed.
End load.
