(* ===== verification/Recovery.v ===== *)
(** * Opening a table, and what survives a crash

    [dir_ok] and [log_ok] say what the files of a table directory hold; from
    them [open_with_dir] rebuilds the store.  A crash at any point of a write
    leaves files from which the contents before or after the write recover. *)

From S2P Require Import Prelude Machine Value Checksum Bloom BlockCache Fs Wal SsTable Record Layout Image Search TableSpec Effects WalSpec BTree Store View Names StoreSpec StoreWrite StoreOps Replay Load.

Section recovery.
Context {Prof : Profile} {Cd : Codec} {CdOk : CodecOk Cd} {RDir : ReadDir} {RDirOk : ReadDirOk RDir}.
Implicit Types (ts : tabs) (d : path) (log new : list WalEntry) (f : file).

(** ** Directories at rest *)

Record dir_ok (w : world) d ts : Prop := {
  dk_dir : d ≠ [];
  dk_free : ∀ q, q ∈ prefixes d → w_nodes w !! q = None ∨ w_nodes w !! q = Some Dir;
  dk_files : Forall (table_on w d) ts;
  dk_sorted : StronglySorted Z.gt ts.*1;
  dk_ids : Forall (λ id, 0 <= id < 2 ^ 64 - 1) ts.*1;
  dk_tidy : tidy w d ts.*1;
  dk_nodir : ∀ id, w_nodes w !! sst_file d id ≠ Some Dir;
  dk_lock : w_nodes w !! lock_path d ≠ Some Dir;
}.

(** [c] is a log of the records [log] with a torn tail. *)
Record log_ok (c : bytes) log : Prop := {
  lk_bytes : ∃ tail, c = frames log ++ tail ∧ torn tail;
  lk_len : Z.of_nat (length c) < 2 ^ 63;
  lk_valid : Forall valid_entry (committed log);
  lk_size : Z.of_nat (size (replay (committed log) ∅)) < 2 ^ 31;
}.

(** What a reader sees after recovery. *)
Definition recovered ts log : gmap bytes Value := values (replay (committed log) ∅ ∪ tables_map ts).

(** Opening the directory [d] gives the contents [m]. *)
Definition recovers (w : world) d (m : gmap bytes Value) : Prop :=
  ∃ ts c log, dir_ok w d ts ∧ wal_at w (wal_path d) (File c c) ∧ log_ok c log ∧ recovered ts log = m.

(** ** Stability *)

Lemma dir_ok_nodes w w' d ts : w_nodes w' = w_nodes w → dir_ok w d ts → dir_ok w' d ts.
Proof.
  intros E []. split; try done; unfold tidy; rewrite ?E; try done.
  eapply list.Forall_impl; [done|]. intros x. unfold table_on, holds, file_at. by rewrite E.
Qed.

Lemma wal_at_nodes w w' p f : w_nodes w' = w_nodes w → wal_at w p f → wal_at w' p f.
Proof. intros E. unfold wal_at. by rewrite E. Qed.

Lemma tidy_touches (P : path → Prop) w w' d ids :
  touches P w w' → (∀ name, P (join d name) → sstable_id_from_path (join d name) = None) →
  tidy w d ids → tidy w' d ids.
Proof.
  intros Ht HP Htidy name id Hex Hid. apply Htidy; [|done].
  rewrite (proj1 Ht) in Hex; [done|]. intros Hp. by rewrite HP in Hid.
Qed.

(** The log, the lock and the directories themselves are not table files. *)
Lemma dir_ok_touches (P : path → Prop) w w' d ts :
  touches P w w' → (∀ id, ¬ P (sst_file d id)) →
  (∀ name, P (join d name) → sstable_id_from_path (join d name) = None) →
  (∀ q, q ∈ prefixes d → w_nodes w' !! q = None ∨ w_nodes w' !! q = Some Dir) →
  w_nodes w' !! lock_path d ≠ Some Dir →
  dir_ok w d ts → dir_ok w' d ts.
Proof.
  intros Ht Hs Hn Hf Hl []. split; try done.
  - eapply list.Forall_impl; [done|]. intros x. by eapply table_on_touches.
  - by eapply tidy_touches.
  - intros id. by rewrite (proj1 Ht).
Qed.

Lemma wal_at_touches (P : path → Prop) w w' p f : touches P w w' → ¬ P p → wal_at w p f → wal_at w' p f.
Proof. intros Ht Hp. unfold wal_at. by rewrite (proj1 Ht). Qed.

(** ** Crashes *)

Lemma crash_settled c c' : crash_file (File c c) c' → c' = c.
Proof.
  intros H. inversion H; subst; cbn in *; [done|]. apply firstn_all2.
  match goal with Hq : ∀ q, _ |- _ => by apply (Hq c) end.
Qed.

(** The file survives with what was durable, or with a part of what was added. *)
Lemma crash_added c t c' : crash_file (File (c ++ t) c) c' → ∃ t', t' `prefix_of` t ∧ c' = c ++ t'.
Proof.
  intros H. inversion H as [|n Hq]; subst; cbn in *.
  - exists []. split; [apply prefix_nil|by rewrite app_nil_r].
  - assert (Hn : (length c <= n)%nat) by (apply Hq; [done|by apply prefix_app_r]).
    exists (take (n - length c) t). split; [apply prefix_take|]. by rewrite take_app_ge.
Qed.

(** A file that was shortened survives with its old or its new content. *)
Lemma crash_truncated c t c' : crash_file (File c (c ++ t)) c' → c' = c ∨ c' = c ++ t.
Proof.
  intros H. inversion H as [|n Hq]; subst; cbn in *; [by right|left].
  apply firstn_all2, Hq; [by apply prefix_app_r|done].
Qed.

Lemma crash_wal w w' p f : crash_world w w' → wal_at w p f → ∃ c, crash_file f c ∧ wal_at w' p (File c c).
Proof.
  intros [Hn _] Hf. specialize (Hn p). unfold wal_at in *.
  inversion Hn as [n n' Hc E1 E2|E1 E2].
  - rewrite <-E1 in Hf. destruct n as [|f']; [done|]. subst f'. destruct Hc as (c & Hc & ->). by exists c.
  - rewrite <-E1 in Hf. subst f. exists []. split; [|done]. apply (crash_durable (File [] [])).
Qed.

Lemma crash_holds w w' p c : crash_world w w' → holds w p c → holds w' p c.
Proof.
  intros [Hn _] Hh%holds_node. specialize (Hn p). unfold holds, file_at.
  rewrite Hh in Hn. inversion Hn as [n n' Hc E1 E2|]. destruct Hc as (c' & Hc & ->).
  by rewrite (crash_settled _ _ Hc).
Qed.

Lemma crash_exists w w' p : crash_world w w' → is_Some (w_nodes w' !! p) → is_Some (w_nodes w !! p).
Proof. intros [Hn _] [n Hp]. specialize (Hn p). rewrite Hp in Hn. inversion Hn. eauto. Qed.

Lemma crash_dir w w' p : crash_world w w' → w_nodes w' !! p = Some Dir → w_nodes w !! p = Some Dir.
Proof.
  intros [Hn _] Hp. specialize (Hn p). rewrite Hp in Hn. inversion Hn as [n n' Hc E1 E2|]; subst.
  destruct n as [|f]; [done|]. by destruct Hc as (? & _ & ?).
Qed.

Lemma crash_free w w' p :
  crash_world w w' → w_nodes w !! p = None ∨ w_nodes w !! p = Some Dir →
  w_nodes w' !! p = None ∨ w_nodes w' !! p = Some Dir.
Proof.
  intros [Hn _] Hp. specialize (Hn p). destruct Hp as [E|E]; rewrite E in Hn; inversion Hn as [n n' Hc|]; subst; auto.
  cbn in Hc. subst. by right.
Qed.

Lemma dir_ok_crash w w' d ts : crash_world w w' → dir_ok w d ts → dir_ok w' d ts.
Proof.
  intros Hc []. split; try done.
  - intros q Hq. eapply crash_free; eauto.
  - eapply list.Forall_impl; [done|]. intros x (Hh & ? & ?). split_and!; [|done..]. by eapply crash_holds.
  - intros name id Hex Hid. apply dk_tidy0; [by eapply crash_exists|done].
  - intros id E. eapply dk_nodir0, crash_dir; eauto.
  - intros E. eapply dk_lock0, crash_dir; eauto.
Qed.

(** ** Opening *)

Lemma make_dirs_lookup (m : gmap path node) ps q :
  foldr (λ q m, match m !! q with None => <[q := Dir]> m | Some _ => m end) m ps !! q =
  match m !! q with Some n => Some n | None => if decide (q ∈ ps) then Some Dir else None end.
Proof.
  induction ps as [|p ps IH]; cbn [foldr].
  { destruct (m !! q); [done|]. rewrite decide_False; [done|]. apply list.not_elem_of_nil. }
  set (m' := foldr _ m ps) in *.
  assert (Hq : (match m' !! p with Some _ => m' | None => <[p:=Dir]> m' end) !! q =
    match m' !! q with Some n => Some n | None => if decide (q = p) then Some Dir else None end).
  { destruct (decide (q = p)) as [->|Hne].
    - destruct (m' !! p) as [n|] eqn:E; [by rewrite E|by rewrite lookup_insert_eq].
    - destruct (m' !! p); [|rewrite lookup_insert_ne by done]; by destruct (m' !! q). }
  rewrite Hq, IH. destruct (m !! q) as [n|]; [done|].
  destruct (decide (q ∈ ps)) as [Hin|Hin]; [by rewrite decide_True by (by right)|].
  destruct (decide (q = p)) as [->|Hne]; [by rewrite decide_True by left|].
  rewrite decide_False; [done|]. by intros [?|?]%list.elem_of_cons.
Qed.

(** [create_dir_all] when no file is in the way. *)
Lemma effect_make_dirs w d :
  d ≠ [] → (∀ q, q ∈ prefixes d → w_nodes w !! q = None ∨ w_nodes w !! q = Some Dir) →
  wp (fs_create_dir_all d) w (effect (λ q, q ∈ prefixes d) w (λ _ w', chain w' d) (calm w)).
Proof.
  intros Hd Hfree. apply effect_io; [|done]. intros w' Hc.
  assert (Hno : ∀ q, q ∈ prefixes d → file_at w' q = None).
  { intros q Hq. unfold file_at. rewrite (proj1 Hc). by destruct (Hfree q Hq) as [-> | ->]. }
  rewrite Hno by (by apply chain_self).
  assert (existsb (λ q, bool_decide (is_Some (file_at w' q))) (prefixes d) = false) as ->.
  { apply not_true_is_false. intros (q & Hq & Hb)%existsb_exists. rewrite <-list_elem_of_In in Hq.
    rewrite (Hno q Hq) in Hb. apply bool_decide_eq_true in Hb as [? ?]. done. }
  eexists tt, _. split; [done|]. split.
  - split_and!; [|done..]. intros q Hq. cbn. rewrite make_dirs_lookup.
    destruct (w_nodes w' !! q); [done|]. by rewrite decide_False.
  - intros q Hq. cbn. rewrite make_dirs_lookup, (proj1 Hc).
    destruct (Hfree q Hq) as [-> | ->]; [|done]. by rewrite decide_True.
Qed.

(** [flock]: the lock is taken exactly when it was free and no fault strikes. *)
Lemma wp_flock w p :
  wp (flock p) w (λ r w', w_nodes w' = w_nodes w ∧ (w_faults w = [] → w_faults w' = []) ∧
    ((r = Ok true ∧ ¬ (p ∈ w_locks w) ∧ w_locks w' = {[p]} ∪ w_locks w) ∨
     (r = Ok false ∧ (p ∈ w_locks w ∨ w_faults w ≠ []) ∧ w_locks w' = w_locks w) ∨
     (r = Crashed ∧ w_faults w ≠ []))).
Proof.
  unfold flock. apply wp_bind, wp_attempt, wp_io.
  - intros w' (En & El & Ef). unfold wp. destruct (decide (p ∈ w_locks w')) as [Hin|Hout]; cbn.
    + split_and!; [done..|]. right; left. rewrite El in Hin. split_and!; [done|by left|done].
    + split_and!; [done..|]. left. rewrite El in Hout. split_and!; [done..|]. unfold set_locks. cbn. by rewrite El.
  - intros r w' n Hf (En & El & Ef) [->|[msg ->]]; unfold no_effect; cbn.
    + split_and!; [done..|]. right; right. done.
    + split_and!; [done..|]. right; left. split_and!; [done|by right|done].
Qed.

(** The files after a recovery that may have been cut short. *)
Definition log_kept_at (w : world) d (c c' : bytes) : Prop :=
  ∃ f, wal_at w (wal_path d) f ∧ (f = File c c ∨ f = File c' c ∨ f = File c' c').

(** The store that [open_with_dir] builds from the tables [ts] and the records
    [log]; [f] is the log file it leaves. *)
Definition opened_store d ts log f (s : Store * world) : Prop :=
  mem_inv s.1 s.2 ts ∧ dir s.1 = d ∧ data s.1 = replay (committed log) ∅ ∧
  lock s.1 = Some (lock_path d) ∧ memtable_max_bytes s.1 = DEFAULT_MEMTABLE_MAX_BYTES ∧
  log_at s f ∧
  (next_sstable_id s.1 = 1 ∨ next_sstable_id s.1 - 1 ∈ ts.*1) ∧
  ∀ B, 0 <= B → seqs_below B (committed log) → rval (sequence s.1) <= B.

(** The log file once its uncommitted tail is gone. *)
Definition settled log : file := File (frames (committed log)) (frames (committed log)).

(** What was read of the tables and of the log [c]: all of it, unless a fault
    made the directory unreadable or hid the log. *)
Definition tables_read (faulty : Prop) ts ts0 : Prop := ts0 = ts ∨ ts0 = [] ∧ faulty.
Definition log_read (faulty : Prop) (c : bytes) log log0 f : Prop :=
  log0 = log ∧ f = settled log ∨ log0 = [] ∧ f = File c c ∧ faulty.

Definition opened_over (faulty : Prop) d ts (c : bytes) log (s : Store * world) : Prop :=
  ∃ ts0 log0 f, tables_read faulty ts ts0 ∧ log_read faulty c log log0 f ∧ opened_store d ts0 log0 f s.

Lemma opened_over_mono (P Q : Prop) d ts c log s : (P → Q) → opened_over P d ts c log s → opened_over Q d ts c log s.
Proof. intros HPQ (ts0 & log0 & f & Ht & Hl & Ho). exists ts0, log0, f. unfold tables_read, log_read in *. naive_solver. Qed.

Lemma fresh_mem_inv w d wl ts n f :
  d ≠ [] → (∀ id, w_nodes w !! sst_file d id ≠ Some Dir) → Forall (table_on w d) ts →
  StronglySorted Z.gt ts.*1 → Forall (λ id, 0 <= id < n) ts.*1 →
  chain w d → wal_rep wl w (wal_path d) f → 1 <= n < 2 ^ 64 →
  mem_inv (set_sstables (λ _, (λ x, table_of (sst_file d x.1) x.2) <$> ts) (set_next_id n (fresh_store d wl))) w ts.
Proof.
  intros Hd Hnd Hon Hs Hids Hch Hw Hn. split; cbn; try done.
  - apply Forall2_fmap_l, Forall_Forall2_diag, list.Forall_forall. intros x _. apply table_of_rep.
  - lia.
  - by exists f.
Qed.

(** [replay_wal]. *)
Lemma effect_replay_wal (s : Store * world) ts c log :
  mem_inv s.1 s.2 ts → data s.1 = ∅ → log_at s (File c c) → log_ok c log →
  wp replay_wal s (effect (eq (wal_path (dir s.1))) s
    (λ _ s', ∃ log0 f, log_read (w_faults s.2 ≠ []) c log log0 f ∧ mem_inv s'.1 s'.2 ts ∧
       (∃ wl, applied (committed log0) (set_wal wl s.1) s'.1) ∧ log_at s' f)
    (λ s', log_kept_at s'.2 (dir s.1) c (frames (committed log)))).
Proof.
  intros Hi Hd Hlog [(tail & Hc & Ht) Hlen Hv Hsz]. unfold replay_wal.
  destruct s as [s w]. cbn [fst snd] in *. subst c.
  eapply effect_seq; [apply effect_on_wal, effect_read_for_recovery; [exact Hlog|done|done]|done| |]; cbn [fst snd].
  { intros [s1 w1] _ (wl & _ & [Hr|Hr]); cbn [fst snd] in Hr; (eexists; split; [apply Hr|auto]). }
  intros ? [s1 w1] Ht1 (wl & E & Hr). cbn [fst snd the_world pair_world] in *. subst s1.
  assert (Hi1 : mem_inv (set_wal wl s) w1 ts) by (destruct Hr as [(_ & Hr)|(_ & _ & Hr)]; by eapply mem_inv_log).
  destruct Hr as [(-> & Hr)|(-> & Hf & Hr)].
  2:{ apply effect_ret. exists [], (File (frames log ++ tail) (frames log ++ tail)).
      split_and!; [right; done|done| |exact Hr]. exists wl. apply applied_nil, Hi1. }
  destruct (replay_entries_eq (committed log) [] (set_wal wl s) w1 ts Hi1) as (s2 & E2 & Ha).
  { apply closed_committed. } { constructor. } { done. }
  { cbn [app]. change (data (set_wal wl s)) with (data s). rewrite Hd, <-replay_writes. done. }
  unfold wp. rewrite E2. split; [done|left]. exists tt. split; [done|]. cbn [fst snd app] in *.
  exists log, (settled log). split_and!; [by left| |by exists wl|].
  - by eapply mem_inv_applied.
  - unfold log_at. cbn [fst snd]. by destruct Ha as (n & -> & _).
Qed.

(** [load_sstables] on a fresh store. *)
Lemma load_cases d ts c (s1 : Store) wl w w1 :
  dir_ok w1 d ts → chain w1 d → wal_rep wl w1 (wal_path d) (File c c) →
  (s1 = fresh_store d wl ∧ w_faults w ≠ [] ∨
   ∃ n, s1 = set_sstables (λ _, (λ x, table_of (sst_file d x.1) x.2) <$> ts) (set_next_id n (fresh_store d wl)) ∧
     1 <= n < 2 ^ 64 ∧ Forall (λ id, id < n) ts.*1 ∧ (n = 1 ∨ n - 1 ∈ ts.*1)) →
  ∃ ts0 n, tables_read (w_faults w ≠ []) ts ts0 ∧ mem_inv s1 w1 ts0 ∧ (n = 1 ∨ n - 1 ∈ ts0.*1) ∧
    s1 = set_sstables (λ _, (λ x, table_of (sst_file d x.1) x.2) <$> ts0) (set_next_id n (fresh_store d wl)).
Proof.
  intros Hk Hch Hw [[-> Hf]|(n & -> & Hn & Hlt & Hn1)].
  - exists [], 1. split_and!; [by right| |by left|done].
    eapply (fresh_mem_inv w1 d wl [] 1); [apply Hk|apply Hk|constructor..|done|done|lia].
  - exists ts, n. split_and!; [by left| |done|done].
    eapply fresh_mem_inv; [apply Hk|apply Hk|apply Hk|apply Hk| |done..].
    pose proof (dk_ids _ _ _ Hk) as Hids. rewrite !list.Forall_forall in *. intros id Hid.
    specialize (Hids id Hid). specialize (Hlt id Hid). lia.
Qed.

(** The body of [open_with_dir] once the lock is held. *)
Lemma effect_open_body d ts c log wl w :
  dir_ok w d ts → chain w d → wal_rep wl w (wal_path d) (File c c) → log_ok c log →
  wp (_ ← load_sstables; replay_wal) (fresh_store d wl, w) (effect (eq (wal_path d)) (fresh_store d wl, w)
    (λ _ s', opened_over (w_faults w ≠ []) d ts c log s')
    (λ s', log_kept_at s'.2 d c (frames (committed log)))).
Proof.
  intros Hk Hch Hw Hlog. assert (Hk' := Hk). destruct Hk' as [_ _ Hon Hs Hids Ht _ _].
  eapply (effect_seq _ (λ _, False)).
  { apply effect_load; [by apply chain_is_dir|exact Hs|exact Hids|exact Ht|exact Hon]. }
  { done. }
  { intros [s1 w1] Ht1 E. cbn [fst snd the_world pair_world] in *. subst s1. apply touches_calm in Ht1.
    exists (File c c). split; [|by left]. eapply wal_at_calm; [exact Ht1|]. apply Hw. }
  intros _ [s1 w1] Ht1 Hload. cbn [fst snd the_world pair_world] in *. apply touches_calm in Ht1.
  assert (Hk1 : dir_ok w1 d ts) by (eapply dir_ok_nodes; [apply Ht1|done]).
  assert (Hch1 : chain w1 d) by (by eapply chain_calm).
  assert (Hw1 : wal_rep wl w1 (wal_path d) (File c c)) by (by eapply wal_rep_calm).
  destruct (load_cases d ts c s1 wl w w1 Hk1 Hch1 Hw1 Hload) as (ts0 & n & Hts0 & Hi1 & Hn & E1).
  assert (Hd1 : dir s1 = d) by (by rewrite E1).
  eapply effect_conseq; [eapply (effect_replay_wal (s1, w1) ts0 c log Hi1)| | |]; cbn [fst snd].
  - by rewrite E1.
  - unfold log_at. cbn [fst snd]. rewrite E1. exact Hw1.
  - exact Hlog.
  - by rewrite Hd1.
  - intros _ [s2 w2] Ht2 (log0 & f & Hread & Hi2 & (wl2 & m & E2 & Hm) & Hl2). cbn [fst snd] in *.
    exists ts0, log0, f. split_and!; [done| |].
    { destruct Hread as [?|(? & ? & ?)]; [by left|right]. split_and!; [done..|by eapply calm_faults]. }
    rewrite E1 in E2, Hm.
    split_and!; [done| | | | |exact Hl2| |]; cbn [fst]; rewrite ?replay_writes; rewrite E2; try done.
  - intros [s2 w2] Ht2. by rewrite Hd1.
Qed.

Lemma wp_with_local {S A} (s : S) (m : M (S * world) A) w Q :
  wp m (s, w) (λ r s', match r with
                       | Ok _ => Q (Ok s'.1) s'.2
                       | Err e => Q (Err e) s'.2
                       | Panic => Q Panic s'.2
                       | Crashed => Q Crashed s'.2
                       end) → wp (with_local s m) w Q.
Proof. unfold wp, with_local. by destruct (m (s, w)) as [[] [? ?]]. Qed.

Lemma wp_closing {A} p (m : M world A) w Q :
  wp m w (λ r w', match r with
                  | Ok _ | Crashed => Q r w'
                  | _ => Q r (unlock p w')
                  end) → wp (closing p m) w Q.
Proof. unfold wp, closing. by destruct (m w) as [[] ?]. Qed.

Lemma lock_not_prefix d q : q ∈ prefixes d → lock_path d ≠ q.
Proof. intros Hq <-. by apply join_not_prefix in Hq. Qed.

(** Writing the log or the lock file keeps the tables. *)
Lemma dir_ok_child w w' d ts name :
  touches (eq (join d name)) w w' → (∀ id, sst_file d id ≠ join d name) →
  sstable_id_from_path (join d name) = None → w_nodes w' !! lock_path d ≠ Some Dir →
  dir_ok w d ts → dir_ok w' d ts.
Proof.
  intros Ht Hs Hid Hl Hk. eapply dir_ok_touches; [exact Ht| | | |done|done].
  - intros id E. by apply (Hs id).
  - intros x E. by rewrite <-E.
  - intros q Hq. rewrite (proj1 Ht); [by apply Hk|]. intros <-. by apply join_not_prefix in Hq.
Qed.

Lemma dir_ok_wal w w' d ts : touches (eq (wal_path d)) w w' → dir_ok w d ts → dir_ok w' d ts.
Proof.
  intros Ht Hk. eapply (dir_ok_child w); [exact Ht|intros id; apply sst_file_neq_wal|apply wal_not_table| |done].
  rewrite (proj1 Ht); [apply Hk|apply wal_neq_lock].
Qed.

(** ** The steps of [open_with_dir]

    [at_rest w0 w d ts c]: between two calls of an open that began in [w0], the
    directory still holds the tables [ts] and the log [c]. *)
Record at_rest (w0 w : world) d ts (c : bytes) : Prop := {
  ar_dir : dir_ok w d ts;
  ar_log : wal_at w (wal_path d) (File c c);
  ar_locks : w_locks w = w_locks w0;
  ar_faults : w_faults w0 = [] → w_faults w = [];
}.

Lemma at_rest_calm w0 w w' d ts c : calm w w' → at_rest w0 w d ts c → at_rest w0 w' d ts c.
Proof.
  intros Hc []. split; [eapply dir_ok_nodes; [apply Hc|done]|by eapply wal_at_calm| |].
  - by rewrite (proj1 (proj2 Hc)).
  - intros E. by apply Hc, ar_faults0.
Qed.

Lemma at_rest_kept w0 w d ts c c' : at_rest w0 w d ts c → log_kept_at w d c c'.
Proof. intros []. exists (File c c). auto. Qed.

(** How opening the directory [d] ends: the files still hold the same tables and
    the same committed records; a failed open gives its lock back. *)
Definition open_result (w : world) d ts (c : bytes) log (r : outcome Store) (w' : world) : Prop :=
  dir_ok w' d ts ∧ log_kept_at w' d c (frames (committed log)) ∧ (w_faults w = [] → w_faults w' = []) ∧
  match r with
  | Ok s => ¬ (lock_path d ∈ w_locks w) ∧ w_locks w' = {[lock_path d]} ∪ w_locks w ∧
      opened_over (w_faults w ≠ []) d ts c log (s, w')
  | Err _ => w_locks w' = w_locks w ∧ (lock_path d ∈ w_locks w ∨ w_faults w ≠ [])
  | Crashed => w_faults w ≠ []
  | Panic => False
  end.

Lemma open_result_failed w0 w d ts c log {A} (r : outcome A) (k : A → M world Store) :
  at_rest w0 w d ts c → failed r → w_faults w0 ≠ [] → wp_seq k (open_result w0 d ts c log) r w.
Proof.
  intros Hr Hf Hne. pose proof (at_rest_kept _ _ _ _ _ (frames (committed log)) Hr). destruct Hr.
  destruct Hf as [->|[msg ->]]; split_and!; auto.
Qed.

Lemma wp_make_dirs_rest w0 w d ts c :
  at_rest w0 w d ts c →
  wp (fs_create_dir_all d) w (λ r w', at_rest w0 w' d ts c ∧
    (r = Ok tt ∧ chain w' d ∨ failed r ∧ w_faults w0 ≠ [])).
Proof.
  intros []. eapply wp_mono; [apply effect_make_dirs; apply ar_dir0|]. intros r w1 [Ht Hr]. split.
  - split.
    + eapply dir_ok_touches; [exact Ht| | | | |done].
      * intros id Hin. by apply join_not_prefix in Hin.
      * intros name Hin. by apply join_not_prefix in Hin.
      * intros q Hq. destruct Hr as [(a & _ & Hch)|(_ & _ & Hc)]; [right; by apply Hch|].
        rewrite (proj1 Hc). by apply ar_dir0.
      * rewrite (proj1 Ht); [apply ar_dir0|]. intros Hin. by apply join_not_prefix in Hin.
    + eapply wal_at_touches; [exact Ht| |done]. intros Hin. by apply join_not_prefix in Hin.
    + etrans; [apply Ht|done].
    + intros E. by apply Ht, ar_faults0.
  - destruct Hr as [([] & -> & ?)|(? & Hf & _)]; [by left|right]. split; [done|]. intros E. by apply Hf, ar_faults0.
Qed.

Lemma wp_lock_file_rest w0 w d ts c :
  at_rest w0 w d ts c → chain w d →
  wp (fs_open_create (lock_path d)) w (λ r w', at_rest w0 w' d ts c ∧
    (r = Ok tt ∧ chain w' d ∨ failed r ∧ w_faults w0 ≠ [])).
Proof.
  intros [] Hch. destruct (wal_at_exists w (lock_path d)) as [fl Hfl]; [apply ar_dir0|].
  eapply wp_mono.
  { apply (effect_open_create _ _ fl); [done|]. unfold lock_path. rewrite parent_join. by apply chain_is_dir. }
  intros r w2 [Ht Hr]. cbn [the_world world_world id] in Ht. split.
  - split.
    + eapply (dir_ok_child w); [exact Ht|intros id; apply sst_file_neq_lock|apply lock_not_table| |done].
      destruct Hr as [(a' & _ & Hfa)|(_ & _ & Hc)]; [|rewrite (proj1 Hc); apply ar_dir0].
      intros E. unfold file_at in Hfa. by rewrite E in Hfa.
    + eapply wal_at_touches; [exact Ht| |done]. intros E. by apply (wal_neq_lock d).
    + etrans; [apply Ht|done].
    + intros E. by apply Ht, ar_faults0.
  - destruct Hr as [([] & -> & _)|(? & Hf & _)]; [left|right].
    + split; [done|]. eapply chain_touches; [exact Ht| |done]. intros q. apply lock_not_prefix.
    + split; [done|]. intros E. by apply Hf, ar_faults0.
Qed.

(** The part of [open_with_dir] that runs with the lock. *)
Definition locked_result (w : world) d ts (c : bytes) log (r : outcome Store) (w' : world) : Prop :=
  dir_ok w' d ts ∧ log_kept_at w' d c (frames (committed log)) ∧
  w_locks w' = w_locks w ∧ (w_faults w = [] → w_faults w' = []) ∧
  match r with
  | Ok s => opened_over (w_faults w ≠ []) d ts c log (s, w')
  | Panic => False
  | _ => w_faults w ≠ []
  end.

Lemma wp_load_and_replay w0 w d ts c log :
  at_rest w0 w d ts c → chain w d → log_ok c log →
  wp (with_local (fresh_store d {| file_path := wal_path d; wal_file := None |}) (_ ← load_sstables; replay_wal)) w
    (locked_result w0 d ts c log).
Proof.
  intros [] Hch Hlog. assert (Hpar : parent (wal_path d) = d) by (unfold wal_path; by rewrite parent_join).
  apply wp_with_local. eapply wp_mono; [apply effect_open_body; [exact ar_dir0|exact Hch| |exact Hlog]|].
  - split_and!; [done|exact ar_log0| | |by left]; rewrite ?Hpar; [by apply chain_is_dir|].
    intros E. by apply (join_neq_dir d "wal.log").
  - intros r [s2 w2] [Ht2 Hr2]. cbn [fst snd the_world pair_world] in *.
    assert (Hk2 : dir_ok w2 d ts) by (by eapply dir_ok_wal).
    assert (Hl2 : w_locks w2 = w_locks w0) by (etrans; [apply Ht2|done]).
    assert (Hf2 : w_faults w0 = [] → w_faults w2 = []) by (intros E; by apply Ht2, ar_faults0).
    assert (Hff : w_faults w ≠ [] → w_faults w0 ≠ []) by auto.
    destruct Hr2 as [(a & -> & Ho)|([->|[msg ->]] & Hf & Hkeep)]; split_and!; auto.
    + destruct Ho as (ts0 & log0 & f & _ & Hread & _ & E & _ & _ & _ & Hl & _). unfold log_at in Hl.
      cbn [fst snd] in *. rewrite E in Hl. exists f. split; [apply Hl|].
      destruct Hread as [(_ & ->)|(_ & -> & _)]; [right; by right|by left].
    + by eapply opened_over_mono.
Qed.

Lemma wp_open_locked w d ts c log :
  at_rest w w d ts c → chain w d → log_ok c log →
  wp (wl ← with_path (wal_path d); with_local (fresh_store d wl) (_ ← load_sstables; replay_wal)) w
    (locked_result w d ts c log).
Proof.
  intros Hr Hch Hlog. assert (Hd : d ≠ []) by apply Hr.
  assert (Hpar : parent (wal_path d) = d) by (unfold wal_path; by rewrite parent_join).
  unfold with_path. rewrite Hpar. apply wp_bind, wp_bind, wp_attempt.
  eapply wp_mono; [exact (effect_create_dir_all (λ _, False) w d Hch Hd)|]. intros r w1 [Ht Hc].
  assert (Hc1 : calm w w1) by (by destruct Hc as [(a & _ & ?)|(_ & _ & ?)]).
  assert (Hr1 := at_rest_calm _ _ _ _ _ _ Hc1 Hr).
  assert (Hgo := wp_load_and_replay w w1 d ts c log Hr1 (chain_calm _ _ _ Hc1 Hch) Hlog).
  destruct Hc as [(a & -> & _)|([->|[msg ->]] & Hf & _)]; [exact Hgo| |exact Hgo].
  split_and!; [apply Hr1|by eapply at_rest_kept|apply Hr1..|done].
Qed.

Lemma wp_open_with_dir d ts c log w :
  dir_ok w d ts → wal_at w (wal_path d) (File c c) → log_ok c log →
  wp (open_with_dir d) w (open_result w d ts c log).
Proof.
  intros Hk Hw Hlog. unfold open_with_dir. assert (Hr0 : at_rest w w d ts c) by (by split).
  (* the directory *)
  apply wp_bind. eapply wp_mono; [by apply wp_make_dirs_rest|].
  intros r w1 [Hr1 [[-> Hch1]|[? ?]]]; [|by apply open_result_failed]. cbn [wp_seq].
  (* the lock file *)
  apply wp_bind. eapply wp_mono; [by apply wp_lock_file_rest|].
  intros r w2 [Hr2 [[-> Hch2]|[? ?]]]; [|by apply open_result_failed]. cbn [wp_seq].
  (* the lock *)
  apply wp_bind. eapply wp_mono; [apply wp_flock|]. intros r w3 (En & Hf3 & Hr). destruct Hr2.
  assert (Hk3 : dir_ok w3 d ts) by (by eapply dir_ok_nodes).
  assert (Hw3 : wal_at w3 (wal_path d) (File c c)) by (by eapply wal_at_nodes).
  assert (Hkept3 : log_kept_at w3 d c (frames (committed log))) by (exists (File c c); auto).
  assert (Hf3' : w_faults w = [] → w_faults w3 = []) by auto.
  destruct Hr as [(-> & Hfree & Hl3)|[(-> & Hheld & Hl3)|(-> & Hf)]]; cbn [wp_seq negb].
  2:{ apply wp_lift. split_and!; [done|done|auto|congruence|]. rewrite ar_locks0 in Hheld. destruct Hheld; auto. }
  2:{ split_and!; auto. }
  apply wp_closing. eapply wp_mono; [apply (wp_open_locked w3 d ts c log); [by split| |done]|].
  { intros q Hq. rewrite En. by apply Hch2. }
  intros r w4 (Hk4 & Hkept4 & Hl4 & Hf4 & Hr). rewrite ar_locks0 in *.
  destruct r as [s|e| |]; [| |done|by split_and!; auto].
  - split_and!; auto; [congruence|]. eapply opened_over_mono; [|exact Hr]. auto.
  - split_and!; [by apply (dir_ok_nodes w4)|exact Hkept4|auto| |auto].
    unfold unlock. cbn. rewrite Hl4, Hl3. set_solver.
Qed.
End recovery.
