(* ===== verification/StoreInv.v ===== *)
(** * The store and its files

    [store_inv] ties an open store to the files of its directory: what is in
    memory is what recovery would rebuild.  Writes preserve it, and whatever
    faults strike, a crash leaves the contents before or after the write. *)

From S2P Require Import Prelude Machine Value Checksum Bloom BlockCache Fs Wal SsTable Record Layout Image Search TableSpec Effects WalSpec BTree Store View Names StoreSpec StoreWrite StoreOps Replay Load Recovery.

Section storeinv.
Context {Prof : Profile} {Cd : Codec} {CdOk : CodecOk Cd} {RDir : ReadDir} {RDirOk : ReadDirOk RDir}.
Implicit Types (w : world) (ts : tabs) (d : path) (log new : list WalEntry) (f : file) (s : Store * world)
  (es : list (bytes * Entry)).

Record store_inv s ts log : Prop := {
  si_mem : mem_inv s.1 s.2 ts;
  si_log : log_at s (File (frames log) (frames log));
  si_len : Z.of_nat (length (frames log)) < 2 ^ 63;
  si_closed : closed log;
  si_valid : Forall valid_entry log;
  si_data : data s.1 = replay log ∅;
  si_size : Z.of_nat (size (data s.1)) < 2 ^ 31;
  si_tidy : tidy s.2 (dir s.1) ts.*1;
  si_lockfile : w_nodes s.2 !! lock_path (dir s.1) ≠ Some Dir;
  si_lock : lock s.1 = Some (lock_path (dir s.1));
}.

(** ** From the store to its files *)

Lemma mem_inv_dir_ok (s : Store) w ts :
  mem_inv s w ts → tidy w (dir s) ts.*1 → w_nodes w !! lock_path (dir s) ≠ Some Dir → dir_ok w (dir s) ts.
Proof.
  intros [] Ht Hl. split; try done.
  - intros q Hq. right. by apply mi_chain.
  - eapply list.Forall_impl; [done|]. cbn. lia.
Qed.

Lemma store_inv_dir_ok s ts log : store_inv s ts log → dir_ok s.2 (dir s.1) ts.
Proof. intros []. by apply mem_inv_dir_ok. Qed.

Lemma store_inv_log_ok s ts log : store_inv s ts log → log_ok (frames log) log.
Proof.
  intros []. split; [|done| |].
  - exists []. split; [by rewrite app_nil_r|apply torn_nil].
  - by rewrite si_closed0.
  - rewrite si_closed0, <-si_data0. done.
Qed.

Lemma store_inv_recovered s ts log : store_inv s ts log → recovered ts log = contents s.1 ts.
Proof. intros []. unfold recovered, contents. by rewrite si_closed0, si_data0. Qed.

(** The contents of an open store are on disk. *)
Lemma store_inv_recovers s ts log : store_inv s ts log → recovers s.2 (dir s.1) (contents s.1 ts).
Proof.
  intros Hs. exists ts, (frames log), log. split_and!; [by eapply store_inv_dir_ok| | |by eapply store_inv_recovered].
  - apply (si_log _ _ _ Hs).
  - by eapply store_inv_log_ok.
Qed.

(** ** From the files to the store *)

Lemma opened_inv d ts c log (s : Store) w :
  log_ok c log → tidy w d ts.*1 → w_nodes w !! lock_path d ≠ Some Dir → opened_store d ts log (settled log) (s, w) →
  store_inv (s, w) ts (committed log) ∧ contents s ts = recovered ts log.
Proof.
  intros [(tail & Hc & _) Hlen Hv Hsz] Ht Hl (Hi & Hd & Hdata & Hlk & _ & Hlog & _). cbn [fst snd] in *. split.
  - split; cbn [fst snd]; try done.
    + destruct (frames_prefix _ _ (committed_prefix log)) as [k Hk]. rewrite Hc, length_app, Hk, length_app in Hlen. lia.
    + apply closed_committed.
    + by rewrite Hdata.
    + by rewrite Hd.
    + by rewrite Hd.
    + by rewrite Hd.
  - unfold contents, recovered. by rewrite Hdata.
Qed.

(** A fault-free open gives the contents of the directory. *)
Lemma open_recovers w d m :
  recovers w d m → w_faults w = [] → ¬ (lock_path d ∈ w_locks w) →
  ∃ (s : Store) w' ts log, open_with_dir d w = (Ok s, w') ∧ store_inv (s, w') ts log ∧ contents s ts = m ∧
    dir s = d ∧ w_faults w' = [].
Proof.
  intros (ts & c & log & Hk & Hw & Hlog & <-) Hf Hfree.
  pose proof (wp_open_with_dir d ts c log w Hk Hw Hlog) as Hopen. unfold wp in Hopen.
  destruct (open_with_dir d w) as [r w']. cbn [fst snd] in Hopen. destruct Hopen as (Hk' & _ & Hf' & Hr).
  destruct r as [s|e| |]; [|by destruct Hr as (_ & [?|?])|done..].
  destruct Hr as (_ & _ & ts0 & log0 & f & [->|[_ ?]] & [[-> ->]|(_ & _ & ?)] & Ho); [|done..].
  destruct (opened_inv d ts c log s w' Hlog) as [Hs Hc]; [apply Hk'|apply Hk'|done|].
  exists s, w', ts, (committed log). split_and!; [done..| |auto]. by destruct Ho as (_ & ? & _).
Qed.

(** ** Crashes *)

(** Every crash leaves contents that satisfy [P]. *)
Definition crash_safe (w : world) d (P : gmap bytes Value → Prop) : Prop :=
  ∀ w', crash_world w w' → ∃ m, P m ∧ recovers w' d m.

Lemma crash_safe_mono w d (P Q : gmap bytes Value → Prop) :
  (∀ m, P m → Q m) → crash_safe w d P → crash_safe w d Q.
Proof. intros HPQ H w' Hc. destruct (H w' Hc) as (m & ? & ?). eauto. Qed.

(** What the log may hold after a crash decides what is recovered. *)
Lemma crash_safe_log w d ts f (P : gmap bytes Value → Prop) :
  dir_ok w d ts → wal_at w (wal_path d) f →
  (∀ c, crash_file f c → ∃ log, log_ok c log ∧ P (recovered ts log)) → crash_safe w d P.
Proof.
  intros Hk Hw Hf w' Hc. destruct (crash_wal _ _ _ _ Hc Hw) as (c & Hcf & Hw').
  destruct (Hf c Hcf) as (log & Hlog & HP). exists (recovered ts log). split; [done|].
  exists ts, c, log. split_and!; [by eapply dir_ok_crash|done..].
Qed.

Lemma store_inv_crash s ts log :
  store_inv s ts log → crash_safe s.2 (dir s.1) (λ m, m = contents s.1 ts).
Proof.
  intros Hs. eapply crash_safe_log; [by eapply store_inv_dir_ok|apply (si_log _ _ _ Hs)|].
  intros c ->%crash_settled. exists log. split; [by eapply store_inv_log_ok|by eapply store_inv_recovered].
Qed.

(** A recovery that is itself cut short loses nothing. *)
Lemma open_crash_safe w d m :
  recovers w d m → wp (open_with_dir d) w (λ _ w', crash_safe w' d (λ m', m' = m)).
Proof.
  intros (ts & c & log & Hk & Hw & Hlog & <-).
  eapply wp_mono; [by eapply wp_open_with_dir|]. intros r w' (Hk' & (f & Hf & Hkept) & _).
  assert (Hc' : log_ok (frames (committed log)) (committed log)).
  { destruct Hlog as [(tail & Hc & _) Hlen Hv Hsz]. split; rewrite ?committed_idemp; try done.
    - exists []. split; [by rewrite app_nil_r|apply torn_nil].
    - destruct (frames_prefix _ _ (committed_prefix log)) as [k Hkk]. rewrite Hc, length_app, Hkk, length_app in Hlen. lia. }
  assert (Hr' : recovered ts (committed log) = recovered ts log) by (unfold recovered; by rewrite committed_idemp).
  assert (Hpre : ∃ t, c = frames (committed log) ++ t).
  { destruct (lk_bytes _ _ Hlog) as (tail & -> & _). destruct (frames_prefix _ _ (committed_prefix log)) as [k ->].
    exists (k ++ tail). by rewrite <-app_assoc. }
  destruct Hpre as [t Ht]. eapply crash_safe_log; [done..|]. intros c2 Hcf.
  destruct Hkept as [->|[->| ->]].
  - apply crash_settled in Hcf as ->. by exists log.
  - rewrite Ht in Hcf. apply crash_truncated in Hcf as [->| ->]; [by exists (committed log)|].
    exists log. by rewrite <-Ht.
  - apply crash_settled in Hcf as ->. by exists (committed log).
Qed.
End storeinv.
