(* ===== verification/Writes.v ===== *)
(** * Writes and crashes

    What [StoreOps] says about the end of a write, in terms of [store_inv] and
    of crashes. *)

From S2P Require Import Prelude Machine Value Checksum Bloom BlockCache Fs Wal SsTable Record Layout Image Search TableSpec Effects WalSpec BTree Store View Names StoreSpec StoreWrite StoreOps Replay Load Recovery StoreInv.

Section writes.
Context {Prof : Profile} {Cd : Codec} {CdOk : CodecOk Cd} {RDir : ReadDir} {RDirOk : ReadDirOk RDir}.
Implicit Types (w : world) (ts : tabs) (d : path) (log new : list WalEntry) (f : file) (s : Store * world)
  (es : list (bytes * Entry)).

(** The records [new] log the writes [es]. *)
Record logs new es : Prop := {
  lg_batch : batch new;
  lg_valid : Forall valid_entry new;
  lg_writes : log_writes new = es;
}.

Lemma entry_writes_put k v n : entry_writes (create_put_entry k v n) = Some (k, EValue v).
Proof. by destruct v. Qed.

Lemma put_records k v n :
  small_entry k (EValue v) → logs [create_put_entry k v n; commit_entry n] [(k, EValue v)].
Proof.
  intros Hs. split.
  - exists [create_put_entry k v n], (commit_entry n). by split_and!; [|repeat constructor|].
  - constructor; [split; [intros _; by exists v|]|by constructor].
    intros ke. rewrite entry_writes_put. by intros [= <-].
  - rewrite log_writes_cons, entry_writes_put. done.
Qed.

Lemma delete_records k n :
  small_entry k Tombstone → logs [create_delete_entry k n; commit_entry n] [(k, Tombstone)].
Proof.
  intros Hs. split; [| |done].
  { exists [create_delete_entry k n], (commit_entry n). by split_and!; [|repeat constructor|]. }
  constructor; [split; [done|]|by constructor]. by intros ke [= <-].
Qed.

Lemma txn_log_spec n (l : list (bytes * option Value)) :
  Forall (λ ke, small_entry ke.1 ke.2) (prod_map id pending_entry <$> l) →
  Forall (λ e, is_commit e = false) (txn_log n l) ∧ Forall valid_entry (txn_log n l) ∧
  log_writes (txn_log n l) = prod_map id pending_entry <$> l.
Proof.
  revert n. induction l as [|[k [v|]] l IH]; intros n Hs; [done| |];
    cbn [fmap list_fmap] in Hs; apply list.Forall_cons in Hs as [Hk Hs];
    cbn [prod_map fst snd id pending_entry] in Hk; destruct (IH (n + 1) Hs) as (H1 & H2 & H3);
    cbn [txn_log fmap list_fmap].
  - destruct (put_records k v (to_u64 (n + 1)) Hk) as [_ Hv Hw]. apply list.Forall_cons in Hv as [Hv _].
    split_and!; [by constructor|by constructor|]. by rewrite log_writes_cons, H3, entry_writes_put.
  - destruct (delete_records k (to_u64 (n + 1)) Hk) as [_ Hv Hw]. apply list.Forall_cons in Hv as [Hv _].
    split_and!; [by constructor|by constructor|]. by rewrite log_writes_cons, H3.
Qed.

Lemma txn_records_logs (s : Store) (m : gmap bytes (option Value)) :
  Forall (λ ke, small_entry ke.1 ke.2) (pending_entries m) →
  logs (txn_records s (bt_iter m)) (pending_entries m).
Proof.
  intros Hs. destruct (txn_log_spec (rval (sequence s)) (bt_iter m) Hs) as (H1 & H2 & H3).
  unfold txn_records. set (c := commit_entry _). split.
  - by exists (txn_log (rval (sequence s)) (bt_iter m)), c.
  - apply list.Forall_app. split; [done|]. by repeat constructor.
  - rewrite log_writes_app, H3. cbn. by rewrite app_nil_r.
Qed.

(** ** When the write succeeds *)

Lemma closed_batch log new : closed log → batch new → closed (log ++ new).
Proof. intros _ (l & e & -> & _ & He). rewrite app_assoc. by apply closed_snoc. Qed.

Lemma write_data log new es (m : gmap bytes Entry) :
  logs new es → replay (log ++ new) m = insert_all es (replay log m).
Proof. intros [_ _ Hw]. by rewrite replay_app, (replay_writes new), Hw. Qed.

(** The log has room for [new]. *)
Definition log_room log new : Prop := Z.of_nat (length (frames log)) + Z.of_nat (length (frames new)) < 2 ^ 63.

(** How far the counters and sizes of a store have moved: [n] more keys, the
    records [new] in the log. *)
Record grows (n : Z) new s ts log s' ts' log' : Prop := {
  gr_keys : Z.of_nat (size (data s'.1 ∪ tables_map ts')) <= Z.of_nat (size (data s.1 ∪ tables_map ts)) + n;
  gr_ids : next_sstable_id s'.1 <= next_sstable_id s.1 + 2;
  gr_seq : rval (sequence s'.1) <= rval (sequence s.1) + n;
  gr_log : log' = log ++ new ∨ log' = log ∨ log' = [];
  gr_dir : dir s'.1 = dir s.1;
  gr_budget : memtable_max_bytes s'.1 = memtable_max_bytes s.1;
}.

Lemma written_inv s ts log new es s1 :
  store_inv s ts log → logs new es → log_room log new → Z.of_nat (size (data s.1)) + Z.of_nat (length es) < 2 ^ 31 →
  written s ts (File (frames log) (frames log)) new es s1 →
  store_inv s1 ts (log ++ new) ∧ contents s1.1 ts = write_all es (contents s.1 ts).
Proof.
  intros [] Hl Hroom Hsz ((wl & n & E & _) & Hi & Ht & Hlog). cbn [f_content] in Hlog.
  assert (Hlock : w_nodes s1.2 !! lock_path (dir s.1) = w_nodes s.2 !! lock_path (dir s.1)).
  { apply (proj1 Ht). apply wal_neq_lock. }
  assert (Hd : dir s1.1 = dir s.1) by (by rewrite E).
  split.
  - split; rewrite ?frames_app, ?length_app; try done.
    + unfold log_room in Hroom. lia.
    + apply closed_batch; [done|apply Hl].
    + apply list.Forall_app. split; [done|apply Hl].
    + rewrite (write_data _ _ es) by done. by rewrite E, <-si_data.
    + rewrite E. cbn. pose proof (size_insert_all es (data s.1)). lia.
    + rewrite Hd. eapply (tidy_touches (eq (wal_path (dir s.1)))); [exact Ht| |done].
      intros name <-. apply wal_not_table.
    + by rewrite Hd, Hlock.
    + by rewrite Hd, E.
  - unfold contents. rewrite E. cbn. apply values_insert_all.
Qed.

Lemma written_grows s ts f log new es s1 :
  written s ts f new es s1 → grows (Z.of_nat (length es)) new s ts log s1 ts (log ++ new).
Proof.
  intros ((wl & n & E & Hn) & _). split; rewrite ?E; cbn; try done; try lia.
  - rewrite <-insert_all_union. pose proof (size_insert_all es (data s.1 ∪ tables_map ts)). lia.
  - by left.
Qed.

Lemma flush_done_inv s ts log s' :
  store_inv s ts log → w_faults s.2 = [] ∨ (length ts < 8)%nat → w_nodes s'.2 !! lock_path (dir s.1) ≠ Some Dir →
  flush_done s ts s' →
  store_inv s' (flushed_tabs s.1 ts) [] ∧ contents s'.1 (flushed_tabs s.1 ts) = contents s.1 ts.
Proof.
  intros [] Hf Hlk (Hi & Hd & (Ed & _ & _ & El) & Hlog & _ & Ht). split.
  - split; rewrite ?Ed; try done.
    + by rewrite Hd.
    + by apply Ht.
    + by rewrite El.
  - unfold contents. rewrite Hd, map_empty_union. apply flushed_tabs_map.
Qed.

Lemma flush_done_grows s ts log s' :
  flush_done s ts s' → grows 0 [] s ts log s' (flushed_tabs s.1 ts) [].
Proof.
  intros (_ & Hd & (Ed & Eq & Eb & _) & _ & Hn & _). split; try done; [|rewrite Eq; lia|by right; right].
  rewrite Hd, map_empty_union. pose proof (flushed_tabs_size s.1 ts). lia.
Qed.

(** The end of a fault-free write. *)
Lemma write_done_inv s ts log new es s' :
  store_inv s ts log → logs new es → log_room log new → Z.of_nat (size (data s.1)) + Z.of_nat (length es) < 2 ^ 31 →
  w_faults s.2 = [] → touches (own (dir s.1)) s.2 s'.2 →
  write_done s ts (File (frames log) (frames log)) new es s' →
  ∃ ts' log', store_inv s' ts' log' ∧ contents s'.1 ts' = write_all es (contents s.1 ts) ∧
    grows (Z.of_nat (length es)) new s ts log s' ts' log'.
Proof.
  intros Hs Hl Hroom Hsz Hf Ht (s1 & Hw & Hend).
  destruct (written_inv _ _ _ _ _ _ Hs Hl Hroom Hsz Hw) as [Hs1 Hc1].
  pose proof (written_grows _ _ _ log _ _ _ Hw) as Hg.
  destruct Hend as [->|Hfl]; [by exists ts, (log ++ new)|].
  pose proof (flush_done_grows _ _ (log ++ new) _ Hfl) as Hg'.
  assert (Hn : next_sstable_id s1.1 = next_sstable_id s.1) by (destruct Hw as ((wl & n & E & _) & _); by rewrite E).
  destruct Hw as ((wl & n & E & _) & _ & Ht1 & _). assert (Hd : dir s1.1 = dir s.1) by (by rewrite E).
  destruct (flush_done_inv _ _ _ s' Hs1) as (Hs' & Hc'); [left; by apply Ht1| |done|].
  - rewrite Hd, (proj1 Ht); [apply (si_lockfile _ _ _ Hs)|].
    intros [Eq|[id Eq]]; [by apply (wal_neq_lock (dir s.1))|by apply (sst_file_neq_lock (dir s.1) id)].
  - exists (flushed_tabs s1.1 ts), []. split_and!; [done|by rewrite Hc', Hc1|]. destruct Hg, Hg'.
    split; [lia|lia|lia|by right; right|congruence|congruence].
Qed.

(** ** When the write fails *)

(** A write cut short while it was logged: a crash leaves the old contents or
    the new ones. *)
Lemma log_failed_crash s ts log new es s' :
  store_inv s ts log → logs new es → log_room log new → Z.of_nat (size (data s.1)) + Z.of_nat (length es) < 2 ^ 31 →
  log_failed s (File (frames log) (frames log)) new s' →
  crash_safe s'.2 (dir s.1) (λ m, m = contents s.1 ts ∨ m = write_all es (contents s.1 ts)).
Proof.
  intros Hs Hl Hroom Hsz ((wl & n & E) & Ht & t & Hp & Hlog). assert (Hs' := Hs). destruct Hs'.
  assert (Hd : dir s'.1 = dir s.1) by (by rewrite E). unfold log_room in Hroom.
  apply (crash_safe_log _ _ ts (File (frames log ++ t) (frames log))).
  - eapply dir_ok_wal; [exact Ht|by eapply store_inv_dir_ok].
  - unfold log_at in Hlog. rewrite Hd in Hlog. apply Hlog.
  - intros c (t' & Hp' & ->)%crash_added. assert (Hp2 : t' `prefix_of` frames new) by (by etrans).
    destruct (cut_batch log new t' si_closed (lg_batch _ _ Hl) Hp2) as (log1 & tail & Ec & Htorn & Hcom); [lia|].
    assert (Hlen : (length t' <= length (frames new))%nat) by (by apply prefix_length).
    exists log1.
    assert (Hrec : recovered ts log1 = contents s.1 ts ∨ recovered ts log1 = write_all es (contents s.1 ts)).
    { unfold recovered, contents. rewrite si_data. destruct Hcom as [-> | ->]; [by left|right].
      by rewrite (write_data _ _ es), values_insert_all. }
    split; [|done]. split.
    + by exists tail.
    + rewrite length_app. lia.
    + destruct Hcom as [-> | ->]; [done|]. apply list.Forall_app. split; [done|apply Hl].
    + destruct Hcom as [-> | ->]; [by rewrite <-si_data|]. rewrite (write_data _ _ es), <-si_data by done.
      pose proof (size_insert_all es (data s.1)). lia.
Qed.

Lemma crash_safe_nodes w w' d (P : gmap bytes Value → Prop) :
  w_nodes w' = w_nodes w → crash_safe w d P → crash_safe w' d P.
Proof. intros E H w2 [Hn Hl]. apply H. split; [by rewrite <-E|done]. Qed.

(** Without the file [p]. *)
Definition without (p : path) : world → world := set_nodes (delete p).

Lemma crash_without w w' p : crash_world w w' → crash_world (without p w) (without p w').
Proof.
  intros [Hn Hl]. split; [|done]. intros q. cbn. destruct (decide (p = q)) as [->|Hne].
  - rewrite !lookup_delete_eq. constructor.
  - by rewrite !lookup_delete_ne.
Qed.

Lemma touches_without p w : touches (eq p) (without p w) w.
Proof. split_and!; [|done..]. intros q Hq. cbn. by rewrite lookup_delete_ne. Qed.

(** A table that appears in a directory. *)
Lemma dir_ok_add w d ts id es :
  dir_ok (without (sst_file d id) w) d ts → holds w (sst_file d id) (image es) → fits es → sorted_keys es →
  0 <= id < 2 ^ 64 - 1 → Forall (λ i, i < id) ts.*1 → dir_ok w d ((id, es) :: ts).
Proof.
  intros Hk Hh Hfit Hsort Hid Hlt. set (p := sst_file d id) in *. assert (Ht := touches_without p w). destruct Hk.
  assert (Hp : ∀ q, p ≠ q → w_nodes w !! q = w_nodes (without p w) !! q) by apply Ht.
  split; cbn [fmap list_fmap fst]; try done.
  - intros q Hq. rewrite Hp; [by apply dk_free|]. intros <-. by apply join_not_prefix in Hq.
  - constructor; [done|]. apply list.Forall_forall. intros x Hx. pose proof Hlt as Hlt'.
    rewrite list.Forall_forall in dk_files. rewrite list.Forall_forall in dk_ids. rewrite list.Forall_forall in Hlt'.
    eapply table_on_touches; [exact Ht| |by apply dk_files]. intros E.
    assert (Hx1 : x.1 ∈ ts.*1) by (by apply list_elem_of_fmap_2).
    specialize (Hlt' _ Hx1). specialize (dk_ids _ Hx1). cbn in *. apply sst_file_inj in E; lia.
  - constructor; [done|]. eapply list.Forall_impl; [exact Hlt|]. cbn. lia.
  - by constructor.
  - intros name i Hex Hi. destruct (decide (p = join d name)) as [E|Hne].
    + apply join_inj in E as <-. assert (Hid' := sstable_id_roundtrip d id ltac:(lia)).
      unfold sst_file in Hid'. rewrite Hid' in Hi. injection Hi as <-. split; [done|left].
    + rewrite Hp in Hex by done. destruct (dk_tidy _ _ Hex Hi). split; [done|by right].
  - intros i. destruct (decide (p = sst_file d i)) as [<-|Hne]; [|by rewrite Hp].
    apply holds_node in Hh. by rewrite Hh.
  - rewrite Hp; [done|]. intros E. by apply (sst_file_neq_lock d id).
Qed.

Lemma recovers_crash s ts log w w' :
  store_inv s ts log → w_nodes w = w_nodes s.2 → crash_world w w' →
  dir_ok w' (dir s.1) ts ∧ wal_at w' (wal_path (dir s.1)) (File (frames log) (frames log)).
Proof.
  intros Hs En Hc. assert (Hk : dir_ok w (dir s.1) ts) by (eapply dir_ok_nodes; [done|by eapply store_inv_dir_ok]).
  split; [by eapply dir_ok_crash|].
  assert (Hw : wal_at w (wal_path (dir s.1)) (File (frames log) (frames log))).
  { eapply wal_at_nodes; [done|]. apply (si_log _ _ _ Hs). }
  destruct (crash_wal _ _ _ _ Hc Hw) as (c & ->%crash_settled & ?). done.
Qed.

(** The old log over the tables with the new one. *)
Lemma recovers_twice s ts log w :
  store_inv s ts log → dir_ok w (dir s.1) ((next_sstable_id s.1, bt_iter (data s.1)) :: ts) →
  wal_at w (wal_path (dir s.1)) (File (frames log) (frames log)) → recovers w (dir s.1) (contents s.1 ts).
Proof.
  intros Hs Hk Hw. eexists _, _, log. split; [exact Hk|]. split; [exact Hw|]. split; [by eapply store_inv_log_ok|].
  destruct Hs. unfold recovered, contents.
  rewrite si_closed, <-si_data, tables_map_push, (assoc_L (∪)). by rewrite (idemp_L (∪)).
Qed.

(** No file has the name of the next table. *)
Lemma next_unused s ts log : store_inv s ts log → w_nodes s.2 !! sst_file (dir s.1) (next_sstable_id s.1) = None.
Proof.
  intros Hs. destruct (w_nodes s.2 !! _) eqn:E; [|done]. exfalso.
  assert (Hi := si_mem _ _ _ Hs). assert (Hids := mi_ids _ _ _ Hi). rewrite list.Forall_forall in Hids.
  destruct (si_tidy _ _ _ Hs (sstable_name (next_sstable_id s.1)) (next_sstable_id s.1)) as [_ Hin].
  - unfold sst_file in E. rewrite E. by eexists.
  - apply sstable_id_roundtrip, (mi_next _ _ _ Hi).
  - specialize (Hids _ Hin). lia.
Qed.

(** The table was not finished: nothing, a part of it or all of it is there after
    a crash, and the log still has its records. *)
Definition torn_at (p : path) (img : bytes) (w : world) : Prop :=
  ∃ t, t `prefix_of` img ∧ t ≠ img ∧ file_at w p = Some (File t t).

Lemma crash_torn_file w w' p t :
  crash_world w w' → file_at w p = Some (File t []) → ∃ t', t' `prefix_of` t ∧ file_at w' p = Some (File t' t').
Proof.
  intros [Hn _] Hf. specialize (Hn p). unfold file_at in *.
  destruct (w_nodes w !! p) as [[|f]|]; [done| |done]. injection Hf as ->.
  inversion Hn as [n n' Hc E1 E2|]; subst. destruct Hc as (c & Hc & ->). exists c. split; [|done].
  inversion Hc; subst; cbn; [apply prefix_nil|apply prefix_take].
Qed.

Lemma unfinished_table_crash s ts log s' w' :
  let p := sst_file (dir s.1) (next_sstable_id s.1) in
  let img := image (bt_iter (data s.1)) in
  store_inv s ts log → next_sstable_id s.1 + 2 < 2 ^ 64 → touches (eq p) s.2 s'.2 →
  (∃ t, t `prefix_of` img ∧ file_at s'.2 p = Some (File t [])) → crash_world s'.2 w' →
  recovers w' (dir s.1) (contents s.1 ts) ∨
  torn_at p img w' ∧ recovers (without p w') (dir s.1) (contents s.1 ts).
Proof.
  intros p img Hs Hnext Ht (t & Hp & Hf) Hcrash. assert (Hi := si_mem _ _ _ Hs).
  destruct (crash_torn_file _ _ _ _ Hcrash Hf) as (t' & Hp' & Hf').
  assert (En : w_nodes (without p s'.2) = w_nodes s.2).
  { apply map_eq. intros q. cbn. destruct (decide (p = q)) as [<-|Hne].
    - rewrite lookup_delete_eq. symmetry. by eapply next_unused.
    - rewrite lookup_delete_ne by done. by apply (proj1 Ht). }
  destruct (recovers_crash s ts log _ _ Hs En (crash_without _ _ p Hcrash)) as [Hk Hw].
  destruct (decide (t' = img)) as [->|Hne].
  - left. eapply recovers_twice; [done| |].
    + apply dir_ok_add; [exact Hk|exact Hf'|eapply memtable_fits; [done|apply Hs]|apply bt_iter_sorted| |].
      * pose proof (mi_next _ _ _ Hi). lia.
      * eapply list.Forall_impl; [apply (mi_ids _ _ _ Hi)|]. cbn. lia.
    + eapply wal_at_touches; [apply touches_without| |exact Hw]. apply sst_file_neq_wal.
  - right. split; [exists t'; split_and!; [by etrans|done..]|].
    exists ts, (frames log), log. split_and!; [done..|by eapply store_inv_log_ok|by eapply store_inv_recovered].
Qed.

(** A flush cut short with fewer than eight tables: a crash leaves the contents
    as they are, or a torn table as the only harm. *)
Lemma flush_failed_crash s ts log s' w' :
  let p := sst_file (dir s.1) (next_sstable_id s.1) in
  store_inv s ts log → (length ts < 8)%nat → next_sstable_id s.1 + 2 < 2 ^ 64 → touches (own (dir s.1)) s.2 s'.2 →
  flush_failed s ts (File (frames log) (frames log)) s' → crash_world s'.2 w' →
  recovers w' (dir s.1) (contents s.1 ts) ∨
  s'.1 = s.1 ∧ torn_at p (image (bt_iter (data s.1))) w' ∧ recovers (without p w') (dir s.1) (contents s.1 ts).
Proof.
  intros p Hs Hlt Hnext Ht Hfail Hcrash. inversion Hfail as [g Es Htp Hg Hun|Hfl Hlog Htidy|]; [| |lia].
  - assert (Eg : g = File [] []) by (unfold wal_at in Hg; by rewrite (next_unused _ _ _ Hs) in Hg). subst g.
    destruct Hun as [Hc|(t & Hp & Hf)].
    + left. destruct (recovers_crash s ts log _ _ Hs (proj1 Hc) Hcrash) as [Hk Hw].
      exists ts, (frames log), log. split_and!; [done..|by eapply store_inv_log_ok|by eapply store_inv_recovered].
    + destruct (unfinished_table_crash s ts log s' w' Hs Hnext Htp) as [?|[? ?]]; [by exists t|done|by left|by right].
  - left. destruct Hfl as (Hi & Hd & _ & (Ed & _)). set (ts' := (next_sstable_id s.1, bt_iter (data s.1)) :: ts) in *.
    assert (Hk : dir_ok s'.2 (dir s.1) ts').
    { rewrite <-Ed. apply mem_inv_dir_ok; [done| |]; rewrite Ed; [by apply Htidy, Hs|].
      rewrite (proj1 Ht); [apply Hs|].
      intros [E|[id E]]; [by apply (wal_neq_lock (dir s.1))|by apply (sst_file_neq_lock (dir s.1) id)]. }
    assert (Hk' := dir_ok_crash _ _ _ _ Hcrash Hk). unfold log_at in Hlog. rewrite Ed in Hlog. cbn [f_durable] in Hlog.
    assert (Hw : ∃ c, (c = frames log ∨ c = []) ∧ wal_at w' (wal_path (dir s.1)) (File c c)).
    { destruct Hlog as [Hlog|Hlog]; destruct (crash_wal _ _ _ _ Hcrash (proj1 (proj2 Hlog))) as (c & Hc & Hw).
      - apply crash_settled in Hc as ->. eauto.
      - apply (crash_truncated [] (frames log)) in Hc as [->| ->]; eauto. }
    destruct Hw as (c & [->| ->] & Hw); [by eapply recovers_twice|].
    exists ts', [], []. split_and!; [done..| |].
    + split; [exists []; split; [done|apply torn_nil]|done|constructor|done].
    + unfold recovered, contents, ts'. cbn [committed replay fold_left]. by rewrite map_empty_union, tables_map_push.
Qed.

(** ** Memory *)

(** Whatever happens to a write, the open store still reads as before or after. *)
Lemma flush_failed_mem s ts f s' :
  mem_inv s.1 s.2 ts → flush_failed s ts f s' →
  ∃ ts', mem_inv s'.1 s'.2 ts' ∧ contents s'.1 ts' = contents s.1 ts.
Proof.
  intros Hi Hfail.
  assert (Hmap : values (tables_map ((next_sstable_id s.1, bt_iter (data s.1)) :: ts)) = contents s.1 ts).
  { by rewrite tables_map_push. }
  inversion Hfail as [g Es Htp Hg Hun|Hfl Hlog Htidy|ts' _ Hi' Hd Hm _ _].
  - exists ts. rewrite Es. split; [by eapply mem_inv_unwritten|done].
  - destruct Hfl as (Hi' & Hd & _). eexists. split; [exact Hi'|]. unfold contents at 1. by rewrite Hd, map_empty_union.
  - exists ts'. split; [done|]. unfold contents at 1. rewrite Hd, map_empty_union. exact Hm.
Qed.

Lemma flush_done_mem s ts s' :
  flush_done s ts s' → ∃ ts', mem_inv s'.1 s'.2 ts' ∧ contents s'.1 ts' = contents s.1 ts.
Proof.
  intros (Hi & Hd & _). eexists. split; [exact Hi|].
  unfold contents at 1. rewrite Hd, map_empty_union. apply flushed_tabs_map.
Qed.

Lemma written_mem s ts f new es s' :
  written s ts f new es s' → mem_inv s'.1 s'.2 ts ∧ contents s'.1 ts = write_all es (contents s.1 ts).
Proof.
  intros ((wl & n & E & _) & Hi & _). split; [done|]. unfold contents. rewrite E. cbn. apply values_insert_all.
Qed.

Lemma write_done_mem s ts f new es s' :
  write_done s ts f new es s' →
  ∃ ts', mem_inv s'.1 s'.2 ts' ∧ contents s'.1 ts' = write_all es (contents s.1 ts).
Proof.
  intros (s1 & Hw & Hend). destruct (written_mem _ _ _ _ _ _ Hw) as [Hi1 Hc1].
  destruct Hend as [->|Hfl]; [by exists ts|]. destruct (flush_done_mem _ _ _ Hfl) as (ts' & ? & Hc).
  exists ts'. split; [done|]. by rewrite Hc.
Qed.

Lemma write_failed_mem s ts f new es s' :
  mem_inv s.1 s.2 ts → write_failed s ts f new es s' →
  ∃ ts', mem_inv s'.1 s'.2 ts' ∧
    (contents s'.1 ts' = contents s.1 ts ∨ contents s'.1 ts' = write_all es (contents s.1 ts)).
Proof.
  intros Hi [((wl & n & E) & Ht & t & Hp & Hlog)|(s1 & Hw & Hfail)].
  - exists ts. rewrite E in *. split; [|left; done]. unfold log_at in Hlog. cbn in Hlog. rewrite E in Hlog. cbn in Hlog.
    eapply (mem_inv_log (set_sequence n s.1)); [by apply mem_inv_sequence|exact Ht|exact Hlog].
  - destruct (written_mem _ _ _ _ _ _ Hw) as [Hi1 Hc1].
    destruct (flush_failed_mem _ _ _ _ Hi1 Hfail) as (ts' & ? & Hc). exists ts'. split; [done|right]. by rewrite Hc.
Qed.

(** ** Single writes *)

(** The records of a write of one key. *)
Definition one_records (we : u64 → WalEntry) s : list WalEntry :=
  let n := to_u64 (rval (sequence s.1) + 1) in [we n; commit_entry n].

Lemma room_size (s : Store) ts n : room s ts n → Z.of_nat (size (data s)) + n < 2 ^ 31.
Proof. intros [Hk _ _]. pose proof (size_union_l (data s) (tables_map ts)). lia. Qed.

(** Without faults. *)
Lemma write_one_grows s ts log key e we msg :
  store_inv s ts log → w_faults s.2 = [] → small_entry key e → room s.1 ts 1 →
  logs (one_records we s) [(key, e)] → log_room log (one_records we s) →
  ∃ s' ts' log', write_one key e we msg s = (Ok msg, s') ∧ store_inv s' ts' log' ∧
    w_faults s'.2 = [] ∧ contents s'.1 ts' = write_entry key e (contents s.1 ts) ∧
    grows 1 (one_records we s) s ts log s' ts' log'.
Proof.
  intros Hs Hf He Hr Hl Hroom.
  destruct (effect_quiet _ _ _ _ _ (effect_write_one s ts _ key e we msg (si_mem _ _ _ Hs) (si_log _ _ _ Hs) He Hr) Hf)
    as (r & s' & E & Ht & -> & Hd).
  pose proof (room_size _ _ _ Hr) as Hsz.
  destruct (write_done_inv _ _ _ _ _ _ Hs Hl Hroom Hsz Hf Ht Hd) as (ts' & log' & Hs' & Hc & Hg).
  exists s', ts', log'. split_and!; [done|done|by apply Ht|done|exact Hg].
Qed.

Lemma write_one_ok s ts log key e we msg :
  store_inv s ts log → w_faults s.2 = [] → small_entry key e → room s.1 ts 1 →
  logs (one_records we s) [(key, e)] → log_room log (one_records we s) →
  ∃ s' ts' log', write_one key e we msg s = (Ok msg, s') ∧ store_inv s' ts' log' ∧
    w_faults s'.2 = [] ∧ contents s'.1 ts' = write_entry key e (contents s.1 ts).
Proof.
  intros Hs Hf He Hr Hl Hroom.
  destruct (write_one_grows s ts log key e we msg Hs Hf He Hr Hl Hroom) as (s' & ts' & log' & ? & ? & ? & ? & _).
  by exists s', ts', log'.
Qed.

(** Without faults and below the budget: the tables stay, the records are in the
    log. *)
Lemma write_one_logged s ts log key e we msg :
  store_inv s ts log → w_faults s.2 = [] → small_entry key e → room s.1 ts 1 →
  logs (one_records we s) [(key, e)] → log_room log (one_records we s) →
  footprint (<[key := e]> (data s.1)) < memtable_max_bytes s.1 →
  ∃ s', write_one key e we msg s = (Ok msg, s') ∧ store_inv s' ts (log ++ one_records we s) ∧
    w_faults s'.2 = [] ∧ data s'.1 = <[key := e]> (data s.1) ∧ next_sstable_id s'.1 = next_sstable_id s.1 ∧
    grows 1 (one_records we s) s ts log s' ts (log ++ one_records we s).
Proof.
  intros Hs Hf He Hr Hl Hroom Hb.
  destruct (effect_quiet _ _ _ _ _
    (effect_write_one_quiet s ts _ key e we msg (si_mem _ _ _ Hs) (si_log _ _ _ Hs) He Hr Hb) Hf)
    as (r & s' & E & Ht & -> & Hw).
  destruct (written_inv _ _ _ _ _ _ Hs Hl Hroom (room_size _ _ _ Hr) Hw) as [Hs' _].
  pose proof (written_grows _ _ _ log _ _ _ Hw) as Hg.
  assert (Hd : data s'.1 = <[key := e]> (data s.1) ∧ next_sstable_id s'.1 = next_sstable_id s.1)
    by (destruct Hw as ((wl & n & -> & _) & _); done).
  exists s'. split_and!; [done|done|by apply Ht|apply Hd..|exact Hg].
Qed.

(** Under any faults, below the budget: what a crash afterwards leaves. *)
Lemma write_one_crash s ts log key e we msg :
  store_inv s ts log → small_entry key e → room s.1 ts 1 →
  logs (one_records we s) [(key, e)] → log_room log (one_records we s) →
  footprint (<[key := e]> (data s.1)) < memtable_max_bytes s.1 →
  wp (write_one key e we msg) s (λ r s',
    r ≠ Panic ∧
    crash_safe s'.2 (dir s.1) (λ m, m = write_entry key e (contents s.1 ts) ∨
      r ≠ Ok msg ∧ m = contents s.1 ts)).
Proof.
  intros Hs He Hr Hl Hroom Hbudget. pose proof (room_size _ _ _ Hr) as Hsz.
  eapply wp_mono; [apply (effect_write_one_quiet s ts _ key e we msg (si_mem _ _ _ Hs) (si_log _ _ _ Hs) He Hr Hbudget)|].
  intros r s' [Ht Hend]. destruct Hend as [(a & -> & -> & Hw)|(Hfail & _ & Hcut)].
  - split; [done|]. destruct (written_inv _ _ _ _ _ _ Hs Hl Hroom Hsz Hw) as [Hs1 Hc1].
    assert (Hd : dir s'.1 = dir s.1) by (destruct Hw as ((wl & n & E & _) & _); by rewrite E).
    pose proof (store_inv_crash _ _ _ Hs1) as Hcr. rewrite Hd in Hcr.
    eapply crash_safe_mono; [|exact Hcr]. intros m ->. by left.
  - assert (Hne : r ≠ Panic ∧ r ≠ Ok msg) by (by destruct Hfail as [->|[? ->]]). destruct Hne. split; [done|].
    eapply crash_safe_mono; [|by eapply log_failed_crash]. intros m [->| ->]; auto.
Qed.

(** Under any faults: what the open store then reads as. *)
Lemma write_one_faults s ts log key e we msg :
  store_inv s ts log → small_entry key e → room s.1 ts 1 →
  wp (write_one key e we msg) s (λ r s', ∃ ts', mem_inv s'.1 s'.2 ts' ∧
    (r = Ok msg ∧ contents s'.1 ts' = write_entry key e (contents s.1 ts) ∨
     failed r ∧ w_faults s.2 ≠ [] ∧
       (contents s'.1 ts' = contents s.1 ts ∨ contents s'.1 ts' = write_entry key e (contents s.1 ts)))).
Proof.
  intros Hs He Hr.
  eapply wp_mono; [apply (effect_write_one s ts _ key e we msg (si_mem _ _ _ Hs) (si_log _ _ _ Hs) He Hr)|].
  intros r s' [_ [(a & -> & -> & Hd)|(Hf & Hne & Hfail)]].
  - destruct (write_done_mem _ _ _ _ _ _ Hd) as (ts' & Hi & Hc). exists ts'. auto.
  - destruct (write_failed_mem _ _ _ _ _ _ (si_mem _ _ _ Hs) Hfail) as (ts' & Hi & Hc). exists ts'. auto.
Qed.

Lemma size_union_r (m1 m2 : gmap bytes Entry) : (size m2 <= size (m1 ∪ m2))%nat.
Proof.
  rewrite <-!size_dom. apply subseteq_size. rewrite dom_union. set_solver.
Qed.

(** ** Transactions *)

Lemma write_all_lookup es m k :
  NoDup es.*1 → write_all es m !! k = match lookup_in es k with Some e => entry_value e | None => m !! k end.
Proof.
  unfold write_all. revert m. induction es as [|[k' e] es IH]; intros m; cbn [fold_left fmap list_fmap fst].
  - intros _. done.
  - intros [Hk Hd]%list.NoDup_cons. rewrite IH by done. rewrite lookup_in_cons.
    destruct (decide (k' = k)) as [->|Hne].
    + rewrite (proj2 (lookup_in_none es k)) by done. rewrite write_entry_lookup. by rewrite decide_True.
    + destruct (lookup_in es k); [done|]. rewrite write_entry_lookup. by rewrite decide_False.
Qed.

(** The buffered writes of a transaction over the contents below them. *)
Definition overlay (p : gmap bytes (option Value)) (m : gmap bytes Value) : gmap bytes Value :=
  merge (λ o v, match o with Some o => o | None => v end) p m.

Lemma overlay_lookup p m k : overlay p m !! k = match p !! k with Some o => o | None => m !! k end.
Proof. unfold overlay. rewrite lookup_merge. by destruct (p !! k) as [[]|], (m !! k). Qed.

Lemma write_all_overlay p m : write_all (pending_entries p) m = overlay p m.
Proof.
  apply map_eq. intros k. rewrite overlay_lookup.
  assert (Hfst : (pending_entries p).*1 = (bt_iter p).*1).
  { unfold pending_entries. rewrite <-list_fmap_compose. apply list_fmap_ext. by intros ? [] _. }
  rewrite write_all_lookup by (rewrite Hfst; apply bt_iter_nodup).
  destruct (p !! k) as [o|] eqn:E.
  - assert (Hin : (k, pending_entry o) ∈ pending_entries p).
    { apply list_elem_of_fmap. exists (k, o). split; [done|]. by apply elem_of_bt_iter. }
    unfold lookup_in. rewrite (elem_of_list_to_map_1 _ k (pending_entry o)); [by destruct o| |done].
    rewrite Hfst. apply bt_iter_nodup.
  - rewrite (proj2 (lookup_in_none _ k)); [done|]. rewrite Hfst, elem_of_bt_iter_keys, E. by intros [].
Qed.

Lemma pending_size (p : gmap bytes (option Value)) : length (pending_entries p) = size p.
Proof. unfold pending_entries. by rewrite length_fmap, length_bt_iter. Qed.

(** The conditions under which a transaction may commit. *)
Record committable (s : Transaction * world) ts log : Prop := {
  cm_inv : store_inv (st s) ts log;
  cm_small : Forall (λ ke, small_entry ke.1 ke.2) (pending_entries (pending s.1));
  cm_room : room (store s.1) ts (Z.of_nat (size (pending s.1)));
  cm_log : log_room log (txn_records (store s.1) (bt_iter (pending s.1)));
}.

Lemma committable_size (s : Transaction * world) ts log :
  committable s ts log → Z.of_nat (size (data (store s.1))) + Z.of_nat (length (pending_entries (pending s.1))) < 2 ^ 31.
Proof. intros []. rewrite pending_size. by eapply (room_size _ ts). Qed.

Lemma grows_refl s ts log : grows 0 [] s ts log s ts log.
Proof. split; try lia; try done. by right; left. Qed.

Lemma txn_commit_grows (s : Transaction * world) ts log :
  committable s ts log → w_faults s.2 = [] →
  ∃ (s' : Transaction * world) ts' log', txn_commit s = (Ok tt, s') ∧ store_inv (st s') ts' log' ∧ w_faults s'.2 = [] ∧
    contents (store s'.1) ts' = overlay (pending s.1) (contents (store s.1) ts) ∧
    grows (Z.of_nat (size (pending s.1))) (txn_records (store s.1) (bt_iter (pending s.1))) (st s) ts log (st s') ts' log'.
Proof.
  intros Hcm Hf. pose proof (committable_size _ _ _ Hcm) as Hsz. destruct Hcm as [Hs Hes Hroom Hlog].
  rewrite <-write_all_overlay. destruct (decide (pending s.1 = ∅)) as [He|Hne].
  - exists s, ts, log. split_and!; [|done..|by rewrite He|].
    + unfold txn_commit. erewrite bind_ok by done. cbn [id]. by rewrite decide_True.
    + rewrite He, map_size_empty. split; try lia; try done. by right; left.
  - destruct (effect_quiet _ _ _ _ _ (effect_txn_commit s ts _ Hne (si_mem _ _ _ Hs) (si_log _ _ _ Hs) Hes Hroom) Hf)
      as ([] & s' & E & Ht & Hd).
    destruct (write_done_inv (st s) _ _ _ _ (st s') Hs (txn_records_logs _ _ Hes) Hlog Hsz Hf Ht Hd)
      as (ts' & log' & Hs' & Hc & Hg). rewrite pending_size in Hg.
    exists s', ts', log'. split_and!; [done|done|by apply Ht|done|exact Hg].
Qed.

Lemma txn_commit_ok (s : Transaction * world) ts log :
  committable s ts log → w_faults s.2 = [] →
  ∃ (s' : Transaction * world) ts' log', txn_commit s = (Ok tt, s') ∧ store_inv (st s') ts' log' ∧ w_faults s'.2 = [] ∧
    contents (store s'.1) ts' = overlay (pending s.1) (contents (store s.1) ts).
Proof.
  intros Hcm Hf. destruct (txn_commit_grows s ts log Hcm Hf) as (s' & ts' & log' & ? & ? & ? & ? & _).
  by exists s', ts', log'.
Qed.

(** Below the budget a commit logs its records, with one COMMIT, and moves no
    table. *)
Lemma txn_commit_logged (s : Transaction * world) ts log :
  committable s ts log → w_faults s.2 = [] → pending s.1 ≠ ∅ →
  footprint (insert_all (pending_entries (pending s.1)) (data (store s.1))) < memtable_max_bytes (store s.1) →
  let new := txn_records (store s.1) (bt_iter (pending s.1)) in
  ∃ s' : Transaction * world, txn_commit s = (Ok tt, s') ∧ store_inv (st s') ts (log ++ new) ∧
    logs new (pending_entries (pending s.1)).
Proof.
  intros Hcm Hf Hne Hb new. pose proof (committable_size _ _ _ Hcm) as Hsz. destruct Hcm as [Hs Hes Hroom Hlog].
  pose proof (txn_records_logs (store s.1) (pending s.1) Hes) as Hl.
  destruct (effect_quiet _ _ _ _ _
    (effect_txn_commit_quiet s ts _ Hne (si_mem _ _ _ Hs) (si_log _ _ _ Hs) Hes Hroom Hb) Hf) as ([] & s' & E & Ht & Hw).
  exists s'. split_and!; [done| |done]. by apply (written_inv _ _ _ _ _ _ Hs Hl Hlog Hsz Hw).
Qed.

Lemma txn_commit_crash (s : Transaction * world) ts log :
  committable s ts log →
  footprint (insert_all (pending_entries (pending s.1)) (data (store s.1))) < memtable_max_bytes (store s.1) →
  wp txn_commit s (λ r (s' : Transaction * world),
    r ≠ Panic ∧
    crash_safe s'.2 (dir (store s.1)) (λ m, m = overlay (pending s.1) (contents (store s.1) ts) ∨
      r ≠ Ok tt ∧ m = contents (store s.1) ts)).
Proof.
  intros Hcm Hb. pose proof (committable_size _ _ _ Hcm) as Hsz. destruct Hcm as [Hs Hes Hroom Hlog].
  rewrite <-write_all_overlay. destruct (decide (pending s.1 = ∅)) as [He|Hne].
  - unfold wp, txn_commit. erewrite bind_ok by done. cbn [id]. rewrite decide_True, He by done. split; [done|].
    eapply crash_safe_mono; [|exact (store_inv_crash _ _ _ Hs)]. intros m ->. by left.
  - pose proof (txn_records_logs (store s.1) (pending s.1) Hes) as Hl.
    eapply wp_mono; [by apply (effect_txn_commit_quiet s ts _ Hne (si_mem _ _ _ Hs) (si_log _ _ _ Hs) Hes Hroom)|].
    intros r s' [Ht Hend]. destruct Hend as [([] & -> & Hw)|(Hfail & _ & Hcut)].
    + split; [done|]. destruct (written_inv _ _ _ _ _ _ Hs Hl Hlog Hsz Hw) as [Hs1 Hc1].
      assert (Hd : dir (store s'.1) = dir (store s.1)) by (destruct Hw as ((wl & n & E & _) & _); cbn in E; by rewrite E).
      pose proof (store_inv_crash _ _ _ Hs1) as Hcr. cbn [fst snd st] in Hcr. rewrite Hd in Hcr.
      eapply crash_safe_mono; [|exact Hcr]. intros m ->. by left.
    + assert (Hr : r ≠ Panic ∧ r ≠ Ok tt) by (by destruct Hfail as [->|[? ->]]). destruct Hr. split; [done|].
      eapply crash_safe_mono; [|exact (log_failed_crash _ _ _ _ _ _ Hs Hl Hlog Hsz Hcut)]. intros m [->| ->]; auto.
Qed.

(** ** Flushing and compacting an open store *)

Lemma own_not_lock d : ¬ own d (lock_path d).
Proof. intros [E|[id E]]; [by apply (wal_neq_lock d)|by apply (sst_file_neq_lock d id)]. Qed.

Lemma store_flush_ok s ts log :
  store_inv s ts log → w_faults s.2 = [] → room s.1 ts 0 →
  ∃ s', flush s = (Ok tt, s') ∧ w_faults s'.2 = [] ∧
    (data s.1 = ∅ ∧ s' = s ∨
     data s.1 ≠ ∅ ∧ store_inv s' (flushed_tabs s.1 ts) [] ∧ data s'.1 = ∅ ∧
       contents s'.1 (flushed_tabs s.1 ts) = contents s.1 ts ∧ grows 0 [] s ts log s' (flushed_tabs s.1 ts) []).
Proof.
  intros Hs Hf [Hk Hid _].
  destruct (effect_quiet _ _ _ _ _ (effect_flush s ts _ (si_mem _ _ _ Hs) (si_log _ _ _ Hs) ltac:(lia) Hid) Hf)
    as ([] & s' & E & Ht & Hd). exists s'. split; [done|]. split; [by apply Ht|].
  destruct Hd as [?|[Hne Hd]]; [by left|right].
  destruct (flush_done_inv s ts log s' Hs) as (Hs' & Hc); [by left| |done|].
  - rewrite (proj1 Ht); [apply (si_lockfile _ _ _ Hs)|apply own_not_lock].
  - split_and!; [done|done|by destruct Hd as (_ & ? & _)|done|by apply flush_done_grows].
Qed.

Lemma store_compact_ok s ts log :
  store_inv s ts log → w_faults s.2 = [] → room s.1 ts 0 →
  let ts' := if decide (length ts < 2)%nat then ts else compacted (next_sstable_id s.1) ts in
  ∃ s', compact s = (Ok tt, s') ∧ store_inv s' ts' log ∧ contents s'.1 ts' = contents s.1 ts ∧
    w_faults s'.2 = [] ∧ grows 0 [] s ts log s' ts' log.
Proof.
  intros Hs Hf [Hk Hid _] ts'. assert (Hs' := Hs). destruct Hs'.
  assert (Hsz : Z.of_nat (size (tables_map ts)) < 2 ^ 31).
  { pose proof (size_union_r (data s.1) (tables_map ts)). lia. }
  destruct (effect_quiet _ _ _ _ _ (effect_compact s ts si_mem Hsz ltac:(lia)) Hf)
    as ([] & s' & E & Ht & Hi & (sts & n & Es) & Hn & Htidy). cbv zeta in Hi, Htidy. fold ts' in Hi, Htidy.
  assert (Hd : dir s'.1 = dir s.1) by (by rewrite Es).
  assert (Hm : tables_map ts' ≈ tables_map ts) by (unfold ts'; destruct (decide _); [done|apply compacted_map]).
  exists s'. split_and!; [done| | |by apply Ht|].
  - split; [exact Hi| |done..| | | | |]; rewrite ?Hd.
    + unfold log_at. rewrite Hd, Es. cbn [wal set_next_id set_sstables]. by eapply wal_rep_sst.
    + by rewrite Es.
    + by rewrite Es.
    + by apply Htidy.
    + rewrite (proj1 Ht); [done|]. intros [id Eq]. by apply (sst_file_neq_lock (dir s.1) id).
    + by rewrite Es.
  - unfold contents. rewrite Es. cbn [data set_next_id set_sstables]. by apply union_proper.
  - assert (Hlog : log = log ++ [] ∨ log = log ∨ log = []) by (by right; left).
    rewrite Es in Hn. cbn in Hn. split; rewrite ?Es; cbn; try done; try lia.
    unfold ts'. destruct (decide _); [lia|]. pose proof (compacted_union_size (data s.1) (next_sstable_id s.1) ts). lia.
Qed.
End writes.
