(* ===== verification/Api.v ===== *)
(** * The public API: crate [ferrumdb]

    [Database] (database.rs), [Table] (table.rs), [Txn] (txn.rs) and [Error]
    (error.rs).  A table handle borrows the store of its table: its methods run
    on that store. *)

From Stdlib Require Import Ascii.
From S2P Require Import Prelude Machine Value Fs Wal SsTable Record BTree Store.

(** ** Errors *)

Inductive Error :=
  | Io (msg : string)
  | InvalidTableName (name : string)
  | TableExists (name : string)
  | TableNotFound (name : string)
  | UnexpectedValue
  | Internal (msg : string).

(** [impl From<AppError> for Error]. *)
Definition from_app_error (e : AppError) : Error :=
  match e with
  | IoError m => Io m
  | DecodeError m | InternalError m | KeyNotFound m => Internal m
  end.

(** [impl Display for Error]. *)
Definition error_message (e : Error) : string :=
  match e with
  | Io m => "io error: " +:+ m
  | InvalidTableName n => "invalid table name: " +:+ n
  | TableExists n => "table already exists: " +:+ n
  | TableNotFound n => "table not found: " +:+ n
  | UnexpectedValue => "stored value was not written as bytes"
  | Internal m => "internal error: " +:+ m
  end.

(** A call of the API ends in a [Result]: [inr] is its [Ok], [inl] its [Err].
    [core] runs a call of the engine and converts its error. *)
Definition core {S A} (m : M S A) : M S (Error + A) := λ s,
  match m s with
  | (Ok a, s') => (Ok (inr a), s')
  | (Err e, s') => (Ok (inl (from_app_error e)), s')
  | (Panic, s') => (Panic, s')
  | (Crashed, s') => (Crashed, s')
  end.

Definition api_bind {S A B} (m : M S (Error + A)) (k : A → M S (Error + B)) : M S (Error + B) :=
  r ← m; match r with inr a => k a | inl e => mret (inl e) end.

Declare Scope ferrum_api_scope.
Notation "x ←? y ; z" := (api_bind y (λ x : _, z))
  (at level 20, y at level 100, z at level 200, only parsing) : ferrum_api_scope.
#[local] Open Scope ferrum_api_scope.

Definition ok {S A} (a : A) : M S (Error + A) := mret (inr a).
Definition err {S A} (e : Error) : M S (Error + A) := mret (inl e).

(** ** Tables *)

(** [prefix_upper_bound]: the loop pops bytes [0xFF] off the end. *)
Fixpoint upper_loop (rev_end : bytes) : option bytes :=
  match rev_end with
  | [] => None
  | last :: rest =>
      if byte_to_Z last <? 0xFF then Some (reverse (byte_of_Z (byte_to_Z last + 1) :: rest))
      else upper_loop rest
  end.

Definition prefix_upper_bound (prefix : bytes) : option bytes := upper_loop (reverse prefix).

(** Runs a transaction that borrows the store. *)
Definition with_txn {A} (m : M (Transaction * world) A) : M (Store * world) A := λ s,
  let '(r, (t, w)) := m (begin_transaction s.1, s.2) in (r, (store t, w)).

Section table.
Context {Prof : Profile} {Cd : Codec}.

(** [Table::put]. *)
Definition table_put (key value : bytes) : M (Store * world) (Error + unit) :=
  _ ←? core (set_value key (Bytes value)); ok tt.

(** [Table::get]. *)
Definition table_get (key : bytes) : M (Store * world) (Error + option bytes) :=
  v ←? core (get_value key);
  match v with
  | Some (Bytes bs) => ok (Some bs)
  | Some _ => err UnexpectedValue
  | None => ok None
  end.

(** [Table::contains]. *)
Definition table_contains (key : bytes) : M (Store * world) (Error + bool) :=
  v ←? table_get key; ok (match v with Some _ => true | None => false end).

(** [Table::delete]. *)
Definition table_delete (key : bytes) : M (Store * world) (Error + unit) :=
  _ ←? core (delete_value key); ok tt.

(** [Table::put_batch]. *)
Definition table_put_batch (entries : list (bytes * bytes)) : M (Store * world) (Error + unit) :=
  with_txn (
    _ ← set_self (fold_left (λ tx '(key, value), txn_set_value key (Bytes value) tx) entries);
    _ ←? core txn_commit; ok tt).

(** [Table::get_batch]: stops at the first error. *)
Fixpoint table_get_batch (keys : list bytes) : M (Store * world) (Error + list (option bytes)) :=
  match keys with
  | [] => ok []
  | key :: keys =>
      v ←? table_get key;
      vs ←? table_get_batch keys;
      ok (v :: vs)
  end.

(** The loop of [range_bounds]. *)
Fixpoint only_bytes (l : list (bytes * Value)) : Error + list (bytes * bytes) :=
  match l with
  | [] => inr []
  | (key, Bytes bs) :: l =>
      match only_bytes l with inr out => inr ((key, bs) :: out) | inl e => inl e end
  | _ :: _ => inl UnexpectedValue
  end.

(** [Table::range_bounds]. *)
Definition table_range_bounds (lo hi : Bound) : M (Store * world) (Error + list (bytes * bytes)) :=
  l ←? core (scan_range lo hi); mret (only_bytes l).

(** [Table::scan], [Table::range] and [Table::scan_prefix]. *)
Definition table_scan : M (Store * world) (Error + list (bytes * bytes)) := table_range_bounds Unbounded Unbounded.
Definition table_range (start stop : bytes) : M (Store * world) (Error + list (bytes * bytes)) :=
  table_range_bounds (Included start) (Excluded stop).
Definition table_scan_prefix (prefix : bytes) : M (Store * world) (Error + list (bytes * bytes)) :=
  let hi := match prefix_upper_bound prefix with
            | Some u => Excluded u
            | None => Unbounded
            end in
  table_range_bounds (Included prefix) hi.

(** ** Transactions: [Txn] wraps [Transaction] *)

(** [Table::transaction]. *)
Definition table_transaction (s : Store) : Transaction := begin_transaction s.

Definition tx_put (key value : bytes) (t : Transaction) : Transaction := txn_set_value key (Bytes value) t.
Definition tx_delete (key : bytes) (t : Transaction) : Transaction := txn_delete_value key t.
Definition tx_get (key : bytes) : M (Transaction * world) (Error + option bytes) :=
  v ←? core (txn_get_value key);
  match v with
  | Some (Bytes bs) => ok (Some bs)
  | Some _ => err UnexpectedValue
  | None => ok None
  end.
Definition tx_commit : M (Transaction * world) (Error + unit) := _ ←? core txn_commit; ok tt.
Definition tx_rollback (t : Transaction) : Store := txn_rollback t.
End table.

(** ** The database *)

Record Database := { root : path; opened_tables : gmap string Store }.

Definition set_opened (f : gmap string Store → gmap string Store) (db : Database) : Database :=
  {| root := root db; opened_tables := f (opened_tables db) |}.

Definition string_bytes (s : string) : bytes := (λ c, byte_of_Z (Z.of_nat (nat_of_ascii c))) <$> string_chars s.

(** [validate_name]. *)
Definition validate_name (name : string) : Error + unit :=
  if bool_decide (name = ""%string) || existsb (Ascii.eqb "/"%char) (string_chars name)
     || existsb (Ascii.eqb "\"%char) (string_chars name)
     || bool_decide (name = "."%string) || bool_decide (name = ".."%string)
  then inl (InvalidTableName name) else inr tt.

(** The order of [names.sort()]. *)
Definition name_le (a b : string) : Prop := bytes_le (string_bytes a) (string_bytes b).
#[global] Instance name_le_dec : RelDecision name_le := λ a b, decide (bytes_le (string_bytes a) (string_bytes b)).

Section database.
Context {Prof : Profile} {Cd : Codec} {RDir : ReadDir}.

(** [Database::open]. *)
Definition db_open (d : path) : M world (Error + Database) :=
  _ ←? core (fs_create_dir_all d);
  ok {| root := d; opened_tables := ∅ |}.

(** [Database::open_store]. *)
Definition open_store (name : string) : M (Database * world) (Error + unit) :=
  d ← self root;
  s ←? core (on_world (open_with_dir (resolve unix_sep d name)));
  _ ← set_self (set_opened <[name:=s]>);
  ok tt.

(** [Database::create_table]. *)
Definition create_table (name : string) : M (Database * world) (Error + unit) :=
  _ ←? mret (validate_name name);
  d ← self root;
  b ← on_world (fs_exists (resolve unix_sep d name));
  if (b : bool) then err (TableExists name) else
  _ ←? open_store name; ok tt.

(** [Database::table]: the handle is the name under which the store is open. *)
Definition table (name : string) : M (Database * world) (Error + string) :=
  _ ←? mret (validate_name name);
  b ← self (λ db, bool_decide (is_Some (opened_tables db !! name)));
  _ ←? (if (b : bool) then ok tt else open_store name);
  b ← self (λ db, bool_decide (is_Some (opened_tables db !! name)));
  if (b : bool) then ok name else lift Panic.

(** A call through the handle of table [name]. *)
Definition with_table {A} (name : string) (m : M (Store * world) A) : M (Database * world) A := λ s,
  match opened_tables s.1 !! name with
  | Some st => let '(r, (st', w')) := m (st, s.2) in (r, (set_opened <[name:=st']> s.1, w'))
  | None => (Panic, s)
  end.

(** [Database::delete_table]: the store is dropped before the files go. *)
Definition delete_table (name : string) : M (Database * world) (Error + unit) :=
  _ ←? mret (validate_name name);
  d ← self root;
  b ← on_world (fs_exists (resolve unix_sep d name));
  if negb b then err (TableNotFound name) else
  s ← self (λ db, opened_tables db !! name);
  _ ← set_self (set_opened (delete name));
  _ ← on_world (modify (match s with Some s => drop_store s | None => id end));
  _ ←? core (on_world (fs_remove_dir_all (resolve unix_sep d name)));
  ok tt.

(** The loop of [list_tables]. *)
Fixpoint list_loop (d : path) (entries names : list string) : M world (Error + list string) :=
  match entries with
  | [] => ok names
  | entry :: entries =>
      _ ←? core fs_next_entry;
      b ← fs_is_dir (join d entry);
      if (b : bool) && utf8_valid (string_bytes entry) then list_loop d entries (names ++ [entry])
      else list_loop d entries names
  end.

(** [Database::list_tables]. *)
Definition list_tables : M (Database * world) (Error + list string) :=
  d ← self root;
  entries ←? core (on_world (fs_read_dir d));
  names ←? on_world (list_loop d entries []);
  ok (stable_sort name_le names).
End database.
