(* ===== verification/Demo.v ===== *)
(** * A store on a concrete disk

    A table opened in an empty file system, then written to and flushed: it has
    one key in a table and one in the memtable.  The invariants of the
    development hold of it, so their theorems apply to it. *)

From S2P Require Import Prelude Machine Value Checksum Bloom BlockCache Fs Wal SsTable Record Layout Image Search TableSpec Effects WalSpec BTree Store View Names StoreSpec StoreWrite StoreOps Replay Load Recovery StoreInv Writes Instances.

#[global] Existing Instance dev_profile.

Definition empty_world : world := World ∅ ∅ [].
Definition demo_dir : path := ["t"].
Definition key1 : bytes := [byte_of_Z 107; byte_of_Z 49].
Definition key2 : bytes := [byte_of_Z 107; byte_of_Z 50].
Definition val1 : Value := Bytes [byte_of_Z 65].
Definition val2 : Value := Integer (to_i32 7).

(** Opens the table, puts [key1], flushes, puts [key2]. *)
Definition demo_run : outcome string * (Store * world) :=
  match open_with_dir demo_dir empty_world with
  | (Ok s, w) => (_ ← set_value key1 val1; _ ← flush; set_value key2 val2) (s, w)
  | (_, w) => (Panic, (fresh_store demo_dir {| file_path := []; wal_file := None |}, w))
  end.

Definition demo : Store * world := demo_run.2.
Definition demo_tabs : tabs := [(1, [(key1, EValue val1)])].
Definition demo_log : list WalEntry := [create_put_entry key2 val2 (to_u64 2); commit_entry (to_u64 2)].

Lemma demo_ok : demo_run.1 = Ok "Inserted value"%string.
Proof. vm_compute. reflexivity. Qed.

Lemma demo_wal : demo.2.(w_nodes) !! wal_path demo_dir = Some (Reg (File (frames demo_log) (frames demo_log))).
Proof. vm_compute. reflexivity. Qed.

Lemma demo_tables : sstables demo.1 = [table_of (sst_file demo_dir 1) [(key1, EValue val1)]].
Proof. vm_compute. reflexivity. Qed.

Lemma demo_nodes :
  (map_to_list (w_nodes demo.2)).*1 ≡ₚ [demo_dir; lock_path demo_dir; wal_path demo_dir; sst_file demo_dir 1].
Proof. apply (bool_decide_eq_true_1 _). vm_compute. reflexivity. Qed.

Lemma demo_node p n :
  w_nodes demo.2 !! p = Some n →
  p = demo_dir ∨ p = lock_path demo_dir ∨ p = wal_path demo_dir ∨ p = sst_file demo_dir 1.
Proof.
  intros Hp%elem_of_map_to_list. apply (list_elem_of_fmap_2 fst) in Hp. rewrite demo_nodes in Hp.
  rewrite !list.elem_of_cons in Hp. destruct Hp as [?|[?|[?|[?|Hp]]]]; [auto..|].
  by apply list.not_elem_of_nil in Hp.
Qed.

Lemma demo_small k v : (k, v) = (key1, EValue val1) ∨ (k, v) = (key2, EValue val2) → small_entry k v.
Proof. by intros [[= -> ->]|[= -> ->]]. Qed.

Lemma demo_data : data demo.1 = {[key2 := EValue val2]}.
Proof. apply (bool_decide_eq_true_1 _). vm_compute. reflexivity. Qed.

Lemma demo_fields :
  dir demo.1 = demo_dir ∧ next_sstable_id demo.1 = 2 ∧ memtable_bytes demo.1 = 6 ∧ rval (sequence demo.1) = 2 ∧
  lock demo.1 = Some (lock_path demo_dir) ∧
  wal demo.1 = {| file_path := wal_path demo_dir; wal_file := Some (wal_path demo_dir) |} ∧
  memtable_max_bytes demo.1 = DEFAULT_MEMTABLE_MAX_BYTES ∧ w_faults demo.2 = [].
Proof. vm_compute. repeat split. Qed.

Lemma demo_sst : holds demo.2 (sst_file demo_dir 1) (image [(key1, EValue val1)]).
Proof. vm_compute. reflexivity. Qed.

(** What the run leaves, for any pair that has these components. *)
Record demo_like (s : Store) (w : world) : Prop := {
  dl_dir : dir s = demo_dir;
  dl_next : next_sstable_id s = 2;
  dl_bytes : memtable_bytes s = 6;
  dl_seq : rval (sequence s) = 2;
  dl_lock : lock s = Some (lock_path demo_dir);
  dl_wal : wal s = {| file_path := wal_path demo_dir; wal_file := Some (wal_path demo_dir) |};
  dl_budget : memtable_max_bytes s = DEFAULT_MEMTABLE_MAX_BYTES;
  dl_data : data s = {[key2 := EValue val2]};
  dl_tables : sstables s = [table_of (sst_file demo_dir 1) [(key1, EValue val1)]];
  dl_log : w_nodes w !! wal_path demo_dir = Some (Reg (File (frames demo_log) (frames demo_log)));
  dl_sst : holds w (sst_file demo_dir 1) (image [(key1, EValue val1)]);
  dl_root : w_nodes w !! demo_dir = Some Dir;
  dl_lockfile : w_nodes w !! lock_path demo_dir ≠ Some Dir;
  dl_nodes : ∀ p n, w_nodes w !! p = Some n →
    p = demo_dir ∨ p = lock_path demo_dir ∨ p = wal_path demo_dir ∨ p = sst_file demo_dir 1;
}.

Lemma demo_sst_neq id : sst_file demo_dir id ≠ demo_dir.
Proof. apply join_neq_dir. Qed.

Lemma demo_like_mem (s : Store) (w : world) : demo_like s w → mem_inv s w demo_tabs.
Proof.
  intros []. split; rewrite ?dl_dir0, ?dl_next0, ?dl_bytes0, ?dl_data0, ?dl_tables0.
  - discriminate.
  - intros q Hq. assert (E : q = demo_dir).
    { change (prefixes demo_dir) with [demo_dir] in Hq. by apply list_elem_of_singleton in Hq. }
    by rewrite E.
  - constructor; [apply table_of_rep|constructor].
  - constructor; [|constructor]. split_and!; [exact dl_sst0| |].
    + split; [|by vm_compute]. constructor; [|constructor]. by vm_compute.
    + constructor; constructor.
  - constructor; constructor.
  - constructor; [cbn; lia|constructor].
  - lia.
  - intros id E. pose proof (dl_nodes0 _ _ E) as [H|[H|[H|H]]].
    + by apply demo_sst_neq in H.
    + by apply sst_file_neq_lock in H.
    + by apply sst_file_neq_wal in H.
    + rewrite H in E. apply holds_node in dl_sst0. congruence.
  - exists (File (frames demo_log) (frames demo_log)). unfold wal_rep. rewrite dl_wal0. split; [done|].
    split; [unfold wal_at; by rewrite dl_log0|]. split; [|split; [by vm_compute|right]].
    + change (parent (wal_path demo_dir)) with demo_dir. change (is_dir w demo_dir) with
        (match w_nodes w !! demo_dir with Some Dir => true | _ => false end). by rewrite dl_root0.
    + split; [done|]. unfold file_at. by rewrite dl_log0.
  - by vm_compute.
  - apply map_Forall_singleton, demo_small. by right.
Qed.

Lemma demo_like_inv (s : Store) (w : world) : demo_like s w → store_inv (s, w) demo_tabs demo_log.
Proof.
  intros Hl. pose proof (demo_like_mem _ _ Hl) as Hm. destruct Hl.
  split; cbn [fst snd]; rewrite ?dl_dir0, ?dl_data0; try done.
  - destruct (mi_wal _ _ _ Hm) as [f Hwal]. unfold log_at. cbn [fst snd]. rewrite dl_dir0 in *.
    assert (f = File (frames demo_log) (frames demo_log)) as <-; [|done].
    destruct Hwal as (_ & Hat & _). unfold wal_at in Hat. by rewrite dl_log0 in Hat.
  - apply put_records, demo_small. by right.
  - intros name id [n E] Hid. pose proof (dl_nodes0 _ _ E) as [H|[H|[H|H]]].
    + by apply join_neq_dir in H.
    + apply join_inj in H as ->. by vm_compute in Hid.
    + apply join_inj in H as ->. by vm_compute in Hid.
    + apply join_inj in H as ->. vm_compute in Hid. injection Hid as <-. split; [done|left].
Qed.

#[global] Opaque demo.

Lemma demo_like_demo : demo_like demo.1 demo.2.
Proof.
  destruct demo_fields as (? & ? & ? & ? & ? & ? & ? & _).
  split; try assumption; [apply demo_data|apply demo_tables|apply demo_wal|apply demo_sst| | |apply demo_node].
  - vm_compute. reflexivity.
  - vm_compute. discriminate.
Qed.

(** The same store before an unlucky write. *)
Definition demo_faulty : Store * world := (demo.1, set_faults [NoFault; CrashAt 5] demo.2).

Lemma demo_like_faults (s : Store) (w : world) fs : demo_like s w → demo_like s (set_faults fs w).
Proof. by intros []. Qed.

Lemma demo_like_faulty : demo_like demo_faulty.1 demo_faulty.2.
Proof. unfold demo_faulty. cbn [fst snd]. apply demo_like_faults, demo_like_demo. Qed.

Lemma demo_faulty_inv : store_inv demo_faulty demo_tabs demo_log.
Proof. unfold demo_faulty. apply demo_like_inv, demo_like_faulty. Qed.

Lemma demo_inv : store_inv demo demo_tabs demo_log.
Proof. rewrite (surjective_pairing demo). apply demo_like_inv, demo_like_demo. Qed.

Lemma demo_room n : n < 2 ^ 30 → room demo.1 demo_tabs n.
Proof.
  intros Hlt. destruct demo_fields as (Hd & Hn & Hb & Hq & _). split; [|by rewrite Hn|rewrite Hq; lia].
  assert (E : size (data demo.1 ∪ tables_map demo_tabs) = 2%nat) by (vm_compute; reflexivity).
  rewrite E. lia.
Qed.

Lemma demo_room_faulty n : n < 2 ^ 30 → room demo_faulty.1 demo_tabs n.
Proof. apply demo_room. Qed.

Lemma demo_dir_eq : dir demo.1 = demo_dir.
Proof. apply demo_fields. Qed.

Lemma demo_quiet : w_faults demo.2 = [].
Proof. apply demo_fields. Qed.

Lemma demo_data_nonempty : data demo.1 ≠ ∅.
Proof. rewrite demo_data. apply insert_non_empty. Qed.

(** The log of the store has room for any short batch. *)
Lemma demo_log_room new : (length (frames new) < 1000)%nat → log_room demo_log new.
Proof. intros H. unfold log_room. change (length (frames demo_log)) with 62%nat. lia. Qed.

(** What readers see. *)
Lemma demo_contents : contents demo.1 demo_tabs = {[key1 := val1; key2 := val2]}.
Proof. apply (bool_decide_eq_true_1 _). vm_compute. reflexivity. Qed.

(** A transaction on the store: overwrites one key and deletes the other. *)
Definition demo_txn : Transaction * world :=
  (txn_delete_value key2 (txn_set_value key1 val2 (begin_transaction demo.1)), demo.2).

Lemma fst_pair {A B} (a : A) (b : B) : (a, b).1 = a.
Proof. done. Qed.
Lemma snd_pair {A B} (a : A) (b : B) : (a, b).2 = b.
Proof. done. Qed.

Lemma demo_txn_eq : demo_txn = ({| store := demo.1; pending := <[key2 := None]> (<[key1 := Some val2]> ∅) |}, demo.2).
Proof. reflexivity. Qed.

Lemma demo_txn_store : store demo_txn.1 = demo.1.
Proof. by rewrite demo_txn_eq, fst_pair. Qed.

Lemma demo_txn_world : demo_txn.2 = demo.2.
Proof. rewrite demo_txn_eq. apply snd_pair. Qed.

Lemma demo_txn_pending : pending demo_txn.1 = <[key2 := None]> (<[key1 := Some val2]> ∅).
Proof. by rewrite demo_txn_eq, fst_pair. Qed.

Lemma demo_small_put key v : length key = 2%nat → v = val1 ∨ v = val2 → small_entry key (EValue v).
Proof.
  intros Hk Hv. split.
  - unfold rec_small. rewrite length_enc_rec. cbn [fst snd value_bytes]. rewrite Hk. by destruct Hv as [-> | ->].
  - unfold entry_footprint. rewrite Hk. by destruct Hv as [-> | ->].
Qed.

Lemma demo_small_delete key : length key = 2%nat → small_entry key Tombstone.
Proof.
  intros Hk. split.
  - unfold rec_small. rewrite length_enc_rec. cbn [fst snd value_bytes]. by rewrite Hk.
  - unfold entry_footprint. by rewrite Hk.
Qed.

(** ** Crashes *)

(** A crash that loses no byte: every file keeps what was written to it. *)
Definition settle (w : world) : world :=
  World ((λ n, match n with Dir => Dir | Reg f => Reg (File (f_content f) (f_content f)) end) <$> w_nodes w) ∅ [].

Lemma settle_crash w : crash_world w (settle w).
Proof.
  split; [|done]. intros p. cbn. rewrite lookup_fmap. destruct (w_nodes w !! p) as [[|f]|]; cbn; constructor; [done|].
  exists (f_content f). split; [|done]. rewrite <-(firstn_all (f_content f)). constructor.
  intros q _ Hq. by apply prefix_length.
Qed.

(** A crash that loses every byte that was not fsynced. *)
Definition forget (w : world) : world :=
  World ((λ n, match n with Dir => Dir | Reg f => Reg (File (f_durable f) (f_durable f)) end) <$> w_nodes w) ∅ [].

Lemma forget_crash w : crash_world w (forget w).
Proof.
  split; [|done]. intros p. cbn. rewrite lookup_fmap. destruct (w_nodes w !! p) as [[|f]|]; cbn; constructor; [done|].
  exists (f_durable f). split; [constructor|done].
Qed.

(** ** More tables

    Rounds of a delete of [key1] and a flush: each adds a table that holds one
    tombstone (the first also the memtable of [demo]). *)

Fixpoint cycled (n : nat) : Store * world :=
  match n with
  | O => demo
  | S n => (flush (delete_value key1 (cycled n)).2).2
  end.

(** A store with [n] tables and room for more of these rounds. *)
Record cycling (n : nat) (s : Store * world) (ts : tabs) (log : list WalEntry) : Prop := {
  cy_inv : store_inv s ts log;
  cy_quiet : w_faults s.2 = [];
  cy_tables : length ts = n;
  cy_room : room s.1 ts 0;
  cy_keys : (size (data s.1 ∪ tables_map ts) <= n + 1)%nat;
  cy_ids : next_sstable_id s.1 <= 2 + 4 * Z.of_nat n;
  cy_seq : rval (sequence s.1) <= 2 + Z.of_nat n;
  cy_log : (length (frames log) < 1000)%nat;
  cy_data : footprint (<[key1 := Tombstone]> (data s.1)) < memtable_max_bytes s.1;
}.

Lemma cycling_room n (s : Store) ts m :
  (n <= 8)%nat → (size (data s ∪ tables_map ts) <= n + 2)%nat → next_sstable_id s <= 4 + 4 * Z.of_nat n →
  rval (sequence s) <= 3 + Z.of_nat n → m <= 1 → room s ts m.
Proof. intros. split; lia. Qed.

(** The delete of a round. *)
Lemma cycling_delete n s ts log :
  (n <= 8)%nat → cycling n s ts log → (length (frames (one_records (create_delete_entry key1) s)) < 1000)%nat →
  ∃ s1, delete_value key1 s = (Ok "Deleted value"%string, s1) ∧
    store_inv s1 ts (log ++ one_records (create_delete_entry key1) s) ∧ w_faults s1.2 = [] ∧
    data s1.1 = <[key1 := Tombstone]> (data s.1) ∧ next_sstable_id s1.1 = next_sstable_id s.1 ∧ room s1.1 ts 0 ∧
    grows 1 (one_records (create_delete_entry key1) s) s ts log s1 ts (log ++ one_records (create_delete_entry key1) s).
Proof.
  intros Hn [] Hnew. rewrite delete_value_eq.
  destruct (write_one_logged s ts log key1 Tombstone (create_delete_entry key1) "Deleted value" cy_inv0 cy_quiet0)
    as (s1 & E & Hs1 & Hf1 & Hd1 & Hn1 & Hg).
  - by apply demo_small_delete.
  - apply (cycling_room n); lia.
  - by apply delete_records, demo_small_delete.
  - unfold log_room. lia.
  - done.
  - exists s1. split_and!; [done..| |exact Hg]. destruct Hg. apply (cycling_room n); lia.
Qed.

Lemma cycling_step n s ts log :
  (n < 8)%nat → cycling n s ts log → (length (frames (one_records (create_delete_entry key1) s)) < 1000)%nat →
  60 < memtable_max_bytes s.1 →
  ∃ ts', cycling (S n) (flush (delete_value key1 s).2).2 ts' [] ∧ tables_map ts' !! key1 = Some Tombstone.
Proof.
  intros Hn Hc Hnew Hb. destruct (cycling_delete n s ts log) as (s1 & E1 & Hs1 & Hf1 & Hd1 & Hn1 & Hr1 & Hg1); [lia|done..|].
  rewrite E1. cbn [snd]. destruct Hc.
  destruct (store_flush_ok s1 ts _ Hs1 Hf1 Hr1) as (s2 & E2 & Hf2 & [[He _]|(_ & Hs2 & Hd2 & _ & Hg2)]).
  { exfalso. rewrite Hd1 in He. by apply insert_non_empty in He. }
  rewrite E2. cbn [snd].
  assert (Et : flushed_tabs s1.1 ts = (next_sstable_id s1.1, bt_iter (data s1.1)) :: ts).
  { unfold flushed_tabs, MAX_SSTABLES. cbv zeta. rewrite decide_False; [done|]. cbn [length]. lia. }
  exists (flushed_tabs s1.1 ts). destruct Hg1, Hg2. split.
  - split; [done..| | | | | | |].
    + rewrite Et. cbn [length]. lia.
    + apply (cycling_room (S n)); lia.
    + lia.
    + lia.
    + lia.
    + cbn. lia.
    + rewrite Hd2. assert (footprint (<[key1 := Tombstone]> ∅) < 60) by (by vm_compute). lia.
  - rewrite Et, tables_map_push, Hd1. apply lookup_union_Some_l, lookup_insert_eq.
Qed.

Lemma demo_cycling : cycling 1 demo demo_tabs demo_log.
Proof.
  destruct demo_fields as (_ & Hn & _ & Hq & _). split.
  - apply demo_inv.
  - apply demo_quiet.
  - done.
  - by apply demo_room.
  - apply Nat.leb_le. vm_compute. reflexivity.
  - rewrite Hn. lia.
  - rewrite Hq. lia.
  - change (length (frames demo_log)) with 62%nat. lia.
  - apply Z.ltb_lt. vm_compute. reflexivity.
Qed.

Lemma cycled_records n :
  (n <= 7)%nat → (length (frames (one_records (create_delete_entry key1) (cycled n))) < 1000)%nat ∧
    60 < memtable_max_bytes (cycled n).1.
Proof.
  intros Hn. do 8 (destruct n as [|n]; [split; [apply Nat.ltb_lt|apply Z.ltb_lt]; vm_compute; reflexivity|]). lia.
Qed.

Lemma cycled_inv n :
  (n <= 7)%nat → ∃ ts log, cycling (S n) (cycled n) ts log ∧ ((0 < n)%nat → tables_map ts !! key1 = Some Tombstone).
Proof.
  induction n as [|n IH]; intros Hn; [exists demo_tabs, demo_log; split; [apply demo_cycling|lia]|].
  destruct (IH ltac:(lia)) as (ts & log & Hc & _). destruct (cycled_records n) as [Hnew Hb]; [lia|].
  destruct (cycling_step (S n) (cycled n) ts log) as (ts' & Hc' & Ht); [lia|done..|]. by exists ts', [].
Qed.

(** One more delete leaves a memtable to flush. *)
Lemma cycled_deleted n :
  (n <= 7)%nat → ∃ s ts log, store_inv s ts log ∧ w_faults s.2 = [] ∧ length ts = S n ∧ room s.1 ts 0 ∧ data s.1 ≠ ∅.
Proof.
  intros Hn. destruct (cycled_inv n Hn) as (ts & log & Hc & _). destruct (cycled_records n Hn) as [Hnew _].
  destruct (cycling_delete (S n) (cycled n) ts log) as (s & _ & Hs & Hf & Hd & _ & Hr & _); [lia|done..|].
  exists s, ts, (log ++ one_records (create_delete_entry key1) (cycled n)).
  split_and!; [done|done|apply Hc|done|]. rewrite Hd. apply insert_non_empty.
Qed.
