(* ===== verification/StoreProps.v ===== *)
(** * Properties of the store

    The correctness of [Store] and [Transaction] (store.rs) against the map
    that readers see: [contents s tabs].  [store_inv s tabs log] says that the
    open store [s] and the files of its directory agree; it holds after every
    open ([open_with_dir_spec]) and every operation below keeps it. *)

From S2P Require Import Prelude Machine Value Checksum Bloom BlockCache Fs Wal SsTable Record Layout Image Search TableSpec Effects WalSpec BTree Store View Names StoreSpec StoreWrite StoreOps Replay Load Recovery StoreInv Writes Demo Instances.

Section storeprops.
Context {Prof : Profile} {Cd : Codec} {CdOk : CodecOk Cd}.
Implicit Types (ts : tabs) (log : list WalEntry) (s : Store * world) (t : Transaction * world) (k key : bytes).

(** The records of a put and of a delete, and whether the store can take them:
    the entry fits a block, the counters and the log have room. *)
Definition put_log key v s : list WalEntry := one_records (create_put_entry key v) s.
Definition delete_log key s : list WalEntry := one_records (create_delete_entry key) s.

Record writable s ts log key (e : Entry) (new : list WalEntry) : Prop := {
  wr_small : small_entry key e;
  wr_room : room s.1 ts 1;
  wr_log : log_room log new;
}.

(** ** Single keys *)

(** C1: [Store::set_value] on a healthy disk succeeds with its message, binds
    the key to the value in the contents that readers see and changes nothing
    else, and leaves the store and its files in agreement, whether or not the
    write fills the memtable budget and so flushes and compacts. *)
Theorem set_value_spec s ts log key v :
  store_inv s ts log → w_faults s.2 = [] → writable s ts log key (EValue v) (put_log key v s) →
  ∃ s' ts' log', set_value key v s = (Ok "Inserted value"%string, s') ∧ store_inv s' ts' log' ∧
    w_faults s'.2 = [] ∧ contents s'.1 ts' = <[key := v]> (contents s.1 ts).
Proof.
  intros Hs Hf []. rewrite set_value_eq.
  by apply (write_one_ok s ts log key (EValue v)); [..|apply put_records|].
Qed.

(** C2: [Store::delete_value] on a healthy disk removes the key from the
    contents, present or not, and nothing else; the tombstone hides every
    older value in the tables. *)
Theorem delete_value_spec s ts log key :
  store_inv s ts log → w_faults s.2 = [] → writable s ts log key Tombstone (delete_log key s) →
  ∃ s' ts' log', delete_value key s = (Ok "Deleted value"%string, s') ∧ store_inv s' ts' log' ∧
    w_faults s'.2 = [] ∧ contents s'.1 ts' = delete key (contents s.1 ts).
Proof.
  intros Hs Hf []. rewrite delete_value_eq.
  by apply (write_one_ok s ts log key Tombstone); [..|apply delete_records|].
Qed.

(** C3: [Store::get_value] under any schedule of faults either returns what the
    contents hold for the key or ends in an I/O error (or the death of the
    process), and in both cases no file and nothing but the block caches of the
    store has changed.  The newest of memtable and tables wins. *)
Theorem get_value_spec s ts key :
  mem_inv s.1 s.2 ts →
  wp (get_value key) s (λ r s',
    (r = Ok (contents s.1 ts !! key) ∨ failed r ∧ w_faults s.2 ≠ []) ∧
    w_nodes s'.2 = w_nodes s.2 ∧ mem_inv s'.1 s'.2 ts ∧ same_store s.1 s'.1).
Proof.
  intros Hi. eapply wp_mono; [by apply effect_get_value|]. intros r s' [Ht Hend].
  assert (Hn : w_nodes s'.2 = w_nodes s.2) by (apply map_eq; intros q; apply (proj1 Ht); tauto).
  destruct Hend as [(a & -> & -> & Hi' & Hss)|(Hfail & Hne & Hi' & Hss)]; split; auto.
Qed.

(** C4: [Store::scan_range] under any schedule of faults, for bounds whose start
    is not after their end, returns exactly the live keys within the bounds, in
    ascending order and each once, or ends in an I/O error; it changes neither
    the store nor a file. *)
Theorem scan_range_spec s ts lo hi :
  mem_inv s.1 s.2 ts → bad_range lo hi = false →
  wp (scan_range lo hi) s (λ r s',
    ((∃ l, r = Ok l ∧ StronglySorted bytes_lt l.*1 ∧
        ∀ k v, (k, v) ∈ l ↔ contents s.1 ts !! k = Some v ∧ in_bounds k lo hi = true) ∨
      failed r ∧ w_faults s.2 ≠ []) ∧
    s'.1 = s.1 ∧ w_nodes s'.2 = w_nodes s.2).
Proof.
  intros Hi Hb. eapply wp_mono; [by apply effect_scan_range; auto|]. intros r s' [Ht Hend].
  assert (Hn : w_nodes s'.2 = w_nodes s.2) by (apply map_eq; intros q; apply (proj1 Ht); tauto).
  destruct Hend as [(a & -> & -> & Es & _)|(Hfail & Hne & Es & _)]; (split; [|done]); [left|by right].
  eexists. split; [done|]. split; [apply bt_iter_sorted|]. intros k v.
  rewrite elem_of_bt_iter, within_lookup. destruct (in_bounds k lo hi); naive_solver.
Qed.

(** ** Flushing and compacting *)

(** C5: [Store::flush] on a healthy disk does nothing to an empty memtable.
    Otherwise it moves the memtable into a table with the next id and clears the
    log; with up to eight tables then, the new table is simply the newest, with
    more they are merged into one table without tombstones.  Readers see the same
    contents. *)
Theorem flush_spec s ts log :
  store_inv s ts log → w_faults s.2 = [] → room s.1 ts 0 →
  ∃ s' ts' log', flush s = (Ok tt, s') ∧ store_inv s' ts' log' ∧ w_faults s'.2 = [] ∧ data s'.1 = ∅ ∧
    contents s'.1 ts' = contents s.1 ts ∧
    (data s.1 = ∅ → s' = s ∧ ts' = ts ∧ log' = log) ∧
    (data s.1 ≠ ∅ → log' = [] ∧
      let ts1 := (next_sstable_id s.1, bt_iter (data s.1)) :: ts in
      ((length ts1 <= 8)%nat → ts' = ts1) ∧
      ((8 < length ts1)%nat → ts' = compacted (next_sstable_id s.1 + 1) ts1)).
Proof.
  intros Hs Hf Hr. destruct (store_flush_ok s ts log Hs Hf Hr) as (s' & E & Hf' & [[Hd ->]|(Hd & Hs' & Hd' & Hc & _)]).
  - exists s, ts, log. by split_and!.
  - exists s', (flushed_tabs s.1 ts), []. split_and!; [done..|]. intros _. split; [done|].
    cbv zeta. unfold flushed_tabs, MAX_SSTABLES. cbv zeta. split; intros Hlen.
    + by rewrite decide_False by lia.
    + by rewrite decide_True by lia.
Qed.

(** C6: [Store::compact] on a healthy disk replaces two or more tables by at most
    one, which holds exactly the live pairs of the merged tables and no
    tombstone; readers see the same contents. *)
Theorem compact_spec s ts log :
  store_inv s ts log → w_faults s.2 = [] → room s.1 ts 0 →
  ∃ s' ts', compact s = (Ok tt, s') ∧ store_inv s' ts' log ∧ contents s'.1 ts' = contents s.1 ts ∧
    ((2 <= length ts)%nat → (length ts' <= 1)%nat ∧
      ∀ k e, tables_map ts' !! k = Some e ↔ tables_map ts !! k = Some e ∧ e ≠ Tombstone).
Proof.
  intros Hs Hf Hr. destruct (store_compact_ok s ts log Hs Hf Hr) as (s' & E & Hs' & Hc & _).
  eexists s', _. split; [exact E|]. split; [exact Hs'|]. split; [exact Hc|]. clear.
  intros H2. rewrite decide_False by lia. unfold compacted. cbv zeta.
  destruct (decide _) as [He|_]; (split; [cbn; lia|]); intros k e.
  - cbn. rewrite lookup_empty. split; [done|]. intros [Hk Hne].
    assert (Hl : filter (λ ke, is_value ke.2) (tables_map ts) !! k = Some e); [|by rewrite He in Hl].
    apply map_lookup_filter_Some. split; [done|]. by destruct e.
  - rewrite tables_map_bt_iter, map_lookup_filter_Some. cbn. destruct e; naive_solver.
Qed.
End storeprops.

(** ** Opening and crashing *)

Section crashprops.
Context {Prof : Profile} {Cd : Codec} {CdOk : CodecOk Cd} {RDir : ReadDir} {RDirOk : ReadDirOk RDir}.
Implicit Types (ts : tabs) (log : list WalEntry) (s : Store * world) (t : Transaction * world) (d : path).

(** C7: [Store::open_with_dir] on a directory whose files stand for the contents
    [m] (tables in place, log with committed batches and possibly a torn tail),
    on a healthy disk and with the lock free, gives a store whose readers see
    exactly [m] and which agrees with its files; every later theorem applies to
    it. *)
Theorem open_with_dir_spec w d m :
  recovers w d m → w_faults w = [] → ¬ (lock_path d ∈ w_locks w) →
  ∃ (s : Store) w' ts log, open_with_dir d w = (Ok s, w') ∧ store_inv (s, w') ts log ∧ contents s ts = m ∧
    dir s = d ∧ w_faults w' = [].
Proof. apply open_recovers. Qed.

(** C8: crash atomicity and durability of [Store::set_value].  Whatever faults
    strike the write, and wherever the process dies in it, a crash afterwards
    leaves a directory that recovers to the contents with the pair or, unless
    the call reported success, to the contents before.  (The write stays below
    the memtable budget; [flush_crash_safe] covers the flush.) *)
Theorem set_value_crash_safe s ts log key v :
  store_inv s ts log → writable s ts log key (EValue v) (put_log key v s) →
  footprint (<[key := EValue v]> (data s.1)) < memtable_max_bytes s.1 →
  wp (set_value key v) s (λ r s',
    r ≠ Panic ∧
    ∀ w', crash_world s'.2 w' →
      recovers w' (dir s.1) (<[key := v]> (contents s.1 ts)) ∨
      r ≠ Ok "Inserted value"%string ∧ recovers w' (dir s.1) (contents s.1 ts)).
Proof.
  intros Hs [] Hb. rewrite set_value_eq.
  eapply wp_mono; [by eapply (write_one_crash s ts log key (EValue v)); [..|apply put_records| |]|].
  intros r s' [Hp Hcr]. split; [done|]. intros w' Hw'.
  destruct (Hcr w' Hw') as (m & [->|[? ->]] & Hrec); auto.
Qed.

(** C9: the same for [Store::delete_value]: after a crash the key is gone, or,
    unless the call reported success, everything is as before. *)
Theorem delete_value_crash_safe s ts log key :
  store_inv s ts log → writable s ts log key Tombstone (delete_log key s) →
  footprint (<[key := Tombstone]> (data s.1)) < memtable_max_bytes s.1 →
  wp (delete_value key) s (λ r s',
    r ≠ Panic ∧
    ∀ w', crash_world s'.2 w' →
      recovers w' (dir s.1) (delete key (contents s.1 ts)) ∨
      r ≠ Ok "Deleted value"%string ∧ recovers w' (dir s.1) (contents s.1 ts)).
Proof.
  intros Hs [] Hb. rewrite delete_value_eq.
  eapply wp_mono; [by eapply (write_one_crash s ts log key Tombstone); [..|apply delete_records| |]|].
  intros r s' [Hp Hcr]. split; [done|]. intros w' Hw'.
  destruct (Hcr w' Hw') as (m & [->|[? ->]] & Hrec); auto.
Qed.

(** C10: [Transaction::commit] is all or nothing across crashes, as long as the
    batch stays below the memtable budget: whatever faults strike it, a crash
    leaves a directory that recovers to the contents with every buffered write
    applied or, unless it reported success, with none.  (A batch that reaches the
    budget is followed by a flush, whose crashes [flush_crash_safe] describes.) *)
Theorem commit_crash_safe t ts log :
  committable t ts log →
  footprint (insert_all (pending_entries (pending t.1)) (data (store t.1))) < memtable_max_bytes (store t.1) →
  wp txn_commit t (λ r (t' : Transaction * world),
    r ≠ Panic ∧
    ∀ w', crash_world t'.2 w' →
      recovers w' (dir (store t.1)) (overlay (pending t.1) (contents (store t.1) ts)) ∨
      r ≠ Ok tt ∧ recovers w' (dir (store t.1)) (contents (store t.1) ts)).
Proof.
  intros Hc Hb. eapply wp_mono; [by eapply txn_commit_crash|].
  intros r s' [Hp Hcr]. split; [done|]. intros w' Hw'.
  destruct (Hcr w' Hw') as (m & [->|[? ->]] & Hrec); auto.
Qed.

(** C11: [Transaction::commit] on a healthy disk applies exactly the buffered
    writes: a key that was put has the value put last, a key deleted in the
    transaction is gone, every other key is as before. *)
Theorem commit_spec t ts log :
  committable t ts log → w_faults t.2 = [] →
  ∃ (t' : Transaction * world) ts' log', txn_commit t = (Ok tt, t') ∧ store_inv (st t') ts' log' ∧
    w_faults t'.2 = [] ∧
    ∀ k, contents (store t'.1) ts' !! k =
      match pending t.1 !! k with Some o => o | None => contents (store t.1) ts !! k end.
Proof.
  intros Hc Hf. destruct (txn_commit_ok t ts log Hc Hf) as (t' & ts' & log' & E & Hs & Hf' & Hm).
  exists t', ts', log'. split_and!; [done..|]. intros k. by rewrite Hm, overlay_lookup.
Qed.

(** C12: crash safety of [Store::flush] with fewer than eight tables.  However it
    ends, under whatever faults, a crash afterwards leaves a directory that
    recovers to exactly the contents there were; or the flush failed before it
    changed anything in memory, and the one harm is a strict prefix of the new
    table's image under the new table's name: without that file the directory
    recovers to the same contents, from the old tables and the untouched log. *)
Theorem flush_crash_safe s ts log :
  store_inv s ts log → room s.1 ts 0 → (length ts < 8)%nat →
  let p := sst_file (dir s.1) (next_sstable_id s.1) in
  let img := image (bt_iter (data s.1)) in
  wp flush s (λ r s', r ≠ Panic ∧
    ∀ w', crash_world s'.2 w' →
      recovers w' (dir s.1) (contents s.1 ts) ∨
      failed r ∧ s'.1 = s.1 ∧
        (∃ part : bytes, part `prefix_of` img ∧ part ≠ img ∧ file_at w' p = Some (File part part)) ∧
        recovers (set_nodes (delete p) w') (dir s.1) (contents s.1 ts)).
Proof.
  intros Hs [Hk Hid _] Hlt p img.
  eapply wp_mono; [eapply (effect_flush s ts _ (si_mem _ _ _ Hs) (si_log _ _ _ Hs)); [lia|done]|].
  intros r s' [Ht Hend]. destruct Hend as [([] & -> & Hend)|(Hfail & _ & Hbad)].
  - split; [done|]. intros w' Hw'. left. destruct Hend as [[_ ->]|[_ Hd]].
    + by destruct (store_inv_crash _ _ _ Hs _ Hw') as (m & -> & ?).
    + destruct (flush_done_inv s ts log s' Hs) as (Hs' & Hc); [by right| |done|].
      { rewrite (proj1 Ht); [apply (si_lockfile _ _ _ Hs)|apply own_not_lock]. }
      destruct (store_inv_crash _ _ _ Hs' _ Hw') as (m & -> & Hrec). rewrite Hc in Hrec.
      assert (Hdir : dir s'.1 = dir s.1) by apply Hd. by rewrite Hdir in Hrec.
  - split; [by destruct Hfail as [->|[? ->]]|]. intros w' Hw'.
    destruct (flush_failed_crash s ts log s' w' Hs Hlt Hid Ht Hbad Hw') as [?|(? & ? & ?)]; [by left|right].
    by split_and!.
Qed.

(** C13: recovery is idempotent under crashes: however an [open_with_dir] ends,
    succeeding, failing or dying at any point of recovery, a crash leaves a
    directory that still recovers to the same contents. *)
Theorem open_crash_idempotent w d m :
  recovers w d m →
  wp (open_with_dir d) w (λ _ w1, ∀ w2, crash_world w1 w2 → recovers w2 d m).
Proof.
  intros Hr. eapply wp_mono; [by apply open_crash_safe|]. intros r w1 Hcr w2 Hw2.
  by destruct (Hcr w2 Hw2) as (m' & -> & ?).
Qed.
End crashprops.

(** ** Errors, transactions, budget and lock *)

Section faultprops.
Context {Prof : Profile} {Cd : Codec} {CdOk : CodecOk Cd} {RDir : ReadDir} {RDirOk : ReadDirOk RDir}.
Implicit Types (ts : tabs) (log : list WalEntry) (s : Store * world) (t : Transaction * world) (k key : bytes) (d : path).

(** C14: [Store::set_value] and [Store::delete_value] under any schedule of faults,
    flushing or not, never panic, and the open store keeps its invariant: its
    readers see the contents with the write if the call succeeds, and with or
    without it if the call fails. *)
Theorem write_under_faults s ts log key v :
  store_inv s ts log → small_entry key (EValue v) → small_entry key Tombstone → room s.1 ts 1 →
  wp (set_value key v) s (λ r s', ∃ ts', mem_inv s'.1 s'.2 ts' ∧
    (r = Ok "Inserted value"%string ∧ contents s'.1 ts' = <[key := v]> (contents s.1 ts) ∨
     failed r ∧ w_faults s.2 ≠ [] ∧
       (contents s'.1 ts' = contents s.1 ts ∨ contents s'.1 ts' = <[key := v]> (contents s.1 ts)))) ∧
  wp (delete_value key) s (λ r s', ∃ ts', mem_inv s'.1 s'.2 ts' ∧
    (r = Ok "Deleted value"%string ∧ contents s'.1 ts' = delete key (contents s.1 ts) ∨
     failed r ∧ w_faults s.2 ≠ [] ∧
       (contents s'.1 ts' = contents s.1 ts ∨ contents s'.1 ts' = delete key (contents s.1 ts)))).
Proof.
  intros Hs He Ht Hr. rewrite set_value_eq, delete_value_eq.
  split; [by apply (write_one_faults s ts log key (EValue v))|by apply (write_one_faults s ts log key Tombstone)].
Qed.

(** C15: [Transaction::get_value] reads the transaction's own writes over the
    store: a buffered put gives its value, a buffered delete gives nothing, any
    other key reads the store; under any faults, and without losing the buffer. *)
Theorem txn_get_value_spec t ts key :
  mem_inv (store t.1) t.2 ts →
  wp (txn_get_value key) t (λ r (t' : Transaction * world),
    (r = Ok (overlay (pending t.1) (contents (store t.1) ts) !! key) ∨ failed r ∧ w_faults t.2 ≠ []) ∧
    pending t'.1 = pending t.1 ∧ mem_inv (store t'.1) t'.2 ts ∧ same_store (store t.1) (store t'.1)).
Proof.
  intros Hi. unfold txn_get_value. apply wp_bind, wp_self. cbn [wp_seq id]. rewrite overlay_lookup.
  destruct (pending t.1 !! key) as [o|].
  - unfold wp. destruct o; cbn; (split; [by left|split_and!; done]).
  - unfold on_store. apply wp_zoom. cbn [fst snd].
    eapply wp_mono; [apply (effect_get_value (store t.1, t.2) ts key Hi)|].
    intros r s' [_ [(a & -> & -> & Hi' & Hss)|(Hf & Hne & Hi' & Hss)]]; cbn [fst snd] in *; auto 10.
Qed.

(** C16: the byte count of the memtable: [memtable_insert] neither overflows nor
    underflows and leaves [memtable_bytes] equal to the sum of the footprints of
    the entries, replaced keys included, so a flush happens exactly when that sum
    reaches the budget. *)
Theorem memtable_bytes_exact s ts k e :
  mem_inv s.1 s.2 ts → small_entry k e → Z.of_nat (size (data s.1)) < 2 ^ 31 →
  ∃ s', memtable_insert k e s = (Ok tt, s') ∧ data s'.1 = <[k := e]> (data s.1) ∧
    memtable_bytes s'.1 = footprint (<[k := e]> (data s.1)) ∧
    (maybe_flush s' = if memtable_max_bytes s.1 <=? footprint (<[k := e]> (data s.1)) then flush s' else (Ok tt, s')).
Proof.
  intros Hi He Hsz. eexists. split; [by eapply memtable_insert_eq|].
  split_and!; [done..|]. unfold maybe_flush. erewrite bind_ok by done. cbn.
  by destruct (memtable_max_bytes s.1 <=? _).
Qed.

(** C17: the LOCK file excludes a second open: while the lock of the directory
    is held [open_with_dir] reports an error, under any faults, and leaves the
    lock with its holder. *)
Theorem lock_excludes w d m :
  recovers w d m → lock_path d ∈ w_locks w →
  wp (open_with_dir d) w (λ r w',
    (∃ e, r = Err e) ∧ w_locks w' = w_locks w ∨ r = Crashed ∧ w_faults w ≠ []).
Proof.
  intros (ts & c & log & Hk & Hw & Hlog & _) Hin.
  eapply wp_mono; [by eapply wp_open_with_dir|]. intros r w' (_ & _ & _ & Hr).
  destruct r as [s|e| |]; [by destruct Hr|left|done|by right]. destruct Hr as [E _]. eauto.
Qed.

(** C18: a clean restart loses nothing: dropping the store gives back its lock,
    and opening the directory again gives a store with the same contents,
    rebuilt from the tables and the log alone. *)
Theorem drop_reopens s ts log :
  store_inv s ts log → w_faults s.2 = [] →
  ∃ (s' : Store) w' ts' log', open_with_dir (dir s.1) (drop_store s.1 s.2) = (Ok s', w') ∧
    store_inv (s', w') ts' log' ∧ contents s' ts' = contents s.1 ts.
Proof.
  intros Hs Hf. destruct (open_recovers (drop_store s.1 s.2) (dir s.1) (contents s.1 ts))
    as (s' & w' & ts' & log' & E & Hs' & Hc & _).
  - destruct (store_inv_recovers s ts log Hs) as (ts0 & c & log0 & Hk & Hw & Hlog & Hm).
    unfold drop_store. rewrite (si_lock _ _ _ Hs).
    exists ts0, c, log0. split_and!; [by apply (dir_ok_nodes s.2)|by apply (wal_at_nodes s.2)|done..].
  - unfold drop_store. by rewrite (si_lock _ _ _ Hs).
  - unfold drop_store. rewrite (si_lock _ _ _ Hs). cbn. set_solver.
  - by exists s', w', ts', log'.
Qed.

(** C19: bounds whose start is after their end make [Store::scan_range] panic
    (as [BTreeMap::range] does) when the memtable is not empty. *)
Theorem scan_range_inverted s ts lo hi :
  mem_inv s.1 s.2 ts → w_faults s.2 = [] → data s.1 ≠ ∅ → bad_range lo hi = true →
  (scan_range lo hi s).1 = Panic.
Proof. apply scan_range_bad_range. Qed.
End faultprops.

(** ** Each theorem on a concrete store *)

Lemma demo_writable key e new :
  small_entry key e → (length (frames new) < 1000)%nat → writable demo demo_tabs demo_log key e new.
Proof. intros He Hn. split; [done|by apply demo_room|by apply demo_log_room]. Qed.

Lemma demo_committable : committable demo_txn demo_tabs demo_log.
Proof.
  split.
  - unfold st. rewrite demo_txn_store, demo_txn_world, <-(surjective_pairing demo). apply demo_inv.
  - rewrite demo_txn_pending.
    change (pending_entries (<[key2 := None]> (<[key1 := Some val2]> ∅))) with [(key1, EValue val2); (key2, Tombstone)].
    constructor; [|constructor; [|constructor]].
    + apply demo_small_put; [done|by right].
    + by apply demo_small_delete.
  - rewrite demo_txn_store, demo_txn_pending. by apply demo_room.
  - rewrite demo_txn_store. apply demo_log_room. apply Nat.ltb_lt. vm_compute. reflexivity.
Qed.

Lemma set_value_witness :
  ∃ s' ts' log', set_value key1 val2 demo = (Ok "Inserted value"%string, s') ∧ store_inv s' ts' log' ∧
    w_faults s'.2 = [] ∧ contents s'.1 ts' = <[key1 := val2]> (contents demo.1 demo_tabs).
Proof.
  apply (set_value_spec demo demo_tabs demo_log key1 val2); [apply demo_inv|apply demo_quiet|].
  apply demo_writable; [apply demo_small_put; [done|by right]|]. apply Nat.ltb_lt. vm_compute. reflexivity.
Defined.

Lemma delete_value_witness :
  ∃ s' ts' log', delete_value key1 demo = (Ok "Deleted value"%string, s') ∧ store_inv s' ts' log' ∧
    w_faults s'.2 = [] ∧ contents s'.1 ts' = delete key1 (contents demo.1 demo_tabs).
Proof.
  apply (delete_value_spec demo demo_tabs demo_log key1); [apply demo_inv|apply demo_quiet|].
  apply demo_writable; [by apply demo_small_delete|]. apply Nat.ltb_lt. vm_compute. reflexivity.
Defined.

(** A read of the table on disk with a crash in its second system call. *)
Lemma get_value_witness :
  mem_inv demo_faulty.1 demo_faulty.2 demo_tabs ∧
  wp (get_value key1) demo_faulty (λ r s',
    (r = Ok (contents demo_faulty.1 demo_tabs !! key1) ∨ failed r ∧ w_faults demo_faulty.2 ≠ []) ∧
    w_nodes s'.2 = w_nodes demo_faulty.2 ∧ mem_inv s'.1 s'.2 demo_tabs ∧ same_store demo_faulty.1 s'.1).
Proof.
  split; [apply demo_faulty_inv|]. apply (get_value_spec demo_faulty demo_tabs key1), demo_faulty_inv.
Defined.

Lemma scan_range_witness :
  bad_range (Included key1) (Excluded key2) = false ∧
  wp (scan_range (Included key1) (Excluded key2)) demo (λ r s',
    ((∃ l, r = Ok l ∧ StronglySorted bytes_lt l.*1 ∧
        ∀ k v, (k, v) ∈ l ↔ contents demo.1 demo_tabs !! k = Some v ∧
          in_bounds k (Included key1) (Excluded key2) = true) ∨ failed r ∧ w_faults demo.2 ≠ []) ∧
    s'.1 = demo.1 ∧ w_nodes s'.2 = w_nodes demo.2).
Proof.
  split; [done|]. apply (scan_range_spec demo demo_tabs (Included key1) (Excluded key2)); [apply demo_inv|done].
Defined.

(** The ninth table: after seven rounds of a delete and a flush there are eight,
    and the memtable holds one more tombstone. *)
Lemma flush_witness :
  ∃ s ts log, length ts = 8%nat ∧ data s.1 ≠ ∅ ∧
  ∃ s' ts' log', flush s = (Ok tt, s') ∧ store_inv s' ts' log' ∧ w_faults s'.2 = [] ∧ data s'.1 = ∅ ∧
    contents s'.1 ts' = contents s.1 ts ∧
    (data s.1 = ∅ → s' = s ∧ ts' = ts ∧ log' = log) ∧
    (data s.1 ≠ ∅ → log' = [] ∧
      let ts1 := (next_sstable_id s.1, bt_iter (data s.1)) :: ts in
      ((length ts1 <= 8)%nat → ts' = ts1) ∧
      ((8 < length ts1)%nat → ts' = compacted (next_sstable_id s.1 + 1) ts1)).
Proof.
  destruct (cycled_deleted 7) as (s & ts & log & Hs & Hf & Hl & Hr & Hd); [lia|].
  exists s, ts, log. split; [exact Hl|]. split; [exact Hd|]. exact (flush_spec s ts log Hs Hf Hr).
Defined.

(** Two tables, the newer with a tombstone over the older's only key. *)
Lemma compact_witness :
  ∃ ts log, (2 <= length ts)%nat ∧ tables_map ts !! key1 = Some Tombstone ∧
  ∃ s' ts', compact (cycled 1) = (Ok tt, s') ∧ store_inv s' ts' log ∧
    contents s'.1 ts' = contents (cycled 1).1 ts ∧
    ((2 <= length ts)%nat → (length ts' <= 1)%nat ∧
      ∀ k e, tables_map ts' !! k = Some e ↔ tables_map ts !! k = Some e ∧ e ≠ Tombstone).
Proof.
  destruct (cycled_inv 1) as (ts & log & [Hs Hf Hl Hr _ _ _ _ _] & Ht); [lia|].
  exists ts, log. split; [lia|]. split; [apply Ht; lia|]. exact (compact_spec (cycled 1) ts log Hs Hf Hr).
Defined.

(** The directory the store leaves behind, with its lock released. *)
Definition demo_closed : world := drop_store demo.1 demo.2.

Lemma demo_closed_recovers : recovers demo_closed demo_dir (contents demo.1 demo_tabs).
Proof.
  destruct (store_inv_recovers demo demo_tabs demo_log demo_inv) as (ts0 & c & log0 & Hk & Hw & Hlog & Hm).
  rewrite demo_dir_eq in *. unfold demo_closed, drop_store. rewrite (si_lock _ _ _ demo_inv).
  exists ts0, c, log0. split_and!; [by apply (dir_ok_nodes demo.2)|by apply (wal_at_nodes demo.2)|done..].
Qed.

Lemma demo_closed_free : ¬ (lock_path demo_dir ∈ w_locks demo_closed).
Proof.
  unfold demo_closed, drop_store. rewrite (si_lock _ _ _ demo_inv), demo_dir_eq. unfold unlock, set_locks. cbn [w_locks].
  intros [_ H]%elem_of_difference. by apply H, elem_of_singleton.
Qed.

Lemma demo_closed_quiet : w_faults demo_closed = [].
Proof. unfold demo_closed, drop_store. rewrite (si_lock _ _ _ demo_inv). apply demo_quiet. Qed.

Lemma open_witness :
  ∃ (s : Store) w' ts log, open_with_dir demo_dir demo_closed = (Ok s, w') ∧ store_inv (s, w') ts log ∧
    contents s ts = contents demo.1 demo_tabs ∧ dir s = demo_dir ∧ w_faults w' = [].
Proof.
  apply (open_with_dir_spec demo_closed demo_dir (contents demo.1 demo_tabs));
    [apply demo_closed_recovers|apply demo_closed_quiet|apply demo_closed_free].
Defined.

(** A put whose commit record is cut in the middle by a crash. *)
Lemma set_value_crash_witness :
  wp (set_value key1 val2) demo_faulty (λ r s',
    r ≠ Panic ∧
    ∀ w', crash_world s'.2 w' →
      recovers w' (dir demo_faulty.1) (<[key1 := val2]> (contents demo_faulty.1 demo_tabs)) ∨
      r ≠ Ok "Inserted value"%string ∧ recovers w' (dir demo_faulty.1) (contents demo_faulty.1 demo_tabs)).
Proof.
  apply (set_value_crash_safe demo_faulty demo_tabs demo_log key1 val2); [apply demo_faulty_inv| |].
  - split; [apply demo_small_put; [done|by right]|by apply demo_room_faulty|apply demo_log_room].
    apply Nat.ltb_lt. vm_compute. reflexivity.
  - apply Z.ltb_lt. vm_compute. reflexivity.
Defined.

Lemma delete_value_crash_witness :
  wp (delete_value key1) demo_faulty (λ r s',
    r ≠ Panic ∧
    ∀ w', crash_world s'.2 w' →
      recovers w' (dir demo_faulty.1) (delete key1 (contents demo_faulty.1 demo_tabs)) ∨
      r ≠ Ok "Deleted value"%string ∧ recovers w' (dir demo_faulty.1) (contents demo_faulty.1 demo_tabs)).
Proof.
  apply (delete_value_crash_safe demo_faulty demo_tabs demo_log key1); [apply demo_faulty_inv| |].
  - split; [by apply demo_small_delete|by apply demo_room_faulty|apply demo_log_room].
    apply Nat.ltb_lt. vm_compute. reflexivity.
  - apply Z.ltb_lt. vm_compute. reflexivity.
Defined.

Lemma commit_crash_witness :
  wp txn_commit demo_txn (λ r (t' : Transaction * world),
    r ≠ Panic ∧
    ∀ w', crash_world t'.2 w' →
      recovers w' (dir (store demo_txn.1)) (overlay (pending demo_txn.1) (contents (store demo_txn.1) demo_tabs)) ∨
      r ≠ Ok tt ∧ recovers w' (dir (store demo_txn.1)) (contents (store demo_txn.1) demo_tabs)).
Proof.
  apply (commit_crash_safe demo_txn demo_tabs demo_log); [apply demo_committable|].
  apply Z.ltb_lt. vm_compute. reflexivity.
Defined.

Lemma commit_witness :
  ∃ (t' : Transaction * world) ts' log', txn_commit demo_txn = (Ok tt, t') ∧ store_inv (st t') ts' log' ∧
    w_faults t'.2 = [] ∧
    ∀ k, contents (store t'.1) ts' !! k =
      match pending demo_txn.1 !! k with Some o => o | None => contents (store demo_txn.1) demo_tabs !! k end.
Proof.
  apply (commit_spec demo_txn demo_tabs demo_log); [apply demo_committable|].
  rewrite demo_txn_world. apply demo_quiet.
Defined.

(** A flush that dies in its second system call. *)
Lemma flush_crash_witness :
  let p := sst_file (dir demo_faulty.1) (next_sstable_id demo_faulty.1) in
  let img := image (bt_iter (data demo_faulty.1)) in
  wp flush demo_faulty (λ r s', r ≠ Panic ∧
    ∀ w', crash_world s'.2 w' →
      recovers w' (dir demo_faulty.1) (contents demo_faulty.1 demo_tabs) ∨
      failed r ∧ s'.1 = demo_faulty.1 ∧
        (∃ part : bytes, part `prefix_of` img ∧ part ≠ img ∧ file_at w' p = Some (File part part)) ∧
        recovers (set_nodes (delete p) w') (dir demo_faulty.1) (contents demo_faulty.1 demo_tabs)).
Proof.
  apply (flush_crash_safe demo_faulty demo_tabs demo_log);
    [apply demo_faulty_inv|by apply demo_room_faulty|by apply Nat.ltb_lt].
Defined.

Lemma open_crash_witness :
  wp (open_with_dir demo_dir) demo_closed (λ _ w1,
    ∀ w2, crash_world w1 w2 → recovers w2 demo_dir (contents demo.1 demo_tabs)).
Proof.
  apply (open_crash_idempotent demo_closed demo_dir (contents demo.1 demo_tabs)), demo_closed_recovers.
Defined.

Lemma write_under_faults_witness :
  wp (set_value key1 val2) demo_faulty (λ r s', ∃ ts', mem_inv s'.1 s'.2 ts' ∧
    (r = Ok "Inserted value"%string ∧ contents s'.1 ts' = <[key1 := val2]> (contents demo_faulty.1 demo_tabs) ∨
     failed r ∧ w_faults demo_faulty.2 ≠ [] ∧
       (contents s'.1 ts' = contents demo_faulty.1 demo_tabs ∨
        contents s'.1 ts' = <[key1 := val2]> (contents demo_faulty.1 demo_tabs)))) ∧
  wp (delete_value key1) demo_faulty (λ r s', ∃ ts', mem_inv s'.1 s'.2 ts' ∧
    (r = Ok "Deleted value"%string ∧ contents s'.1 ts' = delete key1 (contents demo_faulty.1 demo_tabs) ∨
     failed r ∧ w_faults demo_faulty.2 ≠ [] ∧
       (contents s'.1 ts' = contents demo_faulty.1 demo_tabs ∨
        contents s'.1 ts' = delete key1 (contents demo_faulty.1 demo_tabs)))).
Proof.
  apply (write_under_faults demo_faulty demo_tabs demo_log key1 val2);
    [apply demo_faulty_inv|apply demo_small_put; [done|by right]|by apply demo_small_delete|by apply demo_room_faulty].
Defined.

Lemma txn_get_value_witness :
  wp (txn_get_value key1) demo_txn (λ r (t' : Transaction * world),
    (r = Ok (overlay (pending demo_txn.1) (contents (store demo_txn.1) demo_tabs) !! key1) ∨
     failed r ∧ w_faults demo_txn.2 ≠ []) ∧
    pending t'.1 = pending demo_txn.1 ∧ mem_inv (store t'.1) t'.2 demo_tabs ∧
    same_store (store demo_txn.1) (store t'.1)).
Proof.
  apply (txn_get_value_spec demo_txn demo_tabs key1). rewrite demo_txn_store, demo_txn_world. apply demo_inv.
Defined.

Lemma memtable_bytes_witness :
  ∃ s', memtable_insert key2 Tombstone demo = (Ok tt, s') ∧ data s'.1 = <[key2 := Tombstone]> (data demo.1) ∧
    memtable_bytes s'.1 = footprint (<[key2 := Tombstone]> (data demo.1)) ∧
    (maybe_flush s' = if memtable_max_bytes demo.1 <=? footprint (<[key2 := Tombstone]> (data demo.1))
                      then flush s' else (Ok tt, s')).
Proof.
  apply (memtable_bytes_exact demo demo_tabs key2 Tombstone);
    [apply demo_inv|by apply demo_small_delete|apply demo_inv].
Defined.

(** The demo store holds the lock of its directory. *)
Lemma lock_witness :
  lock_path demo_dir ∈ w_locks demo.2 ∧
  wp (open_with_dir demo_dir) demo.2 (λ r w',
    (∃ e, r = Err e) ∧ w_locks w' = w_locks demo.2 ∨ r = Crashed ∧ w_faults demo.2 ≠ []).
Proof.
  assert (H : lock_path demo_dir ∈ w_locks demo.2) by (apply (bool_decide_eq_true_1 _); vm_compute; reflexivity).
  split; [exact H|]. apply (lock_excludes demo.2 demo_dir (contents demo.1 demo_tabs)); [|exact H].
  rewrite <-demo_dir_eq. apply (store_inv_recovers demo demo_tabs demo_log), demo_inv.
Defined.

Lemma drop_reopens_witness :
  ∃ (s' : Store) w' ts' log', open_with_dir (dir demo.1) (drop_store demo.1 demo.2) = (Ok s', w') ∧
    store_inv (s', w') ts' log' ∧ contents s' ts' = contents demo.1 demo_tabs.
Proof. apply (drop_reopens demo demo_tabs demo_log); [apply demo_inv|apply demo_quiet]. Defined.

Lemma scan_range_inverted_witness :
  bad_range (Included key2) (Excluded key1) = true ∧
  (scan_range (Included key2) (Excluded key1) demo).1 = Panic.
Proof.
  split; [done|]. apply (scan_range_inverted demo demo_tabs (Included key2) (Excluded key1));
    [apply demo_inv|apply demo_quiet|apply demo_data_nonempty|done].
Defined.
