(* ===== verification/FormatProps.v ===== *)
(** * Properties of the tables, the log and their parts

    The files of a table directory: an SSTable gives back what was flushed into
    it (sstable.rs), the log gives back what was committed to it (wal.rs). *)

From S2P Require Import Prelude Machine Value Checksum Bloom BlockCache Fs Wal SsTable Record Layout Image Search TableSpec Effects WalSpec BTree Store View Names StoreSpec StoreWrite StoreOps Replay Demo Instances.

(** ** SSTables *)

Section tableprops.
Context {Prof : Profile} {Cd : Codec} {CdOk : CodecOk Cd}.
Implicit Types (w : world) (p : path) (es : list (bytes * Entry)) (key : bytes).

Lemma reads_quiet {A} (m : M world A) w a :
  w_faults w = [] → wp m w (reads w a) → ∃ w', m w = (Ok a, w') ∧ calm w w'.
Proof.
  intros Hf Hm. unfold wp in Hm. destruct (m w) as [r w'] eqn:E. cbn in Hm. destruct Hm as [Hc [->|[_ ?]]]; [|done].
  by exists w'.
Qed.

(** A place where a table may be written: a file or nothing, in a directory that exists. *)
Record table_place w p : Prop := {
  tp_chain : chain w (parent p);
  tp_parent : parent p ≠ [];
  tp_fresh : p ∉ prefixes (parent p);
  tp_file : w_nodes w !! p ≠ Some Dir;
}.

Lemma table_place_at w p : table_place w p → ∃ f, wal_at w p f.
Proof. intros []. unfold wal_at. destruct (w_nodes w !! p) as [[|f]|]; [done|eauto..]. Qed.

(** C20: [SsTable::flush] of sorted entries succeeds on a healthy disk; the table
    it returns is the one [SsTable::open] reads back from the file, its
    [read_all_entries] is the entries that were flushed and its [get] finds each
    key with its entry, tombstones included, and no other key. *)
Theorem sstable_roundtrip w p es :
  table_place w p → fits es → sorted_keys es → w_faults w = [] →
  ∃ t w', SsTable.flush p es w = (Ok t, w') ∧
    (∃ w2, SsTable.open p w' = (Ok t, w2)) ∧ (∃ w2, read_all_entries t w' = (Ok es, w2)) ∧
    ∀ key, (SsTable.get key (t, w')).1 = Ok (lookup_in es key).
Proof.
  intros Hp Hfit Hs Hf. destruct (table_place_at _ _ Hp) as [f Hw]. destruct Hp.
  destruct (effect_quiet _ _ _ _ _ (effect_sst_flush w p f es tp_chain0 tp_parent0 tp_fresh0 Hw) Hf)
    as (t & w' & E & Ht & -> & Hh).
  assert (Hf' : w_faults w' = []) by (by apply Ht). exists (table_of p es), w'. split; [done|].
  assert (Hrep := table_of_rep p es). split_and!.
  - destruct (reads_quiet _ _ _ Hf' (wp_open w' p es Hh Hfit)) as (w2 & ? & _). eauto.
  - destruct (reads_quiet _ _ _ Hf' (wp_read_all_entries w' _ p es Hh Hfit Hrep)) as (w2 & ? & _). eauto.
  - intros key. pose proof (wp_get w' _ p es key Hh Hfit Hs Hrep) as Hg. unfold wp in Hg.
    destruct (SsTable.get key _) as [r s']. cbn [fst snd] in *. by destruct Hg as (_ & _ & [->|[_ ?]]).
Qed.

(** C21: [SsTable::get] on a table in use, with any blocks in its cache, under
    any faults: it returns the entry of the key or [None] as the file has it, or
    an I/O error; it changes no file, and the cache stays coherent with the file
    and within its capacity. *)
Theorem sstable_get_spec w t p es key :
  holds w p (image es) → fits es → sorted_keys es → table_rep t p es →
  wp (SsTable.get key) (t, w) (λ r s',
    (r = Ok (lookup_in es key) ∨ failed r ∧ w_faults w ≠ []) ∧
    w_nodes s'.2 = w_nodes w ∧ table_rep s'.1 p es ∧ (cached_blocks s'.1 <= BLOCK_CACHE_CAP)%nat).
Proof.
  intros Hh Hfit Hs Hrep. eapply wp_mono; [by eapply wp_get|].
  intros r s' (Hrep' & (Hn & _) & Hr). split_and!; [done..|].
  destruct Hrep' as (c & -> & _ & Hwf & Hcap). unfold cached_blocks. cbn. rewrite <-Hcap. apply Hwf.
Qed.

(** C22: [SsTable::flush] cut short by a fault leaves the file as it was, or
    holding a prefix of the table's bytes; no other file changes. *)
Theorem sstable_flush_cut w p f es :
  table_place w p → wal_at w p f →
  wp (SsTable.flush p es) w (λ r w',
    (∀ q, q ≠ p → w_nodes w' !! q = w_nodes w !! q) ∧
    (failed r → w_nodes w' = w_nodes w ∨
      ∃ t, t `prefix_of` image es ∧ file_at w' p = Some (File t (f_durable f)))).
Proof.
  intros [] Hw. eapply wp_mono; [by apply (effect_sst_flush w p f es)|].
  intros r w' [(Hn & _) [(a & -> & _)|(_ & _ & Hu)]].
  - split; [|by intros [?|[? ?]]]. intros q Hq. apply Hn. congruence.
  - split; [intros q Hq; apply Hn; congruence|]. intros _. destruct Hu as [Hc|?]; [left|by right]. apply Hc.
Qed.

(** C23: a block in which one byte of the records has changed since it was
    written is never decoded: [read_block_from_disk] reports the CRC mismatch. *)
Theorem corrupt_byte_detected w p e l1 r1 b b' r2 l3 :
  holds w p (l1 ++ ((r1 ++ b' :: r2) ++ be32 (crc32 (r1 ++ b :: r2))) ++ l3) → b ≠ b' →
  block_offset e = Z.of_nat (length l1) → block_len e = Z.of_nat (length (r1 ++ b :: r2)) + 4 →
  block_offset e < 2 ^ 63 → w_faults w = [] →
  ∃ w', read_block_from_disk p e w =
    (Err (DecodeError ("SSTable block CRC mismatch at offset " +:+ pretty (block_offset e))), w') ∧
    w_nodes w' = w_nodes w.
Proof.
  intros Hh Hb Ho Hl Hlt Hf. set (r := r1 ++ b' :: r2) in *. set (c := be32 (crc32 (r1 ++ b :: r2))) in *.
  assert (Hlen : block_len e = Z.of_nat (length (r ++ c))).
  { rewrite Hl, (length_app r c). unfold c. rewrite length_be32. unfold r. rewrite !length_app. cbn. lia. }
  destruct (reads_quiet _ _ _ Hf (wp_seek w _ Hlt)) as (w1 & E1 & Hc1).
  assert (Hf1 : w_faults w1 = []) by (by apply Hc1).
  destruct (reads_quiet _ _ _ Hf1 (wp_read_exact w1 p l1 (r ++ c) l3 _ _ (holds_calm _ _ _ _ Hc1 Hh) Ho Hlen))
    as (w2 & E2 & Hc2).
  exists w2. split; [|by rewrite (proj1 Hc2), (proj1 Hc1)].
  unfold read_block_from_disk. erewrite bind_ok by exact E1. erewrite bind_ok by exact E2.
  assert (Hsub : sub64 (Z.of_nat (length (r ++ c))) 4 = Ok (Z.of_nat (length r))).
  { rewrite (length_app r c). unfold c. rewrite length_be32. unfold sub64. rewrite (proj2 (Z.leb_le _ _)) by lia. f_equal. lia. }
  rewrite Hsub. erewrite bind_ok by done. rewrite (length_app r c).
  rewrite (proj2 (Z.ltb_ge _ _)) by lia. cbv zeta.
  rewrite (slice_app_l r c) by done. rewrite Nat2Z.id, drop_app_length.
  unfold c. rewrite be_decode_be32 by apply crc32_range.
  rewrite (proj2 (Z.eqb_neq _ _)); [done|]. apply not_eq_sym, crc32_one_byte, Hb.
Qed.
End tableprops.

Section blockprops.
Context {Prof : Profile} {Cd : Codec} {CdOk : CodecOk Cd}.
Implicit Types (es : list (bytes * Entry)) (key : bytes).

(** The records of a block, as [flush] encodes them. *)
Definition encode_all es : bytes := fold_left (λ out '(k, e), encode_record out k e) es [].

Lemma encode_all_eq es : encode_all es = enc_block es.
Proof.
  unfold encode_all. assert (H : ∀ out, fold_left (λ out '(k, e), encode_record out k e) es out = out ++ enc_block es);
    [|apply H].
  induction es as [|[k e] es IH]; intros out; cbn [fold_left].
  - by rewrite app_nil_r.
  - by rewrite IH, encode_record_eq, enc_block_cons, app_assoc.
Qed.

(** Records survive the encoding: decoding the bytes that [encode_record]
    appended for a list of entries gives back the list, values, tombstones and
    empty keys included, and the loop of [read_all_entries] ends exactly at the
    end of the block. *)
Theorem records_roundtrip es :
  Forall rec_small es →
  decode_records (S (length (encode_all es))) (encode_all es) 0 [] = Some (Ok es).
Proof.
  intros Hs. rewrite encode_all_eq. apply (decode_records_at _ 0 es _ []); [lia|done..|].
  pose proof (length_enc_block_ge es). lia.
Qed.

(** C25: [find_in_block], which stops at the first key above the one searched
    for, agrees with decoding the whole block and looking the key up. *)
Theorem find_in_block_complete es key :
  Forall rec_small es → sorted_keys es →
  find_in_block (encode_all es) key = Ok (lookup_in es key).
Proof. rewrite encode_all_eq. apply find_in_block_spec. Qed.


End blockprops.

(** ** The bloom filter and the block cache *)

(** C27: the bloom filter of [flush] has no false negatives: building it from a
    table's keys never fails, and every key answers "maybe"; it takes 7 probes
    and less than 10 bits per key rounded up to a byte (at least 8 bytes). *)
Theorem bloom_no_false_negatives keys :
  keys ≠ [] →
  ∃ b, build_bloom keys = Ok (Some b) ∧ bf_k b = 7 ∧
    8 * Z.of_nat (length (bf_bits b)) < Z.max (Z.of_nat (length keys) * 10) 64 + 8 ∧
    ∀ key, key ∈ keys → maybe_contains b key = Ok true.
Proof.
  destruct keys as [|k keys]; [done|]. intros _. destruct (bloom_for_spec (k :: keys)) as (-> & b & -> & _ & Hk & Hl & Hc).
  by exists b.
Qed.

(** The cache of unbounded size. *)
Definition unbounded_run (m : gmap Z bytes) (r : request) : gmap Z bytes :=
  match r with CGet _ => m | CPut o bs => <[o:=bs]> m end.

Lemma cache_put_stale o bs c x b : blocks (cache_put o bs c) !! x = Some b → x = o → cap c ≠ 0%nat → b = bs.
Proof.
  intros Hb -> Hc. pose proof (cache_put_get o bs c Hc) as Hg. unfold cache_get in Hg.
  rewrite Hb in Hg. by injection Hg.
Qed.

Lemma cache_run_inv rs c m :
  cache_wf c → (∀ o b, blocks c !! o = Some b → m !! o = Some b) →
  let c' := fold_left cache_run rs c in
  cache_wf c' ∧ cap c' = cap c ∧ ∀ o b, blocks c' !! o = Some b → fold_left unbounded_run rs m !! o = Some b.
Proof.
  revert c m. induction rs as [|r rs IH]; intros c m Hwf Hm; cbn [fold_left]; [done|].
  assert (Hstep : cache_wf (cache_run c r) ∧ cap (cache_run c r) = cap c ∧
    ∀ o b, blocks (cache_run c r) !! o = Some b → unbounded_run m r !! o = Some b).
  { destruct r as [o|o bs]; cbn [cache_run unbounded_run].
    - rewrite cache_get_blocks. split_and!; [by apply cache_get_wf|apply cache_get_cap|done].
    - split_and!; [by apply cache_put_wf|apply cache_put_cap|]. intros x b Hx.
      destruct (decide (x = o)) as [->|Hne].
      + rewrite lookup_insert_eq. f_equal. symmetry. eapply cache_put_stale; [exact Hx|done|].
        intros E. unfold cache_put in Hx. rewrite decide_True in Hx by done.
        pose proof (cache_bound _ Hwf) as Hb. rewrite E in Hb.
        assert (Eb : blocks c = ∅) by (apply map_size_empty_inv; lia). by rewrite Eb, lookup_empty in Hx.
      + rewrite lookup_insert_ne by done. destruct (cache_put_lookup _ _ _ _ _ Hx) as [[? _]|?]; [done|by apply Hm]. }
  destruct Hstep as (Hwf' & Hcap & Hm'). destruct (IH _ _ Hwf' Hm') as (? & ? & ?). split_and!; [done|congruence|done].
Qed.

(** C28: the block cache over any sequence of gets and puts never holds more
    blocks than its capacity, keeps each cached offset once in its LRU list, and
    a hit is always the block last put at the offset. *)
Theorem cache_refines_unbounded n rs :
  let c := fold_left cache_run rs (cache_new n) in
  cap c = n ∧ (size (blocks c) <= n)%nat ∧ NoDup (lru c) ∧ (∀ o, o ∈ lru c ↔ is_Some (blocks c !! o)) ∧
  ∀ o b, (cache_get o c).1 = Some b → fold_left unbounded_run rs ∅ !! o = Some b.
Proof.
  cbv zeta. destruct (cache_run_inv rs (cache_new n) ∅ (cache_new_wf n) ltac:(done)) as ([] & Hcap & Hm).
  cbn [cap cache_new] in Hcap. split_and!; [done| |done..|].
  - by rewrite Hcap in cache_bound.
  - intros o b. unfold cache_get. destruct (blocks _ !! o) eqn:E; [|done]. cbn. intros [= ->]. by apply Hm.
Qed.

(** C29: the cache is a true LRU.  After any sequence of gets and puts, a [put] at
    a new offset into a full cache evicts exactly one cached offset, the one whose
    last use (its last put or hit) is before the last use of every other cached
    offset, and adds the new block. *)
Theorem cache_evicts_lru n rs o bs :
  let c := fold_left cache_run rs (cache_new n) in
  n ≠ 0%nat → blocks c !! o = None → size (blocks c) = n →
  ∃ victim, is_Some (blocks c !! victim) ∧
    (∀ x, x ≠ victim → is_Some (blocks c !! x) → older (used rs (cache_new n)) victim x) ∧
    blocks (cache_put o bs c) = <[o := bs]> (delete victim (blocks c)).
Proof.
  intros c Hn Ho Hsz. destruct (used_by_use rs [] (cache_new n)) as [Hs Hwf]; [auto with ferrum|constructor|].
  assert (Hcap : cap c = n) by apply (cache_run_inv rs (cache_new n) ∅ (cache_new_wf n) ltac:(done)).
  destruct (cache_put_evicts o bs c) as (v & rest & El & Eb); [done|congruence..|].
  exists v. unfold by_use in Hs. fold c in Hs, Hwf. rewrite El in Hs. cbn [app] in Hs. split_and!; [| |done].
  - apply Hwf. rewrite El. left.
  - intros x Hx Hin. apply Hwf in Hin. rewrite El in Hin. apply list.elem_of_cons in Hin as [?|Hin]; [done|].
    inversion Hs as [|? ? _ Hall]. rewrite list.Forall_forall in Hall. by apply Hall.
Qed.

(** ** The log *)

Section logprops.
Context {Prof : Profile} {Cd : Codec} {CdOk : CodecOk Cd}.
Implicit Types (es : list WalEntry) (tail buffer : bytes) (p : path).

(** C30: a log cut at any byte parses to exactly the records that are whole
    before the cut: the longest prefix of the appended records that the cut log
    still holds, and all of them only if nothing was cut. *)
Theorem log_cut_anywhere es buffer :
  buffer `prefix_of` frames es → Z.of_nat (length (frames es)) < 2 ^ 63 →
  ∃ j, parse_buffer buffer =
    Ok (take j es, Z.of_nat (length (committed (take j es))), Z.of_nat (length (frames (committed (take j es))))) ∧
    frames (take j es) `prefix_of` buffer ∧ ((length buffer < length (frames es))%nat → (j < length es)%nat) ∧
    ∀ j', (j' <= length es)%nat → frames (take j' es) `prefix_of` buffer → (j' <= j)%nat.
Proof.
  intros Hp Hlen. destruct (cut_frames es buffer Hp Hlen) as (j & tail & E & Ht & Hj). exists j.
  assert (Hl : (length buffer <= length (frames es))%nat) by (by apply prefix_length).
  rewrite E in *. split_and!; [|by apply prefix_app_r|done|].
  - apply parse_buffer_frames; [lia|done].
  - intros j' Hj' Hpre. apply Nat.nlt_ge. intros Hlt. destruct (lookup_lt_is_Some_2 es j) as [e He]; [lia|].
    assert (Hsj : frames (take j es) ++ frame e `prefix_of` frames (take j es) ++ tail).
    { etrans; [|exact Hpre]. replace (frame e) with (frames [e]) by (cbn; by rewrite app_nil_r).
      rewrite <-frames_app, <-(take_S_r _ _ _ He). apply frames_prefix.
      replace (take (S j) es) with (take (S j) (take j' es)) by (rewrite take_take; f_equal; lia). apply prefix_take. }
    apply prefix_app_inv in Hsj. apply (torn_no_frame e tail Ht Hsj).
    apply prefix_length in Hsj. rewrite length_app in Hl. lia.
Qed.

(** C31: [parse_buffer] ends on every buffer, valid or not, the length of the
    buffer bounding its rounds.  It returns the records of the buffer, those that
    do not decode left out, counts exactly those up to the last COMMIT, and gives
    an end of the committed part that is the start of a record; unless it reaches
    a length prefix that takes the offset past 64 bits, and only then, it panics
    (where the comment on it promises that it stops). *)
Theorem parse_buffer_terminates buffer :
  (∃ entries committed_end,
     parse_loop (S (length buffer)) buffer 0 [] 0 0 =
       Some (Ok (entries, Z.of_nat (length (committed entries)), committed_end)) ∧
     records buffer 0 entries true ∧ rtc (next_record buffer) 0 committed_end ∧
     0 <= committed_end <= Z.of_nat (length buffer)) ∨
  (parse_loop (S (length buffer)) buffer 0 [] 0 0 = Some Panic ∧
     ∃ off, rtc (next_record buffer) 0 off ∧ overflow_at buffer off).
Proof.
  destruct (parse_loop_ends (S (length buffer)) buffer 0 [] 0) as [(es & ce & Hr & Hce & E)|(es & Hr & E)];
    [lia|lia|done|done|left|right].
  - exists es, ce. split_and!; [exact E|done|done|apply (next_record_bounds _ _ Hce)..].
  - split; [exact E|]. by eapply records_false.
Qed.

(** C32: [Wal::read_for_recovery] on a log with a torn tail and uncommitted
    records, under any faults: it returns the committed records and leaves
    exactly those in the file, durably; or it fails with the file as it was or
    already truncated; or, when a fault makes [exists] report that there is no
    log, it returns no record and leaves the file as it was.  It touches no other
    file. *)
Theorem read_for_recovery_spec (s : Wal * world) p es tail :
  wal_rep s.1 s.2 p (File (frames es ++ tail) (frames es ++ tail)) → torn tail →
  Z.of_nat (length (frames es ++ tail)) < 2 ^ 63 →
  wp read_for_recovery s (λ r s',
    (∀ q, q ≠ p → w_nodes s'.2 !! q = w_nodes s.2 !! q) ∧
    (r = Ok (committed es) ∧
       wal_rep s'.1 s'.2 p (File (frames (committed es)) (frames (committed es))) ∨
     failed r ∧ w_faults s.2 ≠ [] ∧ log_kept p (frames es ++ tail) (frames (committed es)) s' ∨
     r = Ok [] ∧ w_faults s.2 ≠ [] ∧ wal_rep s'.1 s'.2 p (File (frames es ++ tail) (frames es ++ tail)))).
Proof.
  intros Hr Ht Hlen. eapply wp_mono; [by apply effect_read_for_recovery|].
  intros r s' [(Hn & _) Hend]. split; [intros q Hq; apply Hn; congruence|].
  destruct Hend as [(a & -> & [[-> ?]|(-> & ? & ?)])|(? & ? & ?)]; auto.
Qed.
End logprops.

(** ** File names *)

(** C33: the name of a table file determines its id and back, for every 64-bit
    id, and neither the log nor the lock is taken for a table. *)
Theorem sstable_names d id :
  0 <= id < 2 ^ 64 →
  sstable_id_from_path (sst_file d id) = Some id ∧
  (∀ id', 0 <= id' → sst_file d id' = sst_file d id → id' = id) ∧
  sstable_id_from_path (wal_path d) = None ∧ sstable_id_from_path (lock_path d) = None.
Proof.
  intros Hid. split_and!; [by apply sstable_id_roundtrip| |apply wal_not_table|apply lock_not_table].
  intros id' Hid' E. apply (sst_file_inj d); [done|lia|done].
Qed.

(** ** Each theorem on concrete data *)

Definition sample : list (bytes * Entry) := [(key1, EValue val1); (key2, Tombstone)].
Definition sample_path : path := ["t"; "x.sst"].
Definition sample_world : world := World {[ ["t"] := Dir ]} ∅ [].

Lemma sample_small : Forall rec_small sample.
Proof. repeat constructor; by vm_compute. Qed.

Lemma sample_fits : fits sample.
Proof. split; [apply sample_small|by vm_compute]. Qed.

Lemma sample_sorted : sorted_keys sample.
Proof. repeat constructor. Qed.

Lemma sample_place : table_place sample_world sample_path.
Proof.
  split.
  - intros q Hq. change (prefixes (parent sample_path)) with [ ["t"] ] in Hq.
    apply list_elem_of_singleton in Hq as ->. done.
  - done.
  - change (prefixes (parent sample_path)) with [ ["t"] ]. by intros ?%list_elem_of_singleton.
  - done.
Qed.

Lemma sstable_roundtrip_witness :
  ∃ t w', SsTable.flush sample_path sample sample_world = (Ok t, w') ∧
    (∃ w2, SsTable.open sample_path w' = (Ok t, w2)) ∧ (∃ w2, read_all_entries t w' = (Ok sample, w2)) ∧
    ∀ key, (SsTable.get key (t, w')).1 = Ok (lookup_in sample key).
Proof.
  apply (sstable_roundtrip sample_world sample_path sample); [apply sample_place|apply sample_fits|apply sample_sorted|done].
Defined.

(** The table on disk, before a read that fails half way. *)
Definition sample_stored : world :=
  World {[ ["t"] := Dir; sample_path := Reg (File (image sample) (image sample)) ]} ∅ [NoFault; IoFault "EIO" 0].

Lemma sample_holds : holds sample_stored sample_path (image sample).
Proof. vm_compute. reflexivity. Qed.

Lemma sstable_get_witness :
  wp (SsTable.get key2) (table_of sample_path sample, sample_stored) (λ r s',
    (r = Ok (lookup_in sample key2) ∨ failed r ∧ w_faults sample_stored ≠ []) ∧
    w_nodes s'.2 = w_nodes sample_stored ∧ table_rep s'.1 sample_path sample ∧
    (cached_blocks s'.1 <= BLOCK_CACHE_CAP)%nat).
Proof.
  apply (sstable_get_spec sample_stored (table_of sample_path sample) sample_path sample key2);
    [apply sample_holds|apply sample_fits|apply sample_sorted|apply table_of_rep].
Defined.

Lemma sstable_flush_cut_witness :
  wp (SsTable.flush sample_path sample) (set_faults [NoFault; NoFault; CrashAt 9] sample_world) (λ r w',
    (∀ q, q ≠ sample_path → w_nodes w' !! q = w_nodes sample_world !! q) ∧
    (failed r → w_nodes w' = w_nodes sample_world ∨
      ∃ t, t `prefix_of` image sample ∧ file_at w' sample_path = Some (File t (f_durable (File [] []))))).
Proof.
  apply (sstable_flush_cut (set_faults [NoFault; NoFault; CrashAt 9] sample_world) sample_path (File [] []) sample).
  - destruct sample_place. by split.
  - done.
Defined.

(** The first block of the sample with its first key changed. *)
Definition corrupt_world : world :=
  let good := Byte.x00 :: drop 1 (encode_all sample) in
  let bad := Byte.x01 :: drop 1 (encode_all sample) in
  World {[ sample_path := Reg (File (bad ++ be32 (crc32 good)) (bad ++ be32 (crc32 good))) ]} ∅ [].

Lemma corrupt_byte_witness :
  let e := {| first_key := key1; block_offset := 0; block_len := Z.of_nat (length (encode_all sample)) + 4 |} in
  ∃ w', read_block_from_disk sample_path e corrupt_world =
    (Err (DecodeError ("SSTable block CRC mismatch at offset " +:+ pretty (block_offset e))), w') ∧
    w_nodes w' = w_nodes corrupt_world.
Proof.
  intros e. apply (corrupt_byte_detected corrupt_world sample_path e [] [] Byte.x00 Byte.x01
    (drop 1 (encode_all sample)) []); by vm_compute.
Defined.

Lemma records_witness :
  decode_records (S (length (encode_all sample))) (encode_all sample) 0 [] = Some (Ok sample).
Proof. apply (records_roundtrip sample), sample_small. Defined.

Lemma find_in_block_witness : find_in_block (encode_all sample) key2 = Ok (lookup_in sample key2).
Proof. apply (find_in_block_complete sample key2); [apply sample_small|apply sample_sorted]. Defined.

Lemma bloom_witness :
  ∃ b, build_bloom [key1; key2] = Ok (Some b) ∧ bf_k b = 7 ∧
    8 * Z.of_nat (length (bf_bits b)) < Z.max (Z.of_nat (length [key1; key2]) * 10) 64 + 8 ∧
    ∀ key, key ∈ [key1; key2] → maybe_contains b key = Ok true.
Proof. by apply (bloom_no_false_negatives [key1; key2]). Defined.

(** A cache of two blocks: the hit at 0 makes 8 the oldest. *)
Definition cache_trace : list request := [CPut 0 key1; CPut 8 key2; CGet 0; CGet 24].

Lemma cache_evicts_witness :
  let c := fold_left cache_run cache_trace (cache_new 2) in
  used cache_trace (cache_new 2) = [0; 8; 0] ∧ lru c = [8; 0] ∧
  ∃ victim, is_Some (blocks c !! victim) ∧
    (∀ x, x ≠ victim → is_Some (blocks c !! x) → older (used cache_trace (cache_new 2)) victim x) ∧
    blocks (cache_put 16 key2 c) = <[16 := key2]> (delete victim (blocks c)).
Proof.
  intros c. split; [vm_compute; reflexivity|]. split; [vm_compute; reflexivity|].
  apply (cache_evicts_lru 2 cache_trace 16 key2); by vm_compute.
Defined.

(** A log with a committed put, an uncommitted one and three stray bytes. *)
Definition sample_log : list WalEntry := demo_log ++ [create_put_entry key1 val1 (to_u64 3)].
Definition sample_tail : bytes := [Byte.x00; Byte.x00; Byte.x00].

Lemma log_cut_witness :
  let buffer := take 40 (frames sample_log) in
  ∃ j, parse_buffer buffer =
    Ok (take j sample_log, Z.of_nat (length (committed (take j sample_log))),
        Z.of_nat (length (frames (committed (take j sample_log))))) ∧
    frames (take j sample_log) `prefix_of` buffer ∧
    ((length buffer < length (frames sample_log))%nat → (j < length sample_log)%nat) ∧
    ∀ j', (j' <= length sample_log)%nat → frames (take j' sample_log) `prefix_of` buffer → (j' <= j)%nat.
Proof.
  intros buffer. apply (log_cut_anywhere sample_log buffer); [|by vm_compute].
  exists (drop 40 (frames sample_log)). symmetry. apply take_drop.
Defined.

Definition log_world : world :=
  World {[ ["t"] := Dir; ["t"; "wal.log"] := Reg (File (frames sample_log ++ sample_tail) (frames sample_log ++ sample_tail)) ]}
    ∅ [NoFault; NoFault; NoFault; CrashAt 0].

Lemma read_for_recovery_witness :
  let s := ({| file_path := ["t"; "wal.log"]; wal_file := None |}, log_world) in
  wp read_for_recovery s (λ r s',
    (∀ q, q ≠ ["t"; "wal.log"] → w_nodes s'.2 !! q = w_nodes s.2 !! q) ∧
    (r = Ok (committed sample_log) ∧
       wal_rep s'.1 s'.2 ["t"; "wal.log"] (File (frames (committed sample_log)) (frames (committed sample_log))) ∨
     failed r ∧ w_faults s.2 ≠ [] ∧
       log_kept ["t"; "wal.log"] (frames sample_log ++ sample_tail) (frames (committed sample_log)) s' ∨
     r = Ok [] ∧ w_faults s.2 ≠ [] ∧
       wal_rep s'.1 s'.2 ["t"; "wal.log"] (File (frames sample_log ++ sample_tail) (frames sample_log ++ sample_tail)))).
Proof.
  intros s. apply (read_for_recovery_spec s ["t"; "wal.log"] sample_log sample_tail).
  - split_and!; [done|by vm_compute|done|done|by left].
  - left. by apply Nat.ltb_lt.
  - by vm_compute.
Defined.

Lemma sstable_names_witness :
  sstable_id_from_path (sst_file demo_dir 12) = Some 12 ∧
  (∀ id', 0 <= id' → sst_file demo_dir id' = sst_file demo_dir 12 → id' = 12) ∧
  sstable_id_from_path (wal_path demo_dir) = None ∧ sstable_id_from_path (lock_path demo_dir) = None.
Proof. apply (sstable_names demo_dir 12). lia. Defined.
