(* ===== verification/ApiProps.v ===== *)
(** * Properties of the public API

    [Table] (table.rs) over the contents of its store, and [Database]
    (database.rs) over its tables. *)

From Stdlib Require Import Ascii.
From S2P Require Import Prelude Machine Value Checksum Bloom BlockCache Fs Wal SsTable Record Layout Image Search TableSpec Effects WalSpec BTree Store View Names StoreSpec StoreWrite StoreOps Replay Load Recovery StoreInv Writes Api Demo Instances.

(** ** Prefixes *)

Section prefixes.
Implicit Types (p k u prefix : bytes) (b : byte).

Definition is_ff b : Prop := byte_to_Z b = 255.

Lemma bytes_cmp_cons b c p k : bytes_cmp (b :: p) (c :: k) =
  match byte_to_Z b ?= byte_to_Z c with Eq => bytes_cmp p k | o => o end.
Proof. done. Qed.

(** Nothing but its extensions is at or above a run of [0xFF] bytes. *)
Lemma ff_le p k : Forall is_ff p → bytes_le p k ↔ p `prefix_of` k.
Proof.
  intros Hp. revert k. induction Hp as [|b p Hb Hp IH]; intros k.
  - split; [intros _; apply prefix_nil|intros _; by destruct k].
  - destruct k as [|c k].
    + split; [by intros []|by intros [? ?]].
    + unfold bytes_le. rewrite bytes_cmp_cons, Hb. pose proof (byte_to_Z_range c).
      destruct (Z.compare_spec 255 (byte_to_Z c)) as [E| |]; [|lia|].
      * assert (b = c) as ->. { apply byte_to_Z_inj. unfold is_ff in Hb. lia. }
        rewrite (IH k). split; [apply prefix_cons|apply prefix_cons_inv_2].
      * split; [done|]. intros [r E]. injection E as E _. subst c. unfold is_ff in Hb. lia.
Qed.

(** The loop pops the trailing [0xFF] bytes and increments the byte before. *)
Lemma upper_loop_spec l :
  match upper_loop l with
  | Some u => ∃ p b ff, reverse l = p ++ b :: ff ∧ Forall is_ff ff ∧ byte_to_Z b < 255 ∧
                u = p ++ [byte_of_Z (byte_to_Z b + 1)]
  | None => Forall is_ff l
  end.
Proof.
  induction l as [|b l IH]; [constructor|]. cbn [upper_loop].
  destruct (Z.ltb_spec (byte_to_Z b) 255) as [Hb|Hb].
  - exists (reverse l), b, []. rewrite !reverse_cons. by split_and!.
  - assert (Hff : is_ff b) by (pose proof (byte_to_Z_range b); unfold is_ff; lia).
    destruct (upper_loop l) as [u|]; [|by constructor].
    destruct IH as (p & b' & ff & E & Hf & Hb' & ->). exists p, b', (ff ++ [b]).
    rewrite reverse_cons, E, <-app_assoc. split_and!; [done| |done..].
    apply list.Forall_app. by split; [|constructor].
Qed.

Lemma between_prefix p b ff k :
  Forall is_ff ff → byte_to_Z b < 255 →
  bytes_le (p ++ b :: ff) k ∧ bytes_lt k (p ++ [byte_of_Z (byte_to_Z b + 1)]) ↔ (p ++ b :: ff) `prefix_of` k.
Proof.
  intros Hff Hb. pose proof (byte_to_Z_range b) as Hr. revert k. induction p as [|c p IH]; intros k; cbn [app].
  - destruct k as [|d k]; [split; [by intros [[] ?]|by intros [? ?]]|].
    unfold bytes_le, bytes_lt. rewrite !bytes_cmp_cons, byte_to_of_Z, Z.mod_small by lia.
    destruct (Z.compare_spec (byte_to_Z b) (byte_to_Z d)) as [E|Hlt|Hgt].
    + rewrite <-E. destruct (Z.compare_spec (byte_to_Z b) (byte_to_Z b + 1)); [lia| |lia].
      apply byte_to_Z_inj in E as ->. rewrite (ff_le ff k Hff). split.
      * intros [? _]. by apply prefix_cons.
      * intros ?%prefix_cons_inv_2. done.
    + destruct (Z.compare_spec (byte_to_Z d) (byte_to_Z b + 1)) as [E'| |]; [|lia|].
      * split; [intros [_ H]; by destruct k|]. intros [r E]. injection E as E _. subst. lia.
      * split; [by intros [_ ?]|]. intros [r E]. injection E as E _. subst. lia.
    + split; [by intros [[] _]|]. intros [r E]. injection E as E _. subst. lia.
  - destruct k as [|d k]; [split; [by intros [[] ?]|by intros [? ?]]|].
    unfold bytes_le, bytes_lt. rewrite !bytes_cmp_cons. destruct (Z.compare_spec (byte_to_Z c) (byte_to_Z d)) as [E|Hlt|Hgt].
    + rewrite <-E, Z.compare_refl. apply byte_to_Z_inj in E as ->. rewrite (IH k).
      split; [apply prefix_cons|apply prefix_cons_inv_2].
    + destruct (Z.compare_spec (byte_to_Z d) (byte_to_Z c)); [lia..|].
      split; [by intros [_ ?]|]. intros [r E]. injection E as E _. subst. lia.
    + split; [by intros [[] _]|]. intros [r E]. injection E as E _. subst. lia.
Qed.

Definition prefix_bound prefix : Bound :=
  match prefix_upper_bound prefix with Some u => Excluded u | None => Unbounded end.

Lemma prefix_bounds_spec prefix k :
  in_bounds k (Included prefix) (prefix_bound prefix) = true ↔ prefix `prefix_of` k.
Proof.
  unfold prefix_bound, prefix_upper_bound. pose proof (upper_loop_spec (reverse prefix)) as H.
  rewrite reverse_involutive in H. unfold in_bounds. cbv zeta. destruct (upper_loop _) as [u|].
  - destruct H as (p & b & ff & -> & Hff & Hb & ->). rewrite andb_true_iff, bytes_leb_spec, bytes_ltb_spec.
    by apply between_prefix.
  - rewrite andb_true_r, bytes_leb_spec. apply ff_le. by apply list.Forall_reverse in H; rewrite reverse_involutive in H.
Qed.

Lemma prefix_bounds_good prefix : bad_range (Included prefix) (prefix_bound prefix) = false.
Proof.
  unfold prefix_bound. destruct (prefix_upper_bound prefix) as [u|] eqn:E; [|done]. cbn.
  apply bytes_ltb_false, bytes_lt_le.
  assert (Hin : in_bounds prefix (Included prefix) (prefix_bound prefix) = true) by (by apply prefix_bounds_spec).
  unfold prefix_bound, in_bounds in Hin. rewrite E in Hin. apply andb_true_iff in Hin as [_ Hin]. by apply bytes_ltb_spec.
Qed.
End prefixes.

(** ** Calls of the engine *)

Lemma core_ok {S A} (m : M S A) s a s' : m s = (Ok a, s') → core m s = (Ok (inr a), s').
Proof. intros E. unfold core. by rewrite E. Qed.

Lemma api_bind_ok {S A B} (m : M S (Error + A)) (k : A → M S (Error + B)) s a s' :
  m s = (Ok (inr a), s') → api_bind m k s = k a s'.
Proof. intros E. unfold api_bind. by erewrite bind_ok by exact E. Qed.


(** The reply of a call that failed in the engine with an I/O error or died. *)
Definition api_failed {A} (r : outcome (Error + A)) : Prop := r = Crashed ∨ ∃ msg, r = Ok (inl (Io msg)).

Lemma wp_core {S A B} (m : M S A) (k : A → M S (Error + B)) s (Q : outcome (Error + B) → S → Prop) :
  wp m s (λ r s', match r with
                  | Ok a => wp (k a) s' Q
                  | Err e => Q (Ok (inl (from_app_error e))) s'
                  | Panic => Q Panic s'
                  | Crashed => Q Crashed s'
                  end) →
  wp (api_bind (core m) k) s Q.
Proof.
  intros Hm. unfold api_bind. apply wp_bind. unfold wp in Hm |- *. unfold core.
  destruct (m s) as [[a|e| |] s']; exact Hm.
Qed.

Section table.
Context {Prof : Profile} {Cd : Codec} {CdOk : CodecOk Cd}.
Implicit Types (ts : tabs) (log : list WalEntry) (s : Store * world) (k key v value prefix : bytes).

(** What [Table::get] makes of a stored value. *)
Definition as_bytes (o : option Value) : Error + option bytes :=
  match o with
  | None => inr None
  | Some (Bytes b) => inr (Some b)
  | Some _ => inl UnexpectedValue
  end.

Lemma get_value_quiet s ts key :
  mem_inv s.1 s.2 ts → w_faults s.2 = [] → ∃ s', get_value key s = (Ok (contents s.1 ts !! key), s').
Proof.
  intros Hi Hf. destruct (effect_quiet _ _ _ _ _ (effect_get_value s ts key Hi) Hf) as (a & s' & E & _ & -> & _). eauto.
Qed.

Lemma table_get_quiet s ts key :
  mem_inv s.1 s.2 ts → w_faults s.2 = [] → (table_get key s).1 = Ok (as_bytes (contents s.1 ts !! key)).
Proof.
  intros Hi Hf. destruct (get_value_quiet s ts key Hi Hf) as [s' E]. unfold table_get.
  erewrite api_bind_ok by (by apply core_ok). by destruct (contents s.1 ts !! key) as [[]|].
Qed.

(** C34: [Table::get] under any faults: the bytes stored under the key, [None] if
    there are none, [UnexpectedValue] if another kind of value is there; or an
    [Io] error.  The table's contents do not change. *)
Theorem table_get_spec s ts key :
  mem_inv s.1 s.2 ts →
  wp (table_get key) s (λ r s',
    (r = Ok (as_bytes (contents s.1 ts !! key)) ∨ api_failed r ∧ w_faults s.2 ≠ []) ∧
    mem_inv s'.1 s'.2 ts ∧ contents s'.1 ts = contents s.1 ts).
Proof.
  intros Hi. apply wp_core. eapply wp_mono; [by apply effect_get_value|].
  intros r s' [_ [(a & -> & -> & Hi' & Hss)|(Hf & Hne & Hi' & Hss)]]; apply (contents_same _ _ ts) in Hss.
  - unfold wp. destruct (contents s.1 ts !! key) as [[]|]; cbn; auto.
  - destruct Hf as [->|[msg ->]]; (split; [right|done]); (split; [|done]); [by left|right; by exists msg].
Qed.

(** C35: [Table::put] then [Table::get]: on a healthy disk a put succeeds, the
    key then reads back the bytes that were put, and every other key reads as
    before. *)
Theorem table_put_get s ts log key value :
  store_inv s ts log → w_faults s.2 = [] → small_entry key (EValue (Bytes value)) → room s.1 ts 1 →
  log_room log (one_records (create_put_entry key (Bytes value)) s) →
  ∃ s' ts' log', table_put key value s = (Ok (inr tt), s') ∧ store_inv s' ts' log' ∧ w_faults s'.2 = [] ∧
    (table_get key s').1 = Ok (inr (Some value)) ∧
    ∀ k, k ≠ key → (table_get k s').1 = (table_get k s).1.
Proof.
  intros Hs Hf He Hr Hl.
  destruct (write_one_ok s ts log key (EValue (Bytes value)) _ "Inserted value" Hs Hf He Hr (put_records _ _ _ He) Hl)
    as (s' & ts' & log' & E & Hs' & Hf' & Hc).
  assert (Hi := si_mem _ _ _ Hs). assert (Hi' := si_mem _ _ _ Hs').
  exists s', ts', log'. split_and!; [|done|done| |].
  - unfold table_put. rewrite set_value_eq. by erewrite api_bind_ok by (by apply core_ok).
  - rewrite (table_get_quiet s' ts') by done. rewrite Hc. unfold write_entry. by rewrite lookup_insert_eq.
  - intros k Hk. rewrite (table_get_quiet s' ts'), (table_get_quiet s ts) by done. rewrite Hc.
    unfold write_entry. by rewrite lookup_insert_ne.
Qed.

(** The transaction of [Table::put_batch]. *)
Definition batch_txn (entries : list (bytes * bytes)) s : Transaction * world :=
  (fold_left (λ tx '(key, value), txn_set_value key (Bytes value) tx) entries (begin_transaction s.1), s.2).

Lemma batch_store (entries : list (bytes * bytes)) (t : Transaction) :
  store (fold_left (λ tx '(key, value), txn_set_value key (Bytes value) tx) entries t) = store t.
Proof. revert t. induction entries as [|[key value] entries IH]; intros t; [done|]. cbn [fold_left]. by rewrite IH. Qed.

Lemma overlay_insert (key : bytes) (o : option Value) (p : gmap bytes (option Value)) (m : gmap bytes Value) :
  overlay (<[key := o]> p) m = match o with Some v => <[key := v]> (overlay p m) | None => delete key (overlay p m) end.
Proof.
  apply map_eq. intros x. rewrite overlay_lookup.
  destruct o; destruct (decide (x = key)) as [->|Hne];
    by rewrite ?lookup_insert_eq, ?lookup_delete_eq, ?lookup_insert_ne, ?lookup_delete_ne, ?overlay_lookup.
Qed.

(** What a batch puts: later entries win. *)
Definition put_entries (entries : list (bytes * bytes)) (m : gmap bytes Value) : gmap bytes Value :=
  fold_left (λ m '(key, value), <[key := Bytes value]> m) entries m.

Lemma batch_overlay (entries : list (bytes * bytes)) (t : Transaction) (m : gmap bytes Value) :
  overlay (pending (fold_left (λ tx '(key, value), txn_set_value key (Bytes value) tx) entries t)) m =
  put_entries entries (overlay (pending t) m).
Proof.
  unfold put_entries. revert t. induction entries as [|[key value] entries IH]; intros t; [done|]. cbn [fold_left].
  rewrite IH. unfold txn_set_value. cbn [pending]. by rewrite overlay_insert.
Qed.

Lemma overlay_empty (m : gmap bytes Value) : overlay ∅ m = m.
Proof. apply map_eq. intros k. by rewrite overlay_lookup, lookup_empty. Qed.

Lemma batch_pending (entries : list (bytes * bytes)) s : entries ≠ [] → pending (batch_txn entries s).1 ≠ ∅.
Proof.
  destruct entries as [|kv entries _] using rev_ind; [done|]. intros _. unfold batch_txn. cbn [fst].
  rewrite fold_left_app. destruct kv as [key value]. cbn. apply insert_non_empty.
Qed.

Lemma wp_with_txn {A} (m : M (Transaction * world) A) s Q :
  wp m (begin_transaction s.1, s.2) (λ r t, Q r (store t.1, t.2)) → wp (with_txn m) s Q.
Proof. unfold wp, with_txn. by destruct (m _) as [r [t w]]. Qed.

Lemma put_batch_ok s (entries : list (bytes * bytes)) (t' : Transaction * world) :
  txn_commit (batch_txn entries s) = (Ok tt, t') → table_put_batch entries s = (Ok (inr tt), (store t'.1, t'.2)).
Proof.
  intros E. unfold table_put_batch, with_txn. erewrite bind_ok by done. cbn [fst snd begin_transaction].
  erewrite api_bind_ok by (by apply core_ok). by destruct t'.
Qed.

(** C36: [Table::put_batch] puts every pair of the batch; when a key occurs more
    than once its last value stays.  It does so in one commit.  On a healthy disk
    and below the memtable budget, the log grows by one batch that ends in its
    only COMMIT and holds the last value of each key.  Under any faults, below
    the budget, it never panics, and a crash leaves a directory that recovers to
    the contents with the whole batch or, unless the call reported success, with
    nothing of it. *)
Theorem table_put_batch_spec s ts log entries :
  committable (batch_txn entries s) ts log →
  let es := pending_entries (pending (batch_txn entries s).1) in
  (w_faults s.2 = [] →
   ∃ s' ts' log', table_put_batch entries s = (Ok (inr tt), s') ∧ store_inv s' ts' log' ∧ w_faults s'.2 = [] ∧
     contents s'.1 ts' = put_entries entries (contents s.1 ts)) ∧
  (w_faults s.2 = [] → entries ≠ [] → footprint (insert_all es (data s.1)) < memtable_max_bytes s.1 →
   ∃ s' new, table_put_batch entries s = (Ok (inr tt), s') ∧ store_inv s' ts (log ++ new) ∧
     batch new ∧ log_writes new = es) ∧
  (footprint (insert_all es (data s.1)) < memtable_max_bytes s.1 →
   wp (table_put_batch entries) s (λ r s', r ≠ Panic ∧
     ∀ w', crash_world s'.2 w' →
       recovers w' (dir s.1) (put_entries entries (contents s.1 ts)) ∨
       r ≠ Ok (inr tt) ∧ recovers w' (dir s.1) (contents s.1 ts))).
Proof.
  intros Hc es.
  assert (Hst : store (batch_txn entries s).1 = s.1) by (unfold batch_txn; cbn [fst]; by rewrite batch_store).
  assert (Hover : overlay (pending (batch_txn entries s).1) (contents s.1 ts) = put_entries entries (contents s.1 ts)).
  { unfold batch_txn. cbn [fst]. by rewrite batch_overlay, overlay_empty. }
  split_and!.
  - intros Hf. destruct (txn_commit_ok _ ts log Hc Hf) as (t' & ts' & log' & E & Hs' & Hf' & Hm).
    exists (store t'.1, t'.2), ts', log'. split_and!; [by apply put_batch_ok|done|done|].
    cbn [fst]. by rewrite Hm, Hst, Hover.
  - intros Hf Hne Hb. rewrite <-Hst in Hb.
    destruct (txn_commit_logged _ ts log Hc Hf (batch_pending entries s Hne) Hb) as (t' & E & Hs' & Hl).
    eexists (store t'.1, t'.2), _. split_and!; [by apply put_batch_ok|exact Hs'|apply Hl..].
  - intros Hb. rewrite <-Hst in Hb. apply wp_with_txn. apply wp_bind. change (wp_seq ?k ?Q) with (wp_seq k Q).
    unfold wp at 1. cbn [fst snd set_self modify wp_seq]. apply wp_core.
    eapply wp_mono; [exact (txn_commit_crash _ ts log Hc Hb)|]. rewrite Hst, Hover.
    intros r t' [Hp Hcr].
    assert (Hfin : ∀ w', crash_world t'.2 w' → recovers w' (dir s.1) (put_entries entries (contents s.1 ts)) ∨
      r ≠ Ok tt ∧ recovers w' (dir s.1) (contents s.1 ts)).
    { intros w' Hw'. destruct (Hcr w' Hw') as (m & [->|[? ->]] & ?); auto. }
    destruct r as [[]|e| |]; [|..|done|]; (split; [done|]); intros w' Hw'; destruct (Hfin w' Hw') as [?|[? ?]]; auto.
Qed.

(** C37: [Table::scan_prefix] on a healthy disk, for a table that holds bytes
    only: exactly the pairs whose key starts with the prefix, in ascending order
    of the keys, whatever the prefix, empty or ending in [0xFF] bytes included. *)
Theorem table_scan_prefix_spec s ts prefix :
  mem_inv s.1 s.2 ts → w_faults s.2 = [] → (∀ k (v : Value), contents s.1 ts !! k = Some v → ∃ b, v = Bytes b) →
  ∃ l s', table_scan_prefix prefix s = (Ok (inr l), s') ∧ StronglySorted bytes_lt l.*1 ∧
    ∀ k b, (k, b) ∈ l ↔ contents s.1 ts !! k = Some (Bytes b) ∧ prefix `prefix_of` k.
Proof.
  intros Hi Hf Hb.
  destruct (effect_quiet _ _ _ _ _ (effect_scan_range s ts (Included prefix) (prefix_bound prefix) Hi
    (or_intror (prefix_bounds_good prefix))) Hf) as (l & s' & E & _ & -> & _).
  set (m := within _ _ _) in *.
  assert (Hm : ∀ k (v : Value), m !! k = Some v → ∃ b, v = Bytes b).
  { intros k v. unfold m. rewrite within_lookup. destruct (in_bounds _ _ _); [apply Hb|done]. }
  assert (Hgo : ∀ l : list (bytes * Value), (∀ k (v : Value), (k, v) ∈ l → ∃ b, v = Bytes b) →
    ∃ l', only_bytes l = inr l' ∧ l'.*1 = l.*1 ∧ ∀ k b, (k, b) ∈ l' ↔ (k, Bytes b) ∈ l).
  { clear. induction l as [|[k v] l IH]; intros Hl.
    - exists []. split_and!; [done..|]. intros k b. split; intros H; by apply elem_of_nil in H.
    - destruct (Hl k v ltac:(by left)) as [b ->].
      destruct IH as (l' & E & Ek & Hin); [intros k' v' H; eapply Hl; by right|].
      exists ((k, b) :: l'). cbn. rewrite E, Ek. split_and!; [done..|].
      intros k' b'. rewrite !elem_of_cons, Hin. split; (intros [H|H]; [left|by right]); by injection H as -> ->. }
  destruct (Hgo (bt_iter m)) as (l & El & Ek & Hin).
  { intros k v Hkv%elem_of_bt_iter. by eapply Hm. }
  exists l, s'. split_and!.
  - unfold table_scan_prefix, table_range_bounds. cbv zeta. change (match prefix_upper_bound prefix with
      Some u => Excluded u | None => Unbounded end) with (prefix_bound prefix).
    erewrite api_bind_ok by (by apply core_ok). unfold mret. by rewrite El.
  - rewrite Ek. apply bt_iter_sorted.
  - intros k b. rewrite Hin, elem_of_bt_iter. unfold m. rewrite within_lookup.
    pose proof (prefix_bounds_spec prefix k) as Hp. destruct (in_bounds _ _ _); naive_solver.
Qed.
End table.

(** ** The database *)

Lemma validate_name_ok name :
  validate_name name = inr tt ↔
    name ≠ ""%string ∧ ¬ ("/"%char ∈ string_chars name) ∧ ¬ ("\"%char ∈ string_chars name) ∧
    name ≠ "."%string ∧ name ≠ ".."%string.
Proof.
  assert (Hc : ∀ c l, existsb (Ascii.eqb c) l = true ↔ c ∈ l).
  { intros c l. rewrite existsb_exists. split.
    - by intros (x & Hx%list_elem_of_In & ->%Ascii.eqb_eq).
    - intros Hx. exists c. split; [by apply list_elem_of_In|apply Ascii.eqb_refl]. }
  unfold validate_name. rewrite <-(Hc "/"%char), <-(Hc "\"%char).
  repeat case_bool_decide; destruct (existsb (Ascii.eqb "/"%char) _), (existsb (Ascii.eqb "\"%char) _); cbn; naive_solver.
Qed.

(** A valid name has no separator. *)
Lemma valid_no_sep name c : validate_name name = inr tt → c ∈ string_chars name → any_sep c = false.
Proof.
  intros (_ & H1 & H2 & _)%validate_name_ok Hc. unfold any_sep.
  destruct (Ascii.eqb_spec c "/"%char) as [->|]; [done|]. by destruct (Ascii.eqb_spec c "\"%char) as [->|].
Qed.

Lemma resolve_valid sep d name :
  (∀ c, sep c = true → any_sep c = true) → validate_name name = inr tt → resolve sep d name = join d name.
Proof.
  intros Hsep Hv. assert (Hv' := Hv). apply validate_name_ok in Hv' as (? & _ & _ & ? & ?).
  apply resolve_plain; [|done..]. intros c Hc. pose proof (valid_no_sep _ _ Hv Hc) as Hno.
  destruct (sep c) eqn:E; [|done]. apply Hsep in E. congruence.
Qed.

Lemma resolve_unix d name : validate_name name = inr tt → resolve unix_sep d name = join d name.
Proof. apply resolve_valid. unfold unix_sep, any_sep. by intros c ->. Qed.


Lemma below_refl d : below d d = true.
Proof. unfold below. rewrite firstn_all. by apply bool_decide_eq_true_2. Qed.

Lemma below_join d name : below d (join d name) = true.
Proof. unfold below, join. rewrite take_app_length. by apply bool_decide_eq_true_2. Qed.

Lemma not_below_prefix d name q : q ∈ prefixes d → below (join d name) q = false.
Proof.
  intros Hq. apply bool_decide_eq_false_2. intros E. apply (f_equal length) in E.
  unfold prefixes in Hq. apply list_elem_of_fmap in Hq as (i & -> & _). unfold join in E.
  rewrite !length_app in E. cbn in E. pose proof (length_take_le (take i d) (length d + 1)).
  rewrite length_take in E. rewrite length_take in E. lia.
Qed.

Lemma prefixes_join d name q : q ∈ prefixes (join d name) → q ∈ prefixes d ∨ q = join d name.
Proof.
  unfold prefixes, join. rewrite length_app. cbn [length]. intros (i & -> & Hi%elem_of_seq)%list_elem_of_fmap.
  destruct (decide (i <= length d)%nat) as [Hle|Hgt].
  - left. rewrite take_app_le by done. apply list_elem_of_fmap. exists i. split; [done|]. apply elem_of_seq. lia.
  - right. apply firstn_all2. rewrite length_app. cbn. lia.
Qed.

Section database.
Context {Prof : Profile} {Cd : Codec} {CdOk : CodecOk Cd} {RDir : ReadDir} {RDirOk : ReadDirOk RDir}.
Implicit Types (w : world) (d : path) (name : string) (db : Database).

(** A directory that is not there, or empty, recovers to the empty table. *)
Lemma fresh_dir w d :
  d ≠ [] → (∀ q, q ∈ prefixes d → w_nodes w !! q = None ∨ w_nodes w !! q = Some Dir) →
  (∀ x, w_nodes w !! join d x = None) → dir_ok w d [] ∧ wal_at w (wal_path d) (File [] []) ∧ log_ok [] [].
Proof.
  intros Hd Hp Hn. split_and!.
  - split; [done|done|by apply list.Forall_nil|apply SSorted_nil|by apply list.Forall_nil| | |].
    + intros x id [n Hx]. by rewrite Hn in Hx.
    + intros id. unfold sst_file. by rewrite Hn.
    + unfold lock_path. by rewrite Hn.
  - unfold wal_at, wal_path. by rewrite Hn.
  - split; [exists []; split; [done|apply torn_nil]|done|constructor|done].
Qed.

Lemma fresh_recovers w d :
  d ≠ [] → (∀ q, q ∈ prefixes d → w_nodes w !! q = None ∨ w_nodes w !! q = Some Dir) →
  (∀ x, w_nodes w !! join d x = None) → recovers w d ∅.
Proof.
  intros Hd Hp Hn. destruct (fresh_dir w d Hd Hp Hn) as (? & ? & ?). exists [], [], []. split_and!; [done..|].
  unfold recovered. cbn [committed replay fold_left tables_map foldr]. by rewrite (left_id_L ∅ (∪)).
Qed.

Lemma fresh_table w d name :
  d ≠ [] → chain w d → (∀ q, below (join d name) q = true → w_nodes w !! q = None) → recovers w (join d name) ∅.
Proof.
  intros Hd Hch Hb. apply fresh_recovers.
  - unfold join. by destruct d.
  - intros q [Hq| ->]%prefixes_join; [right; by apply Hch|left]. apply Hb, below_refl.
  - intros x. apply Hb, below_join.
Qed.


(** The check of [create_table] and [delete_table] for the table's directory. *)
Lemma exists_quiet db w name :
  validate_name name = inr tt → w_faults w = [] → root db ≠ [] →
  on_world (fs_exists (resolve unix_sep (root db) name)) (db, w) =
  (Ok (bool_decide (is_Some (w_nodes w !! join (root db) name))), (db, w)).
Proof.
  intros Hv Hf Hroot. rewrite resolve_unix by done. unfold on_world, zoom, fs_exists. cbn [snd].
  rewrite ask_quiet by done. unfold exists_at.
  rewrite (bool_decide_eq_false_2 (join _ _ = [])) by (unfold join; by destruct (root db)). by rewrite orb_false_r.
Qed.



(** C40: [Database::delete_table]: a missing table is reported, under any faults,
    and nothing changes; an existing one, on a healthy disk, loses every file below its
    directory and no other file, its handle is dropped and its lock released, and
    the name opens as an empty table again. *)
Theorem delete_table_spec db w name :
  validate_name name = inr tt → root db ≠ [] →
  (w_nodes w !! join (root db) name = None →
     wp (delete_table name) (db, w) (λ r s',
       (r = Ok (inl (TableNotFound name)) ∨ r = Crashed ∧ w_faults w ≠ []) ∧
       s'.1 = db ∧ calm w s'.2 ∧ (w_faults w = [] → s'.2 = w))) ∧
  (w_nodes w !! join (root db) name = Some Dir → w_faults w = [] → chain w (root db) →
   match opened_tables db !! name with
   | Some s => lock s = Some (lock_path (join (root db) name))
   | None => ¬ (lock_path (join (root db) name) ∈ w_locks w)
   end →
   ∃ w', delete_table name (db, w) = (Ok (inr tt), (set_opened (delete name) db, w')) ∧
     (∀ q, w_nodes w' !! q = if below (join (root db) name) q then None else w_nodes w !! q) ∧
     ¬ (lock_path (join (root db) name) ∈ w_locks w') ∧ recovers w' (join (root db) name) ∅).
Proof.
  intros Hv Hroot. assert (Hj : join (root db) name ≠ []) by (unfold join; by destruct (root db)).
  split.
  - intros Hn. unfold wp, delete_table. rewrite Hv. erewrite api_bind_ok by done. erewrite bind_ok by done.
    rewrite resolve_unix by done.
    assert (Eat : ∀ w', calm w w' → exists_at w' (join (root db) name) = false).
    { intros w' Hc. unfold exists_at. rewrite (proj1 Hc), Hn. by rewrite (bool_decide_eq_false_2 _ Hj). }
    assert (He : wp (fs_exists (join (root db) name)) w (λ r w', (r = Ok false ∨ r = Crashed ∧ w_faults w ≠ []) ∧ calm w w')).
    { apply wp_ask; [intros w' Hc; rewrite Eat by done; auto|intros w' Hf Hc; auto]. }
    assert (Hq : w_faults w = [] → (fs_exists (join (root db) name) w).2 = w) by (intros Hf; unfold fs_exists; by rewrite ask_quiet).
    unfold wp in He. unfold on_world, zoom, mbind, M_bind. cbn [fst snd].
    destruct (fs_exists (join (root db) name) w) as [r w1]. cbn [fst snd] in *. destruct He as [[->|[-> ?]] Ht]; cbn;
      (split; [auto|split; [done|split; [exact Ht|exact Hq]]]).
  - intros Hn Hf Hch Hlock.
    set (w1 := match opened_tables db !! name with Some s => drop_store s w | None => w end).
    assert (Hn1 : w_nodes w1 = w_nodes w ∧ w_faults w1 = [] ∧ ¬ (lock_path (join (root db) name) ∈ w_locks w1)).
    { unfold w1. destruct (opened_tables db !! name) as [s|]; [|done]. unfold drop_store. rewrite Hlock.
      split_and!; [done..|]. unfold unlock, set_locks. cbn [w_locks]. set_solver. }
    destruct Hn1 as (Hnodes & Hf1 & Hl1).
    set (w2 := set_nodes (filter (λ '(q, _), below (join (root db) name) q = false)) w1).
    assert (Hw2 : ∀ q, w_nodes w2 !! q = if below (join (root db) name) q then None else w_nodes w !! q).
    { intros q. unfold w2. cbn [w_nodes set_nodes]. rewrite map_lookup_filter, Hnodes.
      destruct (w_nodes w !! q); cbn; [|by destruct (below _ _)].
      destruct (below _ q) eqn:E; [by rewrite option_guard_False|by rewrite option_guard_True]. }
    exists w2. split_and!; [|done|done|].
    + unfold delete_table. rewrite Hv. erewrite api_bind_ok by done. erewrite bind_ok by done.
      erewrite bind_ok by (by apply exists_quiet). cbn [fst snd]. rewrite Hn, (resolve_unix _ _ Hv).
      rewrite (bool_decide_eq_true_2 (is_Some (Some Dir))) by eauto. cbn [negb].
      erewrite bind_ok by done. erewrite bind_ok by done. cbn [fst snd].
      erewrite (bind_ok _ _ _ tt (set_opened (delete name) db, w1)).
      2:{ unfold on_world, zoom, modify, w1. cbn [fst snd]. by destruct (opened_tables db !! name). }
      erewrite api_bind_ok; [done|]. apply core_ok. unfold on_world, zoom, fs_remove_dir_all. cbn [fst snd].
      rewrite io_quiet by done. by rewrite Hnodes, Hn.
    + apply fresh_table; [done| |].
      * intros q Hq. rewrite Hw2, not_below_prefix by done. by apply Hch.
      * intros q Hq. by rewrite Hw2, Hq.
Qed.
End database.

(** ** Each theorem on a concrete database *)

Lemma table_get_witness :
  wp (table_get key2) demo_faulty (λ r s',
    (r = Ok (as_bytes (contents demo_faulty.1 demo_tabs !! key2)) ∨ api_failed r ∧ w_faults demo_faulty.2 ≠ []) ∧
    mem_inv s'.1 s'.2 demo_tabs ∧ contents s'.1 demo_tabs = contents demo_faulty.1 demo_tabs).
Proof. apply (table_get_spec demo_faulty demo_tabs key2), demo_faulty_inv. Defined.

Lemma demo_key_small : small_entry key2 (EValue (Bytes key1)).
Proof. by split; vm_compute. Qed.

Lemma table_put_witness :
  ∃ s' ts' log', table_put key2 key1 demo = (Ok (inr tt), s') ∧ store_inv s' ts' log' ∧ w_faults s'.2 = [] ∧
    (table_get key2 s').1 = Ok (inr (Some key1)) ∧
    ∀ k, k ≠ key2 → (table_get k s').1 = (table_get k demo).1.
Proof.
  apply (table_put_get demo demo_tabs demo_log key2 key1);
    [apply demo_inv|apply demo_quiet|apply demo_key_small|by apply demo_room|].
  apply demo_log_room, Nat.ltb_lt. vm_compute. reflexivity.
Defined.

(** A batch with a key that occurs twice. *)
Definition demo_batch : list (bytes * bytes) := [(key2, key1); (key2, key2)].

Lemma demo_batch_eq :
  batch_txn demo_batch demo =
  ({| store := demo.1; pending := <[key2 := Some (Bytes key2)]> (<[key2 := Some (Bytes key1)]> ∅) |}, demo.2).
Proof. reflexivity. Qed.

Lemma demo_batch_committable : committable (batch_txn demo_batch demo) demo_tabs demo_log.
Proof.
  rewrite demo_batch_eq. split; rewrite ?fst_pair, ?snd_pair; cbn [store pending].
  - unfold st. rewrite fst_pair, snd_pair. cbn [store]. rewrite <-(surjective_pairing demo). apply demo_inv.
  - change (pending_entries _) with [(key2, EValue (Bytes key2))].
    constructor; [|constructor]. by split; vm_compute.
  - by apply demo_room.
  - apply demo_log_room, Nat.ltb_lt. vm_compute. reflexivity.
Qed.

Lemma table_put_batch_witness :
  let es := pending_entries (pending (batch_txn demo_batch demo).1) in
  ∃ s' new, table_put_batch demo_batch demo = (Ok (inr tt), s') ∧ store_inv s' demo_tabs (demo_log ++ new) ∧
     batch new ∧ log_writes new = es.
Proof.
  intros es. apply (table_put_batch_spec demo demo_tabs demo_log demo_batch);
    [apply demo_batch_committable|apply demo_quiet|done|].
  apply Z.ltb_lt. vm_compute. reflexivity.
Defined.

(** The demo store once its only number is overwritten. *)
Lemma bytes_store : ∃ s ts log, store_inv s ts log ∧ w_faults s.2 = [] ∧
  ∀ k (v : Value), contents s.1 ts !! k = Some v → ∃ b, v = Bytes b.
Proof.
  destruct (write_one_ok demo demo_tabs demo_log key2 (EValue (Bytes key1)) (create_put_entry key2 (Bytes key1)) "" demo_inv
    demo_quiet demo_key_small) as (s & ts & log & _ & Hs & Hf & Hc).
  - by apply demo_room.
  - apply put_records, demo_key_small.
  - apply demo_log_room, Nat.ltb_lt. vm_compute. reflexivity.
  - exists s, ts, log. split_and!; [done..|]. rewrite Hc, demo_contents. unfold write_entry.
    clear. intros k v. rewrite lookup_insert_Some, lookup_insert_Some, lookup_singleton_Some. unfold val1.
    intros [[_ <-]|[Hk [[_ <-]|[_ [E _]]]]]; [by eexists..|done].
Qed.

Lemma table_scan_prefix_witness :
  ∃ s ts l s', table_scan_prefix (take 1 key1) s = (Ok (inr l), s') ∧ StronglySorted bytes_lt l.*1 ∧
    ∀ k b, (k, b) ∈ l ↔ contents s.1 ts !! k = Some (Bytes b) ∧ take 1 key1 `prefix_of` k.
Proof.
  destruct bytes_store as (s & ts & log & Hs & Hf & Hb). exists s, ts.
  apply (table_scan_prefix_spec s ts (take 1 key1)); [apply Hs|exact Hf|exact Hb].
Defined.

Definition demo_db : Database := {| root := ["db"]; opened_tables := ∅ |}.



(** The same database with a table that is not open. *)
Definition demo_users : world :=
  World {[ ["db"] := Dir; ["db"; "users"] := Dir; ["db"; "users"; "wal.log"] := Reg (File [] []) ]} ∅ [].

Lemma delete_table_witness :
  ∃ w', delete_table "users" (demo_db, demo_users) = (Ok (inr tt), (set_opened (delete "users") demo_db, w')) ∧
    (∀ q, w_nodes w' !! q = if below (join (root demo_db) "users") q then None else w_nodes demo_users !! q) ∧
    ¬ (lock_path (join (root demo_db) "users") ∈ w_locks w') ∧ recovers w' (join (root demo_db) "users") ∅.
Proof.
  apply (delete_table_spec demo_db demo_users "users"); [done|done|done|done| |].
  - intros q Hq. change (prefixes (root demo_db)) with [ ["db"] ] in Hq. by apply list_elem_of_singleton in Hq as ->.
  - apply not_elem_of_empty.
Defined.
