(* ===== verification/Trace.v ===== *)
(** * Sequences of operations

    A store driven by any sequence of operations, restarts and crashes between
    operations is a map from keys to values: every reply is the map's. *)

From S2P Require Import Prelude Machine Value Checksum Bloom BlockCache Fs Wal SsTable Record Layout Image Search TableSpec Effects WalSpec BTree Store View Names StoreSpec StoreWrite StoreOps Replay Load Recovery StoreInv Writes Api ApiProps Demo Instances.

Section trace.
Context {Prof : Profile} {Cd : Codec} {RDir : ReadDir}.

(** ** Operations and their replies *)

(** [OCrash after]: the process dies between two operations, [after] says what
    the crash makes of the files, and the directory is opened again. *)
Inductive op :=
  | OSet (key : bytes) (v : Value)
  | ODelete (key : bytes)
  | OGet (key : bytes)
  | OScan (lo hi : Bound)
  | OCommit (writes : list (bytes * option Value))
  | OFlush
  | OCompact
  | OBudget (n : Z)
  | ORestart
  | OCrash (after : world → world).

Inductive reply :=
  | RDone
  | RValue (v : option Value)
  | RPairs (l : list (bytes * Value)).

(** Buffers the writes of a transaction. *)
Definition buffer_writes (writes : list (bytes * option Value)) (t : Transaction) : Transaction :=
  fold_left (λ t '(key, o), match o with
                            | Some v => txn_set_value key v t
                            | None => txn_delete_value key t
                            end) writes t.

(** Opens the directory of a store that is gone. *)
Definition reopen (close : Store → world → world) : M (Store * world) reply := λ s,
  match open_with_dir (dir s.1) (close s.1 s.2) with
  | (Ok s', w') => (Ok RDone, (s', w'))
  | (Err e, w') => (Err e, (s.1, w'))
  | (Panic, w') => (Panic, (s.1, w'))
  | (Crashed, w') => (Crashed, (s.1, w'))
  end.

Definition run_op (o : op) : M (Store * world) reply :=
  match o with
  | OSet key v => _ ← set_value key v; mret RDone
  | ODelete key => _ ← delete_value key; mret RDone
  | OGet key => v ← get_value key; mret (RValue v)
  | OScan lo hi => l ← scan_range lo hi; mret (RPairs l)
  | OCommit writes => _ ← with_txn (_ ← set_self (buffer_writes writes); txn_commit); mret RDone
  | OFlush => _ ← flush; mret RDone
  | OCompact => _ ← compact; mret RDone
  | OBudget n => _ ← set_self (set_memtable_budget n); mret RDone
  | ORestart => reopen drop_store
  | OCrash after => reopen (λ _, after)
  end.

Fixpoint run_all (ops : list op) : M (Store * world) (list reply) :=
  match ops with
  | [] => mret []
  | o :: ops => r ← run_op o; rs ← run_all ops; mret (r :: rs)
  end.

(** ** The map *)

Definition put_write (m : gmap bytes Value) (kv : bytes * option Value) : gmap bytes Value :=
  match kv.2 with Some v => <[kv.1 := v]> m | None => delete kv.1 m end.

Definition map_op (o : op) (m : gmap bytes Value) : reply * gmap bytes Value :=
  match o with
  | OSet key v => (RDone, <[key := v]> m)
  | ODelete key => (RDone, delete key m)
  | OGet key => (RValue (m !! key), m)
  | OScan lo hi => (RPairs (bt_iter (within lo hi m)), m)
  | OCommit writes => (RDone, fold_left put_write writes m)
  | OFlush | OCompact | OBudget _ | ORestart | OCrash _ => (RDone, m)
  end.

Fixpoint map_all (ops : list op) (m : gmap bytes Value) : list reply * gmap bytes Value :=
  match ops with
  | [] => ([], m)
  | o :: ops => let '(r, m) := map_op o m in let '(rs, m) := map_all ops m in (r :: rs, m)
  end.

(** ** What an operation may take *)

(** The records an operation logs when the sequence number is that of [s]. *)
Definition op_records (o : op) (s : Store) : list WalEntry :=
  let n := to_u64 (rval (sequence s) + 1) in
  match o with
  | OSet key v => [create_put_entry key v n; commit_entry n]
  | ODelete key => [create_delete_entry key n; commit_entry n]
  | OCommit writes => txn_records s (bt_iter (pending (buffer_writes writes (begin_transaction s))))
  | _ => []
  end.

Definition op_keys (o : op) : nat :=
  match o with OSet _ _ | ODelete _ => 1 | OCommit writes => length writes | _ => 0 end.

(** Entries fit a block, ranges are not inverted, crashes are crashes of a
    healthy disk, and the records take at most [B] bytes. *)
Definition good_op (B : nat) (o : op) : Prop :=
  match o with
  | OSet key v => small_entry key (EValue v)
  | ODelete key => small_entry key Tombstone
  | OScan lo hi => bad_range lo hi = false
  | OCommit writes => Forall (λ kv, small_entry kv.1 (pending_entry kv.2)) writes
  | OCrash after => ∀ w, w_faults w = [] → crash_world w (after w) ∧ w_faults (after w) = []
  | _ => True
  end ∧ ∀ s, (length (frames (op_records o s)) <= B)%nat.

(** Keys and ids a sequence of operations may use. *)
Definition cost (ops : list op) : nat := sum_list_with (λ o, S (op_keys o)) ops.
End trace.

Section proofs.
Context {Prof : Profile} {Cd : Codec} {CdOk : CodecOk Cd} {RDir : ReadDir} {RDirOk : ReadDirOk RDir}.
Implicit Types (w : world) (ts : tabs) (d : path) (log new : list WalEntry) (s : Store * world) (Q : Z) (N L B n : nat) (writes : list (bytes * option Value)) (k : bytes) (o : option Value).

(** ** The invariant of a run

    The store agrees with its files, and there is room for [N] more keys and ids
    and [L] more bytes of log; [Q] bounds the sequence numbers given out. *)
Record ready s ts log Q N L : Prop := {
  rd_inv : store_inv s ts log;
  rd_quiet : w_faults s.2 = [];
  rd_keys : Z.of_nat (size (data s.1 ∪ tables_map ts)) + Z.of_nat N < 2 ^ 31;
  rd_ids : Z.max 1 (next_sstable_id s.1) + 2 * Z.of_nat N + 2 < 2 ^ 64;
  rd_seq : rval (sequence s.1) <= Q;
  rd_bound : Q + Z.of_nat N < 2 ^ 64;
  rd_below : seqs_below Q log;
  rd_log : Z.of_nat (length (frames log)) + Z.of_nat L < 2 ^ 63;
}.

Lemma seqs_below_mono Q Q' log : Q <= Q' → seqs_below Q log → seqs_below Q' log.
Proof. intros HQ H. eapply list.Forall_impl; [exact H|]. cbn. lia. Qed.

(** After an operation that used [n] keys and logged [new]. *)
Lemma ready_grows s ts log Q N L B n new s' ts' log' :
  ready s ts log Q (S n + N) (B + L) → store_inv s' ts' log' → w_faults s'.2 = [] →
  grows (Z.of_nat n) new s ts log s' ts' log' →
  seqs_below (Q + Z.of_nat n) new → (length (frames new) <= B)%nat → ready s' ts' log' (Q + Z.of_nat n) N L.
Proof.
  intros [] Hs Hf [] Hnew HB. split; try done; try lia.
  - destruct gr_log as [->|[->| ->]].
    + apply list.Forall_app. split; [|done]. eapply seqs_below_mono; [|done]. lia.
    + eapply seqs_below_mono; [|done]. lia.
    + constructor.
  - destruct gr_log as [->|[->| ->]]; [rewrite frames_app, length_app; lia|lia|cbn; lia].
Qed.

Lemma ready_room s ts log Q N L n m :
  ready s ts log Q (S n + N) L → 0 <= m <= Z.of_nat n → room s.1 ts m.
Proof. intros [] Hm. split; lia. Qed.

Lemma ready_log_room s ts log Q N L B new :
  ready s ts log Q N (B + L) → (length (frames new) <= B)%nat → log_room log new.
Proof. intros [] HB. unfold log_room. lia. Qed.

(** Reads change nothing but the block caches. *)
Lemma store_inv_same s s' ts log :
  store_inv s ts log → mem_inv s'.1 s'.2 ts → same_store s.1 s'.1 → calm s.2 s'.2 → store_inv s' ts log.
Proof.
  intros [] Hi [sts E] Hc. rewrite E in *. split; rewrite ?E; try done.
  - unfold log_at. rewrite E. by eapply wal_rep_calm.
  - eapply tidy_calm; [exact Hc|done].
  - by rewrite (proj1 Hc).
Qed.

Lemma same_grows s s' ts log : same_store s.1 s'.1 → grows 0 [] s ts log s' ts log.
Proof. intros [sts E]. split; rewrite ?E; cbn; try done; try lia. by right; left. Qed.

(** ** Opening again *)

Lemma reopen_ok s ts log Q w :
  store_inv s ts log → rval (sequence s.1) <= Q → 0 <= Q → seqs_below Q log →
  dir_ok w (dir s.1) ts → wal_at w (wal_path (dir s.1)) (File (frames log) (frames log)) →
  w_faults w = [] → ¬ (lock_path (dir s.1) ∈ w_locks w) →
  ∃ (s1 : Store) w1, open_with_dir (dir s.1) w = (Ok s1, w1) ∧ store_inv (s1, w1) ts log ∧ w_faults w1 = [] ∧
    contents s1 ts = contents s.1 ts ∧ data s1 = data s.1 ∧ dir s1 = dir s.1 ∧
    next_sstable_id s1 <= Z.max 1 (next_sstable_id s.1) ∧ rval (sequence s1) <= Q.
Proof.
  intros Hs Hq HQ Hb Hk Hw Hf Hl. assert (Hlog := store_inv_log_ok _ _ _ Hs). assert (Hcl := si_closed _ _ _ Hs).
  pose proof (wp_open_with_dir (dir s.1) ts _ log w Hk Hw Hlog) as Hopen. unfold wp in Hopen.
  destruct (open_with_dir (dir s.1) w) as [r w1]. cbn [fst snd] in Hopen. destruct Hopen as (Hk' & _ & Hf' & Hr).
  destruct r as [s1|e| |]; [|by destruct Hr as (_ & [?|?])|done..].
  destruct Hr as (_ & _ & ts0 & log0 & f & [->|[_ ?]] & [[-> ->]|(_ & _ & ?)] & Ho); [|done..].
  destruct (opened_inv (dir s.1) ts _ log s1 w1 Hlog) as [Hs1 Hc1]; [apply Hk'|apply Hk'|done|]. rewrite Hcl in Hs1.
  destruct Ho as (_ & Hd & Hdata & _ & _ & _ & Hnext & Hseq). cbn [fst] in *. rewrite Hcl in *.
  exists s1, w1. split_and!; [done|done|auto| | |done| |by apply Hseq].
  - rewrite Hc1. by eapply store_inv_recovered.
  - by rewrite Hdata, (si_data _ _ _ Hs).
  - assert (Hi := si_mem _ _ _ Hs). pose proof (mi_next _ _ _ Hi).
    assert (Hids := mi_ids _ _ _ Hi). rewrite list.Forall_forall in Hids.
    destruct Hnext as [->|Hin]; [lia|]. specialize (Hids _ Hin). lia.
Qed.

(** [close] leaves the files of the table as they are, or as a crash leaves them. *)
Lemma run_reopen s ts log Q N L B close :
  ready s ts log Q (1 + N) (B + L) →
  (w_nodes (close s.1 s.2) = w_nodes s.2 ∧ w_locks (close s.1 s.2) = w_locks s.2 ∖ {[lock_path (dir s.1)]} ∨
   crash_world s.2 (close s.1 s.2)) → w_faults (close s.1 s.2) = [] →
  ∃ s' ts' log' Q', reopen close s = (Ok RDone, s') ∧ ready s' ts' log' Q' N L ∧
    contents s'.1 ts' = contents s.1 ts ∧ dir s'.1 = dir s.1.
Proof.
  intros [] Hclose Hf. set (w := close s.1 s.2) in *. pose proof (ranged_range (sequence s.1)).
  assert (Hw : dir_ok w (dir s.1) ts ∧ wal_at w (wal_path (dir s.1)) (File (frames log) (frames log)) ∧
    ¬ (lock_path (dir s.1) ∈ w_locks w)).
  { destruct Hclose as [[En El]|Hcrash].
    - split_and!; [by eapply dir_ok_nodes, store_inv_dir_ok|eapply wal_at_nodes; [done|apply (si_log _ _ _ rd_inv0)]|].
      rewrite El. set_solver.
    - destruct (recovers_crash s ts log s.2 w) as [? ?]; [done..|]. split_and!; [done..|].
      rewrite (crash_locks _ _ Hcrash). apply not_elem_of_empty. }
  destruct Hw as (Hk & Hwal & Hl).
  destruct (reopen_ok s ts log Q w) as (s1 & w1 & E & Hs1 & Hf1 & Hc1 & Hd1 & Hdir & Hn1 & Hq1); [done..|lia|done|done|done|done|done|].
  exists (s1, w1), ts, log, Q. split_and!; [|split|done|done]; cbn [fst snd]; try done; try lia.
  - unfold reopen. fold w. by rewrite E.
  - rewrite Hd1. lia.
Qed.

(** ** One operation *)

Definition runs (x : op) s ts N L : Prop :=
  ∃ s' ts' log' Q', run_op x s = (Ok (map_op x (contents s.1 ts)).1, s') ∧ ready s' ts' log' Q' N L ∧
    contents s'.1 ts' = (map_op x (contents s.1 ts)).2 ∧ dir s'.1 = dir s.1.

Lemma run_write s ts log Q N L B key e (we : u64 → WalEntry) (msg : string) :
  ready s ts log Q (2 + N) (B + L) → small_entry key e → logs (one_records we s) [(key, e)] →
  (length (frames (one_records we s)) <= B)%nat → (∀ i : u64, we_sequence (we i) = i) →
  ∃ s' ts' log' Q', write_one key e we msg s = (Ok msg, s') ∧ ready s' ts' log' Q' N L ∧
    contents s'.1 ts' = write_entry key e (contents s.1 ts) ∧ dir s'.1 = dir s.1.
Proof.
  intros Hr He Hl HB Hwe.
  destruct (write_one_grows s ts log key e we msg) as (s' & ts' & log' & E & Hs' & Hf' & Hc' & Hg); [apply Hr|apply Hr|done| |done| |].
  { eapply (ready_room s ts log Q N _ 1); [exact Hr|lia]. } { by eapply ready_log_room. }
  exists s', ts', log', (Q + Z.of_nat 1). split_and!; [done| |done|apply Hg].
  eapply (ready_grows s ts log Q N L B 1); [exact Hr|done|done|exact Hg| |done]. destruct Hr.
  assert (Hn : rval (to_u64 (rval (sequence s.1) + 1)) <= Q + Z.of_nat 1).
  { rewrite to_u64_small; pose proof (ranged_range (sequence s.1)); lia. }
  repeat constructor; cbn [we_sequence commit_entry]; rewrite ?Hwe; done.
Qed.

(** What is buffered: the writes one after the other. *)
Lemma buffer_store writes (t : Transaction) : store (buffer_writes writes t) = store t.
Proof. unfold buffer_writes. revert t. induction writes as [|[k [v|]] writes IH]; intros t; [done|..]; cbn [fold_left]; by rewrite IH. Qed.

Lemma buffer_cons k (o : option Value) writes (t : Transaction) :
  buffer_writes ((k, o) :: writes) t =
  buffer_writes writes {| store := store t; pending := <[k := o]> (pending t) |}.
Proof. by destruct o. Qed.

Lemma buffer_overlay writes (t : Transaction) (m : gmap bytes Value) :
  overlay (pending (buffer_writes writes t)) m = fold_left put_write writes (overlay (pending t) m).
Proof.
  revert t. induction writes as [|[k o] writes IH]; intros t; [done|]. rewrite buffer_cons, IH. cbn [fold_left pending].
  by rewrite overlay_insert.
Qed.

Lemma buffer_small writes (t : Transaction) :
  Forall (λ kv, small_entry kv.1 (pending_entry kv.2)) writes →
  map_Forall (λ k o, small_entry k (pending_entry o)) (pending t) →
  map_Forall (λ k o, small_entry k (pending_entry o)) (pending (buffer_writes writes t)).
Proof.
  intros Hw. revert t. induction Hw as [|[k o] writes Hk _ IH]; intros t Ht; [done|]. rewrite buffer_cons.
  apply IH. cbn. by apply map_Forall_insert_2.
Qed.

Lemma buffer_size writes (t : Transaction) :
  (size (pending (buffer_writes writes t)) <= size (pending t) + length writes)%nat.
Proof.
  revert t. induction writes as [|[k o] writes IH]; intros t; [cbn; lia|]. rewrite buffer_cons.
  specialize (IH {| store := store t; pending := <[k := o]> (pending t) |}). cbn [pending length] in *.
  rewrite map_size_insert in IH. destruct (pending t !! k); cbn in *; lia.
Qed.

Lemma pending_small (p : gmap bytes (option Value)) :
  map_Forall (λ k o, small_entry k (pending_entry o)) p → Forall (λ ke, small_entry ke.1 ke.2) (pending_entries p).
Proof.
  intros H. unfold pending_entries. apply list.Forall_fmap, list.Forall_forall. intros [k o] Hin%elem_of_bt_iter.
  by apply (H k o).
Qed.

Lemma txn_log_below Q (l : list (bytes * option Value)) z :
  0 <= z → z <= Q → Q + Z.of_nat (length l) < 2 ^ 64 → seqs_below (Q + Z.of_nat (length l)) (txn_log z l).
Proof.
  revert Q z. induction l as [|[k o] l IH]; intros Q z Hz HQ Hlt; [constructor|]. cbn [txn_log length] in *.
  constructor.
  - assert (E : rval (to_u64 (z + 1)) = z + 1) by (rewrite to_u64_small; lia). destruct o; cbn [we_sequence create_put_entry create_delete_entry]; rewrite E; lia.
  - eapply seqs_below_mono; [|apply (IH (Q + 1) (z + 1)); lia]. lia.
Qed.

Lemma run_commit s ts log Q N L B writes :
  ready s ts log Q (S (length writes) + N) (B + L) → good_op B (OCommit writes) → runs (OCommit writes) s ts N L.
Proof.
  intros Hr [Hsmall HB]. specialize (HB s.1). cbn [op_records] in HB.
  set (t := buffer_writes writes (begin_transaction s.1)) in *.
  assert (Hst : store t = s.1) by (unfold t; by rewrite buffer_store).
  assert (Hsz := buffer_size writes (begin_transaction s.1)). fold t in Hsz. cbn [begin_transaction pending] in Hsz.
  rewrite map_size_empty in Hsz. cbn [Nat.add] in Hsz.
  assert (Hcm : committable (t, s.2) ts log).
  { split; cbn [fst]; rewrite ?Hst.
    - unfold st. cbn [fst snd]. rewrite Hst, <-surjective_pairing. apply Hr.
    - apply pending_small, buffer_small; [done|]. apply map_Forall_empty.
    - eapply (ready_room s ts log Q N _ (length writes)); [exact Hr|lia].
    - by eapply ready_log_room. }
  destruct (txn_commit_grows (t, s.2) ts log Hcm) as (t' & ts' & log' & E & Hs' & Hf' & Hc' & Hg); [apply Hr|].
  cbn [fst] in Hc', Hg. unfold st in Hg. cbn [fst snd] in Hg. rewrite Hst in *. rewrite <-surjective_pairing in Hg.
  exists (store t'.1, t'.2), ts', log', (Q + Z.of_nat (length writes)). split_and!.
  - cbn [run_op]. erewrite bind_ok; [done|]. unfold with_txn. erewrite bind_ok by done. cbn [fst snd].
    fold t. rewrite E. by destruct t'.
  - eapply ready_grows; [exact Hr|exact Hs'|exact Hf'| | |exact HB].
    + destruct Hg. split; try done; cbn [fst] in *; lia.
    + unfold txn_records. pose proof (ranged_range (sequence s.1)). destruct Hr.
      apply list.Forall_app. split.
      * eapply seqs_below_mono; [|apply (txn_log_below Q); [lia|done|]]; rewrite length_bt_iter; lia.
      * repeat constructor. cbn [we_sequence commit_entry]. rewrite length_bt_iter, to_u64_small; lia.
  - cbn [fst map_op snd]. rewrite Hc'. unfold t. rewrite buffer_overlay. cbn [begin_transaction pending].
    by rewrite overlay_empty.
  - apply Hg.
Qed.

Lemma run_flush s ts log Q N L B : ready s ts log Q (1 + N) (B + L) → runs OFlush s ts N L.
Proof.
  intros Hr. destruct (store_flush_ok s ts log) as (s' & E & Hf' & Hend); [apply Hr|apply Hr|by eapply (ready_room _ _ _ _ _ _ 0)|].
  assert (H : ∃ ts' log', store_inv s' ts' log' ∧ contents s'.1 ts' = contents s.1 ts ∧ grows 0 [] s ts log s' ts' log').
  { destruct Hend as [[_ ->]|(_ & Hs' & _ & Hc & Hg)]; [exists ts, log|by eexists _, _].
    split_and!; [apply Hr|done|apply grows_refl]. }
  destruct H as (ts' & log' & Hs' & Hc & Hg). exists s', ts', log', (Q + Z.of_nat 0).
  split_and!; [cbn [run_op]; by erewrite bind_ok by done| |done|apply Hg].
  eapply (ready_grows s ts log Q N L B 0 []); [done..|constructor|cbn; lia].
Qed.

Lemma run_compact s ts log Q N L B : ready s ts log Q (1 + N) (B + L) → runs OCompact s ts N L.
Proof.
  intros Hr. destruct (store_compact_ok s ts log) as (s' & E & Hs' & Hc & Hf' & Hg);
    [apply Hr|apply Hr|by eapply (ready_room _ _ _ _ _ _ 0)|].
  eexists s', _, log, (Q + Z.of_nat 0).
  split_and!; [cbn [run_op]; by erewrite bind_ok by done| |exact Hc|apply Hg].
  eapply (ready_grows s ts log Q N L B 0 []); [done|exact Hs'|done|exact Hg|constructor|cbn; lia].
Qed.

Lemma run_budget b s ts log Q N L B : ready s ts log Q (1 + N) (B + L) → runs (OBudget b) s ts N L.
Proof.
  intros Hr. exists (set_memtable_budget b s.1, s.2), ts, log, Q.
  split_and!; [done| |done|done]. destruct Hr as [[Hi]].
  split; cbn; try done; try lia. split; try done. cbn. destruct Hi. by split.
Qed.

Lemma run_ok (x : op) s ts log Q N L B :
  ready s ts log Q (S (op_keys x) + N) (B + L) → good_op B x → runs x s ts N L.
Proof.
  intros Hr Hgood. assert (Hgood' := Hgood). destruct Hgood' as [Hg HB]. specialize (HB s.1).
  destruct x as [key v|key|key|lo hi|writes| | |b| |after]; unfold runs; cbn [run_op map_op fst snd op_keys op_records] in *.
  - destruct (run_write s ts log Q N L B key (EValue v) (create_put_entry key v) "Inserted value")
      as (s' & ts' & log' & Q' & E & H); [done|done|by apply put_records|done|done|].
    exists s', ts', log', Q'. split; [|done]. rewrite set_value_eq. by erewrite bind_ok by done.
  - destruct (run_write s ts log Q N L B key Tombstone (create_delete_entry key) "Deleted value")
      as (s' & ts' & log' & Q' & E & H); [done|done|by apply delete_records|done|done|].
    exists s', ts', log', Q'. split; [|done]. rewrite delete_value_eq. by erewrite bind_ok by done.
  - destruct (effect_quiet _ _ _ _ _ (effect_get_value s ts key (si_mem _ _ _ (rd_inv _ _ _ _ _ _ Hr))) (rd_quiet _ _ _ _ _ _ Hr))
      as (v & s' & E & Ht & -> & Hi & Hss). apply touches_calm in Ht. assert (Hss' := same_grows s s' ts log Hss).
    exists s', ts, log, (Q + Z.of_nat 0). split_and!; [by erewrite bind_ok by done| |by apply contents_same|apply Hss'].
    eapply (ready_grows s ts log Q N L B 0 []); [done| |by apply Ht, Hr|done|constructor|cbn; lia].
    eapply store_inv_same; [apply Hr|done..].
  - destruct (effect_quiet _ _ _ _ _ (effect_scan_range s ts lo hi (si_mem _ _ _ (rd_inv _ _ _ _ _ _ Hr)) (or_intror Hg))
      (rd_quiet _ _ _ _ _ _ Hr)) as (l & s' & E & Ht & -> & Es & Hi).
    apply touches_calm in Ht.
    assert (Hss : same_store s.1 s'.1) by (rewrite Es; reflexivity).
    assert (Hss' := same_grows s s' ts log Hss).
    exists s', ts, log, (Q + Z.of_nat 0). split_and!; [by erewrite bind_ok by done| |by apply contents_same|apply Hss'].
    eapply (ready_grows s ts log Q N L B 0 []); [done| |by apply Ht, Hr|done|constructor|cbn; lia].
    eapply store_inv_same; [apply Hr|done..].
  - by eapply run_commit.
  - by eapply run_flush.
  - by eapply run_compact.
  - by eapply run_budget.
  - eapply run_reopen; [exact Hr|left|]; unfold drop_store; rewrite (si_lock _ _ _ (rd_inv _ _ _ _ _ _ Hr)); [done|apply Hr].
  - destruct (Hg s.2) as [? ?]; [apply Hr|]. eapply run_reopen; [exact Hr|by right|done].
Qed.

Lemma run_all_ok ops B s ts log Q N L :
  ready s ts log Q (cost ops + N) (length ops * B + L) → Forall (good_op B) ops →
  ∃ s' ts' log' Q', run_all ops s = (Ok (map_all ops (contents s.1 ts)).1, s') ∧ ready s' ts' log' Q' N L ∧
    contents s'.1 ts' = (map_all ops (contents s.1 ts)).2 ∧ dir s'.1 = dir s.1.
Proof.
  revert s ts log Q. induction ops as [|x ops IH]; intros s ts log Q Hr Hg; cbn [run_all map_all length] in *.
  { by exists s, ts, log, Q. }
  apply list.Forall_cons in Hg as [Hx Hg].
  destruct (run_ok x s ts log Q (cost ops + N) (length ops * B + L) B) as (s1 & ts1 & log1 & Q1 & E1 & Hr1 & Hc1 & Hd1); [|done|].
  { replace (S (op_keys x) + (cost ops + N))%nat with (cost (x :: ops) + N)%nat by (unfold cost; cbn; lia).
    replace (B + (length ops * B + L))%nat with (S (length ops) * B + L)%nat by lia. exact Hr. }
  destruct (IH s1 ts1 log1 Q1 Hr1 Hg) as (s2 & ts2 & log2 & Q2 & E2 & Hr2 & Hc2 & Hd2).
  exists s2, ts2, log2, Q2. rewrite Hc1 in E2, Hc2. destruct (map_op x _) as [r m]. cbn [fst snd] in *.
  destruct (map_all ops m) as [rs m']. cbn [fst snd] in *. split_and!; [|done|done|congruence].
  erewrite bind_ok by done. by erewrite bind_ok by done.
Qed.

(** A store opened in an empty directory. *)
Lemma fresh_open w d :
  d ≠ [] → (∀ q, q ∈ prefixes d → w_nodes w !! q = None ∨ w_nodes w !! q = Some Dir) →
  (∀ x, w_nodes w !! join d x = None) → w_faults w = [] → ¬ (lock_path d ∈ w_locks w) →
  ∃ (s : Store) w', open_with_dir d w = (Ok s, w') ∧ store_inv (s, w') [] [] ∧ w_faults w' = [] ∧
    data s = ∅ ∧ dir s = d ∧ next_sstable_id s = 1 ∧ rval (sequence s) <= 0.
Proof.
  intros Hd Hp Hn Hf Hl. destruct (fresh_dir w d Hd Hp Hn) as (Hk & Hw & Hlog).
  pose proof (wp_open_with_dir d [] [] [] w Hk Hw Hlog) as Hopen. unfold wp in Hopen.
  destruct (open_with_dir d w) as [r w']. cbn [fst snd] in Hopen. destruct Hopen as (Hk' & _ & Hf' & Hr).
  destruct r as [s|e| |]; [|by destruct Hr as (_ & [?|?])|done..].
  destruct Hr as (_ & _ & ts0 & log0 & f & [->|[_ ?]] & [[-> ->]|(_ & _ & ?)] & Ho); [|done..].
  destruct (opened_inv d [] [] [] s w' Hlog) as [Hs _]; [apply Hk'|apply Hk'|done|].
  destruct Ho as (_ & Hdir & Hdata & _ & _ & _ & Hnext & Hseq).
  exists s, w'. split_and!; [done|done|auto|done|done| |].
  - destruct Hnext as [?|Hin]; [done|]. by apply list.not_elem_of_nil in Hin.
  - by apply Hseq; [|constructor].
Qed.

(** C24: a table is a map.  From a fresh directory on a healthy disk, any sequence
    of puts, deletes, gets, scans, transactions, flushes, compactions, changes of
    the memtable budget, restarts and crashes between two operations succeeds and
    gives exactly the replies of a map from keys to values, whether or not writes
    flush and compact on the way; and the directory then recovers to exactly that
    map.  (The entries fit a block, scans have ordered bounds, the sequence uses
    fewer than 2^30 keys and operations, and its log records fewer than 2^62
    bytes.) *)
Theorem store_refines_map d w ops B :
  d ≠ [] → (∀ q, q ∈ prefixes d → w_nodes w !! q = None ∨ w_nodes w !! q = Some Dir) →
  (∀ x, w_nodes w !! join d x = None) → w_faults w = [] → ¬ (lock_path d ∈ w_locks w) →
  Forall (good_op B) ops → Z.of_nat (cost ops) < 2 ^ 30 → Z.of_nat (length ops * B) < 2 ^ 62 →
  ∃ (s : Store) w' s', open_with_dir d w = (Ok s, w') ∧
    run_all ops (s, w') = (Ok (map_all ops ∅).1, s') ∧ recovers s'.2 d (map_all ops ∅).2.
Proof.
  intros Hd Hp Hn Hf Hl Hg Hcost Hbytes.
  destruct (fresh_open w d Hd Hp Hn Hf Hl) as (s & w' & E & Hs & Hf' & Hdata & Hdir & Hnext & Hseq).
  assert (Hr : ready (s, w') [] [] 0 (cost ops + 0) (length ops * B + 0)).
  { split; cbn [fst snd]; rewrite ?Hdata, ?Hnext; try done; try lia.
    - cbn. rewrite map_union_empty, map_size_empty. lia.
    - constructor.
    - cbn. lia. }
  destruct (run_all_ok ops B (s, w') [] [] 0 0 0 Hr Hg) as (s' & ts' & log' & Q' & E' & Hr' & Hc' & Hd').
  assert (Hm : contents (s, w').1 [] = ∅).
  { unfold contents. cbn [fst]. rewrite Hdata. cbn. by rewrite map_union_empty. }
  rewrite Hm in *. exists s, w', s'. split_and!; [done|done|]. rewrite <-Hc', <-Hdir.
  change (dir s) with (dir (s, w').1). rewrite <-Hd'. eapply store_inv_recovers. apply Hr'.
Qed.
End proofs.

(** ** A concrete sequence

    With a budget of one byte every write flushes, so the ninth table is merged
    away; then a batch, both kinds of crash and a restart. *)

Definition sample_ops : list op :=
  OBudget 1 :: concat (replicate 5 [OSet key1 val1; ODelete key2]) ++
  [OCrash forget; OCommit [(key2, Some val1); (key1, None); (key2, Some val2)]; OGet key2; OGet key1;
   OSet key1 val2; OCrash settle; OScan (Included key1) (Excluded key2); OFlush; OCompact; ORestart;
   OScan Unbounded Unbounded].

Lemma sample_good : Forall (good_op 200) sample_ops.
Proof.
  assert (Hset : ∀ key v, length key = 2%nat → v = val1 ∨ v = val2 → good_op 200 (OSet key v)).
  { intros key v Hk Hv. split; [by apply demo_small_put|]. intros s. apply Nat.leb_le.
    destruct key as [|b1 [|b2 [|]]]; [done..| |done]. destruct Hv as [-> | ->]; vm_compute; reflexivity. }
  assert (Hdel : ∀ key, length key = 2%nat → good_op 200 (ODelete key)).
  { intros key Hk. split; [by apply demo_small_delete|]. intros s. apply Nat.leb_le.
    destruct key as [|b1 [|b2 [|]]]; [done..| |done]. vm_compute. reflexivity. }
  assert (Hcommit : good_op 200 (OCommit [(key2, Some val1); (key1, None); (key2, Some val2)])).
  { split.
    - repeat (constructor; [first [apply demo_small_delete; done|apply demo_small_put; [done|auto]]|]). constructor.
    - intros s. apply Nat.leb_le. vm_compute. reflexivity. }
  assert (Hforget : good_op 200 (OCrash forget)) by (split; [split; [apply forget_crash|done]|cbn; lia]).
  assert (Hsettle : good_op 200 (OCrash settle)) by (split; [split; [apply settle_crash|done]|cbn; lia]).
  assert (Hplain : ∀ x, x = OBudget 1 ∨ x = OFlush ∨ x = OCompact ∨ x = ORestart ∨ x = OGet key1 ∨ x = OGet key2 →
    good_op 200 x).
  { intros x Hx. destruct Hx as [->|[->|[->|[->|[->| ->]]]]]; (split; [done|cbn; lia]). }
  assert (Hscan : ∀ lo hi, bad_range lo hi = false → good_op 200 (OScan lo hi)).
  { intros lo hi Hb. split; [done|cbn; lia]. }
  clear -Hset Hdel Hcommit Hforget Hsettle Hplain Hscan.
  apply list.Forall_cons. split; [apply Hplain; by left|].
  apply list.Forall_app. split; [apply List.Forall_concat, list.Forall_replicate; apply list.Forall_cons; split; [apply Hset; [done|by left]|apply list.Forall_cons; by auto]|].
  apply list.Forall_cons. split; [exact Hforget|]. apply list.Forall_cons. split; [exact Hcommit|].
  do 2 (apply list.Forall_cons; split; [apply Hplain; auto 10|]).
  apply list.Forall_cons. split; [apply Hset; [done|by right]|]. apply list.Forall_cons. split; [exact Hsettle|].
  apply list.Forall_cons. split; [by apply Hscan|].
  do 3 (apply list.Forall_cons; split; [apply Hplain; auto 10|]).
  apply list.Forall_cons. split; [by apply Hscan|]. by apply list.Forall_nil.
Qed.

Lemma store_refines_witness :
  (map_all sample_ops ∅).1 =
    replicate 13 RDone ++ [RValue (Some val2); RValue None; RDone; RDone; RPairs [(key1, val2)]; RDone; RDone; RDone;
      RPairs [(key1, val2); (key2, val2)]] ∧
  ∃ (s : Store) w' s', open_with_dir demo_dir empty_world = (Ok s, w') ∧
    run_all sample_ops (s, w') = (Ok (map_all sample_ops ∅).1, s') ∧ recovers s'.2 demo_dir (map_all sample_ops ∅).2.
Proof.
  split; [vm_compute; reflexivity|].
  apply (store_refines_map demo_dir empty_world sample_ops 200); [done| |done|done| |apply sample_good| |].
  - intros q _. by left.
  - apply not_elem_of_empty.
  - vm_compute. reflexivity.
  - vm_compute. reflexivity.
Defined.
