(* ===== verification/Findings.v ===== *)
(** * Where the code falls short of its intent

    Executions of the model, each of them a run of the code, that lose data,
    bring deleted data back or make a table unusable.  The theorems of
    [StoreProps] and [FormatProps] exclude exactly these cases by their
    hypotheses or list them as outcomes (the torn table of [flush_crash_safe],
    fewer than eight tables, no fault before the next commit, a fault that hides
    the log in [read_for_recovery_spec]). *)

From S2P Require Import Prelude Machine Value Checksum Bloom BlockCache Fs Wal SsTable Record Layout Image BTree Store Demo Instances.

(** Runs [m] on an open store, the faults [fs] striking it; what is left when the
    process then dies. *)
Definition strike {A} (fs : list fault) (m : M (Store * world) A) (s : Store * world) : outcome A * (Store * world) :=
  m (s.1, set_faults fs s.2).

Definition calls (n : nat) : list fault := replicate n NoFault.

Definition reopened (d : path) (w : world) : outcome Store * world := open_with_dir d (settle w).

Definition read_after (d : path) (w : world) (key : bytes) : outcome (option Value) :=
  match reopened d w with
  | (Ok s, w) => (get_value key (s, w)).1
  | _ => Panic
  end.

(** A flush that dies while it writes the table leaves a file that is too short;
    from then on the table cannot be opened, although the log still has every
    record. *)
Definition torn_flush : Store * world := (strike (calls 2 ++ [CrashAt 5]) flush demo).2.

Example torn_table_blocks_open :
  crash_world torn_flush.2 (settle torn_flush.2) ∧
  (reopened demo_dir torn_flush.2).1 = Err (DecodeError "SSTable smaller than footer").
Proof. split; [apply settle_crash|]. vm_compute. reflexivity. Qed.

(** A compaction drops the tombstones and then removes the old tables from the
    newest to the oldest: a crash in between brings a deleted key back. *)
Definition deleted_store : Store * world :=
  match open_with_dir demo_dir empty_world with
  | (Ok s, w) => ((_ ← set_value key1 val1; _ ← flush; _ ← delete_value key1; flush) (s, w)).2
  | (_, w) => (fresh_store demo_dir {| file_path := []; wal_file := None |}, w)
  end.

Definition half_compacted : Store * world := (strike (calls 7 ++ [CrashAt 0]) compact deleted_store).2.

Example compaction_resurrects :
  (get_value key1 deleted_store).1 = Ok None ∧
  crash_world half_compacted.2 (settle half_compacted.2) ∧
  read_after demo_dir half_compacted.2 key1 = Ok (Some val1).
Proof. split_and!; [vm_compute; reflexivity|apply settle_crash|vm_compute; reflexivity]. Qed.

(** The records of a put whose commit failed stay in the log; the next commit
    adopts them, and after a restart the failed put has happened. *)
Definition after_failed_put : Store * world :=
  let s := (strike (calls 1 ++ [IoFault "No space left on device (os error 28)" 0]) (set_value key1 val2) demo).2 in
  (strike [] (set_value key2 val1) s).2.

Example failed_put_adopted :
  (strike (calls 1 ++ [IoFault "No space left on device (os error 28)" 0]) (set_value key1 val2) demo).1 =
    io_err "No space left on device (os error 28)" ∧
  (get_value key1 after_failed_put).1 = Ok (Some val1) ∧
  read_after demo_dir after_failed_put.2 key1 = Ok (Some val2).
Proof. split_and!; vm_compute; reflexivity. Qed.

(** An append that stores part of its frame and fails: the next records land
    behind the partial frame, and a restart misreads a write that succeeded. *)
Definition after_partial_frame : Store * world :=
  let s := (strike [IoFault "No space left on device (os error 28)" 12] (set_value key1 val2) demo).2 in
  (strike [] (set_value key1 val2) s).2.

Example partial_frame_loses_write :
  (get_value key1 after_partial_frame).1 = Ok (Some val2) ∧
  read_after demo_dir after_partial_frame.2 key1 = Ok (Some val1).
Proof. split_and!; vm_compute; reflexivity. Qed.

(** [load_sstables] takes a directory it cannot read for an empty one: the table
    opens without its data, and the next flush overwrites the first table. *)
Definition blind_open : outcome Store * world :=
  open_with_dir demo_dir (set_faults (calls 4 ++ [IoFault "Too many open files (os error 24)" 0]) (settle demo.2)).

Definition after_blind_flush : Store * world :=
  match blind_open with
  | (Ok s, w) => (flush (s, w)).2
  | (_, w) => (fresh_store demo_dir {| file_path := []; wal_file := None |}, w)
  end.

Example unreadable_directory_loses_data :
  read_after demo_dir demo.2 key1 = Ok (Some val1) ∧
  (∃ s, blind_open.1 = Ok s) ∧
  read_after demo_dir after_blind_flush.2 key1 = Ok None.
Proof. split_and!; [vm_compute; reflexivity| |vm_compute; reflexivity]. vm_compute. by eexists. Qed.

(** [read_file] asks [exists] for the log, which reports an I/O error as absence:
    the table opens without the committed writes of the log, and the next flush
    clears the log that still holds them. *)
Definition hidden_log_open : outcome Store * world :=
  open_with_dir demo_dir (set_faults (calls 14 ++ [IoFault "Input/output error (os error 5)" 0]) (settle demo.2)).

Definition after_hidden_log : Store * world :=
  match hidden_log_open with
  | (Ok s, w) => ((_ ← set_value key1 val2; flush) (s, w)).2
  | (_, w) => (fresh_store demo_dir {| file_path := []; wal_file := None |}, w)
  end.

Example hidden_log_loses_data :
  read_after demo_dir demo.2 key2 = Ok (Some val2) ∧
  (∃ s, hidden_log_open.1 = Ok s) ∧
  file_at hidden_log_open.2 (wal_path demo_dir) = Some (File (frames demo_log) (frames demo_log)) ∧
  read_after demo_dir after_hidden_log.2 key2 = Ok None.
Proof.
  split; [vm_compute; reflexivity|]. split; [vm_compute; by eexists|].
  split; vm_compute; reflexivity.
Qed.

(** [fsync] of a file does not make its directory entry durable, and the code
    never syncs a directory.  [crash_world] assumes more than POSIX promises: if
    the entry of a new table can be lost, a flush that succeeded loses what it
    moved out of the log. *)
Definition flushed_demo : Store * world := (flush demo).2.

Example unsynced_entry_loses_data :
  (flush demo).1 = Ok tt ∧
  read_after demo_dir flushed_demo.2 key2 = Ok (Some val2) ∧
  read_after demo_dir (set_nodes (delete (sst_file demo_dir 2)) flushed_demo.2) key2 = Ok None.
Proof. split_and!; vm_compute; reflexivity. Qed.

(** A length prefix of [2^64 - 1] makes the parser of the log panic: checked
    arithmetic overflows, unchecked arithmetic wraps to a slice that ends before
    it starts. *)
Example parse_buffer_panics :
  let buffer := be64 (2 ^ 64 - 1) ++ replicate 8 Byte.x00 in
  (parse_buffer (Prof := dev_profile) buffer = Panic) ∧ (parse_buffer (Prof := release_profile) buffer = Panic).
Proof. split; vm_compute; reflexivity. Qed.

(** The index region has no checksum: a filter of no bytes, read from a damaged
    file, makes every lookup in the table panic. *)
Example empty_filter_panics key : maybe_contains {| bf_bits := []; bf_k := 7 |} key = Panic.
Proof. reflexivity. Qed.
